(** * CausalTune scoring engine: a shallow embedding of [causaltune/cloud_scoring.py]

    The development follows the Python module top-down: the numeric and
    container vocabulary first (floats, ndarrays, dataframes, the
    interpreter state), then the metric catalogue, the CODEC core, the
    metric functions of [Scorer], the aggregator and the ranking function;
    the theorems come last.

    Modelling conventions.
    - A Python float is an extended rational: a finite value [Fin q], the two
      infinities, or [NaN].  Rounding is not modelled; comparisons with
      [NaN] are false, as in IEEE arithmetic.
    - An exception is a value [Raise e]; the interpreter state survives it.
    - A dataframe lives in a store and is passed by location, because the
      Python code mutates the frames it is given.
    - [np.random] is an explicit stream of draws carried by the state.
    - [logging.warning] appends to a log carried by the state. *)

From Stdlib Require Import String Ascii List ZArith QArith Bool Arith Lia
  Permutation Sorted.
Import ListNotations.
Open Scope string_scope.
Open Scope list_scope.

Set Implicit Arguments.

(* ================================================================== *)
(** * Exceptions and results *)

(** [NameError] stands for the class with its subclass
    [UnboundLocalError]: which of the two an unbound name raises depends on
    whether the interpreter gives a comprehension a scope of its own. *)
Inductive exn : Type :=
| ValueError
| TypeError
| KeyError
| IndexError
| AxisError
| AttributeError
| AssertionError
| NameError
| IndexingError
| ExternalError.

Inductive result (A : Type) : Type :=
| OK (a : A)
| Raise (e : exn).

Arguments OK {A} a.
Arguments Raise {A} e.

Definition exn_eqb (a b : exn) : bool :=
  match a, b with
  | ValueError, ValueError | TypeError, TypeError | KeyError, KeyError
  | IndexError, IndexError | AxisError, AxisError
  | AttributeError, AttributeError | AssertionError, AssertionError
  | NameError, NameError
  | IndexingError, IndexingError
  | ExternalError, ExternalError => true
  | _, _ => false
  end.

(* ================================================================== *)
(** * Floats as extended rationals *)

Inductive float : Type :=
| NInf
| Fin (q : Q)
| PInf
| NaN.

Module F.

Definition zero : float := Fin 0.
Definition one : float := Fin 1.
Definition of_nat (n : nat) : float := Fin (inject_Z (Z.of_nat n)).
Definition of_Z (z : Z) : float := Fin (inject_Z z).
Definition of_bool (b : bool) : float := if b then one else zero.

Definition isfinite (x : float) : bool :=
  match x with Fin _ => true | _ => false end.

Definition isnan (x : float) : bool :=
  match x with NaN => true | _ => false end.

Definition Qltb (p q : Q) : bool := negb (Qle_bool q p).

(** [x == y] *)
Definition eqb (x y : float) : bool :=
  match x, y with
  | Fin p, Fin q => Qeq_bool p q
  | PInf, PInf | NInf, NInf => true
  | _, _ => false
  end.

(** [x < y] *)
Definition ltb (x y : float) : bool :=
  match x, y with
  | NaN, _ | _, NaN => false
  | Fin p, Fin q => Qltb p q
  | NInf, NInf => false
  | NInf, _ => true
  | _, NInf => false
  | PInf, _ => false
  | _, PInf => true
  end.

(** [x <= y] *)
Definition leb (x y : float) : bool :=
  match x, y with
  | NaN, _ | _, NaN => false
  | Fin p, Fin q => Qle_bool p q
  | NInf, _ => true
  | _, NInf => false
  | _, PInf => true
  | PInf, _ => false
  end.

(** [x > y] *)
Definition gtb (x y : float) : bool := ltb y x.

Definition neg (x : float) : float :=
  match x with
  | NInf => PInf
  | PInf => NInf
  | Fin q => Fin (- q)
  | NaN => NaN
  end.

Definition add (x y : float) : float :=
  match x, y with
  | NaN, _ | _, NaN => NaN
  | Fin p, Fin q => Fin (p + q)
  | PInf, NInf | NInf, PInf => NaN
  | PInf, _ | _, PInf => PInf
  | NInf, _ | _, NInf => NInf
  end.

Definition sub (x y : float) : float := add x (neg y).

(** Sign of a float that is not [NaN]: [-1], [0] or [1]. *)
Definition sgn (x : float) : Z :=
  match x with
  | NInf => (-1)%Z
  | PInf => 1%Z
  | Fin q => Z.sgn (Qnum q)
  | NaN => 0%Z
  end.

Definition signed_inf (s : Z) : float :=
  if (s <? 0)%Z then NInf else PInf.

Definition mul (x y : float) : float :=
  match x, y with
  | NaN, _ | _, NaN => NaN
  | Fin p, Fin q => Fin (p * q)
  | _, _ =>
      if (sgn x * sgn y =? 0)%Z then NaN else signed_inf (sgn x * sgn y)
  end.

(** Division the way numpy does it: no exception, a zero divisor gives
    an infinity (or [NaN] for [0/0]).  Zero is unsigned here. *)
Definition div (x y : float) : float :=
  match x, y with
  | NaN, _ | _, NaN => NaN
  | Fin p, Fin q =>
      if Qeq_bool q 0
      then (if Qeq_bool p 0 then NaN else signed_inf (sgn x))
      else Fin (p / q)
  | Fin _, _ => zero
  | _, Fin q => signed_inf (sgn x * (if Qeq_bool q 0 then 1 else sgn y))
  | _, _ => NaN
  end.

Definition sum (l : list float) : float := fold_left add l zero.

(** [np.mean] / [Series.mean]: [NaN] on an empty input. *)
Definition mean (l : list float) : float :=
  match l with
  | [] => NaN
  | _ => div (sum l) (of_nat (length l))
  end.

Definition min (x y : float) : float :=
  match x, y with
  | NaN, _ | _, NaN => NaN
  | _, _ => if leb x y then x else y
  end.

Definition max (x y : float) : float :=
  match x, y with
  | NaN, _ | _, NaN => NaN
  | _, _ => if leb x y then y else x
  end.

(** [np.clip(x, lo, hi)] is [minimum(maximum(x, lo), hi)]. *)
Definition clip (x lo hi : float) : float := min (max x lo) hi.

End F.

(* ================================================================== *)
(** * Dataframes, the store and the interpreter monad *)

(** A frame is an index (row labels) and named columns of equal length. *)
Record DataFrame : Type := mkDF {
  df_index : list Z;
  df_columns : list (string * list float)
}.

Definition loc := nat.

Record world : Type := mkWorld {
  frames : list DataFrame;
  rand : nat -> nat;
  log : list string
}.

Definition M (A : Type) : Type := world -> result A * world.

Definition ret {A} (a : A) : M A := fun w => (OK a, w).
Definition raise {A} (e : exn) : M A := fun w => (Raise e, w).
Definition lift {A} (r : result A) : M A := fun w => (r, w).

Definition bind {A B} (m : M A) (k : A -> M B) : M B :=
  fun w =>
    match m w with
    | (OK a, w') => k a w'
    | (Raise e, w') => (Raise e, w')
    end.

(** The same sequencing for code that touches no state. *)
Definition rbind {A B} (r : result A) (k : A -> result B) : result B :=
  match r with
  | OK a => k a
  | Raise e => Raise e
  end.

Declare Scope py_scope.
Delimit Scope py_scope with py.
Notation "x <- m ;; k" := (bind m (fun x => k))
  (at level 61, m at next level, right associativity) : py_scope.
Notation "' pat <- m ;; k" := (bind m (fun x => match x with pat => k end))
  (at level 61, pat pattern, m at next level, right associativity) : py_scope.
Notation "m ;;; k" := (bind m (fun _ => k))
  (at level 61, right associativity) : py_scope.
Notation "'let*' x ':=' r 'in' k" := (rbind r (fun x => k))
  (at level 61, x name, r at next level, right associativity) : py_scope.
Open Scope py_scope.

(** [try: m except e: h] *)
Definition try_except {A} (m : M A) (catches : exn -> bool) (h : M A) : M A :=
  fun w =>
    match m w with
    | (Raise e, w') => if catches e then h w' else (Raise e, w')
    | r => r
    end.

(** [logging.warning(msg)] *)
Definition logging_warning (msg : string) : M unit :=
  fun w => (OK tt, mkWorld (frames w) (rand w) (log w ++ [msg])).

(** One draw of [np.random.choice(k)]: an integer in [0, k).  numpy raises
    [ValueError] when [k] is not positive. *)
Definition random_choice (k : nat) : M nat :=
  fun w =>
    match k with
    | O => (Raise ValueError, w)
    | _ => (OK (rand w 0 mod k),
            mkWorld (frames w) (fun i => rand w (S i)) (log w))
    end.

(* ================================================================== *)
(** * Python list and string helpers *)

Definition str_in (s : string) (l : list string) : bool :=
  existsb (String.eqb s) l.

Fixpoint str_dedup (l : list string) : list string :=
  match l with
  | [] => []
  | x :: r => if str_in x r then str_dedup r else x :: str_dedup r
  end.

(** A stable insertion sort, used for [sorted], [np.argsort] and the
    neighbour search. *)
Fixpoint insert_by {A} (le : A -> A -> bool) (x : A) (l : list A) : list A :=
  match l with
  | [] => [x]
  | y :: r => if le x y then x :: l else y :: insert_by le x r
  end.

Definition sort_by {A} (le : A -> A -> bool) (l : list A) : list A :=
  fold_right (insert_by le) [] l.

Definition str_sort (l : list string) : list string := sort_by String.leb l.

(** [sorted(list(set(l)))] on strings. *)
Definition sorted_set (l : list string) : list string :=
  str_sort (str_dedup l).

(** [l.remove(x)]: drops the first occurrence. *)
Fixpoint str_remove (x : string) (l : list string) : list string :=
  match l with
  | [] => []
  | y :: r => if String.eqb x y then r else y :: str_remove x r
  end.

(** [str(l)] for a list of strings: ['a', 'b']. *)
Definition py_repr_str (s : string) : string := "'" ++ s ++ "'".

Definition py_str_list (l : list string) : string :=
  "[" ++ String.concat ", " (map py_repr_str l) ++ "]".

Definition py_str_opt_list (o : option (list string)) : string :=
  match o with
  | None => "None"
  | Some l => py_str_list l
  end.

(* ================================================================== *)
(** * numpy arrays *)

(** One- and two-dimensional arrays; a matrix keeps its column count so
    that the shapes [(n, 0)] and [(0, q)] exist. *)
Inductive ndarray : Type :=
| Arr1 (v : list float)
| Arr2 (ncols : nat) (rows : list (list float)).

Module Np.

(** [a.shape[0]] *)
Definition shape0 (a : ndarray) : nat :=
  match a with
  | Arr1 v => length v
  | Arr2 _ rows => length rows
  end.

Definition flatten (a : ndarray) : list float :=
  match a with
  | Arr1 v => v
  | Arr2 _ rows => concat rows
  end.

(** [a.reshape(-1, 1)] *)
Definition reshape_col (a : ndarray) : ndarray :=
  Arr2 1 (map (fun x => [x]) (flatten a)).

(** [np.zeros((n, 0))] *)
Definition zeros_n_0 (n : nat) : ndarray := Arr2 0 (repeat [] n).

(** [np.hstack((a, b))] for a two-dimensional [b]: a one-dimensional [a]
    is joined along axis 0 and the dimensions disagree; otherwise the
    join is along axis 1 and the row counts must agree. *)
Definition hstack (a b : ndarray) : result ndarray :=
  match a, b with
  | Arr2 ca ra, Arr2 cb rb =>
      if (length ra =? length rb)%nat
      then OK (Arr2 (ca + cb) (map (fun p => fst p ++ snd p) (combine ra rb)))
      else Raise ValueError
  | Arr1 va, Arr1 vb => OK (Arr1 (va ++ vb))
  | _, _ => Raise ValueError
  end.

(** [a[mask]] on the first axis. *)
Fixpoint select {A} (mask : list bool) (l : list A) : list A :=
  match mask, l with
  | b :: mask', x :: l' => if b then x :: select mask' l' else select mask' l'
  | _, _ => []
  end.

Definition mask_rows (mask : list bool) (a : ndarray) : ndarray :=
  match a with
  | Arr1 v => Arr1 (select mask v)
  | Arr2 c rows => Arr2 c (select mask rows)
  end.

(** [np.all(np.isfinite(a), axis=1)] *)
Definition all_finite_axis1 (a : ndarray) : result (list bool) :=
  match a with
  | Arr1 _ => Raise AxisError
  | Arr2 _ rows => OK (map (forallb F.isfinite) rows)
  end.

(** [np.where(mask)[0]] *)
Definition where_true {A} (p : A -> bool) (l : list A) : list nat :=
  map fst (filter (fun ix => p (snd ix)) (combine (seq 0 (length l)) l)).

(** [np.argsort(l)] as a stable sort of the positions. *)
Definition argsort {A} (le : A -> A -> bool) (l : list A) : list nat :=
  map fst (sort_by (fun p q => le (snd p) (snd q))
             (combine (seq 0 (length l)) l)).

(** The order [np.argsort] uses on floats: [NaN] goes last. *)
Definition sort_le (x y : float) : bool :=
  match x, y with
  | _, NaN => true
  | NaN, _ => false
  | _, _ => F.leb x y
  end.

(** [a[idx]] with an integer index array. *)
Fixpoint take {A} (a : list A) (idx : list nat) : result (list A) :=
  match idx with
  | [] => OK []
  | i :: idx' =>
      match nth_error a i, take a idx' with
      | Some x, OK r => OK (x :: r)
      | None, _ => Raise IndexError
      | _, Raise e => Raise e
      end
  end.

(** An elementwise binary operation on vectors with numpy's broadcasting
    of a length-one operand. *)
Definition broadcast2 {A B C} (f : A -> B -> C) (a : list A) (b : list B)
  : result (list C) :=
  if (length a =? length b)%nat
  then OK (map (fun p => f (fst p) (snd p)) (combine a b))
  else match a, b with
       | [x], _ => OK (map (f x) b)
       | _, [y] => OK (map (fun x => f x y) a)
       | _, _ => Raise ValueError
       end.

Definition sumZ (l : list Z) : Z := fold_left Z.add l 0%Z.

(** [a[i] = v] for [i] in range. *)
Fixpoint set_nth {A} (l : list A) (i : nat) (v : A) : list A :=
  match l, i with
  | [], _ => []
  | _ :: r, O => v :: r
  | x :: r, S i' => x :: set_nth r i' v
  end.

(** [a[ids] = vals] *)
Definition assign {A} (l : list A) (ids : list nat) (vals : list A) : list A :=
  fold_left (fun acc p => set_nth acc (fst p) (snd p)) (combine ids vals) l.

(** [np.delete(l, a, axis=0)] *)
Definition delete {A} (l : list A) (a : nat) : list A :=
  firstn a l ++ skipn (S a) l.

End Np.

Fixpoint mapM {A B} (f : A -> M B) (l : list A) : M (list B) :=
  match l with
  | [] => ret []
  | x :: r => y <- f x ;; ys <- mapM f r ;; ret (y :: ys)
  end.

(* ================================================================== *)
(** * The neighbour search of scikit-learn *)

(** [NearestNeighbors(n_neighbors=3).fit(X).kneighbors(X)], modelled as a
    brute-force search.  Distances are kept squared: the code only tests
    them for equality (with zero, with each other, with their minimum), and
    squaring preserves those tests.  Among equidistant points the lower
    row number comes first. *)
Module Sklearn.

Definition finite_row (r : list float) : option (list Q) :=
  fold_right (fun x acc =>
                match x, acc with
                | Fin q, Some l => Some (q :: l)
                | _, _ => None
                end) (Some []) r.

Definition finite_rows (rows : list (list float)) : option (list (list Q)) :=
  fold_right (fun r acc =>
                match finite_row r, acc with
                | Some q, Some l => Some (q :: l)
                | _, _ => None
                end) (Some []) rows.

(** [fit] validates its input: two-dimensional, at least one sample and
    one feature, no [NaN] and no infinity. *)
Definition fit (X : ndarray) : result (list (list Q)) :=
  match X with
  | Arr1 _ => Raise ValueError
  | Arr2 c rows =>
      if (length rows =? 0)%nat || (c =? 0)%nat then Raise ValueError
      else match finite_rows rows with
           | None => Raise ValueError
           | Some pts => OK pts
           end
  end.

Definition sqdist (a b : list Q) : Q :=
  fold_left (fun acc p => acc + (fst p - snd p) * (fst p - snd p))
    (combine a b) 0.

Definition by_distance (p q : nat * Q) : bool := Qle_bool (snd p) (snd q).

(** All points, nearest first, as (row number, squared distance). *)
Definition neighbours_of (pts : list (list Q)) (x : list Q) : list (nat * Q) :=
  sort_by by_distance (combine (seq 0 (length pts)) (map (sqdist x) pts)).

(** [kneighbors] refuses to return more neighbours than there are samples.
    The three nearest points of every row are found on exact squared
    distances, equally distant points in the order of their row numbers;
    scikit-learn works on rounded distances and promises no order among
    equally distant points. *)
Definition kneighbors (pts : list (list Q)) : result (list (list (nat * Q))) :=
  if (length pts <? 3)%nat then Raise ValueError
  else OK (map (fun x => firstn 3 (neighbours_of pts x)) pts).

(** [nn_indices[i, k]] and [nn_dists[i, k]] *)
Definition index_at (k : nat) (nb : list (nat * Q)) : nat :=
  fst (nth k nb (0%nat, 0)).
Definition dist_at (k : nat) (nb : list (nat * Q)) : Q :=
  snd (nth k nb (0%nat, 0)).

End Sklearn.

(* ================================================================== *)
(** * The CODEC core *)

(** [x + (x >= a)] *)
Definition skip_self (a x : nat) : nat := x + (if (a <=? x)%nat then 1 else 0).

Definition randomNN (ids : list nat) : M (list nat) :=
  let m := length ids in
  match m with
  | O => ret []
  | _ =>
      x <- mapM (fun _ => random_choice (m - 1)) (seq 0 m) ;;
      let x := map (fun p => skip_self (fst p) (snd p)) (combine (seq 0 m) x) in
      lift (Np.take ids x)
  end.

Fixpoint nat_dedup (l : list nat) : list nat :=
  match l with
  | [] => []
  | x :: r => if existsb (Nat.eqb x) r then nat_dedup r else x :: nat_dedup r
  end.

(** [df.groupby('group')['id'].transform(randomNN)]: the groups are visited
    in increasing key order; the result pairs each id with its new
    neighbour. *)
Fixpoint transform_groups (keys : list nat) (rows : list (nat * nat))
  : M (list (nat * nat)) :=
  match keys with
  | [] => ret []
  | g :: keys' =>
      let ids := map fst (filter (fun r => (snd r =? g)%nat) rows) in
      rnn <- randomNN ids ;;
      rest <- transform_groups keys' rows ;;
      ret (combine ids rnn ++ rest)
  end.

Definition groupby_transform (ids groups : list nat) : M (list (nat * nat)) :=
  transform_groups (nat_dedup (sort_by Nat.leb groups)) (combine ids groups).

(** The block "nearest neighbour, then repeated data" that the source
    writes out for [X] and for [W]: returns [nn_index] after the repeated
    rows were given a random neighbour inside their group, and
    [repeat_data]. *)
Definition nearest_with_repeats (nb : list (list (nat * Q)))
  : M (list nat * list nat) :=
  let nn_index := map (Sklearn.index_at 1) nb in
  let repeat_data :=
    Np.where_true (fun r => Qeq_bool (Sklearn.dist_at 1 r) 0) nb in
  let group := map (fun i => Sklearn.index_at 0 (nth i nb [])) repeat_data in
  rnn <- groupby_transform repeat_data group ;;
  ret (Np.assign nn_index (map fst rnn) (map snd rnn), repeat_data).

(** [np.setdiff1d(np.where(d[:, 1] == d[:, 2])[0], repeat_data)] *)
Definition ties_of (nb : list (list (nat * Q))) (repeat_data : list nat)
  : list nat :=
  filter (fun i => negb (existsb (Nat.eqb i) repeat_data))
    (Np.where_true
       (fun r => Qeq_bool (Sklearn.dist_at 1 r) (Sklearn.dist_at 2 r)) nb).

Definition Qmin_list (l : list Q) : option Q :=
  match l with
  | [] => None
  | x :: r => Some (fold_left (fun m y => if Qle_bool m y then m else y) r x)
  end.

(** The closure [helper_ties]; it captures [X]. *)
Definition helper_ties (X : list (list Q)) (a : nat) : M nat :=
  match nth_error X a with
  | None => raise IndexError
  | Some xa =>
      let distances := map (Sklearn.sqdist xa) (Np.delete X a) in
      match Qmin_list distances with
      | None => raise ValueError
      | Some dmin =>
          let ids := Np.where_true (fun d => Qeq_bool d dmin) distances in
          k <- random_choice (length ids) ;;
          let x := nth k ids 0%nat in
          ret (skip_self a x)
      end
  end.

(** [np.argsort(np.argsort(Y))]: zero-based ordinal ranks.  Equal entries
    are ranked in the order of their positions, as a stable sort leaves
    them; numpy's default sort promises no order among equal entries, so
    that the ranks of tied entries may come out exchanged.  The statements
    about ranks hold for every such order or are made for responses
    without ties. *)
Definition rank (Y : list float) : list Z :=
  map Z.of_nat (Np.argsort Nat.leb (Np.argsort Np.sort_le Y)).

(** [np.sum(np.minimum(R_Y, R_Y[nn_index]))] *)
Definition sum_min_rank (R_Y : list Z) (nn_index : list nat) : result Z :=
  match Np.take R_Y nn_index with
  | Raise e => Raise e
  | OK R_nn =>
      match Np.broadcast2 Z.min R_Y R_nn with
      | Raise e => Raise e
      | OK m => OK (Np.sumZ m)
      end
  end.

Definition estimateConditionalQ (Y : list float) (X Z : ndarray) : M float :=
  let Z := Np.reshape_col Z in
  let n := length Y in
  W <- lift (Np.hstack X Z) ;;
  (* nearest neighbour of X *)
  ptsX <- lift (Sklearn.fit X) ;;
  nbX <- lift (Sklearn.kneighbors ptsX) ;;
  '(nn_index_X, repeat_data) <- nearest_with_repeats nbX ;;
  let ties := ties_of nbX repeat_data in
  '(nn_index_X, helper) <-
     (if (0 <? length ties)%nat then
        r <- mapM (helper_ties ptsX) ties ;;
        ret (Np.assign nn_index_X ties r, Some (helper_ties ptsX))
      else ret (nn_index_X, None)) ;;
  (* nearest neighbour of W *)
  ptsW <- lift (Sklearn.fit W) ;;
  nbW <- lift (Sklearn.kneighbors ptsW) ;;
  '(nn_index_W, repeat_data) <- nearest_with_repeats nbW ;;
  let ties := ties_of nbW repeat_data in
  nn_index_W <-
     (if (0 <? length ties)%nat then
        match helper with
        | None => raise NameError
        | Some h => r <- mapM h ties ;; ret (Np.assign nn_index_W ties r)
        end
      else ret nn_index_W) ;;
  (* estimate Q *)
  let R_Y := rank Y in
  sW <- lift (sum_min_rank R_Y nn_index_W) ;;
  sX <- lift (sum_min_rank R_Y nn_index_X) ;;
  ret (F.div (F.of_Z (sW - sX)) (F.of_nat (n * n))).

Definition estimateConditionalS (Y : list float) (X : ndarray) : M float :=
  let n := length Y in
  ptsX <- lift (Sklearn.fit X) ;;
  nbX <- lift (Sklearn.kneighbors ptsX) ;;
  '(nn_index_X, repeat_data) <- nearest_with_repeats nbX ;;
  let ties := ties_of nbX repeat_data in
  nn_index_X <-
     (if (0 <? length ties)%nat then
        r <- mapM (helper_ties ptsX) ties ;;
        ret (Np.assign nn_index_X ties r)
      else ret nn_index_X) ;;
  let R_Y := rank Y in
  R_nn <- lift (Np.take R_Y nn_index_X) ;;
  m <- lift (Np.broadcast2 Z.min R_Y R_nn) ;;
  d <- lift (Np.broadcast2 Z.sub R_Y m) ;;
  ret (F.div (F.of_Z (Np.sumZ d)) (F.of_nat (n * n))).

Definition estimateConditionalT (Y : list float) (Z X : ndarray) : M float :=
  S <- estimateConditionalS Y X ;;
  if F.eqb S F.zero then ret F.one
  else
    q <- estimateConditionalQ Y X Z ;;
    ret (F.div q S).

Definition codec (Y : list float) (Z : ndarray) (X : option ndarray)
    (na_rm : bool) : M float :=
  match X with
  | None =>
      if negb (length Y =? Np.shape0 Z)%nat then raise ValueError
      else
        '(Y, Z) <-
           (if na_rm then
              zfin <- lift (Np.all_finite_axis1 Z) ;;
              mask <- lift (Np.broadcast2 andb (map F.isfinite Y) zfin) ;;
              ret (Np.select mask Y, Np.mask_rows mask Z)
            else ret (Y, Z)) ;;
        let n := length Y in
        if (n <? 2)%nat then raise ValueError
        else estimateConditionalQ Y Z (Np.zeros_n_0 n)
  | Some X =>
      if negb (length Y =? Np.shape0 X)%nat
         || negb (length Y =? Np.shape0 Z)%nat
         || negb (Np.shape0 X =? Np.shape0 Z)%nat
      then raise ValueError
      else
        let n := length Y in
        if (n <? 2)%nat then raise ValueError
        else estimateConditionalT Y Z X
  end.

(* ================================================================== *)
(** * pandas frames *)

Module Pd.

Definition nrows (d : DataFrame) : nat := length (df_index d).

Definition has_col (d : DataFrame) (name : string) : bool :=
  existsb (fun c => fst c =? name) (df_columns d).

Definition column_names (d : DataFrame) : list string :=
  map fst (df_columns d).

(** [d[name]] *)
Definition getcol (d : DataFrame) (name : string) : result (list float) :=
  match find (fun c => fst c =? name) (df_columns d) with
  | Some c => OK (snd c)
  | None => Raise KeyError
  end.

Fixpoint put_col (cols : list (string * list float)) (name : string)
    (vals : list float) : list (string * list float) :=
  match cols with
  | [] => [(name, vals)]
  | c :: r =>
      if fst c =? name then (name, vals) :: r
      else c :: put_col r name vals
  end.

(** [d[name] = vals] for an array or a series of [d]'s own index: the
    column is replaced in place or appended; a length mismatch is a
    [ValueError]. *)
Definition setcol (d : DataFrame) (name : string) (vals : list float)
  : result DataFrame :=
  if (length vals =? nrows d)%nat
  then OK (mkDF (df_index d) (put_col (df_columns d) name vals))
  else Raise ValueError.

(** [d[[n1; n2; ...]]] *)
Fixpoint pick_cols (d : DataFrame) (names : list string)
  : result (list (string * list float)) :=
  match names with
  | [] => OK []
  | n :: r =>
      match getcol d n, pick_cols d r with
      | OK c, OK cs => OK ((n, c) :: cs)
      | Raise e, _ => Raise e
      | _, Raise e => Raise e
      end
  end.

Definition select_cols (d : DataFrame) (names : list string)
  : result DataFrame :=
  match pick_cols d names with
  | OK cs => OK (mkDF (df_index d) cs)
  | Raise e => Raise e
  end.

(** [d[mask]] for a boolean series over [d]'s index. *)
Definition filter_rows (d : DataFrame) (mask : list bool) : DataFrame :=
  mkDF (Np.select mask (df_index d))
       (map (fun c => (fst c, Np.select mask (snd c))) (df_columns d)).

(** [d[d[name] == v]] *)
Definition where_eq (d : DataFrame) (name : string) (v : float)
  : result DataFrame :=
  match getcol d name with
  | OK c => OK (filter_rows d (map (fun x => F.eqb x v) c))
  | Raise e => Raise e
  end.

(** Reductions of a series skip missing values ([skipna=True]). *)
Definition present (s : list float) : list float :=
  filter (fun x => negb (F.isnan x)) s.

(** [s.sum()] *)
Definition sum (s : list float) : float := F.sum (present s).

(** [s.mean()] *)
Definition mean (s : list float) : float := F.mean (present s).

(** [d.iloc[:k]] *)
Definition head (d : DataFrame) (k : nat) : DataFrame :=
  mkDF (firstn k (df_index d))
       (map (fun c => (fst c, firstn k (snd c))) (df_columns d)).

(** Row [i] of the frame, one cell per column. *)
Definition row (d : DataFrame) (i : nat) : list float :=
  map (fun c => nth i (snd c) NaN) (df_columns d).

(** [d.values] *)
Definition values (d : DataFrame) : list (list float) :=
  map (row d) (seq 0 (nrows d)).

(** [d.reset_index()]: the old index becomes a column named [index] (or
    [level_0] when that name is taken) and rows are renumbered. *)
Definition reset_index (d : DataFrame) : result DataFrame :=
  let name :=
    if has_col d "index" then "level_0" else "index" in
  if has_col d name then Raise ValueError
  else OK (mkDF (map Z.of_nat (seq 0 (nrows d)))
             ((name, map F.of_Z (df_index d)) :: df_columns d)).

(** Positions of the rows labelled [lbl]. *)
Definition positions_of (d : DataFrame) (lbl : Z) : list nat :=
  Np.where_true (Z.eqb lbl) (df_index d).

(** [d.loc[labels]]: a label that is absent is a [KeyError]. *)
Fixpoint loc_positions (d : DataFrame) (labels : list Z) : result (list nat) :=
  match labels with
  | [] => OK []
  | l :: r =>
      match positions_of d l, loc_positions d r with
      | [], _ => Raise KeyError
      | _, Raise e => Raise e
      | ps, OK rest => OK (ps ++ rest)
      end
  end.

Definition take_rows (d : DataFrame) (ps : list nat) : DataFrame :=
  mkDF (map (fun i => nth i (df_index d) 0%Z) ps)
       (map (fun c => (fst c, map (fun i => nth i (snd c) NaN) ps))
            (df_columns d)).

Definition loc_rows (d : DataFrame) (labels : list Z) : result DataFrame :=
  match loc_positions d labels with
  | OK ps => OK (take_rows d ps)
  | Raise e => Raise e
  end.

End Pd.

(** ** The store *)

Definition empty_frame : DataFrame := mkDF [] [].

(** Dereference a frame variable. *)
Definition read (l : loc) : M DataFrame :=
  fun w => (OK (nth l (frames w) empty_frame), w).

(** Update the object a frame variable points to. *)
Definition write (l : loc) (d : DataFrame) : M unit :=
  fun w => (OK tt, mkWorld (Np.set_nth (frames w) l d) (rand w) (log w)).

(** A new frame object. *)
Definition alloc (d : DataFrame) : M loc :=
  fun w => (OK (length (frames w)),
            mkWorld (frames w ++ [d]) (rand w) (log w)).

(** [df[name] = vals], in place. *)
Definition setitem (l : loc) (name : string) (vals : list float) : M unit :=
  d <- read l ;;
  d' <- lift (Pd.setcol d name vals) ;;
  write l d'.

(** [df.copy()] and [copy.deepcopy(df)] *)
Definition copy (l : loc) : M loc :=
  d <- read l ;; alloc d.

(* ================================================================== *)
(** * The objects the scorer is handed *)

(** [estimate.estimator]: the fitted model under evaluation.  Its
    prediction methods read the frame they are given and may raise. *)
Record Estimator : Type := mkEstimator {
  _treatment_name : string + list string;
  _outcome_name : string;
  _effect_modifier_names : list string;
  identifier_method : string;
  estimating_instrument_names : list string;
  effect : DataFrame -> result (list float);
  effect_tt : DataFrame -> result (list float)
}.

(** [psw_estimator.estimator]: the inner propensity-weighting model. *)
Record InnerPSW : Type := mkInnerPSW {
  inner_effect : DataFrame -> result ndarray;
  propensity_model : option (DataFrame -> result ndarray)
}.

(** [self.psw_estimator] *)
Record PSWEstimator : Type := mkPSW {
  psw_treatment_name : string + list string;
  psw_effect_modifier_names : list string;
  psw_estimator_attr : option InnerPSW
}.

(** [self.erupt], an external collaborator. *)
Record ERUPT : Type := mkERUPT {
  erupt_score : DataFrame -> list float -> list float -> result float;
  erupt_weights : DataFrame -> list float -> result (list float);
  erupt_probabilistic_erupt_score :
    DataFrame -> list float -> list float -> list float -> result float
}.

(** The fields of [Scorer] its methods read.  [psw_estimator] and [erupt]
    are only set by the constructor for the backdoor problem. *)
Record Scorer : Type := mkScorer {
  problem : string;
  multivalue : bool;
  causal_model_treatment : list string;
  causal_model_outcome : list string;
  get_effect_modifiers : list string;
  get_common_causes : list string;
  psw_estimator : option PSWEstimator;
  erupt : option ERUPT
}.

(** [name if isinstance(name, str) else name[0]] *)
Definition first_name (t : string + list string) : result string :=
  match t with
  | inl s => OK s
  | inr (s :: _) => OK s
  | inr [] => Raise IndexError
  end.

(** [l[0]] *)
Definition head_or_IndexError {A} (l : list A) : result A :=
  match l with
  | x :: _ => OK x
  | [] => Raise IndexError
  end.

(** Attribute access on something that may be missing. *)
Definition getattr {A} (o : option A) : result A :=
  match o with
  | Some a => OK a
  | None => Raise AttributeError
  end.

Definition is_AttributeError (e : exn) : bool := exn_eqb e AttributeError.
Definition any_Exception (e : exn) : bool := true.

Definition map2 {A B C} (f : A -> B -> C) (a : list A) (b : list B) : list C :=
  map (fun p => f (fst p) (snd p)) (combine a b).

(* ================================================================== *)
(** * The metric catalogue *)

(** [supported_metrics]: the function has no final [else], so any other
    problem string falls off the end and yields [None]. *)
Definition supported_metrics (problem : string) (multivalue scores_only : bool)
  : option (list string) :=
  if problem =? "iv" then
    let metrics := ["energy_distance"; "frobenius_norm"; "codec"] in
    Some (if negb scores_only then metrics ++ ["ate"] else metrics)
  else if problem =? "backdoor" then
    if multivalue then
      Some ["energy_distance"; "psw_energy_distance"]
    else
      let metrics :=
        ["erupt"; "norm_erupt"; "prob_erupt"; "policy_risk"; "qini"; "auc";
         "energy_distance"; "psw_energy_distance"; "frobenius_norm"; "codec"]
      in
      Some (if negb scores_only then metrics ++ ["ate"] else metrics)
  else None.

(** [m not in metrics]; a [None] on the right is a [TypeError]. *)
Definition not_in (m : string) (metrics : option (list string)) : M bool :=
  match metrics with
  | None => raise TypeError
  | Some l => ret (negb (str_in m l))
  end.

Section ScorerCatalogue.

Variable self : Scorer.

Definition resolve_metric (metric : string) : M string :=
  let metrics := supported_metrics (problem self) (multivalue self) true in
  absent <- not_in metric metrics ;;
  if absent then
    logging_warning
      ("Using energy_distance metric as " ++ metric
       ++ " is not in the list of supported metrics for this usecase ("
       ++ py_str_opt_list metrics ++ ")") ;;;
    ret "energy_distance"
  else ret metric.

Fixpoint drop_unsupported (metrics : option (list string))
    (todo : list string) (metrics_to_report : list string)
  : M (list string) :=
  match todo with
  | [] => ret metrics_to_report
  | m :: todo' =>
      absent <- not_in m metrics ;;
      if absent then
        logging_warning
          ("Dropping the metric " ++ m ++ " for problem: " ++ problem self
           ++ "                         : must be one of "
           ++ py_str_opt_list metrics) ;;;
        drop_unsupported metrics todo' (str_remove m metrics_to_report)
      else drop_unsupported metrics todo' metrics_to_report
  end.

Definition resolve_reported_metrics (metrics_to_report : option (list string))
    (scoring_metric : string) : M (option (list string)) :=
  let metrics := supported_metrics (problem self) (multivalue self) false in
  match metrics_to_report with
  | None => ret metrics
  | Some l =>
      let metrics_to_report := sorted_set (l ++ [scoring_metric]) in
      kept <- drop_unsupported metrics metrics_to_report metrics_to_report ;;
      ret (Some kept)
  end.

End ScorerCatalogue.

(* ================================================================== *)
(** * Scorer *)

Section Scoring.

(** Square roots come from the platform's floating point; the model is
    parametric in them. *)
Variable sqrtQ : Q -> Q.

(** External libraries: [dcor], the uplift metrics of causalml and
    scikit-learn's [QuantileTransformer(n_quantiles=200).fit_transform]. *)
Variable dcor_energy_distance :
  list (list float) -> list (list float) -> result float.
Variable dcor_pairwise_distances :
  list (list float) -> list (list float) -> result (list (list float)).
Variable quantile_transform : list (list float) -> result (list (list float)).
Variable metrics_qini_score : DataFrame -> result float.
Variable metrics_auuc_score : DataFrame -> result float.

(** [causaltune.utils.psw_joint_weights(a, b=None)], defined in a module
    of the package that is not part of the sources at hand. *)
Variable psw_joint_weights :
  list float -> option (list float) -> result (list (list float)).

(** [np.sqrt]: [NaN] below zero. *)
Definition np_sqrt (x : float) : float :=
  match x with
  | Fin q => if Qle_bool 0 q then Fin (sqrtQ q) else NaN
  | PInf => PInf
  | _ => NaN
  end.

(** [math.sqrt]: [ValueError] below zero. *)
Definition math_sqrt (x : float) : result float :=
  match x with
  | Fin q => if Qle_bool 0 q then OK (Fin (sqrtQ q)) else Raise ValueError
  | PInf => OK PInf
  | NaN => OK NaN
  | NInf => Raise ValueError
  end.

Definition sq (x : float) : float := F.mul x x.

(** Variance with [ddof] delta degrees of freedom; the divisor is
    [max(N - ddof, 0)], so too few values give [NaN]. *)
Definition variance (ddof : Z) (l : list float) : float :=
  let m := F.mean l in
  F.div (F.sum (map (fun x => sq (F.sub x m)) l))
        (F.of_Z (Z.max (Z.of_nat (length l) - ddof) 0)).

(** [np.std(l)] and [l.std()] of numpy *)
Definition np_std (l : list float) : float := np_sqrt (variance 0 l).

(** [series.std()] of pandas: sample deviation of the values present. *)
Definition pd_std (l : list float) : float :=
  np_sqrt (variance 1 (Pd.present l)).

(** [series[mask]] for a boolean series: the two must align. *)
Definition bool_index (s : list float) (mask : list bool)
  : result (list float) :=
  if (length s =? length mask)%nat then OK (Np.select mask s)
  else Raise IndexingError.

Definition count_true (mask : list bool) : nat :=
  length (filter (fun b => b) mask).

Definition naive_ate (treatment outcome : list float)
  : result (float * float * nat) :=
  let is1 := map (fun t => F.eqb t F.one) treatment in
  let is0 := map (fun t => F.eqb t F.zero) treatment in
  let treated := count_true is1 in
  let* o1 := bool_index outcome is1 in
  let* o0 := bool_index outcome is0 in
  let mean_ := F.sub (Pd.mean o1) (Pd.mean o0) in
  let* r1 := math_sqrt (F.of_nat treated) in
  let std1 := F.div (pd_std o1) (F.add r1 (Fin (1 # 1000))) in
  let* r0 := math_sqrt (F.of_Z (Z.of_nat (length outcome) - Z.of_nat treated)) in
  let std2 := F.div (pd_std o0) (F.add r0 (Fin (1 # 1000))) in
  let* std_ := math_sqrt (F.add (F.mul std1 std1) (F.mul std2 std2)) in
  OK (mean_, std_, length treatment).

(** ** Potential outcomes *)

Definition _Y0_X_potential_outcomes (estimate : Estimator) (df : loc)
  : M (loc * string * string) :=
  let est := estimate in
  treatment_name <- lift (first_name (_treatment_name est)) ;;
  d <- read df ;;
  dy <- lift (effect_tt est d) ;;
  setitem df "dy" dy ;;;
  d <- read df ;;
  y <- lift (Pd.getcol d (_outcome_name est)) ;;
  dy <- lift (Pd.getcol d "dy") ;;
  setitem df "yhat" (map2 F.sub y dy) ;;;
  split_test_by <-
    (if identifier_method est =? "iv"
     then lift (head_or_IndexError (estimating_instrument_names est))
     else ret treatment_name) ;;
  Y0X <- copy df ;;
  ret (Y0X, treatment_name, split_test_by).

Definition energy_distance_score (estimate : Estimator) (df : loc) : M float :=
  '(Y0X, _, split_test_by) <- _Y0_X_potential_outcomes estimate df ;;
  Y0X <- read Y0X ;;
  YX_1 <- lift (Pd.where_eq Y0X split_test_by F.one) ;;
  YX_0 <- lift (Pd.where_eq Y0X split_test_by F.zero) ;;
  let select_cols := _effect_modifier_names estimate ++ ["yhat"] in
  a <- lift (Pd.select_cols YX_1 select_cols) ;;
  b <- lift (Pd.select_cols YX_0 select_cols) ;;
  lift (dcor_energy_distance (Pd.values a) (Pd.values b)).

(** ** Propensity of the realised treatment level *)

(** A cell used as a column number: it must hold an integer, and a
    negative one counts from the end. *)
Definition as_index (x : float) (width : nat) : result nat :=
  match x with
  | Fin q =>
      if negb (Zpos (Qden q) =? 1)%Z then Raise IndexError
      else
        let i := Qnum q in
        let k := Z.of_nat width in
        if (0 <=? i)%Z && (i <? k)%Z then OK (Z.to_nat i)
        else if (i <? 0)%Z && (- k <=? i)%Z then OK (Z.to_nat (i + k))
        else Raise IndexError
  | _ => Raise IndexError
  end.

(** [a[:, i]] *)
Definition column (a : ndarray) (i : float) : result (list float) :=
  match a with
  | Arr1 _ => Raise IndexError
  | Arr2 c rows =>
      let* j := as_index i c in
      OK (map (fun r => nth j r NaN) rows)
  end.

(** [series.unique()]: distinct values in order of first appearance. *)
Fixpoint unique (seen l : list float) : list float :=
  match l with
  | [] => []
  | x :: r =>
      if existsb (fun y => F.eqb x y || (F.isnan x && F.isnan y)) seen
      then unique seen r
      else x :: unique (x :: seen) r
  end.

(** The loop
    [for i in t.unique(): psw[t == i] = all_psw[:, i][t == i]]
    started from [np.zeros(all_psw.shape[0])]. *)
Fixpoint realized_loop (all_psw : ndarray) (t : list float)
    (levels : list float) (psw : list float) : result (list float) :=
  match levels with
  | [] => OK psw
  | i :: levels' =>
      let* col := column all_psw i in
      let mask := map (fun x => F.eqb x i) t in
      if negb (length mask =? length psw)%nat then Raise IndexError
      else
        let psw' :=
          map (fun p : bool * float * float =>
                 if fst (fst p) then snd p else snd (fst p))
              (combine (combine mask psw) col) in
        realized_loop all_psw t levels' psw'
  end.

Definition realized_propensity (all_psw : ndarray) (t : list float)
  : result (list float) :=
  realized_loop all_psw t (unique [] t) (repeat F.zero (Np.shape0 all_psw)).

(** [propensitymodel.predict_proba(frame[modifiers + common causes])] *)
Definition predict_on (self : Scorer) (frame : DataFrame) : result ndarray :=
  let* psw := getattr (psw_estimator self) in
  let* inner := getattr (psw_estimator_attr psw) in
  let* model := getattr (propensity_model inner) in
  let* x := Pd.select_cols frame
              (get_effect_modifiers self ++ get_common_causes self) in
  model x.

(** ** Frobenius norm *)

Definition frobenius_norm_score (self : Scorer) (estimate : Estimator)
    (df : loc) (sd_threshold : float) : M float :=
  d <- read df ;;
  cate <- try_except
            (c <- lift (effect estimate d) ;; ret (Some c))
            is_AttributeError
            (try_except
               (c <- lift (effect_tt estimate d) ;; ret (Some c))
               is_AttributeError
               (ret None)) ;;
  match cate with
  | None => ret PInf
  | Some cate_estimates =>
      if F.leb (np_std cate_estimates) sd_threshold then ret PInf
      else
        '(Y0X, treatment_name, split_test_by) <-
           _Y0_X_potential_outcomes estimate df ;;
        Y0X <- read Y0X ;;
        Y0X_1 <- lift (Pd.where_eq Y0X split_test_by F.one) ;;
        Y0X_0 <- lift (Pd.where_eq Y0X split_test_by F.zero) ;;
        if (Pd.nrows Y0X_1 =? 0)%nat || (Pd.nrows Y0X_0 =? 0)%nat
        then ret PInf
        else
          let select_cols := _effect_modifier_names estimate ++ ["yhat"] in
          YX_1_all_psw <- lift (predict_on self Y0X_1) ;;
          treatment_series <- lift (Pd.getcol Y0X_1 treatment_name) ;;
          YX_1_psw <- lift (realized_propensity YX_1_all_psw treatment_series) ;;
          YX_0_all_psw <- lift (predict_on self Y0X_0) ;;
          YX_0_psw <- lift (column YX_0_all_psw F.zero) ;;
          let min_rows := Nat.min (Pd.nrows Y0X_1) (Pd.nrows Y0X_0) in
          let Y0X_1 := Pd.head Y0X_1 min_rows in
          let Y0X_0 := Pd.head Y0X_0 min_rows in
          let YX_1_psw := firstn min_rows YX_1_psw in
          let YX_0_psw := firstn min_rows YX_0_psw in
          a <- lift (Pd.select_cols Y0X_1 select_cols) ;;
          b <- lift (Pd.select_cols Y0X_0 select_cols) ;;
          diff <- lift (Np.broadcast2 (map2 F.sub)
                          (Pd.values a) (Pd.values b)) ;;
          ww <- lift (Np.broadcast2 F.mul YX_1_psw YX_0_psw) ;;
          D <- lift (Np.broadcast2
                       (fun r w => map (fun x => F.mul x w) r)
                       diff (map np_sqrt ww)) ;;
          let frobenius_norm := np_sqrt (F.sum (map sq (concat D))) in
          let n := length D in
          let p := length select_cols in
          let normalized_score :=
            F.div frobenius_norm (np_sqrt (F.of_nat (n * p))) in
          ret (if F.isfinite normalized_score then normalized_score else PInf)
  end.

(** ** Propensity-weighted energy distance *)

Definition mat_mean (m : list (list float)) : float := F.mean (concat m).

(** [np.multiply(a, b)] on matrices of one shape. *)
Definition mat_multiply (a b : list (list float)) : result (list (list float)) :=
  if (length a =? length b)%nat
     && forallb (fun p => (length (fst p) =? length (snd p))%nat) (combine a b)
  then OK (map2 (map2 F.mul) a b)
  else Raise ValueError.

Definition mat_scale (c : float) (m : list (list float)) : list (list float) :=
  map (map (F.mul c)) m.

(** [np.reciprocal(w) * np.multiply(psw, distances)] *)
Definition weighted_distance (mean_weights : float)
    (psw distances : list (list float)) : result (list (list float)) :=
  let* m := mat_multiply psw distances in
  OK (mat_scale (F.div F.one mean_weights) m).

(** [pd.DataFrame(rows, columns=names, index=index)]: the shape of the
    data must fit the labels. *)
Definition frame_of_rows (index : list Z) (names : list string)
    (rows : list (list float)) : result DataFrame :=
  if (length rows =? length index)%nat
     && forallb (fun r => (length r =? length names)%nat) rows
  then
    OK (mkDF index
          (map (fun jn => (snd jn, map (fun r => nth (fst jn) r NaN) rows))
               (combine (seq 0 (length names)) names)))
  else Raise ValueError.

Definition psw_energy_distance (self : Scorer) (estimate : Estimator)
    (df : loc) (normalise_features : bool) : M float :=
  '(Y0X, treatment_name, split_test_by) <-
     _Y0_X_potential_outcomes estimate df ;;
  Y0X <- read Y0X ;;
  Y0X_1 <- lift (Pd.where_eq Y0X split_test_by F.one) ;;
  Y0X_0 <- lift (Pd.where_eq Y0X split_test_by F.zero) ;;
  YX_1_all_psw <- lift (predict_on self Y0X_1) ;;
  treatment_series <- lift (Pd.getcol Y0X_1 treatment_name) ;;
  YX_1_psw <- lift (realized_propensity YX_1_all_psw treatment_series) ;;
  YX_0_all_psw <- lift (predict_on self Y0X_0) ;;
  YX_0_psw <- lift (column YX_0_all_psw F.zero) ;;
  let select_cols := _effect_modifier_names estimate ++ ["yhat"] in
  let features := _effect_modifier_names estimate in
  xy_psw <- lift (psw_joint_weights YX_1_psw (Some YX_0_psw)) ;;
  xx_psw <- lift (psw_joint_weights YX_0_psw None) ;;
  yy_psw <- lift (psw_joint_weights YX_1_psw None) ;;
  let xy_mean_weights := mat_mean xy_psw in
  let xx_mean_weights := mat_mean xx_psw in
  let yy_mean_weights := mat_mean yy_psw in
  '(Y0X_1, Y0X_0) <-
     (if normalise_features then
        f <- lift (Pd.select_cols Y0X features) ;;
        X_quantiles <- lift (quantile_transform (Pd.values f)) ;;
        Y0X_transformed <-
          lift (frame_of_rows (df_index Y0X) features X_quantiles) ;;
        yhat <- lift (Pd.getcol Y0X "yhat") ;;
        s <- lift (Pd.getcol Y0X split_test_by) ;;
        t1 <- lift (Pd.setcol Y0X_transformed "yhat" yhat) ;;
        t2 <- lift (Pd.setcol t1 split_test_by s) ;;
        g1 <- lift (Pd.where_eq t2 split_test_by F.one) ;;
        g0 <- lift (Pd.where_eq t2 split_test_by F.zero) ;;
        ret (g1, g0)
      else ret (Y0X_1, Y0X_0)) ;;
  a <- lift (Pd.select_cols Y0X_1 select_cols) ;;
  b <- lift (Pd.select_cols Y0X_0 select_cols) ;;
  dxy <- lift (dcor_pairwise_distances (Pd.values a) (Pd.values b)) ;;
  distance_xy <- lift (weighted_distance xy_mean_weights xy_psw dxy) ;;
  dyy <- lift (dcor_pairwise_distances (Pd.values a) (Pd.values a)) ;;
  distance_yy <- lift (weighted_distance yy_mean_weights yy_psw dyy) ;;
  dxx <- lift (dcor_pairwise_distances (Pd.values b) (Pd.values b)) ;;
  distance_xx <- lift (weighted_distance xx_mean_weights xx_psw dxx) ;;
  ret (F.sub (F.sub (F.mul (Fin 2) (mat_mean distance_xy))
                (mat_mean distance_xx))
         (mat_mean distance_yy)).

(** ** Policy risk *)

(** [(cate > 0).astype(int)] *)
Definition default_policy (cate : list float) : result (list float) :=
  OK (map (fun c => F.of_bool (F.gtb c F.zero)) cate).

(** [a[index]] where a pandas index is used to address a numpy array:
    labels are taken as positions. *)
Definition take_by_labels (a : list float) (labels : list Z)
  : result (list float) :=
  let k := Z.of_nat (length a) in
  let fix go (ls : list Z) : result (list float) :=
    match ls with
    | [] => OK []
    | i :: r =>
        if (0 <=? i)%Z && (i <? k)%Z then
          let* rest := go r in OK (nth (Z.to_nat i) a NaN :: rest)
        else if (i <? 0)%Z && (- k <=? i)%Z then
          let* rest := go r in OK (nth (Z.to_nat (i + k)) a NaN :: rest)
        else Raise IndexError
    end in
  go labels.

Definition indicator (v : float) (l : list float) : list float :=
  map (fun x => F.of_bool (F.eqb x v)) l.

(** One of the two terms of the policy value. *)
Definition policy_term (outcome treatment policy_treatment weight : list float)
    (level : float) : float :=
  let prod :=
    map2 F.mul
      (map2 F.mul (map2 F.mul outcome (indicator level treatment))
         (indicator level policy_treatment))
      weight in
  F.mul (F.div (Pd.sum prod) (Pd.sum weight))
        (Pd.mean (indicator level policy_treatment)).

Definition policy_risk_score (self : Scorer) (estimate : Estimator)
    (df : loc) (cate_estimate : list float) (outcome_name : string)
    (policy : option (list float -> result (list float)))
    (rct_indices : option (list Z))
    (sd_threshold clip : float) : M float :=
  let policy :=
    match policy with
    | None => default_policy
    | Some p => p
    end in
  d <- read df ;;
  let rct_indices :=
    match rct_indices with
    | None => df_index d
    | Some ix => ix
    end in
  if F.leb (np_std cate_estimate) sd_threshold then ret F.zero
  else
    policy_treatment <- lift (policy cate_estimate) ;;
    psw <- lift (getattr (psw_estimator self)) ;;
    match psw_estimator_attr psw with
    | None => raise ValueError
    | Some inner =>
        match propensity_model inner with
        | None => raise ValueError
        | Some model =>
            x <- lift (Pd.select_cols d
                         ("random" :: psw_effect_modifier_names psw)) ;;
            propensity_scores <- lift (model x) ;;
            propensity_scores <-
              lift (match propensity_scores with
                    | Arr2 _ _ => column propensity_scores F.one
                    | Arr1 v => OK v
                    end) ;;
            let propensity_scores :=
              map (fun p => F.clip p clip (F.sub F.one clip))
                  propensity_scores in
            match psw_treatment_name psw with
            | inr names =>
                (* a list of names makes [df[treatment_name]] a frame and
                   the weights a matrix with one row per row of [df]; its
                   rows are selected, but a matrix cannot be stored as
                   the column [weight] (frames of a single row apart,
                   which the model does not distinguish) *)
                t <- lift (Pd.select_cols d names) ;;
                rct_df <- lift (Pd.loc_rows d rct_indices) ;;
                rct_df <- alloc rct_df ;;
                w <- lift (take_by_labels
                             (repeat NaN (Pd.nrows t)) rct_indices) ;;
                raise ValueError
            | inl treatment_name =>
                t <- lift (Pd.getcol d treatment_name) ;;
                weights <-
                  lift (Np.broadcast2
                          (fun ti p =>
                             if F.eqb ti F.one then F.div F.one p
                             else F.div F.one (F.sub F.one p))
                          t propensity_scores) ;;
                rct_df <- lift (Pd.loc_rows d rct_indices) ;;
                rct_df <- alloc rct_df ;;
                w <- lift (take_by_labels weights rct_indices) ;;
                setitem rct_df "weight" w ;;;
                pt <- lift (take_by_labels policy_treatment rct_indices) ;;
                setitem rct_df "policy_treatment" pt ;;;
                r <- read rct_df ;;
                o <- lift (Pd.getcol r outcome_name) ;;
                tr <- lift (Pd.getcol r treatment_name) ;;
                ptc <- lift (Pd.getcol r "policy_treatment") ;;
                wc <- lift (Pd.getcol r "weight") ;;
                let value_policy :=
                  F.add (policy_term o tr ptc wc F.one)
                        (policy_term o tr ptc wc F.zero) in
                ret (F.sub F.one value_policy)
            end
        end
    end.

(** ** Uplift scores *)

(** The three-column frame handed to the uplift metrics. *)
Definition uplift_frame (estimate : Estimator) (d : DataFrame)
    (cate_estimate : list float) : result DataFrame :=
  let* y := Pd.getcol d (_outcome_name estimate) in
  let* treatment_name := first_name (_treatment_name estimate) in
  let* w := Pd.getcol d treatment_name in
  Pd.setcol (mkDF (df_index d) [("y", y); ("w", w)]) "model" cate_estimate.

Definition qini_make_score (estimate : Estimator) (df : loc)
    (cate_estimate : list float) : M float :=
  d <- read df ;;
  new_df <- lift (uplift_frame estimate d cate_estimate) ;;
  lift (metrics_qini_score new_df).

Definition auc_make_score (estimate : Estimator) (df : loc)
    (cate_estimate : list float) : M float :=
  d <- read df ;;
  new_df <- lift (uplift_frame estimate d cate_estimate) ;;
  lift (metrics_auuc_score new_df).

Definition r_make_score (cate_estimate : list float)
    (r_scorer : list float -> result float) : M float :=
  lift (r_scorer cate_estimate).

(** ** CODEC as a causal score *)

Definition identify_confounders (d : DataFrame)
    (treatment_col outcome_col : string) : list string :=
  filter (fun col =>
            negb (str_in col [treatment_col; outcome_col; "random"; "index"]))
         (Pd.column_names d).

Definition codec_score (estimate : Estimator) (df : loc) : M float :=
  let est := estimate in
  treatment_name <- lift (first_name (_treatment_name est)) ;;
  let outcome_name := _outcome_name est in
  d <- read df ;;
  let confounders := identify_confounders d treatment_name outcome_name in
  cate_est <- lift (effect est d) ;;
  let standard_deviations := np_std cate_est in
  dy <- lift (effect_tt est d) ;;
  setitem df "dy" dy ;;;
  d <- read df ;;
  y <- lift (Pd.getcol d (_outcome_name est)) ;;
  dy <- lift (Pd.getcol d "dy") ;;
  setitem df "yhat" (map2 F.sub y dy) ;;;
  d <- read df ;;
  Y <- lift (Pd.getcol d "yhat") ;;
  Z <- lift (Pd.getcol d treatment_name) ;;
  X <- lift (Pd.select_cols d confounders) ;;
  if F.ltb standard_deviations (Fin (1 # 100)) then ret PInf
  else codec Y (Arr1 Z) (Some (Arr2 (length confounders) (Pd.values X))) true.

(** ** Average treatment effect *)

(** [a.mean(axis=0)]; a one-dimensional input gives a scalar, which has
    no [len]. *)
Definition column_means (a : ndarray) : result (list float) :=
  match a with
  | Arr1 _ => Raise TypeError
  | Arr2 c rows =>
      OK (map (fun j => F.mean (map (fun r => nth j r NaN) rows)) (seq 0 c))
  end.

Definition ate (self : Scorer) (df : loc)
  : M ((float + list float) * option float * option nat) :=
  d <- read df ;;
  psw <- lift (getattr (psw_estimator self)) ;;
  inner <- lift (getattr (psw_estimator_attr psw)) ;;
  e <- lift (inner_effect inner d) ;;
  estimate <- lift (column_means e) ;;
  match estimate with
  | [e0] =>
      treatment_name <- lift (head_or_IndexError (causal_model_treatment self)) ;;
      outcome_name <- lift (head_or_IndexError (causal_model_outcome self)) ;;
      t <- lift (Pd.getcol d treatment_name) ;;
      o <- lift (Pd.getcol d outcome_name) ;;
      naive_est <- lift (naive_ate t o) ;;
      ret (inl e0, Some (snd (fst naive_est)), Some (snd naive_est))
  | _ => ret (inr estimate, None, None)
  end.

(** ** The aggregator *)

Inductive outval : Type :=
| OFloat (x : float)
| OArray (a : list float)
| OFrame (d : DataFrame).

(** [d[k] = v] on a Python dict, which keeps insertion order. *)
Fixpoint dict_set {V} (d : list (string * V)) (k : string) (v : V)
  : list (string * V) :=
  match d with
  | [] => [(k, v)]
  | e :: r => if fst e =? k then (k, v) :: r else e :: dict_set r k v
  end.

Definition dict_get {V} (d : list (string * V)) (k : string) : option V :=
  match find (fun e => fst e =? k) d with
  | Some e => Some (snd e)
  | None => None
  end.

(** [cate_estimate > threshold] as a 0/1 array. *)
Definition greater (cate : list float) (threshold : float + list float)
  : result (list float) :=
  Np.broadcast2 (fun c t => F.of_bool (F.gtb c t)) cate
    (match threshold with inl x => [x] | inr l => l end).

(** [if name in metrics_to_report: out[name] = score] *)
Definition report (metrics_to_report : list string) (name : string)
    (score : M outval) (out : list (string * outval))
  : M (list (string * outval)) :=
  if str_in name metrics_to_report then
    x <- score ;; ret (dict_set out name x)
  else ret out.

Definition scalar (score : M float) : M outval :=
  x <- score ;; ret (OFloat x).

Definition make_scores (self : Scorer) (estimate : Estimator) (df : loc)
    (metrics_to_report : list string)
    (r_scorer : option (list float -> result float))
  : M (list (string * outval)) :=
  let out : list (string * outval) := [] in
  df <- copy df ;;
  d <- read df ;;
  d <- lift (Pd.reset_index d) ;;
  df <- alloc d ;;
  let est := estimate in
  treatment_name <- lift (first_name (_treatment_name est)) ;;
  let outcome_name := _outcome_name est in
  cate_estimate <- lift (effect est d) ;;
  out <-
    (if problem self =? "backdoor" then
       v <- lift (Pd.select_cols d [treatment_name; outcome_name]) ;;
       values <- alloc v ;;
       a <- ate self df ;;
       let simple_ate := fst (fst a) in
       positive <- lift (greater cate_estimate (inl F.zero)) ;;
       match simple_ate with
       | inl _ =>
           proba <- lift (predict_on self d) ;;
           p <- lift (column proba F.one) ;;
           setitem values "p" p ;;;
           setitem values "policy" positive ;;;
           above <- lift (greater cate_estimate simple_ate) ;;
           setitem values "norm_policy" above ;;;
           e <- lift (getattr (erupt self)) ;;
           w <- lift (erupt_weights e d positive) ;;
           setitem values "weights" w
       | inr _ => ret tt
       end ;;;
       out <- report metrics_to_report "erupt"
                (e <- lift (getattr (erupt self)) ;;
                 o <- lift (Pd.getcol d outcome_name) ;;
                 scalar (lift (erupt_score e d o positive))) out ;;
       out <- report metrics_to_report "norm_erupt"
                (e <- lift (getattr (erupt self)) ;;
                 o <- lift (Pd.getcol d outcome_name) ;;
                 above <- lift (greater cate_estimate simple_ate) ;;
                 s <- lift (erupt_score e d o above) ;;
                 v <- read values ;;
                 np <- lift (Pd.getcol v "norm_policy") ;;
                 match simple_ate with
                 | inl x => ret (OFloat (F.sub s (F.mul x (Pd.mean np))))
                 | inr l =>
                     ret (OArray
                            (map (fun x => F.sub s (F.mul x (Pd.mean np))) l))
                 end) out ;;
       out <- report metrics_to_report "prob_erupt"
                (if negb (length cate_estimate =? Pd.nrows d)%nat
                 then raise ValueError
                 else
                   let treatment_effects := cate_estimate in
                   let treatment_std_devs :=
                     repeat (np_std cate_estimate) (Pd.nrows d) in
                   e <- lift (getattr (erupt self)) ;;
                   o <- lift (Pd.getcol d outcome_name) ;;
                   scalar (lift (erupt_probabilistic_erupt_score e d o
                                   treatment_effects treatment_std_devs)))
                out ;;
       out <- report metrics_to_report "frobenius_norm"
                (scalar (frobenius_norm_score self estimate df (Fin (1 # 100))))
                out ;;
       out <- (if str_in "policy_risk" metrics_to_report then
                 try_except
                   (x <- policy_risk_score self estimate df cate_estimate
                          outcome_name None None (Fin (1 # 100))
                          (Fin (5 # 100)) ;;
                    ret (dict_set out "policy_risk" (OFloat x)))
                   any_Exception
                   (ret out)
               else ret out) ;;
       out <- report metrics_to_report "qini"
                (scalar (qini_make_score estimate df cate_estimate)) out ;;
       out <- report metrics_to_report "auc"
                (scalar (auc_make_score estimate df cate_estimate)) out ;;
       out <- (match r_scorer with
               | Some r =>
                   x <- r_make_score cate_estimate r ;;
                   ret (dict_set out "r_score" (OFloat x))
               | None => ret out
               end) ;;
       v <- read values ;;
       now <- read df ;;
       if negb (Pd.nrows v =? Pd.nrows now)%nat then raise AssertionError
       else
         values <- copy values ;;
         v <- read values ;;
         ret (dict_set out "values" (OFrame v))
     else ret out) ;;
  out <-
    (if str_in "ate" metrics_to_report then
       ret (dict_set (dict_set out "ate" (OFloat (F.mean cate_estimate)))
              "ate_std" (OFloat (np_std cate_estimate)))
     else ret out) ;;
  out <- report metrics_to_report "energy_distance"
           (scalar (energy_distance_score estimate df)) out ;;
  out <- report metrics_to_report "psw_energy_distance"
           (scalar (psw_energy_distance self estimate df false)) out ;;
  out <- report metrics_to_report "codec"
           (scalar (codec_score estimate df)) out ;;
  ret out.

End Scoring.

(* ================================================================== *)
(** * Python's [sorted] *)

(** [sorted(l)] on floats.  Without a [NaN] the floats are totally ordered
    and the result is the list in ascending order.  A [NaN] compares false
    with everything: the result is then whatever permutation the merge
    sort leaves, which depends on the positions of the entries; that
    permutation is a parameter. *)
Definition py_sorted (sorted_with_nan : list float -> list float)
    (l : list float) : list float :=
  if existsb F.isnan l then sorted_with_nan l else sort_by F.leb l.

(* ================================================================== *)
(** * Ranking *)

(** A value stored in a score record. *)
Inductive value : Type :=
| VStr (s : string)
| VNum (x : float).

(** A score record is a Python dict. *)
Definition record : Type := list (string * value).

(** [a < b] between two values of a record. *)
Definition value_lt (a b : value) : result bool :=
  match a, b with
  | VNum x, VNum y => OK (F.ltb x y)
  | VStr s, VStr t => OK (String.ltb s t)
  | _, _ => Raise TypeError
  end.

(** [a > b] *)
Definition value_gt (a b : value) : result bool := value_lt b a.

(** [a == b]: a string is never equal to a number, and [NaN] is equal to
    nothing, itself included. *)
Definition value_eqb (a b : value) : bool :=
  match a, b with
  | VStr s, VStr t => (s =? t)%string
  | VNum x, VNum y => F.eqb x y
  | _, _ => false
  end.

(** [v[k]] *)
Definition getitem (v : record) (k : string) : result value :=
  match dict_get v k with
  | Some x => OK x
  | None => Raise KeyError
  end.

(** ["estimator_name" in v] *)
Definition has_field (v : record) : bool :=
  match dict_get v "estimator_name" with
  | Some _ => true
  | None => false
  end.

(** ["estimator_name" in v and v["estimator_name"] == name] *)
Definition has_name (name : value) (v : record) : bool :=
  match dict_get v "estimator_name" with
  | Some n => value_eqb n name
  | None => false
  end.

(** The loop of the built-ins [min] and [max]: the first extremal item
    wins, since a later item replaces the current one only when strictly
    better. *)
Fixpoint extremum_loop (better : value -> value -> result bool)
    (key : record -> result value) (cur : record) (cur_key : value)
    (l : list record) : result record :=
  match l with
  | [] => OK cur
  | x :: r =>
      let* k := key x in
      let* b := better k cur_key in
      if b then extremum_loop better key x k r
      else extremum_loop better key cur cur_key r
  end.

Definition extremum (better : value -> value -> result bool)
    (key : record -> result value) (l : list record) : result record :=
  match l with
  | [] => Raise ValueError
  | x :: r => let* k := key x in extremum_loop better key x k r
  end.

Definition py_min := extremum value_lt.
Definition py_max := extremum value_gt.

(** [[v["estimator_name"] for v in scores.values()
      if "estimator_name" in v]] *)
Definition collect_names (l : list record) : list value :=
  flat_map (fun v => match dict_get v "estimator_name" with
                     | Some n => [n]
                     | None => []
                     end) l.

(** [set(names)]: one name of every group of equal names, here in the
    order of first appearance (the order of a set is not specified, and
    [sorted] comes next).  A [NaN] is equal to nothing: every [NaN] stays,
    as when they are separate objects. *)
Fixpoint value_set (seen l : list value) : list value :=
  match l with
  | [] => []
  | x :: r =>
      if existsb (value_eqb x) seen then value_set seen r
      else x :: value_set (x :: seen) r
  end.

Fixpoint strings_of (l : list value) : option (list string) :=
  match l with
  | [] => Some []
  | VStr s :: r => option_map (cons s) (strings_of r)
  | VNum _ :: _ => None
  end.

Fixpoint numbers_of (l : list value) : option (list float) :=
  match l with
  | [] => Some []
  | VNum x :: r => option_map (cons x) (numbers_of r)
  | VStr _ :: _ => None
  end.

(** [sorted(l)] on names: strings in the order of strings, numbers in the
    order of numbers; a string and a number cannot be compared. *)
Definition sorted_values (sorted_with_nan : list float -> list float)
    (l : list value) : result (list value) :=
  match strings_of l, numbers_of l with
  | Some strs, _ => OK (map VStr (str_sort strs))
  | None, Some nums => OK (map VNum (py_sorted sorted_with_nan nums))
  | None, None => Raise TypeError
  end.

(** [best[name] = b]: an existing key keeps its place. *)
Fixpoint best_set (best : list (value * record)) (name : value) (b : record)
  : list (value * record) :=
  match best with
  | [] => [(name, b)]
  | e :: r =>
      if value_eqb (fst e) name then (fst e, b) :: r
      else e :: best_set r name b
  end.

Fixpoint best_loop (records : list record) (metric : string)
    (names : list value) (best : list (value * record))
  : result (list (value * record)) :=
  match names with
  | [] => OK best
  | name :: names' =>
      let est_scores := filter (has_name name) records in
      let* b :=
        (if str_in metric
              ["energy_distance"; "psw_energy_distance"; "frobenius_norm";
               "codec"; "policy_risk"]
         then py_min (fun x => getitem x metric) est_scores
         else py_max (fun x => getitem x metric) est_scores) in
      best_loop records metric names' (best_set best name b)
  end.

(** [best_score_by_estimator]: the dict that is returned is kept as the
    list of its items, in the order of insertion. *)
Definition best_score_by_estimator
    (sorted_with_nan : list float -> list float)
    (scores : list (string * record)) (metric : string)
  : result (list (value * record)) :=
  let records := map snd scores in
  if negb (forallb has_field records) then Raise ValueError
  else
    let names := collect_names records in
    let* estimator_names :=
      sorted_values sorted_with_nan (value_set [] names) in
    best_loop records metric estimator_names [].

(* ================================================================== *)
(** * Vocabulary of the statements *)

Definition backdoor_scoring_metrics : list string :=
  ["erupt"; "norm_erupt"; "prob_erupt"; "policy_risk"; "qini"; "auc";
   "energy_distance"; "psw_energy_distance"; "frobenius_norm"; "codec"].

Definition fallback_warning (metric : string) : string :=
  "Using energy_distance metric as " ++ metric
  ++ " is not in the list of supported metrics for this usecase ("
  ++ py_str_list backdoor_scoring_metrics ++ ")".

(** The conditional mean in the words of the specification: the sum of
    the outcomes of the rows whose treatment is [v], over their number.
    A row whose outcome is missing ([NaN]) does not count. *)
Definition counts_for (v : float) (row : float * float) : bool :=
  F.eqb (fst row) v && negb (F.isnan (snd row)).

Definition sum_where (v : float) (treatment outcome : list float) : float :=
  fold_left (fun acc row => if counts_for v row then F.add acc (snd row) else acc)
    (combine treatment outcome) F.zero.

Definition count_present (v : float) (treatment outcome : list float) : nat :=
  length (filter (counts_for v) (combine treatment outcome)).

Definition conditional_mean (v : float) (treatment outcome : list float)
  : float :=
  if (count_present v treatment outcome =? 0)%nat then NaN
  else F.div (sum_where v treatment outcome)
             (F.of_nat (count_present v treatment outcome)).

(** The size of the group with treatment [v]. *)
Definition count_where (v : float) (treatment : list float) : nat :=
  length (filter (fun t => F.eqb t v) treatment).

(** Floats on which [math.sqrt] is defined. *)
Definition sqrt_domain (x : float) : Prop :=
  match x with
  | Fin q => Qle_bool 0 q = true
  | PInf | NaN => True
  | NInf => False
  end.

(** ** A small worked example

    Four rows (three treated, one control), a binary treatment [T], an
    outcome [Y], one effect
    modifier [x] and the experimental flag [random]; the estimator under evaluation predicts the effects
    1, 2, 3, 4 and the adjustment 1 on every row; every propensity is
    one half.  The external libraries are replaced by stand-ins. *)

Definition ex_frame : DataFrame :=
  mkDF [0; 1; 2; 3]%Z
    [("T", map Fin [1; 0; 1; 1]%Q);
     ("Y", map Fin [5; 1; 7; 2]%Q);
     ("x", map Fin [1; 2; 3; 4]%Q);
     ("random", map Fin [1; 1; 0; 0]%Q)].

Definition ex_estimator : Estimator :=
  mkEstimator (inr ["T"]) "Y" ["x"] "backdoor" []
    (fun _ => OK (map Fin [1; 2; 3; 4]%Q))
    (fun _ => OK (map Fin [1; 1; 1; 1]%Q)).

Definition ex_propensity (d : DataFrame) : result ndarray :=
  OK (Arr2 2 (repeat [Fin (1 # 2); Fin (1 # 2)] (Pd.nrows d))).

Definition ex_psw : PSWEstimator :=
  mkPSW (inl "T") ["x"]
    (Some (mkInnerPSW
             (fun d => OK (Arr2 1 (repeat [Fin 2] (Pd.nrows d))))
             (Some ex_propensity))).

Definition ex_erupt : ERUPT :=
  mkERUPT (fun _ _ _ => OK (Fin 1))
          (fun d _ => OK (repeat (Fin 1) (Pd.nrows d)))
          (fun _ _ _ _ => OK (Fin 3)).

Definition ex_scorer : Scorer :=
  mkScorer "backdoor" false ["T"] ["Y"] ["x"] [] (Some ex_psw) (Some ex_erupt).

(** A scorer built for a problem the catalogue does not know. *)
Definition ex_unknown_scorer : Scorer :=
  mkScorer "frontdoor" false ["T"] ["Y"] ["x"] [] None None.

Definition ex_world : world := mkWorld [ex_frame] (fun _ => 0%nat) [].

(** Square roots to six decimals. *)
Definition ex_sqrt (q : Q) : Q :=
  Qmake (Z.sqrt (Qnum q * 10 ^ 12 / Zpos (Qden q))) (10 ^ 6).

Definition ex_energy_distance (a b : list (list float)) : result float :=
  OK (Fin 42).

Definition ex_pairwise_distances (a b : list (list float))
  : result (list (list float)) :=
  OK (map (fun _ => map (fun _ => Fin 1) b) a).

Definition ex_joint_weights (a : list float) (b : option (list float))
  : result (list (list float)) :=
  OK (map (fun x => map (F.mul x) (match b with Some l => l | None => a end)) a).

Definition ex_quantile_transform (a : list (list float))
  : result (list (list float)) := OK a.

Definition ex_uplift_score (d : DataFrame) : result float := OK (Fin 7).

(** Column vectors and plain vectors of rationals. *)
Definition col (l : list Q) : ndarray := Arr2 1 (map (fun q => [Fin q]) l).
Definition vec (l : list Q) : list float := map Fin l.

(** ** Vocabulary for ranking *)

(** The metrics the specification ranks by their smallest value; every
    other metric is ranked by its largest. *)
Definition lower_is_better : list string :=
  ["energy_distance"; "psw_energy_distance"; "frobenius_norm"; "codec";
   "policy_risk"].

(** The metric value of a record, when it is a number. *)
Definition metric_value (metric : string) (v : record) : option float :=
  match dict_get v metric with
  | Some (VNum x) => Some x
  | _ => None
  end.

(** The record holds an orderable number (anything but [NaN]) under the
    metric. *)
Definition has_metric (metric : string) (v : record) : Prop :=
  exists x, metric_value metric v = Some x /\ x <> NaN.

(** A record the ranking can use: it names its estimator family and holds
    an orderable number under the metric. *)
Definition rankable (metric : string) (v : record) : Prop :=
  (exists s, dict_get v "estimator_name" = Some (VStr s))
  /\ has_metric metric v.

(** [b] is at least as good as [v] under the direction of the metric. *)
Definition at_least_as_good (metric : string) (b v : record) : Prop :=
  exists x y,
    metric_value metric b = Some x /\ metric_value metric v = Some y
    /\ (if str_in metric lower_is_better then F.leb x y else F.leb y x) = true.

Definition ex_record (name : string) (x : Q) : record :=
  [("estimator_name", VStr name); ("energy_distance", VNum (Fin x));
   ("qini", VNum (Fin x))].

(** A record whose family is named by a number. *)
Definition ex_numbered_record (name : Q) (x : Q) : record :=
  [("estimator_name", VNum (Fin name)); ("energy_distance", VNum (Fin x));
   ("qini", VNum (Fin x))].

(** A record whose energy distance is not a number. *)
Definition ex_nan_record : record :=
  [("estimator_name", VStr "LinearDML"); ("energy_distance", VNum NaN)].

Definition ex_scores : list (string * record) :=
  [("run1", ex_record "LinearDML" (3 # 10));
   ("run2", ex_record "LinearDML" (7 # 10));
   ("run3", ex_record "CausalForestDML" (1 # 10));
   ("run4", ex_record "CausalForestDML" (9 # 10))].

Definition ex_numbered_scores : list (string * record) :=
  [("run1", ex_numbered_record 2 (3 # 10));
   ("run2", ex_numbered_record 2 (7 # 10));
   ("run3", ex_numbered_record 1 (1 # 10));
   ("run4", ex_numbered_record 1 (9 # 10))].

(** ** Vocabulary for frame effects *)

(** The frame a variable points to. *)
Definition frame_at (w : world) (l : loc) : DataFrame :=
  nth l (frames w) empty_frame.

(** Between two states, no frame object disappeared and every frame kept
    its number of rows. *)
Definition rows_kept (w w' : world) : Prop :=
  (length (frames w) <= length (frames w'))%nat
  /\ forall l, (l < length (frames w))%nat ->
               Pd.nrows (frame_at w' l) = Pd.nrows (frame_at w l).

(** A computation that keeps the rows of every frame, whatever its
    outcome. *)
Definition stable {A} (m : M A) : Prop :=
  forall w, rows_kept w (snd (m w)).

(** A computation that leaves the frames alone. *)
Definition frames_untouched {A} (m : M A) : Prop :=
  forall w, frames (snd (m w)) = frames w.

(** The aggregator run on the worked example, every metric requested. *)
Definition ex_metrics : list string :=
  ["erupt"; "norm_erupt"; "prob_erupt"; "frobenius_norm"; "policy_risk";
   "qini"; "auc"; "ate"; "energy_distance"; "psw_energy_distance"; "codec"].

Definition ex_make_scores : result (list (string * outval)) * world :=
  make_scores ex_sqrt ex_energy_distance ex_pairwise_distances
    ex_quantile_transform ex_uplift_score ex_uplift_score ex_joint_weights
    ex_scorer ex_estimator 0%nat ex_metrics None ex_world.

Definition ex_out : list (string * outval) :=
  match fst ex_make_scores with
  | OK out => out
  | Raise _ => []
  end.

(** ** Vocabulary for the Frobenius score *)

(** The CATE estimates [frobenius_norm_score] works with: those of
    [effect], or of [effect_tt] when [effect] is missing, or none when both
    are missing; any other exception propagates. *)
Definition frobenius_cate (estimate : Estimator) (d : DataFrame)
  : result (option (list float)) :=
  match effect estimate d with
  | OK c => OK (Some c)
  | Raise AttributeError =>
      match effect_tt estimate d with
      | OK c => OK (Some c)
      | Raise AttributeError => OK None
      | Raise e => Raise e
      end
  | Raise e => Raise e
  end.

(** The treated group, the control group and the treatment column, as the
    metric functions obtain them from the reconstructed outcomes. *)
Definition split_groups (estimate : Estimator) (df : loc)
  : M (DataFrame * DataFrame * string) :=
  '(Y0X, treatment_name, split_test_by) <-
     _Y0_X_potential_outcomes estimate df ;;
  Y0X <- read Y0X ;;
  Y0X_1 <- lift (Pd.where_eq Y0X split_test_by F.one) ;;
  Y0X_0 <- lift (Pd.where_eq Y0X split_test_by F.zero) ;;
  ret (Y0X_1, Y0X_0, treatment_name).

(** The propensity weights of the treated rows and of the control rows. *)
Definition treated_weights (self : Scorer) (treated : DataFrame)
    (treatment_name : string) : result (list float) :=
  let* all_psw := predict_on self treated in
  let* treatment_series := Pd.getcol treated treatment_name in
  realized_propensity all_psw treatment_series.

Definition control_weights (self : Scorer) (control : DataFrame)
  : result (list float) :=
  let* all_psw := predict_on self control in
  column all_psw F.zero.

(** The weighted difference matrix built from the [m] leading rows: row
    [i] pairs row [i] of the treated frame with row [i] of the control
    frame, by position. *)
Definition leading_difference (sqrtQ : Q -> Q) (treated control : DataFrame)
    (psw1 psw0 : list float) (m : nat) : list (list float) :=
  map (fun i =>
         map (fun x =>
                F.mul x (np_sqrt sqrtQ (F.mul (nth i psw1 NaN) (nth i psw0 NaN))))
             (map2 F.sub (Pd.row treated i) (Pd.row control i)))
      (seq 0 m).

(** The normalised Frobenius norm of a matrix with [p] columns, or the
    sentinel when it is not finite. *)
Definition normalised_frobenius (sqrtQ : Q -> Q) (D : list (list float))
    (p : nat) : float :=
  let score :=
    F.div (np_sqrt sqrtQ (F.sum (map sq (concat D))))
          (np_sqrt sqrtQ (F.of_nat (length D * p))) in
  if F.isfinite score then score else PInf.

(** The groups of the worked example and what the Frobenius score reads
    from them. *)
Definition ex_split : result (DataFrame * DataFrame * string) * world :=
  split_groups ex_estimator 0%nat ex_world.

Definition ex_treated : DataFrame :=
  match fst ex_split with
  | OK (t, _, _) => t
  | Raise _ => empty_frame
  end.

Definition ex_control : DataFrame :=
  match fst ex_split with
  | OK (_, c, _) => c
  | Raise _ => empty_frame
  end.

Definition ex_selected (d : DataFrame) : DataFrame :=
  match Pd.select_cols d ["x"; "yhat"] with
  | OK a => a
  | Raise _ => empty_frame
  end.

Definition ex_weights (r : result (list float)) : list float :=
  match r with
  | OK l => l
  | Raise _ => []
  end.

(** A second example, with three treated and two control rows: without
    the truncation numpy would refuse to subtract the two groups. *)
Definition ex_frame_5 : DataFrame :=
  mkDF [0; 1; 2; 3; 4]%Z
    [("T", map Fin [1; 0; 1; 1; 0]%Q);
     ("Y", map Fin [5; 1; 7; 2; 4]%Q);
     ("x", map Fin [1; 2; 3; 4; 6]%Q);
     ("random", map Fin [1; 1; 0; 0; 1]%Q)].

Definition ex_estimator_5 : Estimator :=
  mkEstimator (inr ["T"]) "Y" ["x"] "backdoor" []
    (fun _ => OK (map Fin [1; 2; 3; 4; 5]%Q))
    (fun _ => OK (map Fin [1; 1; 1; 1; 1]%Q)).

Definition ex_world_5 : world := mkWorld [ex_frame_5] (fun _ => 0%nat) [].

Definition ex_split_5 : result (DataFrame * DataFrame * string) * world :=
  split_groups ex_estimator_5 0%nat ex_world_5.

Definition ex_treated_5 : DataFrame :=
  match fst ex_split_5 with
  | OK (t, _, _) => t
  | Raise _ => empty_frame
  end.

Definition ex_control_5 : DataFrame :=
  match fst ex_split_5 with
  | OK (_, c, _) => c
  | Raise _ => empty_frame
  end.

(** The first [n] frame objects are still there and unchanged. *)
Definition keeps (n : nat) (w w' : world) : Prop :=
  (n <= length (frames w'))%nat
  /\ forall l, (l < n)%nat -> frame_at w' l = frame_at w l.

(** A computation that does not write to the first [n] frame objects,
    whatever its outcome, and whose result satisfies [Q]. *)
Definition safe {A} (n : nat) (m : M A) (Q : A -> Prop) : Prop :=
  forall w, (n <= length (frames w))%nat ->
            keeps n w (snd (m w)) /\ forall a, fst (m w) = OK a -> Q a.

(** The working columns of the reconstruction are in frame [df]. *)
Definition has_working_columns (w : world) (df : loc) : Prop :=
  Pd.has_col (frame_at w df) "dy" = true
  /\ Pd.has_col (frame_at w df) "yhat" = true.

(** The column names of the caller's frame after a call. *)
Definition caller_columns_after {A} (run : result A * world) : list string :=
  Pd.column_names (frame_at (snd run) 0%nat).

(** ** Vocabulary for the catalogue *)

(** The problems [supported_metrics] has a list for. *)
Definition known_problem (p : string) : Prop := p = "iv" \/ p = "backdoor".

(** The metric is in the catalogue of the scorer, as a scoring metric
    ([scores_only = true]) or as a reported one. *)
Definition is_supported (self : Scorer) (scores_only : bool) (m : string)
  : bool :=
  match supported_metrics (problem self) (multivalue self) scores_only with
  | Some l => str_in m l
  | None => false
  end.

(** The line logged when a reported metric is dropped. *)
Definition dropping_warning (self : Scorer) (m : string) : string :=
  "Dropping the metric " ++ m ++ " for problem: " ++ problem self
  ++ "                         : must be one of "
  ++ py_str_opt_list
       (supported_metrics (problem self) (multivalue self) false).

(** ** Vocabulary for scores *)

(** A score that can be ranked: a number that is not negative, or the
    sentinel [+inf]; never [NaN]. *)
Definition comparable_score (x : float) : Prop :=
  x = PInf \/ exists q, x = Fin q /\ 0 <= q.

(** A square root worth the name returns nothing negative. *)
Definition sqrt_nonneg (sqrtQ : Q -> Q) : Prop := forall q, 0 <= sqrtQ q.

(** ** Vocabulary for policy risk *)

(** The label can address an array of [n] cells by position, counting from
    the end when it is negative. *)
Definition valid_position (n : nat) (i : Z) : Prop :=
  (- Z.of_nat n <= i < Z.of_nat n)%Z.

(** The rows [policy_risk_score] evaluates: those asked for, or all rows of
    the frame. *)
Definition rct_labels (rct_indices : option (list Z)) (d : DataFrame)
  : list Z :=
  match rct_indices with
  | None => df_index d
  | Some ix => ix
  end.

(** ** Vocabulary for CODEC *)

(** Every cell of the array is a finite number. *)
Definition all_finite (a : ndarray) : bool :=
  forallb F.isfinite (Np.flatten a).

(** The three nearest neighbours of every row, as the neighbour search
    returns them. *)
Definition neighbours (A : ndarray) : result (list (list (nat * Q))) :=
  let* pts := Sklearn.fit A in
  Sklearn.kneighbors pts.

(** Rows that coincide with another row: their second neighbour is at
    distance zero. *)
Definition repeated_rows (nb : list (list (nat * Q))) : list nat :=
  Np.where_true (fun r => Qeq_bool (Sklearn.dist_at 1 r) 0) nb.

(** Rows whose nearest other row is not unique: the second and the third
    neighbour are equally far, and the row is not a repeated one. *)
Definition tied_rows (nb : list (list (nat * Q))) : list nat :=
  ties_of nb (repeated_rows nb).

(** Rows in general position: no two coincide and every row has a unique
    nearest other row. *)
Definition general_position (nb : list (list (nat * Q))) : Prop :=
  repeated_rows nb = [] /\ tied_rows nb = [].

(** The neighbour search is modelled on exact squared distances, while
    scikit-learn compares distances computed in floating point.  The two
    agree when nothing is rounded: when the entries are integers of
    magnitude at most 100 in at most 16 columns (17 once a column [Z] is
    stacked to them), every squared distance is an integer below [2^20],
    computed exactly in single as in double precision, and different
    squared distances have different square roots.  Statements that
    depend on which rows coincide or tie are made for such inputs. *)
Definition small_integer (x : float) : Prop :=
  exists k : Z, x = Fin (inject_Z k) /\ (Z.abs k <= 100)%Z.

Definition exact_distances (A : ndarray) : Prop :=
  match A with
  | Arr1 v => Forall small_integer v
  | Arr2 c rows => (c <= 16)%nat /\ Forall (Forall small_integer) rows
  end.

(** [x] sorts strictly before [y] in the order of [np.argsort]: numbers in
    increasing order, [NaN] after every number. *)
Definition sorts_before (x y : float) : Prop :=
  Np.sort_le x y = true /\ Np.sort_le y x = false.

(** ** Vocabulary for the aggregator *)

(** A property of every value the computation can return. *)
Definition yields {A} (m : M A) (Q : A -> Prop) : Prop :=
  forall w a w', m w = (OK a, w') -> Q a.

(** The keys of a Python dict. *)
Definition keys {V} (d : list (string * V)) : list string := map fst d.

(** Entries [make_scores] adds without being asked for them by name. *)
Definition bookkeeping_keys : list string := ["values"; "ate_std"; "r_score"].

(** Every key of the record is allowed. *)
Definition only_allowed (allowed : string -> Prop)
    (out : list (string * outval)) : Prop :=
  forall k, In k (keys out) -> allowed k.

(** The metrics [make_scores] computes whatever the problem. *)
Definition problem_free_keys : list string :=
  ["ate"; "ate_std"; "energy_distance"; "psw_energy_distance"; "codec"].

(** The metrics [make_scores] computes for the backdoor problem only, the
    policy risk apart. *)
Definition backdoor_only_keys : list string :=
  ["erupt"; "norm_erupt"; "prob_erupt"; "frobenius_norm"; "qini"; "auc"].

(** ** More vocabulary for ranking *)

(** The records of one estimator family, in the order of the scores. *)
Definition family (records : list record) (name : value) : list record :=
  filter (has_name name) records.

(** The call of [min] or [max] that ranks one family. *)
Definition family_best (metric : string) (records : list record)
    (name : value) : result record :=
  if str_in metric lower_is_better
  then py_min (fun x => getitem x metric) (family records name)
  else py_max (fun x => getitem x metric) (family records name).

(** The record names its estimator family by a string. *)
Definition named (v : record) : Prop :=
  exists s, dict_get v "estimator_name" = Some (VStr s).

(** The record names its estimator family by a number other than [NaN]. *)
Definition named_by_number (v : record) : Prop :=
  exists x, dict_get v "estimator_name" = Some (VNum x) /\ x <> NaN.

(** Names that can be sorted and told apart: all of them strings, or all
    of them numbers other than [NaN]. *)
Definition comparable_names (records : list record) : Prop :=
  Forall named records \/ Forall named_by_number records.

(** A name that is equal to itself: a string, or a number other than
    [NaN]. *)
Definition proper (n : value) : Prop := value_eqb n n = true.

(** Names that are pairwise different. *)
Inductive separate : list value -> Prop :=
| separate_nil : separate []
| separate_cons (n : value) (l : list value) :
    (forall m, In m l -> value_eqb n m = false) -> separate l ->
    separate (n :: l).

(** [best[name]] *)
Definition best_get (best : list (value * record)) (name : value)
  : option record :=
  match find (fun e => value_eqb (fst e) name) best with
  | Some e => Some (snd e)
  | None => None
  end.

(** All strings, or all numbers with no [NaN] among them. *)
Definition homogeneous (l : list value) : Prop :=
  (exists ss, l = map VStr ss)
  \/ (exists xs, l = map VNum xs /\ existsb F.isnan xs = false).

(** The record holds a number under the metric, [NaN] included. *)
Definition numeric (metric : string) (v : record) : Prop :=
  exists x, metric_value metric v = Some x.

(** The record holds a number under the metric or nothing at all. *)
Definition numeric_or_missing (metric : string) (v : record) : Prop :=
  dict_get v metric = None \/ numeric metric v.

(** [b] is strictly better than [v] under the direction of the metric. *)
Definition strictly_better (metric : string) (b v : record) : Prop :=
  exists x y,
    metric_value metric b = Some x /\ metric_value metric v = Some y
    /\ (if str_in metric lower_is_better then F.ltb x y else F.ltb y x) = true.

(* ================================================================== *)
(** * Treatment effects by policy group *)

(** A key of the dict [tmp] of [group_ate]: the string ["all"] or a policy
    level. *)
Inductive tmp_key : Type :=
| KAll
| KLevel (p : float).

(** Keys are compared with [==]. *)
Definition key_eqb (a b : tmp_key) : bool :=
  match a, b with
  | KAll, KAll => true
  | KLevel p, KLevel q => F.eqb p q
  | _, _ => false
  end.

(** What [ate] returns: the effect (a number, or one number per treatment),
    its deviation and the sample size. *)
Definition ate_result : Type :=
  ((float + list float) * option float * option nat)%type.

(** [tmp[k] = v]: an existing key keeps its place. *)
Fixpoint tmp_set (d : list (tmp_key * ate_result)) (k : tmp_key)
    (v : ate_result) : list (tmp_key * ate_result) :=
  match d with
  | [] => [(k, v)]
  | e :: r =>
      if key_eqb (fst e) k then (fst e, v) :: r else e :: tmp_set r k v
  end.

(** [df[mask]] for a boolean series over the index of [df]. *)
Definition mask_frame (d : DataFrame) (mask : list bool) : result DataFrame :=
  if (length mask =? Pd.nrows d)%nat then OK (Pd.filter_rows d mask)
  else Raise IndexingError.

(** One row of the frame [group_ate] returns. *)
Record group_row : Type := mkRow {
  row_policy : string;
  row_mean : float + list float;
  row_std : option float;
  row_count : option nat
}.

Section GroupATE.

Variable sqrtQ : Q -> Q.

(** [str(p)] for a policy level: the float formatting of the platform. *)
Variable str_float : float -> string.

(** The order [sorted] leaves when a level is [NaN]. *)
Variable sorted_with_nan : list float -> list float.

(** The loop [for p in sorted(list(policy.unique()))]: the rows with
    policy [p] form a new frame, which [ate] evaluates. *)
Fixpoint group_loop (self : Scorer) (d : DataFrame) (policy levels : list float)
    (tmp : list (tmp_key * ate_result)) : M (list (tmp_key * ate_result)) :=
  match levels with
  | [] => ret tmp
  | p :: levels' =>
      sub <- lift (mask_frame d (map (fun x => F.eqb x p) policy)) ;;
      sub <- alloc sub ;;
      r <- ate sqrtQ self sub ;;
      group_loop self d policy levels' (tmp_set tmp (KLevel p) r)
  end.

Definition row_of (kv : tmp_key * ate_result) : group_row :=
  mkRow (match fst kv with
         | KAll => "all"
         | KLevel p => str_float p
         end)
        (fst (fst (snd kv))) (snd (fst (snd kv))) (snd (snd kv)).

(** [group_ate]: [policy] is a series over the index of [df]; the frame
    that is returned is kept as the list of its rows. *)
Definition group_ate (self : Scorer) (df : loc) (policy : list float)
  : M (list group_row) :=
  all <- ate sqrtQ self df ;;
  d <- read df ;;
  let levels := py_sorted sorted_with_nan (unique [] policy) in
  tmp <- group_loop self d policy levels [(KAll, all)] ;;
  ret (map row_of tmp).

End GroupATE.

(** ** Vocabulary for the policy groups *)

(** A stand-in for the float formatting, enough to tell the levels of the
    examples apart. *)
Definition ex_str_float (x : float) : string :=
  match x with
  | NaN => "nan"
  | PInf => "inf"
  | NInf => "-inf"
  | Fin q => if Qeq_bool q 0 then "0.0"
             else if Qeq_bool q 1 then "1.0" else "other"
  end.

(** The sizes reported in a list of rows, when every row has one. *)
Fixpoint total_count (rows : list group_row) : option nat :=
  match rows with
  | [] => Some 0%nat
  | r :: rest =>
      match row_count r, total_count rest with
      | Some c, Some t => Some (c + t)%nat
      | _, _ => None
      end
  end.

(** Numbers that are pairwise different. *)
Inductive distinct : list float -> Prop :=
| distinct_nil : distinct []
| distinct_cons (x : float) (l : list float) :
    (forall q, In q l -> F.eqb x q = false) -> distinct l -> distinct (x :: l).

(** Two neighbour entries that name the same row at the same distance. *)
Definition same_neighbour (p q : nat * Q) : Prop :=
  fst p = fst q /\ snd p == snd q.

(* ================================================================== *)
(** * Properties *)

Unset Implicit Arguments.

(** ** Reasoning about monadic code *)

Lemma bind_OK {A B} (m : M A) (k : A -> M B) (w w' : world) (b : B) :
  bind m k w = (OK b, w') ->
  exists a w1, m w = (OK a, w1) /\ k a w1 = (OK b, w').
Proof.
  unfold bind. destruct (m w) as [[a|e] w1] eqn:E; intros H.
  - exists a, w1. split; [reflexivity | exact H].
  - discriminate H.
Qed.

Lemma lift_OK {A} (r : result A) (w w' : world) (a : A) :
  lift r w = (OK a, w') -> r = OK a /\ w' = w.
Proof. unfold lift. intros H. inversion H. split; reflexivity. Qed.

Lemma ret_OK {A} (x a : A) (w w' : world) :
  ret x w = (OK a, w') -> a = x /\ w' = w.
Proof. unfold ret. intros H. inversion H. split; reflexivity. Qed.

Lemma rbind_OK {A B} (r : result A) (k : A -> result B) (b : B) :
  rbind r k = OK b -> exists a, r = OK a /\ k a = OK b.
Proof.
  destruct r as [a|e]; simpl; intros H; [exists a; auto | discriminate].
Qed.

(** Peel one step off a successful run found in hypothesis [H]. *)
Ltac step H :=
  let a := fresh "a" in
  let w := fresh "w" in
  let Ha := fresh "Hstep" in
  apply bind_OK in H; destruct H as (a & w & Ha & H).

Ltac pure_step H :=
  match type of H with
  | lift _ _ = (OK _, _) =>
      let E := fresh "E" in apply lift_OK in H; destruct H as [E ->]
  | ret _ _ = (OK _, _) =>
      let E := fresh "E" in apply ret_OK in H; destruct H as [E ->]
  end.

(** ** Lists of strings *)

Lemma str_in_In (s : string) (l : list string) :
  str_in s l = true <-> In s l.
Proof.
  unfold str_in. rewrite existsb_exists. split.
  - intros (x & Hx & E). apply String.eqb_eq in E. now subst.
  - intros H. exists s. split; [exact H | apply String.eqb_refl].
Qed.

Lemma str_in_false (s : string) (l : list string) :
  str_in s l = false <-> ~ In s l.
Proof.
  rewrite <- str_in_In. destruct (str_in s l); split; intros H;
    try reflexivity; try discriminate; try (intros H'; discriminate).
  exfalso. now apply H.
Qed.

Lemma str_dedup_In (x : string) (l : list string) :
  In x (str_dedup l) <-> In x l.
Proof.
  induction l as [|y r IH]; simpl; [tauto|].
  destruct (str_in y r) eqn:E.
  - rewrite IH. split; [tauto|]. intros [->|H]; [|exact H].
    now apply str_in_In.
  - simpl. rewrite IH. tauto.
Qed.

Lemma str_dedup_NoDup (l : list string) : NoDup (str_dedup l).
Proof.
  induction l as [|y r IH]; simpl; [constructor|].
  destruct (str_in y r) eqn:E; [exact IH|].
  constructor; [|exact IH].
  rewrite str_dedup_In. now apply str_in_false.
Qed.

Lemma insert_by_perm {A} (le : A -> A -> bool) (x : A) (l : list A) :
  Permutation (x :: l) (insert_by le x l).
Proof.
  induction l as [|y r IH]; simpl; [reflexivity|].
  destruct (le x y); [reflexivity|].
  rewrite perm_swap. now constructor.
Qed.

Lemma sort_by_perm {A} (le : A -> A -> bool) (l : list A) :
  Permutation l (sort_by le l).
Proof.
  induction l as [|x r IH]; simpl; [constructor|].
  etransitivity; [|apply insert_by_perm]. now constructor.
Qed.

Lemma sorted_set_In (x : string) (l : list string) :
  In x (sorted_set l) <-> In x l.
Proof.
  unfold sorted_set, str_sort.
  transitivity (In x (str_dedup l)); [|apply str_dedup_In].
  split.
  - apply Permutation_in. symmetry. apply sort_by_perm.
  - apply Permutation_in. apply sort_by_perm.
Qed.

Lemma sorted_set_NoDup (l : list string) : NoDup (sorted_set l).
Proof.
  unfold sorted_set, str_sort.
  eapply Permutation_NoDup; [apply sort_by_perm | apply str_dedup_NoDup].
Qed.

(** ** The metric catalogue *)

(** C8.  On a scorer for the backdoor problem without multi-valued
    treatment, [resolve_metric] maps every name outside the supported set
    to ["energy_distance"] and logs exactly one warning; a supported name
    comes back unchanged (and nothing is logged). *)
Theorem resolve_metric_backdoor (self : Scorer) (metric : string) (w : world) :
  problem self = "backdoor" ->
  multivalue self = false ->
  (~ In metric backdoor_scoring_metrics ->
   resolve_metric self metric w
   = (OK "energy_distance",
      mkWorld (frames w) (rand w) (log w ++ [fallback_warning metric])))
  /\ (In metric backdoor_scoring_metrics ->
      resolve_metric self metric w = (OK metric, w)).
Proof.
  intros Hp Hm. unfold resolve_metric. rewrite Hp, Hm.
  change (supported_metrics "backdoor" false true)
    with (Some backdoor_scoring_metrics).
  unfold not_in, bind, ret. split; intros H.
  - apply str_in_false in H. rewrite H. reflexivity.
  - apply str_in_In in H. rewrite H. reflexivity.
Qed.

(** ** Problems outside the catalogue *)

Lemma supported_metrics_other (p : string) (mv so : bool) :
  p <> "iv" -> p <> "backdoor" -> supported_metrics p mv so = None.
Proof.
  intros H1 H2. unfold supported_metrics.
  apply String.eqb_neq in H1, H2. now rewrite H1, H2.
Qed.

Lemma sorted_set_nonempty (l : list string) (s : string) :
  sorted_set (l ++ [s]) <> [].
Proof.
  intros E.
  assert (H : In s (sorted_set (l ++ [s]))).
  { apply sorted_set_In. apply in_or_app. right. now left. }
  rewrite E in H. exact H.
Qed.

(** C10, as amended.  For a problem string other than ["iv"] and
    ["backdoor"], [supported_metrics] yields [None]; [resolve_metric] then
    raises for every metric, and [resolve_reported_metrics] raises whenever
    it is given a list of metrics -- but with [metrics_to_report = None] it
    returns [None] without raising. *)
Theorem unknown_problem_resolution (self : Scorer) (w : world) :
  problem self <> "iv" ->
  problem self <> "backdoor" ->
  (forall so, supported_metrics (problem self) (multivalue self) so = None)
  /\ (forall metric, resolve_metric self metric w = (Raise TypeError, w))
  /\ (forall l scoring_metric,
        resolve_reported_metrics self (Some l) scoring_metric w
        = (Raise TypeError, w))
  /\ (forall scoring_metric,
        resolve_reported_metrics self None scoring_metric w = (OK None, w)).
Proof.
  intros H1 H2.
  assert (HS : forall so,
             supported_metrics (problem self) (multivalue self) so = None)
    by (intros; now apply supported_metrics_other).
  split; [exact HS|]. split; [|split].
  - intros metric. unfold resolve_metric. rewrite HS. reflexivity.
  - intros l sm. unfold resolve_reported_metrics. rewrite HS.
    destruct (sorted_set (l ++ [sm])) as [|m r] eqn:E.
    + exfalso. eapply sorted_set_nonempty. exact E.
    + reflexivity.
  - intros sm. unfold resolve_reported_metrics. rewrite HS. reflexivity.
Qed.

(** ** The naive treatment effect *)

Lemma select_length_count (v : float) (t o : list float) :
  length t = length o ->
  length (Pd.present (Np.select (map (fun x => F.eqb x v) t) o))
  = count_present v t o.
Proof.
  unfold count_present, counts_for, Pd.present. revert o.
  induction t as [|x t IH]; intros [|y o] H; simpl in *; try discriminate;
    try reflexivity.
  injection H as H. destruct (F.eqb x v); simpl; [|now apply IH].
  destruct (F.isnan y); simpl; now rewrite IH.
Qed.

Lemma select_sum_where (v : float) (t o : list float) (acc : float) :
  length t = length o ->
  fold_left F.add (Pd.present (Np.select (map (fun x => F.eqb x v) t) o)) acc
  = fold_left (fun a row => if counts_for v row then F.add a (snd row) else a)
      (combine t o) acc.
Proof.
  unfold counts_for, Pd.present. revert o acc.
  induction t as [|x t IH]; intros [|y o] acc H; simpl in *; try discriminate;
    try reflexivity.
  injection H as H. destruct (F.eqb x v); simpl; [|now apply IH].
  destruct (F.isnan y); simpl; now rewrite IH.
Qed.

Lemma mean_select_conditional (v : float) (t o : list float) :
  length t = length o ->
  Pd.mean (Np.select (map (fun x => F.eqb x v) t) o) = conditional_mean v t o.
Proof.
  intros H. unfold conditional_mean, Pd.mean, F.mean.
  pose proof (select_length_count v t o H) as L.
  destruct (Pd.present (Np.select (map (fun x => F.eqb x v) t) o))
    as [|a s] eqn:E.
  - simpl in L. rewrite <- L. reflexivity.
  - rewrite <- L. simpl Nat.eqb. cbv iota. f_equal.
    unfold F.sum. rewrite <- E. unfold sum_where.
    now apply select_sum_where.
Qed.

Lemma count_true_eqb (v : float) (t : list float) :
  count_true (map (fun x => F.eqb x v) t) = count_where v t.
Proof.
  unfold count_true, count_where.
  induction t as [|x t IH]; simpl; [reflexivity|].
  destruct (F.eqb x v); simpl; now rewrite IH.
Qed.

Lemma count_where_le (v : float) (t : list float) :
  (count_where v t <= length t)%nat.
Proof. unfold count_where. apply filter_length_le. Qed.

Lemma math_sqrt_total (sqrtQ : Q -> Q) (x : float) :
  sqrt_domain x -> exists r, math_sqrt sqrtQ x = OK r.
Proof.
  destruct x as [|q| |]; simpl; intros H; try contradiction; eauto.
  rewrite H. eauto.
Qed.

Lemma Q_square_nonneg (q : Q) : Qle_bool 0 (q * q) = true.
Proof.
  apply Qle_bool_iff. unfold Qle, Qmult. simpl.
  rewrite Z.mul_1_r. apply Z.square_nonneg.
Qed.

Lemma square_in_sqrt_domain (x : float) : sqrt_domain (F.mul x x).
Proof.
  destruct x as [|q| |]; simpl; try exact I. apply Q_square_nonneg.
Qed.

Lemma add_in_sqrt_domain (x y : float) :
  sqrt_domain x -> sqrt_domain y -> sqrt_domain (F.add x y).
Proof.
  destruct x as [|p| |], y as [|q| |]; simpl; try tauto.
  rewrite !Qle_bool_iff. intros Hp Hq.
  setoid_replace 0 with (0 + 0) by reflexivity.
  now apply Qplus_le_compat.
Qed.

Lemma of_nat_in_sqrt_domain (n : nat) : sqrt_domain (F.of_nat n).
Proof.
  simpl. apply Qle_bool_iff. unfold Qle. simpl. lia.
Qed.

Lemma binary_counts (t : list float) :
  Forall (fun x => F.eqb x F.one = true \/ F.eqb x F.zero = true) t ->
  (count_where F.one t + count_where F.zero t = length t)%nat.
Proof.
  unfold count_where.
  induction 1 as [|x t Hx _ IH]; simpl; [reflexivity|].
  destruct x as [|q| |]; simpl in *; try (destruct Hx; discriminate).
  destruct (Qeq_bool q 1) eqn:E1, (Qeq_bool q 0) eqn:E0; simpl.
  - apply Qeq_bool_iff in E1, E0. rewrite E1 in E0. discriminate.
  - lia.
  - lia.
  - destruct Hx; discriminate.
Qed.

(** C5.  For a treatment series with values in {0, 1} and an outcome
    series of the same length, [naive_ate] returns (it is deterministic:
    a function of its two arguments) a triple whose first component is
    the mean outcome of the treated rows minus the mean outcome of the
    control rows, and whose third component is the length of the input;
    the two groups together are the whole input.  As everywhere in
    pandas, a mean is taken over the outcomes that are present. *)
Theorem naive_ate_mean_and_size (sqrtQ : Q -> Q) (treatment outcome : list float) :
  length treatment = length outcome ->
  Forall (fun x => F.eqb x F.one = true \/ F.eqb x F.zero = true) treatment ->
  (exists std_,
     naive_ate sqrtQ treatment outcome
     = OK (F.sub (conditional_mean F.one treatment outcome)
                 (conditional_mean F.zero treatment outcome),
           std_, length outcome))
  /\ (count_where F.one treatment + count_where F.zero treatment
      = length outcome)%nat.
Proof.
  intros L B. split; [|rewrite <- L; now apply binary_counts].
  unfold naive_ate, bool_index.
  rewrite !length_map, <- L, Nat.eqb_refl. cbn [rbind].
  rewrite !mean_select_conditional by exact L.
  rewrite count_true_eqb.
  destruct (math_sqrt_total sqrtQ (F.of_nat (count_where F.one treatment))
              (of_nat_in_sqrt_domain _)) as [r1 E1].
  rewrite E1. cbn [rbind].
  assert (D0 : sqrt_domain
                 (F.of_Z (Z.of_nat (length treatment)
                          - Z.of_nat (count_where F.one treatment)))).
  { simpl. apply Qle_bool_iff. unfold Qle. simpl.
    pose proof (count_where_le F.one treatment). lia. }
  destruct (math_sqrt_total sqrtQ _ D0) as [r0 E0].
  rewrite E0. cbn [rbind].
  match goal with
  | |- context [math_sqrt sqrtQ (F.add (F.mul ?a ?a) (F.mul ?b ?b))] =>
      destruct (math_sqrt_total sqrtQ (F.add (F.mul a a) (F.mul b b))
                  (add_in_sqrt_domain _ _ (square_in_sqrt_domain a)
                     (square_in_sqrt_domain b))) as [s Es]
  end.
  rewrite Es. cbn [rbind]. eexists. reflexivity.
Qed.

Lemma resolve_metric_backdoor_witness :
  resolve_metric ex_scorer "bogus_metric" ex_world
  = (OK "energy_distance",
     mkWorld (frames ex_world) (rand ex_world)
       (log ex_world ++ [fallback_warning "bogus_metric"]))
  /\ resolve_metric ex_scorer "qini" ex_world = (OK "qini", ex_world).
Proof.
  split.
  - apply (proj1 (resolve_metric_backdoor ex_scorer "bogus_metric" ex_world
                    eq_refl eq_refl)).
    simpl. intros H. repeat (destruct H as [H|H]; [discriminate H|]). exact H.
  - apply (proj2 (resolve_metric_backdoor ex_scorer "qini" ex_world
                    eq_refl eq_refl)).
    simpl. tauto.
Defined.

(** C10, the claim as stated fails: on a scorer for an unknown problem,
    [resolve_reported_metrics] with no list of metrics returns [None] and
    raises nothing. *)
Lemma resolve_reported_metrics_None_does_not_raise :
  problem ex_unknown_scorer <> "iv"
  /\ problem ex_unknown_scorer <> "backdoor"
  /\ resolve_reported_metrics ex_unknown_scorer None "energy_distance" ex_world
     = (OK None, ex_world)
  /\ ~ (exists e,
          fst (resolve_reported_metrics ex_unknown_scorer None
                 "energy_distance" ex_world) = Raise e).
Proof.
  repeat split; try discriminate.
  intros [e H]. discriminate H.
Qed.

Lemma unknown_problem_resolution_witness :
  resolve_metric ex_unknown_scorer "qini" ex_world = (Raise TypeError, ex_world)
  /\ resolve_reported_metrics ex_unknown_scorer (Some ["qini"]) "codec" ex_world
     = (Raise TypeError, ex_world)
  /\ resolve_reported_metrics ex_unknown_scorer None "codec" ex_world
     = (OK None, ex_world).
Proof.
  assert (H1 : problem ex_unknown_scorer <> "iv") by discriminate.
  assert (H2 : problem ex_unknown_scorer <> "backdoor") by discriminate.
  destruct (unknown_problem_resolution ex_unknown_scorer ex_world H1 H2)
    as (_ & A & B & C).
  split; [apply A | split; [apply B | apply C]].
Defined.

Lemma naive_ate_mean_and_size_witness :
  exists std_,
    naive_ate ex_sqrt (vec [1; 0; 1; 0]) (vec [5; 1; 7; 2])
    = OK (F.sub (conditional_mean F.one (vec [1; 0; 1; 0]) (vec [5; 1; 7; 2]))
                (conditional_mean F.zero (vec [1; 0; 1; 0]) (vec [5; 1; 7; 2])),
          std_, 4%nat).
Proof.
  refine (proj1 (naive_ate_mean_and_size ex_sqrt
                   (vec [1; 0; 1; 0]) (vec [5; 1; 7; 2]) eq_refl _)).
  repeat (apply Forall_cons;
          [first [left; reflexivity | right; reflexivity]|]).
  apply Forall_nil.
Defined.

(** ** Policy risk on estimates without signal *)

Lemma ltb_leb (x y : float) : F.ltb x y = true -> F.leb x y = true.
Proof.
  destruct x as [|p| |], y as [|q| |]; simpl; try discriminate; try reflexivity.
  unfold F.Qltb. intros H. apply negb_true_iff in H.
  apply Qle_bool_iff. apply Qlt_le_weak. apply Qnot_le_lt.
  intros C. apply Qle_bool_iff in C. congruence.
Qed.

(** C7.  When the standard deviation of the CATE estimates is below the
    threshold, [policy_risk_score] returns 0: a value, not an exception and
    not the infinity the distance-based metrics use.  The result does not
    depend on the policy, the propensity model or the frame, none of which
    is consulted, and the state is left as it was. *)
Theorem policy_risk_score_no_signal (sqrtQ : Q -> Q) (self : Scorer)
    (estimate : Estimator) (df : loc) (cate_estimate : list float)
    (outcome_name : string)
    (policy : option (list float -> result (list float)))
    (rct_indices : option (list Z)) (sd_threshold clip : float) (w : world) :
  F.ltb (np_std sqrtQ cate_estimate) sd_threshold = true ->
  policy_risk_score sqrtQ self estimate df cate_estimate outcome_name policy
    rct_indices sd_threshold clip w
  = (OK (Fin 0), w)
  /\ Fin 0 <> PInf.
Proof.
  intros H. split; [|discriminate].
  unfold policy_risk_score, bind, read.
  now rewrite (ltb_leb _ _ H).
Qed.

Lemma policy_risk_score_no_signal_witness :
  policy_risk_score ex_sqrt ex_unknown_scorer ex_estimator 0%nat
    (vec [2; 2; 2; 2]) "Y" (Some (fun _ => Raise ExternalError)) None
    (Fin (1 # 100)) (Fin (5 # 100)) ex_world
  = (OK (Fin 0), ex_world).
Proof.
  apply (policy_risk_score_no_signal ex_sqrt ex_unknown_scorer ex_estimator
           0%nat (vec [2; 2; 2; 2]) "Y" (Some (fun _ => Raise ExternalError)) None
           (Fin (1 # 100)) (Fin (5 # 100)) ex_world).
  vm_compute. reflexivity.
Defined.

(** ** CODEC without a conditioning set *)

Lemma concat_repeat_nil {A} (n : nat) : concat (repeat (@nil A) n) = [].
Proof. induction n; simpl; auto. Qed.

Lemma select_length_same {A B} (mask : list bool) (a : list A) (b : list B) :
  length a = length b ->
  length (Np.select mask a) = length (Np.select mask b).
Proof.
  revert a b. induction mask as [|m mask IH]; intros [|x a] [|y b] H;
    simpl in *; try discriminate; try reflexivity.
  injection H as H. destruct m; simpl; auto.
Qed.

(** With a zero-width matrix in the position of [Z], the reshape leaves an
    array without rows, which cannot be stacked next to [X]. *)
Lemma estimateConditionalQ_zero_width (Y : list float) (X : ndarray) (n : nat)
    (w : world) :
  Np.shape0 X <> 0%nat ->
  estimateConditionalQ Y X (Np.zeros_n_0 n) w = (Raise ValueError, w).
Proof.
  intros H. unfold estimateConditionalQ, Np.zeros_n_0, Np.reshape_col.
  simpl Np.flatten. rewrite concat_repeat_nil. simpl map.
  unfold bind, lift.
  destruct X as [v|c rows]; simpl; [reflexivity|].
  simpl in H. destruct rows; [contradiction|reflexivity].
Qed.

(** C2, what the code does.  Called without a conditioning set, [codec]
    never computes a dependence measure: whatever the response, the
    predictors and the flag, the call ends in an exception.  The zero-width
    matrix is passed in the position of [Z] and the predictors in the
    position of the conditioning set [X]. *)
Theorem codec_without_X_raises (Y : list float) (Z : ndarray) (na_rm : bool)
    (w : world) :
  exists e, codec Y Z None na_rm w = (Raise e, w).
Proof.
  unfold codec.
  destruct (length Y =? Np.shape0 Z)%nat eqn:L; simpl;
    [|eexists; reflexivity].
  apply Nat.eqb_eq in L.
  destruct na_rm.
  - destruct Z as [v|c rows]; [eexists; reflexivity|].
    simpl in L. unfold bind at 1. unfold bind at 1. simpl Np.all_finite_axis1.
    unfold lift at 1. cbv iota beta.
    unfold bind at 1. unfold Np.broadcast2, lift at 1.
    rewrite !length_map, L, Nat.eqb_refl. cbv iota beta.
    unfold ret at 1. cbv iota beta.
    match goal with
    | |- context [Np.select ?m Y] => set (mask := m)
    end.
    destruct (length (Np.select mask Y) <? 2)%nat eqn:N;
      [eexists; reflexivity|].
    exists ValueError. apply estimateConditionalQ_zero_width.
    simpl. rewrite <- (select_length_same mask Y rows L).
    apply Nat.ltb_ge in N. lia.
  - unfold bind at 1. unfold ret at 1. cbv iota beta.
    destruct (length Y <? 2)%nat eqn:N; [eexists; reflexivity|].
    exists ValueError. apply estimateConditionalQ_zero_width.
    apply Nat.ltb_ge in N. lia.
Qed.

(** At a concrete input: three finite rows, one predictor column. *)
Lemma codec_without_X_example :
  codec (vec [1; 2; 3]) (col [1; 2; 3]) None true ex_world
  = (Raise ValueError, ex_world).
Proof. reflexivity. Qed.

(** ** Ranking *)

Lemma leb_trans (a b c : float) :
  F.leb a b = true -> F.leb b c = true -> F.leb a c = true.
Proof.
  destruct a as [|p| |], b as [|q| |], c as [|r| |]; simpl;
    try discriminate; try reflexivity.
  rewrite !Qle_bool_iff. apply Qle_trans.
Qed.

Lemma ltb_false_leb (a b : float) :
  a <> NaN -> b <> NaN -> F.ltb a b = false -> F.leb b a = true.
Proof.
  destruct a as [|p| |], b as [|q| |]; simpl; try discriminate;
    try reflexivity; try congruence.
  unfold F.Qltb. intros _ _ H. now apply negb_false_iff in H.
Qed.

Lemma leb_refl (a : float) : a <> NaN -> F.leb a a = true.
Proof.
  destruct a as [|p| |]; simpl; try reflexivity; try congruence.
  intros _. apply Qle_bool_iff. apply Qle_refl.
Qed.

Section Extremum.

Variable metric : string.

(** The direction of the comparison: [le] is "at least as good". *)
Variable le : float -> float -> bool.
Variable better : value -> value -> result bool.

Hypothesis le_trans : forall a b c, le a b = true -> le b c = true -> le a c = true.
Hypothesis le_refl : forall a, a <> NaN -> le a a = true.
Hypothesis better_num :
  forall x y, exists b, better (VNum x) (VNum y) = OK b
    /\ (b = true -> le x y = true)
    /\ (b = false -> x <> NaN -> y <> NaN -> le y x = true).

Lemma key_of_metric (v : record) (x : float) :
  metric_value metric v = Some x -> getitem v metric = OK (VNum x).
Proof.
  unfold getitem, metric_value.
  destruct (dict_get v metric) as [[s|y]|]; intros H; try discriminate.
  now injection H as ->.
Qed.

Lemma extremum_loop_spec (l : list record) :
  Forall (has_metric metric) l ->
  forall cur x,
    metric_value metric cur = Some x -> x <> NaN ->
    exists b y,
      extremum_loop better (fun x => getitem x metric) cur (VNum x) l = OK b
      /\ In b (cur :: l)
      /\ metric_value metric b = Some y /\ y <> NaN
      /\ le y x = true
      /\ (forall v z, In v l -> metric_value metric v = Some z -> le y z = true).
Proof.
  induction 1 as [|v l Hv Hl IH]; intros cur x Hc Hx.
  - exists cur, x. simpl. repeat split; auto.
  - destruct Hv as (z & Hz & Hzn). simpl.
    rewrite (key_of_metric v z Hz). cbn [rbind].
    destruct (better_num z x) as (b & Eb & Ht & Hf). rewrite Eb. cbn [rbind].
    destruct b.
    + destruct (IH v z Hz Hzn) as (r & y & E & Hin & Hy & Hyn & Hle & Hall).
      exists r, y. split; [exact E|]. split.
      { destruct Hin as [<-|Hin]; [right; now left | right; now right]. }
      split; [exact Hy|]. split; [exact Hyn|]. split.
      { eapply le_trans; [exact Hle | now apply Ht]. }
      intros v' z' [<-|Hin'] Hz'.
      * rewrite Hz in Hz'. injection Hz' as <-. exact Hle.
      * eapply Hall; eauto.
    + destruct (IH cur x Hc Hx) as (r & y & E & Hin & Hy & Hyn & Hle & Hall).
      exists r, y. split; [exact E|]. split.
      { destruct Hin as [<-|Hin]; [now left | right; now right]. }
      split; [exact Hy|]. split; [exact Hyn|]. split; [exact Hle|].
      intros v' z' [<-|Hin'] Hz'.
      * rewrite Hz in Hz'. injection Hz' as <-.
        eapply le_trans; [exact Hle | now apply Hf].
      * eapply Hall; eauto.
Qed.

Lemma extremum_spec (l : list record) :
  l <> [] ->
  Forall (has_metric metric) l ->
  exists b y,
    extremum better (fun x => getitem x metric) l = OK b
    /\ In b l
    /\ metric_value metric b = Some y
    /\ (forall v z, In v l -> metric_value metric v = Some z -> le y z = true).
Proof.
  destruct l as [|c l]; [congruence|]. intros _ H.
  inversion H as [|? ? Hc Hl]; subst.
  destruct Hc as (x & Hx & Hxn). simpl.
  rewrite (key_of_metric c x Hx). cbn [rbind].
  destruct (extremum_loop_spec l Hl c x Hx Hxn)
    as (b & y & E & Hin & Hy & Hyn & Hle & Hall).
  exists b, y. repeat split; auto.
  intros v z [<-|Hin'] Hz.
  - rewrite Hx in Hz. injection Hz as <-. exact Hle.
  - eapply Hall; eauto.
Qed.

End Extremum.

(** ** Equality of floats and of names *)

Lemma Qeq_bool_sym (p q : Q) : Qeq_bool p q = Qeq_bool q p.
Proof.
  destruct (Qeq_bool p q) eqn:E, (Qeq_bool q p) eqn:E'; try reflexivity.
  - apply Qeq_bool_iff in E. symmetry in E. apply Qeq_bool_iff in E.
    congruence.
  - apply Qeq_bool_iff in E'. symmetry in E'. apply Qeq_bool_iff in E'.
    congruence.
Qed.

Lemma eqb_sym (a b : float) : F.eqb a b = F.eqb b a.
Proof.
  destruct a as [|p| |], b as [|q| |]; simpl; try reflexivity.
  apply Qeq_bool_sym.
Qed.

Lemma eqb_trans (a b c : float) :
  F.eqb a b = true -> F.eqb b c = true -> F.eqb a c = true.
Proof.
  destruct a as [|p| |], b as [|q| |], c as [|r| |]; simpl;
    try discriminate; try reflexivity.
  rewrite !Qeq_bool_iff. intros H1 H2. now rewrite H1.
Qed.

Lemma eqb_refl_number (a : float) : F.isnan a = false -> F.eqb a a = true.
Proof.
  destruct a as [|p| |]; simpl; try reflexivity; try discriminate.
  intros _. apply Qeq_bool_iff. reflexivity.
Qed.

Lemma eqb_not_NaN (a b : float) : F.eqb a b = true -> F.isnan a = false.
Proof. destruct a, b; simpl; try discriminate; reflexivity. Qed.

Lemma isnan_false (x : float) : x <> NaN -> F.isnan x = false.
Proof. destruct x; simpl; congruence. Qed.

Lemma value_eqb_sym (a b : value) : value_eqb a b = value_eqb b a.
Proof.
  destruct a as [s|x], b as [t|y]; simpl; try reflexivity.
  - apply String.eqb_sym.
  - apply eqb_sym.
Qed.

Lemma value_eqb_trans (a b c : value) :
  value_eqb a b = true -> value_eqb b c = true -> value_eqb a c = true.
Proof.
  destruct a as [s|x], b as [t|y], c as [u|z]; simpl; try discriminate.
  - rewrite !String.eqb_eq. congruence.
  - apply eqb_trans.
Qed.

Lemma value_eqb_VStr (s : string) (n : value) :
  value_eqb (VStr s) n = true -> n = VStr s.
Proof.
  destruct n as [t|y]; simpl; [|discriminate].
  intros H. apply String.eqb_eq in H. now subst.
Qed.

Lemma proper_VStr (s : string) : proper (VStr s).
Proof. apply String.eqb_refl. Qed.

Lemma proper_VNum (x : float) : x <> NaN -> proper (VNum x).
Proof. intros H. apply eqb_refl_number. now apply isnan_false. Qed.

Lemma has_name_of (v : record) (n m : value) :
  dict_get v "estimator_name" = Some m -> has_name n v = value_eqb m n.
Proof. unfold has_name. now intros ->. Qed.

(** ** The names in sorted order *)

Lemma separate_perm (l l' : list value) :
  Permutation l l' -> separate l -> separate l'.
Proof.
  induction 1 as [|x l l' P IH|x y l|l l' l'' P1 IH1 P2 IH2]; intros H.
  - exact H.
  - inversion H as [|? ? Hx Hl]; subst. constructor; [|now apply IH].
    intros q Hq. apply Hx. eapply Permutation_in; [symmetry; exact P | exact Hq].
  - inversion H as [|? ? Hy Hl]; subst. inversion Hl as [|? ? Hx Hl']; subst.
    constructor.
    + intros q [<-|Hq]; [rewrite value_eqb_sym; apply Hy; now left
                        | now apply Hx].
    + constructor; [|exact Hl']. intros q Hq. apply Hy. now right.
  - auto.
Qed.

(** [set(names)] keeps names that are pairwise different, one for every
    name that is equal to itself, and adds none. *)
Lemma value_set_spec (l seen : list value) :
  separate (value_set seen l)
  /\ (forall p q, In p (value_set seen l) -> In q seen ->
                  value_eqb p q = false)
  /\ (forall x, In x l -> proper x ->
        (exists q, In q seen /\ value_eqb x q = true)
        \/ exists p, In p (value_set seen l) /\ value_eqb x p = true)
  /\ (forall p, In p (value_set seen l) -> In p l).
Proof.
  revert seen. induction l as [|x l IH]; intros seen; simpl.
  - split; [constructor|]. split; [intros p q []|].
    split; [intros x [] | intros p []].
  - destruct (existsb (value_eqb x) seen) eqn:E.
    + destruct (IH seen) as (D & S & C & I).
      split; [exact D|]. split; [exact S|]. split.
      * intros y [<-|Hy] Hn; [|now apply C].
        left. apply existsb_exists in E. destruct E as (q & Hq & Eq). eauto.
      * intros p Hp. right. now apply I.
    + destruct (IH (x :: seen)) as (D & S & C & I).
      assert (Hx : forall q, In q seen -> value_eqb x q = false).
      { intros q Hq. destruct (value_eqb x q) eqn:Eq; [|reflexivity].
        assert (T : existsb (value_eqb x) seen = true)
          by (apply existsb_exists; eauto).
        congruence. }
      split; [|split; [|split]].
      * constructor; [|exact D]. intros q Hq. rewrite value_eqb_sym.
        apply (S q x Hq). now left.
      * intros p q [<-|Hp] Hq; [now apply Hx|]. apply (S p q Hp). now right.
      * intros y [<-|Hy] Hn.
        -- right. exists x. split; [now left | exact Hn].
        -- destruct (C y Hy Hn) as [(q & [<-|Hq] & Eq)|(p & Hp & Ep)].
           ++ right. exists x. split; [now left | exact Eq].
           ++ left. eauto.
           ++ right. exists p. split; [now right | exact Ep].
      * intros p [<-|Hp]; [now left | right; now apply I].
Qed.

Lemma strings_of_map (ss : list string) : strings_of (map VStr ss) = Some ss.
Proof. induction ss as [|s ss IH]; simpl; [reflexivity | now rewrite IH]. Qed.

Lemma numbers_of_map (xs : list float) : numbers_of (map VNum xs) = Some xs.
Proof. induction xs as [|x xs IH]; simpl; [reflexivity | now rewrite IH]. Qed.

(** On names that can be compared, [sorted] returns a permutation. *)
Lemma sorted_values_perm (sorted_with_nan : list float -> list float)
    (l : list value) :
  homogeneous l ->
  exists l', sorted_values sorted_with_nan l = OK l' /\ Permutation l l'.
Proof.
  intros [(ss & ->)|(xs & -> & Hn)]; unfold sorted_values.
  - rewrite strings_of_map. eexists. split; [reflexivity|].
    apply Permutation_map. apply sort_by_perm.
  - destruct xs as [|x xs].
    + eexists. split; [reflexivity|]. constructor.
    + rewrite numbers_of_map. change (strings_of (map VNum (x :: xs)))
        with (@None (list string)).
      eexists. split; [reflexivity|].
      apply Permutation_map. unfold py_sorted. rewrite Hn. apply sort_by_perm.
Qed.

Lemma collect_names_In (records : list record) (n : value) :
  In n (collect_names records)
  <-> exists v, In v records /\ dict_get v "estimator_name" = Some n.
Proof.
  unfold collect_names. rewrite in_flat_map. split.
  - intros (v & Hv & Hn). exists v. split; [exact Hv|].
    destruct (dict_get v "estimator_name") as [m|]; [|destruct Hn].
    destruct Hn as [->|[]]. reflexivity.
  - intros (v & Hv & E). exists v. split; [exact Hv|]. rewrite E. now left.
Qed.

Lemma all_strings (l : list value) :
  Forall (fun n => exists s, n = VStr s) l -> exists ss, l = map VStr ss.
Proof.
  induction 1 as [|n l (s & ->) _ (ss & ->)];
    [now exists [] | now exists (s :: ss)].
Qed.

Lemma all_numbers (l : list value) :
  Forall (fun n => exists x, n = VNum x /\ x <> NaN) l ->
  exists xs, l = map VNum xs /\ existsb F.isnan xs = false.
Proof.
  induction 1 as [|n l (x & -> & Hx) _ (xs & -> & Hn)]; [now exists []|].
  exists (x :: xs). split; [reflexivity|]. simpl.
  now rewrite Hn, (isnan_false x Hx).
Qed.

Lemma comparable_names_run (sorted_with_nan : list float -> list float)
    (records : list record) :
  comparable_names records ->
  forallb has_field records = true
  /\ exists names,
       sorted_values sorted_with_nan (value_set [] (collect_names records))
       = OK names
       /\ separate names
       /\ (forall v, In v records ->
             exists n, In n names /\ has_name n v = true)
       /\ (forall n, In n names ->
             exists v, In v records /\ has_name n v = true).
Proof.
  intros H.
  assert (Hp : forall v, In v records ->
                 exists m, dict_get v "estimator_name" = Some m /\ proper m).
  { intros v Hv. destruct H as [H|H]; rewrite Forall_forall in H.
    - destruct (H v Hv) as (s & E). exists (VStr s).
      split; [exact E | apply proper_VStr].
    - destruct (H v Hv) as (x & E & Hx). exists (VNum x).
      split; [exact E | now apply proper_VNum]. }
  split.
  { apply forallb_forall. intros v Hv. destruct (Hp v Hv) as (m & E & _).
    unfold has_field. now rewrite E. }
  destruct (value_set_spec (collect_names records) []) as (D & _ & C & I).
  assert (Hh : homogeneous (value_set [] (collect_names records))).
  { destruct H as [H|H]; rewrite Forall_forall in H.
    - left. apply all_strings. apply Forall_forall. intros n Hn.
      apply I, collect_names_In in Hn. destruct Hn as (v & Hv & E).
      destruct (H v Hv) as (s & Es). exists s. congruence.
    - right. apply all_numbers. apply Forall_forall. intros n Hn.
      apply I, collect_names_In in Hn. destruct Hn as (v & Hv & E).
      destruct (H v Hv) as (x & Ex & Hx). exists x.
      split; [congruence | exact Hx]. }
  destruct (sorted_values_perm sorted_with_nan _ Hh) as (names & E & P).
  exists names. split; [exact E|]. split; [eapply separate_perm; eauto|].
  split.
  - intros v Hv. destruct (Hp v Hv) as (m & Em & Pm).
    assert (Hin : In m (collect_names records))
      by (apply collect_names_In; eauto).
    destruct (C m Hin Pm) as [(q & [] & _)|(p & Hp' & Ep)].
    exists p. split; [eapply Permutation_in; eauto|].
    rewrite (has_name_of _ _ _ Em). exact Ep.
  - intros n Hn. apply (Permutation_in _ (Permutation_sym P)) in Hn.
    pose proof (I n Hn) as Hc. apply collect_names_In in Hc.
    destruct Hc as (v & Hv & E').
    exists v. split; [exact Hv|]. rewrite (has_name_of _ _ _ E').
    destruct (Hp v Hv) as (m & Em & Pm).
    rewrite E' in Em. injection Em as <-. exact Pm.
Qed.

(** What [best_score_by_estimator] does on records whose names can be
    compared: one call of [min] or [max] per family, the families being
    pairwise different names that cover the records. *)
Lemma best_score_by_estimator_run (sorted_with_nan : list float -> list float)
    (scores : list (string * record)) (metric : string) :
  comparable_names (map snd scores) ->
  exists names,
    separate names
    /\ (forall v, In v (map snd scores) ->
          exists n, In n names /\ has_name n v = true)
    /\ (forall n, In n names ->
          exists v, In v (map snd scores) /\ has_name n v = true)
    /\ best_score_by_estimator sorted_with_nan scores metric
       = best_loop (map snd scores) metric names [].
Proof.
  intros H.
  destruct (comparable_names_run sorted_with_nan _ H)
    as (Hf & names & E & S & B & C).
  exists names. repeat (split; [assumption|]).
  unfold best_score_by_estimator. rewrite Hf. cbn [negb]. now rewrite E.
Qed.

Lemma named_comparable (records : list record) :
  Forall named records -> comparable_names records.
Proof. now left. Qed.

(** ** The loop over the families *)

Lemma best_loop_unfold (records : list record) (metric : string)
    (name : value) (names : list value) (best : list (value * record)) :
  best_loop records metric (name :: names) best
  = let* b := family_best metric records name in
    best_loop records metric names (best_set best name b).
Proof. reflexivity. Qed.

Lemma best_set_fresh (best : list (value * record)) (k : value) (b : record) :
  (forall e, In e best -> value_eqb (fst e) k = false) ->
  best_set best k b = best ++ [(k, b)].
Proof.
  induction best as [|e best IH]; intros H; simpl; [reflexivity|].
  rewrite (H e) by now left. f_equal. apply IH.
  intros e' He'. apply H. now right.
Qed.

(** Over names that are pairwise different, every family adds its entry
    at the end of the dict. *)
Lemma best_loop_run (records : list record) (metric : string)
    (names : list value) :
  separate names ->
  forall best best',
    (forall e n, In e best -> In n names -> value_eqb (fst e) n = false) ->
    best_loop records metric names best = OK best' ->
    exists bs,
      best' = best ++ combine names bs
      /\ length bs = length names
      /\ Forall2 (fun n b => family_best metric records n = OK b) names bs.
Proof.
  induction 1 as [|name names Hn S IH]; intros best best' Hk H.
  - simpl in H. injection H as <-. exists []. simpl. rewrite app_nil_r.
    repeat split. constructor.
  - rewrite best_loop_unfold in H.
    apply rbind_OK in H. destruct H as (r & Er & H).
    rewrite best_set_fresh in H
      by (intros e He; apply (Hk e name He); now left).
    apply IH in H.
    + destruct H as (bs & -> & L & F). exists (r :: bs).
      split; [now rewrite <- app_assoc|]. split; [simpl; now rewrite L|].
      now constructor.
    + intros e n He Hin. apply in_app_iff in He.
      destruct He as [He|[<-|[]]].
      * apply (Hk e n He). now right.
      * simpl. now apply Hn.
Qed.

Lemma best_loop_total (records : list record) (metric : string)
    (names : list value) :
  (forall n, In n names -> exists b, family_best metric records n = OK b) ->
  forall best, exists best', best_loop records metric names best = OK best'.
Proof.
  induction names as [|name names IH]; intros Hall best.
  - exists best. reflexivity.
  - rewrite best_loop_unfold.
    destruct (Hall name (or_introl eq_refl)) as (b & ->). cbn [rbind].
    apply IH. intros n Hn. apply Hall. now right.
Qed.

Lemma best_loop_raises (records : list record) (metric : string) (e : exn)
    (names : list value) :
  (forall n, In n names ->
     (exists b, family_best metric records n = OK b)
     \/ family_best metric records n = Raise e) ->
  forall best,
    (exists best', best_loop records metric names best = OK best')
    \/ best_loop records metric names best = Raise e.
Proof.
  induction names as [|name names IH]; intros Hall best.
  - left. exists best. reflexivity.
  - rewrite best_loop_unfold.
    destruct (Hall name (or_introl eq_refl)) as [(b & ->)| ->]; cbn [rbind].
    + apply IH. intros n Hn. apply Hall. now right.
    + now right.
Qed.

Lemma best_loop_each (records : list record) (metric : string)
    (names : list value) :
  forall best best',
    best_loop records metric names best = OK best' ->
    forall n, In n names -> exists b, family_best metric records n = OK b.
Proof.
  induction names as [|name names IH]; intros best best' H n Hn;
    [destruct Hn|].
  rewrite best_loop_unfold in H.
  apply rbind_OK in H. destruct H as (r & Er & H).
  destruct Hn as [<-|Hn]; [eauto | eapply IH; eauto].
Qed.

Lemma combine_fst {A B} (l : list A) (r : list B) :
  length r = length l -> map fst (combine l r) = l.
Proof.
  revert r. induction l as [|a l IH]; intros [|b r] H; simpl in *;
    try discriminate; [reflexivity|].
  f_equal. apply IH. now injection H.
Qed.

Lemma Forall2_pair {A B} (P : A -> B -> Prop) (l : list A) (r : list B)
    (a : A) (b : B) :
  Forall2 P l r -> In (a, b) (combine l r) -> In a l /\ P a b.
Proof.
  induction 1 as [|x y l r Hxy F IH]; simpl; [intros []|].
  intros [E|H].
  - injection E as <- <-. split; [now left | exact Hxy].
  - destruct (IH H). split; [now right | assumption].
Qed.

Lemma Forall2_entry {A B} (P : A -> B -> Prop) (l : list A) (r : list B)
    (a : A) :
  Forall2 P l r -> In a l -> exists b, In (a, b) (combine l r) /\ P a b.
Proof.
  induction 1 as [|x y l r Hxy F IH]; simpl; [intros []|].
  intros [<-|H].
  - exists y. split; [now left | exact Hxy].
  - destruct (IH H) as (b & Hb & Pb). exists b. split; [now right | exact Pb].
Qed.

(** [best[name]] finds the entry of a name that is equal to itself. *)
Lemma best_get_combine (names : list value) (bs : list record) (n : value) :
  separate names ->
  length bs = length names ->
  In n names -> proper n ->
  exists b, best_get (combine names bs) n = Some b
            /\ In (n, b) (combine names bs).
Proof.
  intros S. revert bs. induction S as [|m names Hm S IH]; intros bs L Hn Pn;
    [destruct Hn|].
  destruct bs as [|b bs]; [discriminate|]. injection L as L.
  unfold best_get. simpl. destruct Hn as [->|Hn].
  - rewrite Pn. exists b. split; [reflexivity | now left].
  - rewrite (Hm n Hn).
    destruct (IH bs L Hn Pn) as (b' & E & Hin).
    exists b'. split; [exact E | now right].
Qed.

(** ** The best record of a family *)

Lemma min_direction (x y : float) :
  exists b, value_lt (VNum x) (VNum y) = OK b
    /\ (b = true -> F.leb x y = true)
    /\ (b = false -> x <> NaN -> y <> NaN -> F.leb y x = true).
Proof.
  exists (F.ltb x y). split; [reflexivity|]. split.
  - apply ltb_leb.
  - intros H Hx Hy. now apply ltb_false_leb.
Qed.

Lemma max_direction (x y : float) :
  exists b, value_gt (VNum x) (VNum y) = OK b
    /\ (b = true -> F.leb y x = true)
    /\ (b = false -> x <> NaN -> y <> NaN -> F.leb x y = true).
Proof.
  exists (F.ltb y x). split; [reflexivity|]. split.
  - apply ltb_leb.
  - intros H Hx Hy. now apply ltb_false_leb.
Qed.

Lemma pick_best (metric : string) (records : list record) (name : value) :
  family records name <> [] ->
  Forall (has_metric metric) (family records name) ->
  exists b,
    family_best metric records name = OK b
    /\ In b (family records name)
    /\ forall v, In v (family records name) -> at_least_as_good metric b v.
Proof.
  intros Hne Hall. unfold family_best, at_least_as_good.
  destruct (str_in metric lower_is_better).
  - destruct (extremum_spec metric F.leb value_lt leb_trans leb_refl
                min_direction _ Hne Hall) as (b & y & E & Hin & Hy & Hbest).
    exists b. split; [exact E|]. split; [exact Hin|].
    intros v Hv. rewrite Forall_forall in Hall.
    destruct (Hall v Hv) as (z & Hz & _). exists y, z. eauto.
  - destruct (extremum_spec metric (fun a b => F.leb b a) value_gt
                (fun a b c H1 H2 => leb_trans c b a H2 H1) leb_refl
                max_direction _ Hne Hall) as (b & y & E & Hin & Hy & Hbest).
    exists b. split; [exact E|]. split; [exact Hin|].
    intros v Hv. rewrite Forall_forall in Hall.
    destruct (Hall v Hv) as (z & Hz & _). exists y, z. eauto.
Qed.

(** C4, as amended.  When the names of the records can be compared (all
    of them strings, or all of them numbers other than [NaN]) and every
    record holds a number other than [NaN] under the requested metric,
    [best_score_by_estimator] returns one entry per distinct estimator
    name: the names of the entries are pairwise different, every record
    finds its name among them, and the entry of a name is a record of
    that name that is at least as good as every record of that name,
    smallest for the lower-is-better metrics of the specification,
    largest for the others. *)
Theorem best_score_by_estimator_picks_best
    (sorted_with_nan : list float -> list float)
    (scores : list (string * record)) (metric : string) :
  comparable_names (map snd scores) ->
  Forall (fun kv => has_metric metric (snd kv)) scores ->
  exists best,
    best_score_by_estimator sorted_with_nan scores metric = OK best
    /\ separate (map fst best)
    /\ (forall v, In v (map snd scores) ->
          exists name b, In (name, b) best /\ has_name name v = true)
    /\ (forall name b, In (name, b) best ->
          In b (map snd scores)
          /\ has_name name b = true
          /\ forall v, In v (map snd scores) -> has_name name v = true ->
                       at_least_as_good metric b v).
Proof.
  intros HC HM.
  assert (WF : Forall (has_metric metric) (map snd scores))
    by (apply Forall_map; exact HM).
  destruct (best_score_by_estimator_run sorted_with_nan scores metric HC)
    as (names & S & B & C & ->).
  set (records := map snd scores) in *.
  assert (Hpick : forall n, In n names ->
            exists b,
              family_best metric records n = OK b
              /\ In b (family records n)
              /\ forall v, In v (family records n) ->
                           at_least_as_good metric b v).
  { intros n Hn. destruct (C n Hn) as (v & Hv & Nv). apply pick_best.
    - intros E. assert (Hin : In v (family records n))
        by (apply filter_In; auto).
      rewrite E in Hin. exact Hin.
    - apply Forall_forall. intros v' Hv'. apply filter_In in Hv'.
      rewrite Forall_forall in WF. now apply WF. }
  assert (Htot : forall n, In n names ->
            exists b, family_best metric records n = OK b).
  { intros n Hn. destruct (Hpick n Hn) as (b & E & _). eauto. }
  destruct (best_loop_total records metric names Htot []) as (best & E).
  exists best. split; [exact E|].
  apply (best_loop_run records metric names S []) in E; [|intros e n []].
  destruct E as (bs & -> & L & F). simpl.
  split; [now rewrite combine_fst|]. split.
  - intros v Hv. destruct (B v Hv) as (n & Hn & Nv).
    destruct (Forall2_entry _ _ _ _ F Hn) as (b & Hb & _). eauto.
  - intros name b Hb. destruct (Forall2_pair _ _ _ _ _ F Hb) as [Hn Eb].
    destruct (Hpick name Hn) as (b' & Eb' & Hin & Hbest).
    rewrite Eb in Eb'. injection Eb' as <-.
    apply filter_In in Hin. destruct Hin as [Hin Nb].
    split; [exact Hin|]. split; [exact Nb|].
    intros v Hv Nv. apply Hbest. apply filter_In. auto.
Qed.

Lemma best_score_by_estimator_picks_best_witness :
  exists best,
    best_score_by_estimator (fun l => l) ex_scores "energy_distance" = OK best
    /\ separate (map fst best)
    /\ (forall v, In v (map snd ex_scores) ->
          exists name b, In (name, b) best /\ has_name name v = true)
    /\ (forall name b, In (name, b) best ->
          In b (map snd ex_scores)
          /\ has_name name b = true
          /\ forall v, In v (map snd ex_scores) -> has_name name v = true ->
                       at_least_as_good "energy_distance" b v).
Proof.
  apply (best_score_by_estimator_picks_best (fun l => l) ex_scores
           "energy_distance").
  - left. repeat (apply Forall_cons; [eexists; reflexivity|]).
    apply Forall_nil.
  - repeat (apply Forall_cons;
            [eexists; split; [reflexivity | discriminate]|]).
    apply Forall_nil.
Defined.

(** The example of the specification: per family, the record with the
    smallest energy distance; and the same ranking for families named by
    numbers. *)
Lemma best_score_by_estimator_example :
  best_score_by_estimator (fun l => l) ex_scores "energy_distance"
  = OK [(VStr "CausalForestDML", ex_record "CausalForestDML" (1 # 10));
        (VStr "LinearDML", ex_record "LinearDML" (3 # 10))]
  /\ best_score_by_estimator (fun l => l) ex_scores "qini"
     = OK [(VStr "CausalForestDML", ex_record "CausalForestDML" (9 # 10));
           (VStr "LinearDML", ex_record "LinearDML" (7 # 10))]
  /\ best_score_by_estimator (fun l => l) ex_numbered_scores "qini"
     = OK [(VNum (Fin 1), ex_numbered_record 1 (9 # 10));
           (VNum (Fin 2), ex_numbered_record 2 (7 # 10))].
Proof. repeat split; reflexivity. Qed.

(** C4, the claim as stated fails.  Two records of one family hold the
    energy distances [NaN] and 0.1, in this order: the entry of the
    family is the record that holds [NaN], which is not the smallest
    value, since comparisons with [NaN] are false.  And records that all
    have a name need not have names that can be ranked: a string beside a
    number is a [TypeError] of [sorted], and a name that is [NaN] is equal
    to no record's name, so that its family is empty and [min] raises
    [ValueError]. *)
Lemma best_score_by_estimator_reports_NaN :
  (forall sorted_with_nan,
     best_score_by_estimator sorted_with_nan
       [("run1", ex_nan_record); ("run2", ex_record "LinearDML" (1 # 10))]
       "energy_distance"
     = OK [(VStr "LinearDML", ex_nan_record)])
  /\ ~ at_least_as_good "energy_distance" ex_nan_record
         (ex_record "LinearDML" (1 # 10))
  /\ (forall sorted_with_nan,
        best_score_by_estimator sorted_with_nan
          [("run1", ex_record "LinearDML" (3 # 10));
           ("run2", ex_numbered_record 1 (1 # 10))] "energy_distance"
        = Raise TypeError)
  /\ (forall sorted_with_nan,
        (forall l, Permutation (sorted_with_nan l) l) ->
        best_score_by_estimator sorted_with_nan
          [("run1", [("estimator_name", VNum NaN);
                     ("energy_distance", VNum (Fin (1 # 10)))])]
          "energy_distance"
        = Raise ValueError).
Proof.
  split; [intros swn; reflexivity|]. split.
  { intros (x & y & Hx & Hy & H). vm_compute in Hx, Hy.
    injection Hx as <-. discriminate H. }
  split; [intros swn; reflexivity|].
  intros swn HP. unfold best_score_by_estimator. simpl.
  unfold sorted_values. simpl. unfold py_sorted. simpl.
  pose proof (HP [NaN]) as P. apply Permutation_sym in P.
  apply Permutation_length_1_inv in P. rewrite P. reflexivity.
Qed.

(** ** Frames keep their rows *)

Lemma rows_kept_refl (w : world) : rows_kept w w.
Proof. split; auto. Qed.

Lemma rows_kept_trans (w1 w2 w3 : world) :
  rows_kept w1 w2 -> rows_kept w2 w3 -> rows_kept w1 w3.
Proof.
  intros [L1 H1] [L2 H2]. split; [lia|].
  intros l Hl. rewrite H2 by lia. now apply H1.
Qed.

Lemma rows_kept_same_frames (w w' : world) :
  frames w' = frames w -> rows_kept w w'.
Proof. intros E. unfold rows_kept, frame_at. rewrite E. auto. Qed.

Lemma untouched_stable {A} (m : M A) : frames_untouched m -> stable m.
Proof. intros H w. apply rows_kept_same_frames, H. Qed.

Lemma untouched_ret {A} (a : A) : frames_untouched (ret a).
Proof. intros w. reflexivity. Qed.

Lemma untouched_raise {A} (e : exn) : frames_untouched (@raise A e).
Proof. intros w. reflexivity. Qed.

Lemma untouched_lift {A} (r : result A) : frames_untouched (lift r).
Proof. intros w. reflexivity. Qed.

Lemma untouched_read (l : loc) : frames_untouched (read l).
Proof. intros w. reflexivity. Qed.

Lemma untouched_bind {A B} (m : M A) (k : A -> M B) :
  frames_untouched m -> (forall a, frames_untouched (k a)) ->
  frames_untouched (bind m k).
Proof.
  intros Hm Hk w. unfold bind. specialize (Hm w).
  destruct (m w) as [[a|e] w1]; simpl in *; [|exact Hm].
  rewrite (Hk a w1). exact Hm.
Qed.

Lemma stable_bind {A B} (m : M A) (k : A -> M B) :
  stable m -> (forall a, stable (k a)) -> stable (bind m k).
Proof.
  intros Hm Hk w. unfold bind. specialize (Hm w).
  destruct (m w) as [[a|e] w1]; simpl in *; [|exact Hm].
  eapply rows_kept_trans; [exact Hm | apply Hk].
Qed.

Lemma stable_try_except {A} (m : M A) (c : exn -> bool) (h : M A) :
  stable m -> stable h -> stable (try_except m c h).
Proof.
  intros Hm Hh w. unfold try_except. specialize (Hm w).
  destruct (m w) as [[a|e] w1]; simpl in *; [exact Hm|].
  destruct (c e); [|exact Hm].
  eapply rows_kept_trans; [exact Hm | apply Hh].
Qed.

Lemma stable_ret {A} (a : A) : stable (ret a).
Proof. apply untouched_stable, untouched_ret. Qed.

Lemma stable_raise {A} (e : exn) : stable (@raise A e).
Proof. apply untouched_stable, untouched_raise. Qed.

Lemma stable_lift {A} (r : result A) : stable (lift r).
Proof. apply untouched_stable, untouched_lift. Qed.

Lemma stable_read (l : loc) : stable (read l).
Proof. apply untouched_stable, untouched_read. Qed.

Lemma stable_alloc (d : DataFrame) : stable (alloc d).
Proof.
  intros w. unfold alloc, rows_kept, frame_at. simpl.
  rewrite length_app. split; [lia|].
  intros l Hl. now rewrite app_nth1.
Qed.

Lemma set_nth_length {A} (l : list A) (i : nat) (v : A) :
  length (Np.set_nth l i v) = length l.
Proof.
  revert i. induction l as [|x l IH]; intros [|i]; simpl; auto.
Qed.

Lemma set_nth_same {A} (l : list A) (i : nat) (v d : A) :
  (i < length l)%nat -> nth i (Np.set_nth l i v) d = v.
Proof.
  revert i. induction l as [|x l IH]; intros [|i] H; simpl in *; try lia; auto.
  apply IH. lia.
Qed.

Lemma set_nth_other {A} (l : list A) (i j : nat) (v d : A) :
  i <> j -> nth j (Np.set_nth l i v) d = nth j l d.
Proof.
  revert i j. induction l as [|x l IH]; intros [|i] [|j] H; simpl; auto;
    try congruence.
Qed.

Lemma setcol_nrows (d d' : DataFrame) (name : string) (vals : list float) :
  Pd.setcol d name vals = OK d' -> Pd.nrows d' = Pd.nrows d.
Proof.
  unfold Pd.setcol. destruct (_ =? _)%nat; intros H; [|discriminate].
  now injection H as <-.
Qed.

Lemma stable_setitem (l : loc) (name : string) (vals : list float) :
  stable (setitem l name vals).
Proof.
  intros w. unfold setitem, bind, read, lift, write.
  destruct (Pd.setcol (nth l (frames w) empty_frame) name vals) as [d'|e] eqn:E;
    simpl; [|apply rows_kept_refl].
  apply setcol_nrows in E.
  unfold rows_kept, frame_at. simpl. rewrite set_nth_length. split; [lia|].
  intros j Hj. destruct (Nat.eq_dec l j) as [->|N].
  - rewrite set_nth_same by exact Hj. exact E.
  - now rewrite set_nth_other.
Qed.

Lemma stable_copy (l : loc) : stable (copy l).
Proof.
  unfold copy. apply stable_bind; [apply stable_read|].
  intros d. apply stable_alloc.
Qed.

(** Decompose a computation along its structure. *)
Ltac stable_step :=
  first
    [ apply stable_ret | apply stable_raise | apply stable_lift
    | apply stable_read | apply stable_alloc | apply stable_setitem
    | apply stable_copy
    | apply stable_bind; [|intros]
    | apply stable_try_except
    | match goal with
      | |- stable (match ?x with _ => _ end) => destruct x
      | |- stable (let (_, _) := ?x in _) => destruct x
      end ].

Ltac stable_auto := repeat stable_step.

Section StableScoring.

Variable sqrtQ : Q -> Q.
Variable dcor_energy_distance :
  list (list float) -> list (list float) -> result float.
Variable dcor_pairwise_distances :
  list (list float) -> list (list float) -> result (list (list float)).
Variable quantile_transform : list (list float) -> result (list (list float)).
Variable metrics_qini_score : DataFrame -> result float.
Variable metrics_auuc_score : DataFrame -> result float.
Variable psw_joint_weights :
  list float -> option (list float) -> result (list (list float)).

Lemma stable_potential_outcomes (estimate : Estimator) (df : loc) :
  stable (_Y0_X_potential_outcomes estimate df).
Proof. unfold _Y0_X_potential_outcomes. stable_auto. Qed.

Lemma stable_frobenius_norm_score (self : Scorer) (estimate : Estimator)
    (df : loc) (thr : float) :
  stable (frobenius_norm_score sqrtQ self estimate df thr).
Proof.
  unfold frobenius_norm_score. stable_auto.
Qed.

Lemma stable_policy_risk_score (self : Scorer) (estimate : Estimator)
    (df : loc) (cate : list float) (outcome_name : string)
    (policy : option (list float -> result (list float)))
    (rct : option (list Z)) (thr clip : float) :
  stable (policy_risk_score sqrtQ self estimate df cate outcome_name policy
            rct thr clip).
Proof. unfold policy_risk_score. stable_auto. Qed.

Lemma stable_qini_make_score (estimate : Estimator) (df : loc)
    (cate : list float) :
  stable (qini_make_score metrics_qini_score estimate df cate).
Proof. unfold qini_make_score. stable_auto. Qed.

Lemma stable_auc_make_score (estimate : Estimator) (df : loc)
    (cate : list float) :
  stable (auc_make_score metrics_auuc_score estimate df cate).
Proof. unfold auc_make_score. stable_auto. Qed.

Lemma stable_ate (self : Scorer) (df : loc) : stable (ate sqrtQ self df).
Proof. unfold ate. stable_auto. Qed.

Lemma stable_report (ms : list string) (name : string) (score : M outval)
    (out : list (string * outval)) :
  stable score -> stable (report ms name score out).
Proof. intros H. unfold report. stable_auto. exact H. Qed.

Lemma stable_scalar (score : M float) : stable score -> stable (scalar score).
Proof. intros H. unfold scalar. stable_auto. exact H. Qed.

End StableScoring.

(** ** The aggregator *)

Lemma reset_index_nrows (d d' : DataFrame) :
  Pd.reset_index d = OK d' -> Pd.nrows d' = Pd.nrows d.
Proof.
  unfold Pd.reset_index. destruct (Pd.has_col d _); [discriminate|].
  intros H. injection H as <-. unfold Pd.nrows. simpl.
  now rewrite length_map, length_seq.
Qed.

Lemma select_cols_nrows (d v : DataFrame) (names : list string) :
  Pd.select_cols d names = OK v -> Pd.nrows v = Pd.nrows d.
Proof.
  unfold Pd.select_cols. destruct (Pd.pick_cols d names); [|discriminate].
  intros H. now injection H as <-.
Qed.

Lemma dict_get_set_same {V} (d : list (string * V)) (k : string) (v : V) :
  dict_get (dict_set d k v) k = Some v.
Proof.
  unfold dict_get.
  induction d as [|[k' v'] d IH]; simpl.
  - now rewrite String.eqb_refl.
  - destruct (k' =? k) eqn:E; simpl.
    + now rewrite String.eqb_refl.
    + now rewrite E.
Qed.

Lemma dict_get_set_other {V} (d : list (string * V)) (k k' : string) (v : V) :
  k <> k' -> dict_get (dict_set d k v) k' = dict_get d k'.
Proof.
  intros N. unfold dict_get.
  induction d as [|[k0 v0] d IH]; simpl.
  - apply String.eqb_neq in N. now rewrite N.
  - destruct (k0 =? k) eqn:E; simpl.
    + apply String.eqb_eq in E. subst k0. apply String.eqb_neq in N.
      now rewrite N.
    + destruct (k0 =? k'); [reflexivity | exact IH].
Qed.

Lemma report_keeps (ms : list string) (name key : string) (score : M outval)
    (out out' : list (string * outval)) (w w' : world) :
  name <> key ->
  report ms name score out w = (OK out', w') ->
  dict_get out' key = dict_get out key.
Proof.
  intros N. unfold report. destruct (str_in name ms).
  - intros H. step H. pure_step H. subst. now apply dict_get_set_other.
  - intros H. pure_step H. now subst.
Qed.

Lemma read_OK (l : loc) (w w' : world) (d : DataFrame) :
  read l w = (OK d, w') -> d = frame_at w l /\ w' = w.
Proof. unfold read, frame_at. intros H. inversion H. split; reflexivity. Qed.

Lemma alloc_OK (d : DataFrame) (w w' : world) (l : loc) :
  alloc d w = (OK l, w') ->
  l = length (frames w) /\ frames w' = frames w ++ [d].
Proof. unfold alloc. intros H. inversion H. split; reflexivity. Qed.

Lemma copy_OK (l l' : loc) (w w' : world) :
  copy l w = (OK l', w') ->
  l' = length (frames w) /\ frames w' = frames w ++ [frame_at w l].
Proof. unfold copy, bind, read. apply alloc_OK. Qed.

Ltac pure_read H :=
  let E := fresh "E" in apply read_OK in H; destruct H as [E ->].

(** From a run [m w = (r, w')] of a computation built from the frame
    operations, conclude that the frames kept their rows. *)
Ltac kept H :=
  match type of H with
  | ?m ?w = (_, ?w') =>
      let K := fresh "K" in
      assert (K : rows_kept w w')
        by (let S := fresh "S" in
            assert (S : stable m)
              by (unfold report, scalar, r_make_score;
                  repeat first
                    [ apply stable_frobenius_norm_score
                    | apply stable_policy_risk_score
                    | apply stable_qini_make_score
                    | apply stable_auc_make_score
                    | apply stable_ate
                    | stable_step ]);
            specialize (S w); rewrite H in S; exact S)
  end.

Section Aggregator.

Variable sqrtQ : Q -> Q.
Variable dcor_energy_distance :
  list (list float) -> list (list float) -> result float.
Variable dcor_pairwise_distances :
  list (list float) -> list (list float) -> result (list (list float)).
Variable quantile_transform : list (list float) -> result (list (list float)).
Variable metrics_qini_score : DataFrame -> result float.
Variable metrics_auuc_score : DataFrame -> result float.
Variable psw_joint_weights :
  list float -> option (list float) -> result (list (list float)).

(** C9.  On a scorer for the backdoor problem, the record [make_scores]
    returns has an entry ["values"], a frame with exactly as many rows as
    the frame the caller passed in.  (The code guards the entry with
    [assert len(values) == len(df)]: a mismatch would end the call in an
    [AssertionError].) *)
Theorem make_scores_values_rows (self : Scorer) (estimate : Estimator)
    (df : loc) (metrics_to_report : list string)
    (r_scorer : option (list float -> result float))
    (w w' : world) (out : list (string * outval)) :
  problem self = "backdoor" ->
  make_scores sqrtQ dcor_energy_distance dcor_pairwise_distances
    quantile_transform metrics_qini_score metrics_auuc_score psw_joint_weights
    self estimate df metrics_to_report r_scorer w = (OK out, w') ->
  exists values,
    dict_get out "values" = Some (OFrame values)
    /\ Pd.nrows values = Pd.nrows (frame_at w df).
Proof.
  intros Hp H. unfold make_scores in H. rewrite Hp in H.
  change ("backdoor" =? "backdoor") with true in H. cbv iota in H.
  (* the private copy and its renumbering *)
  step H. rename Hstep into Hcopy, a into df1, w0 into wc.
  step H. pure_read Hstep. rename a into d0.
  step H. pure_step Hstep. rename a into d, E into Hreset.
  step H. rename Hstep into Halloc, a into df2, w0 into wd.
  step H. pure_step Hstep.
  step H. pure_step Hstep.
  step H. rename Hstep into Hblock, a1 into out1, w0 into we.
  (* the backdoor block *)
  step Hblock. pure_step Hstep. rename a1 into v, E1 into Hsel.
  step Hblock. rename Hstep into Hvalues, a1 into values, w0 into w1.
  step Hblock. kept Hstep. clear Hstep.
  step Hblock. pure_step Hstep.
  step Hblock. kept Hstep. clear Hstep.
  step Hblock. kept Hstep. clear Hstep.
  step Hblock. kept Hstep. clear Hstep.
  step Hblock. kept Hstep. clear Hstep.
  step Hblock. kept Hstep. clear Hstep.
  step Hblock. kept Hstep. clear Hstep.
  step Hblock. kept Hstep. clear Hstep.
  step Hblock. kept Hstep. clear Hstep.
  step Hblock. kept Hstep. clear Hstep.
  step Hblock. pure_read Hstep.
  step Hblock. pure_read Hstep.
  assert (Kall : rows_kept w1 w10)
    by (repeat (eapply rows_kept_trans; [eassumption|]); apply rows_kept_refl).
  clear K K0 K1 K2 K3 K4 K5 K6 K7 K8.
  destruct (negb (Pd.nrows a12 =? Pd.nrows a13)%nat); [discriminate Hblock|].
  step Hblock. apply copy_OK in Hstep. destruct Hstep as (Hl & Hf).
  step Hblock. pure_read Hstep. pure_step Hblock.
  (* the rest of the function does not touch the entry *)
  step H.
  assert (Ha : dict_get a16 "values" = dict_get out1 "values").
  { destruct (str_in "ate" metrics_to_report); pure_step Hstep; subst a16;
      [|reflexivity].
    rewrite !dict_get_set_other by discriminate. reflexivity. }
  clear Hstep.
  step H. apply report_keeps with (key := "values") in Hstep; [|discriminate].
  step H. apply report_keeps with (key := "values") in Hstep0; [|discriminate].
  step H. apply report_keeps with (key := "values") in Hstep1; [|discriminate].
  pure_step H. subst out.
  exists a15. split.
  - rewrite Hstep1, Hstep0, Hstep, Ha, E6. apply dict_get_set_same.
  - subst a15. unfold frame_at at 1. rewrite Hf, Hl.
    rewrite nth_middle. fold (frame_at w10 values).
    apply alloc_OK in Hvalues. destruct Hvalues as (Hv & Hfv).
    destruct Kall as [_ Kall]. rewrite Kall
      by (rewrite Hfv, length_app, Hv; simpl; lia).
    unfold frame_at at 1. rewrite Hfv, Hv, nth_middle.
    rewrite (select_cols_nrows _ _ _ E2), (reset_index_nrows _ _ E0).
    subst d0. apply copy_OK in Hcopy. destruct Hcopy as (Hc & Hfc).
    unfold frame_at at 1. rewrite Hfc, Hc, nth_middle. reflexivity.
Qed.
End Aggregator.

Lemma make_scores_values_rows_witness :
  exists values,
    dict_get ex_out "values" = Some (OFrame values)
    /\ Pd.nrows values = Pd.nrows (frame_at ex_world 0%nat).
Proof.
  apply (make_scores_values_rows ex_sqrt ex_energy_distance
           ex_pairwise_distances ex_quantile_transform ex_uplift_score
           ex_uplift_score ex_joint_weights ex_scorer ex_estimator 0%nat
           ex_metrics None ex_world (snd ex_make_scores) ex_out eq_refl).
  vm_compute. reflexivity.
Defined.

(** ** The Frobenius score *)

Lemma frobenius_cate_run (estimate : Estimator) (d : DataFrame) (w : world) :
  try_except (c <- lift (effect estimate d) ;; ret (Some c)) is_AttributeError
    (try_except (c <- lift (effect_tt estimate d) ;; ret (Some c))
       is_AttributeError (ret None)) w
  = (frobenius_cate estimate d, w).
Proof.
  unfold try_except, bind, lift, ret, frobenius_cate.
  destruct (effect estimate d) as [c|e]; [reflexivity|].
  destruct e; simpl; try reflexivity.
  destruct (effect_tt estimate d) as [c|e]; [reflexivity|].
  destruct e; reflexivity.
Qed.

Lemma getcol_head (d : DataFrame) (n : string) (m : nat) :
  Pd.getcol (Pd.head d m) n
  = match Pd.getcol d n with
    | OK c => OK (firstn m c)
    | Raise e => Raise e
    end.
Proof.
  unfold Pd.getcol, Pd.head. simpl df_columns.
  induction (df_columns d) as [|[k c] cols IH]; simpl; [reflexivity|].
  destruct (k =? n); [reflexivity | exact IH].
Qed.

Lemma pick_cols_head (d : DataFrame) (names : list string) (m : nat) :
  Pd.pick_cols (Pd.head d m) names
  = match Pd.pick_cols d names with
    | OK cs => OK (map (fun c => (fst c, firstn m (snd c))) cs)
    | Raise e => Raise e
    end.
Proof.
  induction names as [|n names IH]; simpl; [reflexivity|].
  rewrite getcol_head, IH.
  destruct (Pd.getcol d n) as [c|e]; [|reflexivity].
  destruct (Pd.pick_cols d names) as [cs|e]; reflexivity.
Qed.

Lemma select_cols_head (d a : DataFrame) (names : list string) (m : nat) :
  Pd.select_cols d names = OK a ->
  Pd.select_cols (Pd.head d m) names = OK (Pd.head a m).
Proof.
  unfold Pd.select_cols. rewrite pick_cols_head.
  destruct (Pd.pick_cols d names) as [cs|e]; [|discriminate].
  intros H. injection H as <-. reflexivity.
Qed.

Lemma row_head (a : DataFrame) (m i : nat) :
  (i < m)%nat -> Pd.row (Pd.head a m) i = Pd.row a i.
Proof.
  intros H. unfold Pd.row, Pd.head. simpl df_columns. rewrite map_map.
  apply map_ext. intros c. simpl. rewrite nth_firstn.
  apply Nat.ltb_lt in H. now rewrite H.
Qed.

Lemma values_head (a : DataFrame) (m : nat) :
  (m <= Pd.nrows a)%nat ->
  Pd.values (Pd.head a m) = map (Pd.row a) (seq 0 m).
Proof.
  intros H. unfold Pd.values.
  assert (E : Pd.nrows (Pd.head a m) = m).
  { unfold Pd.nrows, Pd.head. simpl. rewrite length_firstn.
    unfold Pd.nrows in H. lia. }
  rewrite E. apply map_ext_in. intros i Hi. apply in_seq in Hi.
  apply row_head. lia.
Qed.

Lemma firstn_as_map {A} (l : list A) (m : nat) (d : A) :
  (m <= length l)%nat -> firstn m l = map (fun i => nth i l d) (seq 0 m).
Proof.
  revert m. induction l as [|x l IH]; intros [|m] H; simpl in *; try lia;
    try reflexivity.
  f_equal. rewrite <- seq_shift, map_map. apply IH. lia.
Qed.

Lemma map2_map_seq {A B C} (f : A -> B -> C) (g : nat -> A) (h : nat -> B)
    (l : list nat) :
  map2 f (map g l) (map h l) = map (fun i => f (g i) (h i)) l.
Proof.
  unfold map2. induction l as [|i l IH]; simpl; [reflexivity|].
  now rewrite IH.
Qed.

Lemma broadcast2_same_length {A B C} (f : A -> B -> C) (a : list A)
    (b : list B) :
  length a = length b -> Np.broadcast2 f a b = OK (map2 f a b).
Proof.
  intros H. unfold Np.broadcast2. rewrite H, Nat.eqb_refl. reflexivity.
Qed.

(** Only the [m] leading rows and weights enter the difference matrix. *)
Lemma leading_difference_ext (sqrtQ : Q -> Q) (a b a' b' : DataFrame)
    (psw1 psw0 psw1' psw0' : list float) (m : nat) :
  (forall i, (i < m)%nat ->
     Pd.row a i = Pd.row a' i /\ Pd.row b i = Pd.row b' i
     /\ nth i psw1 NaN = nth i psw1' NaN /\ nth i psw0 NaN = nth i psw0' NaN) ->
  leading_difference sqrtQ a b psw1 psw0 m
  = leading_difference sqrtQ a' b' psw1' psw0' m.
Proof.
  intros H. unfold leading_difference. apply map_ext_in.
  intros i Hi. apply in_seq in Hi.
  destruct (H i) as (-> & -> & -> & ->); [lia | reflexivity].
Qed.

Lemma leading_difference_length (sqrtQ : Q -> Q) (a b : DataFrame)
    (psw1 psw0 : list float) (m : nat) :
  length (leading_difference sqrtQ a b psw1 psw0 m) = m.
Proof. unfold leading_difference. now rewrite length_map, length_seq. Qed.

Section Frobenius.

Variable sqrtQ : Q -> Q.

(** C6.  Once the CATE estimates vary enough and the reconstructed
    outcomes are split into the treated and the control group,
    [frobenius_norm_score] returns the sentinel [+inf] whenever one of the
    groups has no row; otherwise, whatever the two sizes, its value is the
    normalised Frobenius norm of the difference matrix of the
    [min(len(treated), len(control))] leading rows of the two groups,
    paired by position and weighted by the propensities of those same
    rows. *)
Theorem frobenius_norm_score_leading_rows (self : Scorer) (estimate : Estimator)
    (df : loc) (sd_threshold : float) (w w1 : world)
    (cate : list float) (treated control : DataFrame) (treatment_name : string) :
  frobenius_cate estimate (frame_at w df) = OK (Some cate) ->
  F.leb (np_std sqrtQ cate) sd_threshold = false ->
  split_groups estimate df w = (OK (treated, control, treatment_name), w1) ->
  (Pd.nrows treated = 0%nat \/ Pd.nrows control = 0%nat ->
   frobenius_norm_score sqrtQ self estimate df sd_threshold w = (OK PInf, w1))
  /\ (forall psw1 psw0 a b,
        Pd.nrows treated <> 0%nat -> Pd.nrows control <> 0%nat ->
        treated_weights self treated treatment_name = OK psw1 ->
        control_weights self control = OK psw0 ->
        length psw1 = Pd.nrows treated ->
        length psw0 = Pd.nrows control ->
        let select_cols := _effect_modifier_names estimate ++ ["yhat"] in
        Pd.select_cols treated select_cols = OK a ->
        Pd.select_cols control select_cols = OK b ->
        let min_rows := Nat.min (Pd.nrows treated) (Pd.nrows control) in
        frobenius_norm_score sqrtQ self estimate df sd_threshold w
        = (OK (normalised_frobenius sqrtQ
                 (leading_difference sqrtQ a b psw1 psw0 min_rows)
                 (length select_cols)),
           w1)).
Proof.
  intros Hc Hs Hg.
  unfold split_groups in Hg.
  step Hg. destruct a as [[Y0X tn] split]. rename Hstep into Hy.
  step Hg. pure_read Hstep. rename a into y, E into Ey.
  step Hg. pure_step Hstep. rename E into E1.
  step Hg. pure_step Hstep. rename E into E0.
  pure_step Hg. injection E as -> -> ->.
  split.
  - intros Hz. unfold frobenius_norm_score.
    unfold bind at 1. unfold read at 1. cbv iota beta. fold (frame_at w df).
    unfold bind at 1. rewrite frobenius_cate_run, Hc. cbv iota beta.
    rewrite Hs.
    unfold bind at 1. rewrite Hy. cbv iota beta.
    unfold bind at 1. unfold read at 1. cbv iota beta. fold (frame_at w0 Y0X).
    rewrite <- Ey.
    unfold bind at 1. unfold lift at 1. rewrite E1. cbv iota beta.
    unfold bind at 1. unfold lift at 1. rewrite E0. cbv iota beta.
    destruct Hz as [H|H]; rewrite H; simpl; [reflexivity|].
    rewrite orb_true_r. reflexivity.
  - intros psw1 psw0 fa fb N1 N0 Ht Hctl L1 L0 cols Ha Hb m.
    unfold frobenius_norm_score.
    unfold bind at 1. unfold read at 1. cbv iota beta. fold (frame_at w df).
    unfold bind at 1. rewrite frobenius_cate_run, Hc. cbv iota beta.
    rewrite Hs.
    unfold bind at 1. rewrite Hy. cbv iota beta.
    unfold bind at 1. unfold read at 1. cbv iota beta. fold (frame_at w0 Y0X).
    rewrite <- Ey.
    unfold bind at 1. unfold lift at 1. rewrite E1. cbv iota beta.
    unfold bind at 1. unfold lift at 1. rewrite E0. cbv iota beta.
    apply Nat.eqb_neq in N1, N0. rewrite N1, N0. cbn [orb].
    unfold treated_weights in Ht.
    apply rbind_OK in Ht. destruct Ht as (all1 & P1 & Ht).
    apply rbind_OK in Ht. destruct Ht as (ts & T1 & R1).
    unfold control_weights in Hctl.
    apply rbind_OK in Hctl. destruct Hctl as (all0 & P0 & C0).
    unfold bind at 1. unfold lift at 1. rewrite P1. cbv iota beta.
    unfold bind at 1. unfold lift at 1. rewrite T1. cbv iota beta.
    unfold bind at 1. unfold lift at 1. rewrite R1. cbv iota beta.
    unfold bind at 1. unfold lift at 1. rewrite P0. cbv iota beta.
    unfold bind at 1. unfold lift at 1. rewrite C0. cbv iota beta.
    fold cols. fold m.
    unfold bind at 1. unfold lift at 1.
    rewrite (select_cols_head _ _ _ m Ha). cbv iota beta.
    unfold bind at 1. unfold lift at 1.
    rewrite (select_cols_head _ _ _ m Hb). cbv iota beta.
    assert (M1 : (m <= Pd.nrows a)%nat) by (unfold m; lia).
    assert (M0 : (m <= Pd.nrows a0)%nat) by (unfold m; lia).
    rewrite !values_head
      by (first [rewrite (select_cols_nrows _ _ _ Ha)
                | rewrite (select_cols_nrows _ _ _ Hb)]; assumption).
    rewrite broadcast2_same_length by (now rewrite !length_map).
    rewrite map2_map_seq.
    unfold bind at 1. unfold lift at 1. cbv iota beta.
    rewrite (firstn_as_map psw1 m NaN) by lia.
    rewrite (firstn_as_map psw0 m NaN) by lia.
    rewrite broadcast2_same_length by (now rewrite !length_map).
    rewrite map2_map_seq.
    unfold bind at 1. unfold lift at 1. cbv iota beta.
    rewrite map_map.
    rewrite broadcast2_same_length by (now rewrite !length_map).
    rewrite map2_map_seq.
    unfold bind at 1. unfold lift at 1. cbv iota beta.
    reflexivity.
Qed.
End Frobenius.

Lemma frobenius_norm_score_leading_rows_witness :
  frobenius_norm_score ex_sqrt ex_scorer ex_estimator_5 0%nat (Fin (1 # 100))
    ex_world_5
  = (OK (normalised_frobenius ex_sqrt
           (leading_difference ex_sqrt (ex_selected ex_treated_5)
              (ex_selected ex_control_5)
              (ex_weights (treated_weights ex_scorer ex_treated_5 "T"))
              (ex_weights (control_weights ex_scorer ex_control_5))
              (Nat.min 3 2))
           2),
     snd ex_split_5).
Proof.
  refine (proj2 (frobenius_norm_score_leading_rows ex_sqrt ex_scorer
                   ex_estimator_5 0%nat (Fin (1 # 100)) ex_world_5
                   (snd ex_split_5)
                   (vec [1; 2; 3; 4; 5]) ex_treated_5 ex_control_5 "T" _ _ _)
            (ex_weights (treated_weights ex_scorer ex_treated_5 "T"))
            (ex_weights (control_weights ex_scorer ex_control_5))
            (ex_selected ex_treated_5) (ex_selected ex_control_5)
            _ _ _ _ _ _ _ _);
    vm_compute; first [reflexivity | discriminate].
Defined.

(** That run, evaluated: three treated rows, two control rows, two rows
    in the difference matrix; the third treated row is left out, and the
    two groups as they are could not be subtracted. *)
Lemma frobenius_norm_score_unequal_groups :
  Pd.nrows ex_treated_5 = 3%nat /\ Pd.nrows ex_control_5 = 2%nat
  /\ length (leading_difference ex_sqrt (ex_selected ex_treated_5)
               (ex_selected ex_control_5)
               (ex_weights (treated_weights ex_scorer ex_treated_5 "T"))
               (ex_weights (control_weights ex_scorer ex_control_5))
               (Nat.min 3 2)) = 2%nat
  /\ Np.broadcast2 (map2 F.sub) (Pd.values (ex_selected ex_treated_5))
       (Pd.values (ex_selected ex_control_5)) = Raise ValueError.
Proof. repeat split. Qed.

(** The first example, evaluated: three treated rows, one control row,
    one row in the difference matrix. *)
Lemma frobenius_norm_score_example :
  Pd.nrows ex_treated = 3%nat /\ Pd.nrows ex_control = 1%nat
  /\ leading_difference ex_sqrt (ex_selected ex_treated)
       (ex_selected ex_control)
       (ex_weights (treated_weights ex_scorer ex_treated "T"))
       (ex_weights (control_weights ex_scorer ex_control)) (Nat.min 3 1)
     = [[Fin (-1 * (500000 # 1000000)); Fin ((4 + - 0) * (500000 # 1000000))]].
Proof. repeat split. Qed.

(** ** Writes into the caller's frame *)

Lemma put_col_has (cols : list (string * list float)) (name : string)
    (vals : list float) :
  existsb (fun c => fst c =? name) (Pd.put_col cols name vals) = true.
Proof.
  induction cols as [|[k c] cols IH]; simpl.
  - now rewrite String.eqb_refl.
  - destruct (k =? name) eqn:E; simpl.
    + now rewrite String.eqb_refl.
    + now rewrite E.
Qed.

Lemma put_col_keeps (cols : list (string * list float)) (name other : string)
    (vals : list float) :
  existsb (fun c => fst c =? other) cols = true ->
  existsb (fun c => fst c =? other) (Pd.put_col cols name vals) = true.
Proof.
  induction cols as [|[k c] cols IH]; simpl; [discriminate|].
  destruct (k =? name) eqn:E; simpl.
  - apply String.eqb_eq in E. subst k.
    destruct (name =? other); simpl; auto.
  - destruct (k =? other); simpl; auto.
Qed.

Lemma setitem_OK (l : loc) (name : string) (vals : list float) (w w' : world)
    (u : unit) :
  (l < length (frames w))%nat ->
  setitem l name vals w = (OK u, w') ->
  length (frames w') = length (frames w)
  /\ Pd.has_col (frame_at w' l) name = true
  /\ forall other, Pd.has_col (frame_at w l) other = true ->
                   Pd.has_col (frame_at w' l) other = true.
Proof.
  intros Hl H. unfold setitem in H.
  step H. pure_read Hstep. step H. pure_step Hstep.
  unfold write in H. injection H as _ <-.
  unfold Pd.setcol in E0. destruct (_ =? _)%nat; [|discriminate].
  injection E0 as <-.
  assert (F : frame_at
                (mkWorld
                   (Np.set_nth (frames w) l
                      (mkDF (df_index a) (Pd.put_col (df_columns a) name vals)))
                   (rand w) (log w)) l
              = mkDF (df_index a) (Pd.put_col (df_columns a) name vals)).
  { unfold frame_at. simpl frames. now apply set_nth_same. }
  rewrite F. simpl frames. rewrite set_nth_length.
  split; [reflexivity|]. unfold Pd.has_col. simpl df_columns. split.
  - apply put_col_has.
  - intros other. subst a. apply put_col_keeps.
Qed.

(** The reconstruction step writes its two working columns into the frame
    it was given, and only then takes the copy it returns. *)
Lemma potential_outcomes_write_to_input (estimate : Estimator) (df : loc)
    (w w' : world) (Y0X : loc) (treatment_name split_test_by : string) :
  (df < length (frames w))%nat ->
  _Y0_X_potential_outcomes estimate df w
  = (OK (Y0X, treatment_name, split_test_by), w') ->
  Pd.has_col (frame_at w' df) "dy" = true
  /\ Pd.has_col (frame_at w' df) "yhat" = true
  /\ Y0X <> df
  /\ frame_at w' Y0X = frame_at w' df.
Proof.
  intros Hl H. unfold _Y0_X_potential_outcomes in H.
  step H. pure_step Hstep.
  step H. pure_read Hstep.
  step H. pure_step Hstep.
  step H. destruct (setitem_OK _ _ _ _ _ _ Hl Hstep) as (L1 & D1 & _).
  step H. pure_read Hstep0.
  step H. pure_step Hstep0.
  step H. pure_step Hstep0.
  step H. rewrite <- L1 in Hl.
  destruct (setitem_OK _ _ _ _ _ _ Hl Hstep0) as (L2 & D2 & K2).
  step H.
  assert (w2 = w1).
  { destruct (identifier_method estimate =? "iv"); pure_step Hstep1;
      reflexivity. }
  subst w2. clear Hstep1.
  step H. apply copy_OK in Hstep1. destruct Hstep1 as (Hc & Hf).
  pure_step H. injection E5 as -> -> ->.
  rewrite <- L2 in Hl.
  assert (Same : frame_at w2 df = frame_at w1 df).
  { unfold frame_at. rewrite Hf. now rewrite app_nth1. }
  rewrite Same. split; [now apply K2|]. split; [exact D2|]. split; [lia|].
  unfold frame_at at 1. rewrite Hf, Hc, nth_middle. reflexivity.
Qed.

(** ** Computations that do not write to the caller's frames *)

Lemma keeps_refl (n : nat) (w : world) :
  (n <= length (frames w))%nat -> keeps n w w.
Proof. intros H. split; auto. Qed.

Lemma keeps_trans (n : nat) (w1 w2 w3 : world) :
  keeps n w1 w2 -> keeps n w2 w3 -> keeps n w1 w3.
Proof.
  intros [L1 H1] [L2 H2]. split; [exact L2|].
  intros l Hl. rewrite H2 by exact Hl. now apply H1.
Qed.

Lemma keeps_same_frames (n : nat) (w w' : world) :
  (n <= length (frames w))%nat -> frames w' = frames w -> keeps n w w'.
Proof. intros H E. unfold keeps, frame_at. rewrite E. auto. Qed.

Lemma safe_bind {A B} (n : nat) (m : M A) (k : A -> M B) (Q : A -> Prop)
    (R : B -> Prop) :
  safe n m Q -> (forall a, Q a -> safe n (k a) R) -> safe n (bind m k) R.
Proof.
  intros Hm Hk w Hw. unfold bind. destruct (Hm w Hw) as [K Hq].
  destruct (m w) as [[a|e] w1]; simpl in *.
  - destruct (Hk a (Hq a eq_refl) w1 (proj1 K)) as [K' Hr].
    split; [eapply keeps_trans; eauto | exact Hr].
  - split; [exact K | discriminate].
Qed.

Lemma safe_try_except {A} (n : nat) (m h : M A) (c : exn -> bool)
    (Q : A -> Prop) :
  safe n m Q -> safe n h Q -> safe n (try_except m c h) Q.
Proof.
  intros Hm Hh w Hw. unfold try_except. destruct (Hm w Hw) as [K Hq].
  destruct (m w) as [[a|e] w1]; simpl in *; [split; assumption|].
  destruct (c e).
  - destruct (Hh w1 (proj1 K)) as [K' Hr].
    split; [eapply keeps_trans; eauto | exact Hr].
  - split; [exact K | discriminate].
Qed.

Lemma safe_weaken {A} (n : nat) (m : M A) (Q Q' : A -> Prop) :
  safe n m Q -> (forall a, Q a -> Q' a) -> safe n m Q'.
Proof.
  intros Hm HQ w Hw. destruct (Hm w Hw) as [K Hq]. split; auto.
Qed.

Lemma safe_ret {A} (n : nat) (a : A) (Q : A -> Prop) :
  Q a -> safe n (ret a) Q.
Proof.
  intros H w Hw. split; [now apply keeps_refl|].
  simpl. intros b E. now injection E as <-.
Qed.

Lemma safe_raise {A} (n : nat) (e : exn) (Q : A -> Prop) :
  safe n (@raise A e) Q.
Proof. intros w Hw. split; [now apply keeps_refl | discriminate]. Qed.

Lemma safe_lift {A} (n : nat) (r : result A) :
  safe n (lift r) (fun _ => True).
Proof. intros w Hw. split; [now apply keeps_refl | auto]. Qed.

Lemma safe_read (n : nat) (l : loc) : safe n (read l) (fun _ => True).
Proof. intros w Hw. split; [now apply keeps_refl | auto]. Qed.

Lemma safe_random_choice (n k : nat) :
  safe n (random_choice k) (fun _ => True).
Proof.
  intros w Hw. unfold random_choice.
  destruct k; (split; [now apply keeps_same_frames | auto]).
Qed.

Lemma safe_logging_warning (n : nat) (msg : string) :
  safe n (logging_warning msg) (fun _ => True).
Proof. intros w Hw. split; [now apply keeps_same_frames | auto]. Qed.

Lemma safe_alloc (n : nat) (d : DataFrame) :
  safe n (alloc d) (fun l => (n <= l)%nat).
Proof.
  intros w Hw. unfold alloc. simpl. split.
  - split; simpl; [rewrite length_app; lia|].
    intros l Hl. unfold frame_at. simpl. rewrite app_nth1 by lia. reflexivity.
  - intros a E. injection E as <-. exact Hw.
Qed.

Lemma safe_copy (n : nat) (l : loc) :
  safe n (copy l) (fun l' => (n <= l')%nat).
Proof.
  unfold copy. eapply safe_bind; [apply safe_read|].
  intros d _. apply safe_alloc.
Qed.

Lemma safe_setitem (n : nat) (l : loc) (name : string) (vals : list float) :
  (n <= l)%nat -> safe n (setitem l name vals) (fun _ => True).
Proof.
  intros Hl w Hw. unfold setitem, bind, read, lift, write.
  destruct (Pd.setcol _ name vals) as [d'|e]; simpl;
    [|split; [now apply keeps_refl | auto]].
  split; [|auto]. split; simpl; [now rewrite set_nth_length|].
  intros j Hj. unfold frame_at. simpl. apply set_nth_other. lia.
Qed.

Lemma safe_mapM {A B} (n : nat) (f : A -> M B) (l : list A) :
  (forall x, safe n (f x) (fun _ => True)) ->
  safe n (mapM f l) (fun _ => True).
Proof.
  intros Hf. induction l as [|x l IH]; simpl; [now apply safe_ret|].
  eapply safe_bind; [apply Hf|]. intros y _.
  eapply safe_bind; [exact IH|]. intros ys _. now apply safe_ret.
Qed.

(** Decompose a computation along its structure; what is left are the
    calls the tactic does not know. *)
Ltac safe_step :=
  first
    [ apply safe_raise
    | apply safe_ret; exact I
    | apply safe_lift | apply safe_read | apply safe_random_choice
    | apply safe_alloc | apply safe_copy
    | apply safe_setitem; assumption
    | apply safe_mapM; intros
    | eapply safe_bind; [|intros]
    | apply safe_try_except
    | match goal with
      | |- safe _ (match ?x with _ => _ end) _ => destruct x
      | |- safe _ (let (_, _) := ?x in _) _ => destruct x
      end ].

Ltac safe_auto := repeat safe_step.

Lemma safe_randomNN (n : nat) (ids : list nat) :
  safe n (randomNN ids) (fun _ => True).
Proof. unfold randomNN. safe_auto. Qed.

Lemma safe_transform_groups (n : nat) (keys : list nat)
    (rows : list (nat * nat)) :
  safe n (transform_groups keys rows) (fun _ => True).
Proof.
  induction keys as [|g keys IH]; simpl; [now apply safe_ret|].
  eapply safe_bind; [apply safe_randomNN|]. intros rnn _.
  eapply safe_bind; [exact IH|]. intros rest _. now apply safe_ret.
Qed.

Lemma safe_nearest_with_repeats (n : nat) (nb : list (list (nat * Q))) :
  safe n (nearest_with_repeats nb) (fun _ => True).
Proof.
  unfold nearest_with_repeats, groupby_transform.
  eapply safe_bind; [apply safe_transform_groups|].
  intros. now apply safe_ret.
Qed.

Lemma safe_helper_ties (n : nat) (X : list (list Q)) (a : nat) :
  safe n (helper_ties X a) (fun _ => True).
Proof. unfold helper_ties. safe_auto. Qed.

Lemma safe_estimateConditionalS (n : nat) (Y : list float) (X : ndarray) :
  safe n (estimateConditionalS Y X) (fun _ => True).
Proof.
  unfold estimateConditionalS.
  repeat first [ apply safe_nearest_with_repeats
               | apply safe_helper_ties
               | safe_step ].
Qed.

Lemma safe_estimateConditionalQ (n : nat) (Y : list float) (X Z : ndarray) :
  safe n (estimateConditionalQ Y X Z) (fun _ => True).
Proof.
  unfold estimateConditionalQ.
  eapply safe_bind; [apply safe_lift|]. intros W _.
  eapply safe_bind; [apply safe_lift|]. intros ptsX _.
  eapply safe_bind; [apply safe_lift|]. intros nbX _.
  eapply safe_bind; [apply safe_nearest_with_repeats|].
  intros [nn_index_X repeat_data] _.
  eapply safe_bind
    with (Q := fun r : list nat * option (nat -> M nat) =>
                 forall h, snd r = Some h ->
                           forall a, safe n (h a) (fun _ => True)).
  - destruct (0 <? _)%nat.
    + eapply safe_bind; [apply safe_mapM; intros; apply safe_helper_ties|].
      intros r _. apply safe_ret. simpl. intros h E a.
      injection E as <-. apply safe_helper_ties.
    + apply safe_ret. simpl. discriminate.
  - intros [nn helper] Hh. simpl in Hh.
    repeat first [ apply safe_nearest_with_repeats
                 | apply safe_mapM; intros; now apply (Hh _ eq_refl)
                 | safe_step ].
Qed.

Lemma safe_codec (n : nat) (Y : list float) (Z : ndarray) (X : option ndarray)
    (na_rm : bool) :
  safe n (codec Y Z X na_rm) (fun _ => True).
Proof.
  unfold codec, estimateConditionalT.
  repeat first [ apply safe_estimateConditionalS
               | apply safe_estimateConditionalQ
               | safe_step ].
Qed.

Section SafeScoring.

Variable sqrtQ : Q -> Q.
Variable dcor_energy_distance :
  list (list float) -> list (list float) -> result float.
Variable dcor_pairwise_distances :
  list (list float) -> list (list float) -> result (list (list float)).
Variable quantile_transform : list (list float) -> result (list (list float)).
Variable metrics_qini_score : DataFrame -> result float.
Variable metrics_auuc_score : DataFrame -> result float.
Variable psw_joint_weights :
  list float -> option (list float) -> result (list (list float)).

Variable n : nat.

Lemma safe_potential_outcomes (estimate : Estimator) (df : loc) :
  (n <= df)%nat ->
  safe n (_Y0_X_potential_outcomes estimate df) (fun _ => True).
Proof. intros H. unfold _Y0_X_potential_outcomes. safe_auto. Qed.

Lemma safe_energy_distance_score (estimate : Estimator) (df : loc) :
  (n <= df)%nat ->
  safe n (energy_distance_score dcor_energy_distance estimate df)
    (fun _ => True).
Proof.
  intros H. unfold energy_distance_score.
  repeat first [ apply safe_potential_outcomes; assumption | safe_step ].
Qed.

Lemma safe_psw_energy_distance (self : Scorer) (estimate : Estimator)
    (df : loc) (normalise : bool) :
  (n <= df)%nat ->
  safe n (psw_energy_distance dcor_pairwise_distances quantile_transform
            psw_joint_weights self estimate df normalise) (fun _ => True).
Proof.
  intros H. unfold psw_energy_distance.
  repeat first [ apply safe_potential_outcomes; assumption | safe_step ].
Qed.

Lemma safe_frobenius_norm_score (self : Scorer) (estimate : Estimator)
    (df : loc) (thr : float) :
  (n <= df)%nat ->
  safe n (frobenius_norm_score sqrtQ self estimate df thr) (fun _ => True).
Proof.
  intros H. unfold frobenius_norm_score.
  repeat first [ apply safe_potential_outcomes; assumption | safe_step ].
Qed.

Lemma safe_codec_score (estimate : Estimator) (df : loc) :
  (n <= df)%nat -> safe n (codec_score sqrtQ estimate df) (fun _ => True).
Proof.
  intros H. unfold codec_score.
  repeat first [ apply safe_codec | safe_step ].
Qed.

Lemma safe_policy_risk_score (self : Scorer) (estimate : Estimator)
    (df : loc) (cate : list float) (outcome_name : string)
    (policy : option (list float -> result (list float)))
    (rct : option (list Z)) (thr clip : float) :
  safe n (policy_risk_score sqrtQ self estimate df cate outcome_name policy
            rct thr clip) (fun _ => True).
Proof. unfold policy_risk_score. safe_auto. Qed.

Lemma safe_ate (self : Scorer) (df : loc) :
  safe n (ate sqrtQ self df) (fun _ => True).
Proof. unfold ate. safe_auto. Qed.

Lemma safe_make_scores (self : Scorer) (estimate : Estimator) (df : loc)
    (metrics_to_report : list string)
    (r_scorer : option (list float -> result float)) :
  safe n (make_scores sqrtQ dcor_energy_distance dcor_pairwise_distances
            quantile_transform metrics_qini_score metrics_auuc_score
            psw_joint_weights self estimate df metrics_to_report r_scorer)
    (fun _ => True).
Proof.
  unfold make_scores, report, scalar, qini_make_score, auc_make_score,
    r_make_score.
  repeat first [ apply safe_ate
               | apply safe_frobenius_norm_score; assumption
               | apply safe_policy_risk_score
               | apply safe_energy_distance_score; assumption
               | apply safe_psw_energy_distance; assumption
               | apply safe_codec_score; assumption
               | safe_step ].
Qed.

End SafeScoring.

Section CallerFrames.

Variable sqrtQ : Q -> Q.
Variable dcor_energy_distance :
  list (list float) -> list (list float) -> result float.
Variable dcor_pairwise_distances :
  list (list float) -> list (list float) -> result (list (list float)).
Variable quantile_transform : list (list float) -> result (list (list float)).
Variable metrics_qini_score : DataFrame -> result float.
Variable metrics_auuc_score : DataFrame -> result float.
Variable psw_joint_weights :
  list float -> option (list float) -> result (list (list float)).

(** X8.  [policy_risk_score] puts its working columns on a copy: whatever its
    outcome, every frame of the caller is as it was. *)
Theorem policy_risk_score_preserves_caller_frames (self : Scorer)
    (estimate : Estimator) (df : loc) (cate : list float)
    (outcome_name : string)
    (policy : option (list float -> result (list float)))
    (rct : option (list Z)) (thr clip : float) (w : world) (l : loc) :
  (l < length (frames w))%nat ->
  frame_at (snd (policy_risk_score sqrtQ self estimate df cate outcome_name
                   policy rct thr clip w)) l
  = frame_at w l.
Proof.
  intros H.
  destruct (safe_policy_risk_score sqrtQ (length (frames w)) self estimate df
              cate outcome_name policy rct thr clip w (le_n _)) as [[_ K] _].
  now apply K.
Qed.

(** X18.  [make_scores] starts with [df.copy()]: whatever its outcome and
    whichever metrics it computes, every frame of the caller is as it
    was. *)
Theorem make_scores_preserves_caller_frames (self : Scorer)
    (estimate : Estimator) (df : loc) (metrics_to_report : list string)
    (r_scorer : option (list float -> result float)) (w : world) (l : loc) :
  (l < length (frames w))%nat ->
  frame_at (snd (make_scores sqrtQ dcor_energy_distance
                   dcor_pairwise_distances quantile_transform
                   metrics_qini_score metrics_auuc_score psw_joint_weights
                   self estimate df metrics_to_report r_scorer w)) l
  = frame_at w l.
Proof.
  intros H.
  destruct (safe_make_scores sqrtQ dcor_energy_distance
              dcor_pairwise_distances quantile_transform metrics_qini_score
              metrics_auuc_score psw_joint_weights (length (frames w)) self
              estimate df metrics_to_report r_scorer w (le_n _)) as [[_ K] _].
  now apply K.
Qed.

Lemma rest_keeps {A} (m : M A) (df : loc) (w w' : world) (r : result A) :
  safe (S df) m (fun _ => True) ->
  (df < length (frames w))%nat ->
  m w = (r, w') -> frame_at w' df = frame_at w df.
Proof.
  intros Hs Hl E. destruct (Hs w Hl) as [[_ K] _]. rewrite E in K.
  apply K. lia.
Qed.

(** After a run [H] of a computation that only reads, frame [df] is what
    it was. *)
Ltac keep_frame H df :=
  match type of H with
  | ?m ?w0 = (?r, ?w') =>
      let K := fresh "K" in
      assert (K : frame_at w' df = frame_at w0 df);
      [ apply (rest_keeps m df w0 w' r);
        [ repeat first [apply safe_codec | safe_step] | lia | exact H ]
      | rewrite K ]
  end.

Lemma potential_outcomes_length (estimate : Estimator) (df : loc)
    (w w' : world) (r : result (loc * string * string)) :
  _Y0_X_potential_outcomes estimate df w = (r, w') ->
  (length (frames w) <= length (frames w'))%nat.
Proof.
  intros E.
  pose proof (stable_potential_outcomes estimate df w) as [L _].
  now rewrite E in L.
Qed.

(** In general: the three distance metrics go through the
    reconstruction step, and
    [codec_score] repeats its two assignments: whenever one of them
    returns a score (for [frobenius_norm_score]: a score other than the
    sentinel), the frame the caller passed in holds the working columns
    [dy] and [yhat]. *)
Theorem metric_functions_write_to_caller_frame (self : Scorer)
    (estimate : Estimator) (df : loc) (w w' : world) (x : float) :
  (df < length (frames w))%nat ->
  (energy_distance_score dcor_energy_distance estimate df w = (OK x, w') ->
   has_working_columns w' df)
  /\ (forall normalise,
        psw_energy_distance dcor_pairwise_distances quantile_transform
          psw_joint_weights self estimate df normalise w = (OK x, w') ->
        has_working_columns w' df)
  /\ (forall thr,
        frobenius_norm_score sqrtQ self estimate df thr w = (OK x, w') ->
        x <> PInf -> has_working_columns w' df)
  /\ (codec_score sqrtQ estimate df w = (OK x, w') -> has_working_columns w' df).
Proof.
  intros Hl. unfold has_working_columns. split; [|split; [|split]].
  - intros H. unfold energy_distance_score in H.
    step H. destruct a as [[Y0X tn] sp].
    destruct (potential_outcomes_write_to_input _ _ _ _ _ _ _ Hl Hstep)
      as (D & Y & _ & _).
    pose proof (potential_outcomes_length _ _ _ _ _ Hstep) as Hlen.
    keep_frame H df.
    now split.
  - intros normalise H. unfold psw_energy_distance in H.
    step H. destruct a as [[Y0X tn] sp].
    destruct (potential_outcomes_write_to_input _ _ _ _ _ _ _ Hl Hstep)
      as (D & Y & _ & _).
    pose proof (potential_outcomes_length _ _ _ _ _ Hstep) as Hlen.
    keep_frame H df.
    now split.
  - intros thr H Hx. unfold frobenius_norm_score in H.
    step H. pure_read Hstep. step H.
    rewrite frobenius_cate_run in Hstep. injection Hstep as Hc <-.
    destruct a0 as [cate|]; [|pure_step H; congruence].
    destruct (F.leb _ thr); [pure_step H; congruence|].
    step H. destruct a0 as [[Y0X tn] sp].
    destruct (potential_outcomes_write_to_input _ _ _ _ _ _ _ Hl Hstep)
      as (D & Y & _ & _).
    pose proof (potential_outcomes_length _ _ _ _ _ Hstep) as Hlen.
    keep_frame H df.
    now split.
  - intros H. unfold codec_score in H.
    step H. pure_step Hstep. step H. pure_read Hstep. step H. pure_step Hstep.
    step H. pure_step Hstep.
    step H. destruct (setitem_OK _ _ _ _ _ _ Hl Hstep) as (L1 & D1 & _).
    step H. pure_read Hstep0. step H. pure_step Hstep0.
    step H. pure_step Hstep0.
    step H. rewrite <- L1 in Hl.
    destruct (setitem_OK _ _ _ _ _ _ Hl Hstep0) as (L2 & D2 & K2).
    rewrite <- L2 in Hl.
    keep_frame H df.
    split; [now apply K2 | exact D2].
Qed.

End CallerFrames.

(** C1, what the code does at a concrete input.  On the worked example
    each of the four metric functions that reconstruct outcomes returns a
    score and leaves the columns [dy] and [yhat] in the frame the caller
    passed in; [policy_risk_score] returns a score and leaves that frame as
    it was. *)
Theorem metric_functions_mutate_caller_frame :
  Pd.column_names (frame_at ex_world 0%nat) = ["T"; "Y"; "x"; "random"]
  /\ (let run := energy_distance_score ex_energy_distance ex_estimator 0%nat
                   ex_world in
      fst run = OK (Fin 42)
      /\ caller_columns_after run = ["T"; "Y"; "x"; "random"; "dy"; "yhat"])
  /\ (let run := psw_energy_distance ex_pairwise_distances
                   ex_quantile_transform ex_joint_weights ex_scorer
                   ex_estimator 0%nat false ex_world in
      (exists x, fst run = OK x)
      /\ caller_columns_after run = ["T"; "Y"; "x"; "random"; "dy"; "yhat"])
  /\ (let run := frobenius_norm_score ex_sqrt ex_scorer ex_estimator 0%nat
                   (Fin (1 # 100)) ex_world in
      (exists x, fst run = OK x)
      /\ caller_columns_after run = ["T"; "Y"; "x"; "random"; "dy"; "yhat"])
  /\ (let run := codec_score ex_sqrt ex_estimator 0%nat ex_world in
      (exists x, fst run = OK x)
      /\ caller_columns_after run = ["T"; "Y"; "x"; "random"; "dy"; "yhat"])
  /\ (let run := policy_risk_score ex_sqrt ex_scorer ex_estimator 0%nat
                   (vec [1; 2; 3; 4]) "Y" None None (Fin (1 # 100))
                   (Fin (5 # 100)) ex_world in
      (exists x, fst run = OK x)
      /\ frame_at (snd run) 0%nat = frame_at ex_world 0%nat).
Proof.
  repeat split; try (eexists; vm_compute; reflexivity);
    vm_compute; reflexivity.
Qed.

(** The leak has a visible effect inside the aggregator: by the time the
    CODEC score is computed there, earlier metrics have added [dy] and
    [yhat] to the working frame, and [identify_confounders] counts them
    among the confounders.  The score differs from the one on a fresh
    frame. *)
Lemma codec_score_depends_on_earlier_metrics :
  fst (codec_score ex_sqrt ex_estimator 0%nat ex_world) = OK (Fin (16 # 80))
  /\ dict_get ex_out "codec" = Some (OFloat (Fin (0 # 32))).
Proof. split; vm_compute; reflexivity. Qed.

(** ** Ranks and neighbours *)

Lemma combine_seq_fst {A} (l : list A) (s : nat) :
  map fst (combine (seq s (length l)) l) = seq s (length l).
Proof.
  revert s. induction l as [|x l IH]; intros s; simpl; [reflexivity|].
  now rewrite IH.
Qed.

Lemma argsort_perm {A} (le : A -> A -> bool) (l : list A) :
  Permutation (Np.argsort le l) (seq 0 (length l)).
Proof.
  unfold Np.argsort. rewrite <- (combine_seq_fst l 0) at 2.
  apply Permutation_map. symmetry. apply sort_by_perm.
Qed.

Lemma argsort_length {A} (le : A -> A -> bool) (l : list A) :
  length (Np.argsort le l) = length l.
Proof.
  rewrite (Permutation_length (argsort_perm le l)). apply length_seq.
Qed.

(** The ranks are the numbers [0 .. n-1], each once. *)
Lemma rank_perm (Y : list float) :
  Permutation (rank Y) (map Z.of_nat (seq 0 (length Y))).
Proof.
  unfold rank. apply Permutation_map.
  rewrite <- (argsort_length Np.sort_le Y). apply argsort_perm.
Qed.

Lemma rank_length (Y : list float) : length (rank Y) = length Y.
Proof.
  rewrite (Permutation_length (rank_perm Y)).
  now rewrite length_map, length_seq.
Qed.

Lemma rank_NoDup (Y : list float) : NoDup (rank Y).
Proof.
  eapply Permutation_NoDup; [symmetry; apply rank_perm|].
  apply Finite.Injective_map_NoDup; [|apply seq_NoDup].
  intros a b. apply Nat2Z.inj.
Qed.

Lemma rank_range (Y : list float) (r : Z) :
  In r (rank Y) -> (0 <= r < Z.of_nat (length Y))%Z.
Proof.
  intros H. apply (Permutation_in _ (rank_perm Y)) in H.
  apply in_map_iff in H. destruct H as (k & <- & Hk).
  apply in_seq in Hk. lia.
Qed.

Lemma rank_top (Y : list float) :
  Y <> [] -> In (Z.of_nat (length Y) - 1)%Z (rank Y).
Proof.
  intros H. apply (Permutation_in _ (Permutation_sym (rank_perm Y))).
  apply in_map_iff. exists (length Y - 1)%nat.
  destruct Y; [congruence|]. simpl length. split; [lia|].
  apply in_seq. lia.
Qed.

(** ** Arrays *)

Lemma where_true_In {A} (p : A -> bool) (l : list A) (d : A) (i : nat) :
  In i (Np.where_true p l) <-> (i < length l)%nat /\ p (nth i l d) = true.
Proof.
  unfold Np.where_true. rewrite in_map_iff. split.
  - intros ([j x] & <- & H). apply filter_In in H. destruct H as [H Hp].
    simpl in *. 
    assert (G : forall s (l : list A) j x, In (j, x) (combine (seq s (length l)) l) ->
              (s <= j < s + length l)%nat /\ nth (j - s) l d = x).
    { clear. intros s l. revert s. induction l as [|y l IH]; intros s j x; simpl.
      - intros [].
      - intros [E|H].
        + injection E as <- <-. rewrite Nat.sub_diag. split; [lia|reflexivity].
        + apply IH in H. destruct H as [R E]. split; [lia|].
          replace (j - s)%nat with (S (j - S s)) by lia. exact E. }
    apply G in H. destruct H as [R E]. rewrite Nat.sub_0_r in E.
    split; [lia|]. now rewrite E.
  - intros [Hi Hp]. exists (i, nth i l d). split; [reflexivity|].
    apply filter_In. split; [|exact Hp].
    assert (G : forall s (l : list A) i, (i < length l)%nat ->
              In ((s + i)%nat, nth i l d) (combine (seq s (length l)) l)).
    { clear. intros s l. revert s. induction l as [|y l IH]; intros s i H;
        simpl in *; [lia|].
      destruct i as [|i].
      - left. now rewrite Nat.add_0_r.
      - right. replace (s + S i)%nat with (S s + i)%nat by lia.
        apply IH. lia. }
    apply (G 0%nat l i Hi).
Qed.

Lemma take_spec {A} (a : list A) (idx : list nat) (r : list A) :
  Np.take a idx = OK r -> Forall2 (fun i x => nth_error a i = Some x) idx r.
Proof.
  revert r. induction idx as [|i idx IH]; intros r; simpl.
  - intros H. injection H as <-. constructor.
  - destruct (nth_error a i) as [x|] eqn:E; [|discriminate].
    destruct (Np.take a idx) as [r'|e]; [|discriminate].
    intros H. injection H as <-. constructor; [exact E | now apply IH].
Qed.

(** Where [a[ids] = vals] leaves each position: at a new value paired
    with it, or untouched. *)
Lemma assign_spec {A} (P : nat -> A -> Prop) (pairs : list (nat * A))
    (l : list A) (d : A) :
  (forall i v, In (i, v) pairs -> P i v) ->
  forall i, (i < length l)%nat ->
    (In i (map fst pairs) \/ P i (nth i l d)) ->
    P i (nth i (fold_left (fun acc p => Np.set_nth acc (fst p) (snd p)) pairs l) d).
Proof.
  revert l. induction pairs as [|[j v] pairs IH]; intros l HP i Hi H; simpl.
  - destruct H as [[]|H]. exact H.
  - apply IH.
    + intros i' v' Hin. apply HP. now right.
    + now rewrite set_nth_length.
    + destruct (in_dec Nat.eq_dec i (map fst pairs)) as [Hin|Hnin];
        [now left|]. right.
      destruct (Nat.eq_dec j i) as [->|N].
      * rewrite set_nth_same by exact Hi. apply HP. now left.
      * rewrite set_nth_other by exact N.
        destruct H as [[E|Hin]|H]; [simpl in E; congruence | contradiction | exact H].
Qed.

Lemma assign_length {A} (l : list A) (ids : list nat) (vals : list A) :
  length (Np.assign l ids vals) = length l.
Proof.
  unfold Np.assign. generalize (combine ids vals). intros pairs. revert l.
  induction pairs as [|p pairs IH]; intros l; simpl; [reflexivity|].
  now rewrite IH, set_nth_length.
Qed.

Lemma skip_self_neq (a x : nat) : skip_self a x <> a.
Proof. unfold skip_self. destruct (a <=? x)%nat eqn:E.
  - apply Nat.leb_le in E. lia.
  - apply Nat.leb_gt in E. lia.
Qed.

Lemma mapM_OK {A B} (f : A -> M B) (l : list A) (w w' : world) (r : list B) :
  mapM f l w = (OK r, w') ->
  Forall2 (fun x y => exists w1 w2, f x w1 = (OK y, w2)) l r.
Proof.
  revert w r. induction l as [|x l IH]; intros w r H; simpl in H.
  - pure_step H. subst. constructor.
  - step H. step H. pure_step H. subst. constructor; eauto.
Qed.

Lemma NoDup_map_fst_filter {A B} (p : A * B -> bool) (l : list (A * B)) :
  NoDup (map fst l) -> NoDup (map fst (filter p l)).
Proof.
  induction l as [|x l IH]; simpl; intros H; [constructor|].
  inversion H as [|? ? Hn Hd]; subst.
  destruct (p x); simpl; [|now apply IH].
  constructor; [|now apply IH].
  intros C. apply Hn. apply in_map_iff in C. destruct C as (y & E & Hy).
  apply filter_In in Hy. apply in_map_iff. exists y. tauto.
Qed.

Lemma where_true_NoDup {A} (p : A -> bool) (l : list A) :
  NoDup (Np.where_true p l).
Proof.
  unfold Np.where_true. apply NoDup_map_fst_filter.
  rewrite combine_seq_fst. apply seq_NoDup.
Qed.

Lemma combine_map_fst {A B} (f : A -> B) (l : list A) :
  map fst (combine l (map f l)) = l.
Proof. induction l as [|x l IH]; simpl; [reflexivity|]. now rewrite IH. Qed.

Lemma combine_fst_same_length {A B} (a : list A) (b : list B) :
  length a = length b -> map fst (combine a b) = a.
Proof.
  revert b. induction a as [|x a IH]; intros [|y b] H; simpl in *;
    try discriminate; try reflexivity.
  injection H as H. now rewrite IH.
Qed.

Lemma Forall2_combine {A B} (P : A -> B -> Prop) (a : list A) (b : list B) :
  Forall2 P a b -> forall x y, In (x, y) (combine a b) -> P x y.
Proof.
  induction 1 as [|x y a b Hxy _ IH]; simpl; intros x' y' H; [contradiction|].
  destruct H as [E|H]; [now injection E as <- <- | now apply IH].
Qed.

Lemma Forall2_nth {A B} (P : A -> B -> Prop) (a : list A) (b : list B)
    (da : A) (db : B) :
  Forall2 P a b ->
  forall k, (k < length a)%nat -> P (nth k a da) (nth k b db).
Proof.
  induction 1 as [|x y a b Hxy _ IH]; intros k Hk; simpl in *; [lia|].
  destruct k as [|k]; [exact Hxy|]. apply IH. lia.
Qed.

(** [randomNN] never gives a row itself as its neighbour. *)
Lemma randomNN_OK (ids : list nat) (w w' : world) (r : list nat) :
  NoDup ids ->
  randomNN ids w = (OK r, w') ->
  length r = length ids /\ forall i v, In (i, v) (combine ids r) -> v <> i.
Proof.
  intros ND H. unfold randomNN in H.
  destruct (length ids) as [|m'] eqn:Em.
  - pure_step H. subst r. destruct ids; [|discriminate]. simpl. tauto.
  - rewrite <- Em in H. step H. pure_step H.
    apply mapM_OK in Hstep. apply Forall2_length in Hstep.
    rewrite length_seq in Hstep.
    apply take_spec in E.
    pose proof (Forall2_length E) as L.
    rewrite length_map, length_combine, length_seq, <- Hstep, Nat.min_id in L.
    split; [now rewrite <- L, Em|].
    intros i v Hin.
    destruct (In_nth _ _ (0%nat, 0%nat) Hin) as (k & Hk & Ek).
    rewrite length_combine in Hk. rewrite combine_nth in Ek by lia.
    injection Ek as Ei Ev.
    (* position [k] of the index array *)
    set (x' := map (fun p : nat * nat => skip_self (fst p) (snd p))
                 (combine (seq 0 (length ids)) a)) in *.
    assert (Hx : nth k x' 0%nat = skip_self k (nth k a 0%nat)).
    { unfold x'.
      rewrite (nth_indep _ 0%nat (skip_self (fst (0%nat,0%nat)) (snd (0%nat, 0%nat))))
        by (rewrite length_map, length_combine, length_seq; lia).
      rewrite (map_nth (fun p : nat * nat => skip_self (fst p) (snd p))).
      rewrite combine_nth by (rewrite length_seq; lia).
      rewrite seq_nth by lia. reflexivity. }
    assert (Hr : nth_error ids (nth k x' 0%nat) = Some (nth k r 0%nat)).
    { apply (Forall2_nth _ _ _ 0%nat 0%nat E).
      unfold x'. rewrite length_map, length_combine, length_seq. lia. }
    intros C. rewrite Ev, C in Hr.
    assert (Hi : nth_error ids k = Some i).
    { rewrite <- Ei. apply nth_error_nth'. lia. }
    rewrite <- Hi in Hr.
    apply (proj1 (NoDup_nth_error ids)) in Hr; [|exact ND|].
    + rewrite Hx in Hr. now apply skip_self_neq in Hr.
    + apply nth_error_Some. rewrite Hr, Hi. discriminate.
Qed.

Lemma transform_groups_OK (keys : list nat) (rows : list (nat * nat))
    (w w' : world) (pairs : list (nat * nat)) :
  NoDup (map fst rows) ->
  transform_groups keys rows w = (OK pairs, w') ->
  (forall i v, In (i, v) pairs -> v <> i)
  /\ (forall i g, In (i, g) rows -> In g keys -> In i (map fst pairs)).
Proof.
  intros ND. revert w pairs.
  induction keys as [|g keys IH]; intros w pairs H; simpl in H.
  - pure_step H. subst. split; [intros ? ? []|intros ? ? _ []].
  - step H. step H. pure_step H. subst pairs.
    apply randomNN_OK in Hstep; [|now apply NoDup_map_fst_filter].
    destruct Hstep as [L Hne]. destruct (IH _ _ Hstep0) as [IH1 IH2].
    split.
    + intros i v Hin. apply in_app_iff in Hin.
      destruct Hin as [Hin|Hin]; [now apply Hne | now apply IH1].
    + intros i g' Hi [<-|Hg].
      * rewrite map_app, in_app_iff. left.
        rewrite combine_fst_same_length by (now rewrite L).
        apply in_map_iff. exists (i, g). split; [reflexivity|].
        apply filter_In. split; [exact Hi|]. simpl. apply Nat.eqb_refl.
      * rewrite map_app, in_app_iff. right. eapply IH2; eauto.
Qed.

Lemma nat_dedup_In (x : nat) (l : list nat) : In x (nat_dedup l) <-> In x l.
Proof.
  induction l as [|y l IH]; simpl; [tauto|].
  destruct (existsb (Nat.eqb y) l) eqn:E.
  - rewrite IH. split; [tauto|]. intros [->|H]; [|exact H].
    apply existsb_exists in E. destruct E as (z & Hz & Ez).
    apply Nat.eqb_eq in Ez. now subst.
  - simpl. rewrite IH. tauto.
Qed.

Lemma groupby_transform_OK (ids : list nat) (f : nat -> nat) (w w' : world)
    (pairs : list (nat * nat)) :
  NoDup ids ->
  groupby_transform ids (map f ids) w = (OK pairs, w') ->
  (forall i v, In (i, v) pairs -> v <> i)
  /\ (forall i, In i ids -> In i (map fst pairs)).
Proof.
  intros ND H. unfold groupby_transform in H.
  apply transform_groups_OK in H; [|now rewrite combine_map_fst].
  destruct H as [H1 H2]. split; [exact H1|].
  intros i Hi. apply (H2 i (f i)).
  - clear - Hi. induction ids as [|x ids IH]; simpl in *; [contradiction|].
    destruct Hi as [->|Hi]; [now left | right; now apply IH].
  - apply nat_dedup_In.
    apply (Permutation_in _ (sort_by_perm Nat.leb (map f ids))).
    now apply in_map.
Qed.

(** ** The nearest neighbour is another row *)

Lemma sqdist_fold_self (x : list Q) (acc : Q) :
  fold_left (fun acc p => acc + (fst p - snd p) * (fst p - snd p))
    (combine x x) acc == acc.
Proof.
  revert acc. induction x as [|a x IH]; intros acc; simpl; [reflexivity|].
  rewrite IH. ring.
Qed.

Lemma sqdist_self (x : list Q) : Sklearn.sqdist x x == 0.
Proof. unfold Sklearn.sqdist. apply sqdist_fold_self. Qed.

Lemma combine_seq_map_In {A B} (f : A -> B) (l : list A) (d : A) (s j : nat)
    (y : B) :
  In (j, y) (combine (seq s (length l)) (map f l)) ->
  (s <= j)%nat /\ y = f (nth (j - s) l d).
Proof.
  revert s. induction l as [|x l IH]; intros s; simpl; [intros []|].
  intros [E|H].
  - injection E as <- <-. rewrite Nat.sub_diag. split; [lia | reflexivity].
  - apply IH in H. destruct H as [R E]. split; [lia|].
    replace (j - s)%nat with (S (j - S s)) by lia. exact E.
Qed.

(** When the second entry of the neighbour list of row [i] is not at
    distance zero, it is not row [i] itself. *)
Lemma second_neighbour_is_another (pts : list (list Q)) (i : nat) :
  let nb := firstn 3 (Sklearn.neighbours_of pts (nth i pts [])) in
  Qeq_bool (Sklearn.dist_at 1 nb) 0 = false ->
  Sklearn.index_at 1 nb <> i.
Proof.
  intros nb H C. unfold nb, Sklearn.dist_at, Sklearn.index_at in *.
  rewrite nth_firstn in *. change (1 <? 3)%nat with true in *. cbv iota in *.
  set (s := Sklearn.neighbours_of pts (nth i pts [])) in *.
  destruct (Nat.lt_ge_cases 1 (length s)) as [L|L].
  - assert (Hin : In (nth 1 s (0%nat, 0)) s) by now apply nth_In.
    assert (Hp : Permutation s
                   (combine (seq 0 (length pts))
                      (map (Sklearn.sqdist (nth i pts [])) pts)))
      by (symmetry; apply sort_by_perm).
    apply (Permutation_in _ Hp) in Hin.
    destruct (nth 1 s (0%nat, 0)) as [j y] eqn:E.
    simpl in C, H. subst j.
    apply (combine_seq_map_In _ _ []) in Hin. destruct Hin as [_ ->].
    rewrite Nat.sub_0_r in H.
    rewrite (Qeq_eq_bool _ _ (sqdist_self _)) in H. discriminate.
  - rewrite nth_overflow in H by exact L. discriminate.
Qed.

Lemma helper_ties_OK (X : list (list Q)) (a : nat) (w w' : world) (v : nat) :
  helper_ties X a w = (OK v, w') -> v <> a.
Proof.
  unfold helper_ties. destruct (nth_error X a); [|discriminate].
  destruct (Qmin_list _); [|discriminate].
  intros H. step H. pure_step H. subst v. apply skip_self_neq.
Qed.

Lemma kneighbors_OK (pts : list (list Q)) (nb : list (list (nat * Q))) :
  Sklearn.kneighbors pts = OK nb ->
  (3 <= length pts)%nat
  /\ nb = map (fun x => firstn 3 (Sklearn.neighbours_of pts x)) pts.
Proof.
  unfold Sklearn.kneighbors. destruct (length pts <? 3)%nat eqn:E;
    [discriminate|].
  intros H. injection H as <-. apply Nat.ltb_ge in E. auto.
Qed.

(** After the repeated rows were redistributed, no row is its own
    nearest neighbour. *)
Lemma nearest_with_repeats_OK (pts : list (list Q))
    (nb : list (list (nat * Q))) (w w' : world) (nn rd : list nat) :
  nb = map (fun x => firstn 3 (Sklearn.neighbours_of pts x)) pts ->
  nearest_with_repeats nb w = (OK (nn, rd), w') ->
  length nn = length pts
  /\ forall i, (i < length pts)%nat -> nth i nn 0%nat <> i.
Proof.
  intros Hnb H. unfold nearest_with_repeats in H.
  step H. pure_step H. injection E as -> ->.
  apply groupby_transform_OK in Hstep; [|apply where_true_NoDup].
  destruct Hstep as [Hne Hcov].
  assert (Ln : length nb = length pts) by (subst nb; apply length_map).
  split; [now rewrite assign_length, length_map|].
  intros i Hi. unfold Np.assign.
  rewrite <- (combine_fst_same_length (map fst a) (map snd a)) in Hcov
    by (now rewrite !length_map).
  assert (Hpairs : combine (map fst a) (map snd a) = a).
  { clear. induction a as [|[x y] a IH]; simpl; [reflexivity|].
    now rewrite IH. }
  rewrite Hpairs in *.
  apply (assign_spec (fun i v => v <> i)).
  - exact Hne.
  - now rewrite length_map, Ln.
  - destruct (Qeq_bool (Sklearn.dist_at 1 (nth i nb [])) 0) eqn:D.
    + left. apply Hcov. apply (where_true_In _ _ []). rewrite Ln. auto.
    + right.
      rewrite (nth_indep _ 0%nat (Sklearn.index_at 1 []))
        by (rewrite length_map; lia).
      rewrite (map_nth (Sklearn.index_at 1)).
      revert D. subst nb.
      rewrite (nth_indep _ []
                 ((fun x => firstn 3 (Sklearn.neighbours_of pts x)) []))
        by (rewrite length_map; lia).
      rewrite (map_nth (fun x => firstn 3 (Sklearn.neighbours_of pts x))).
      apply second_neighbour_is_another.
Qed.

Lemma fold_add_mono (l : list Z) (acc : Z) :
  Forall (fun y => (0 <= y)%Z) l -> (acc <= fold_left Z.add l acc)%Z.
Proof.
  revert acc. induction l as [|y l IH]; intros acc H; simpl; [lia|].
  inversion H as [|? ? Hy Hl]; subst. specialize (IH (acc + y)%Z Hl). lia.
Qed.

Lemma sumZ_lower_bound (l : list Z) (x : Z) :
  Forall (fun y => (0 <= y)%Z) l -> In x l -> (x <= Np.sumZ l)%Z.
Proof.
  unfold Np.sumZ. intros H Hin.
  assert (G : forall acc, (acc + x <= fold_left Z.add l acc)%Z).
  { induction l as [|y l IH]; intros acc; simpl; [contradiction|].
    inversion H as [|? ? Hy Hl]; subst. destruct Hin as [->|Hin].
    - apply fold_add_mono. exact Hl.
    - specialize (IH Hl Hin (acc + y)%Z). lia. }
  specialize (G 0%Z). lia.
Qed.

Lemma broadcast2_OK_lengths {A B C} (f : A -> B -> C) (a : list A)
    (b : list B) (r : list C) :
  Np.broadcast2 f a b = OK r ->
  (length a = length b /\ r = map2 f a b)
  \/ length a = 1%nat \/ length b = 1%nat.
Proof.
  unfold Np.broadcast2. destruct (length a =? length b)%nat eqn:E.
  - apply Nat.eqb_eq in E. intros H. injection H as <-. left. auto.
  - intros H. right. destruct a as [|x [|y a]]; [| now left |].
    + destruct b as [|y [|z b]]; try discriminate. now right.
    + destruct b as [|z [|z' b]]; try discriminate. now right.
Qed.

Lemma combine_min_le (R R' : list Z) (a b : Z) :
  In (a, b) (combine R (map2 Z.min R R')) -> (b <= a)%Z.
Proof.
  unfold map2. revert R'.
  induction R as [|r R IH]; intros [|x R']; simpl; try contradiction.
  intros [E|H]; [injection E as <- <-; lia | eapply IH; eauto].
Qed.

(** ** CODEC with a conditioning set *)

(** The denominator of CODEC is strictly positive whenever it is
    computed: the ranks are [0 .. n-1], the row of rank [n-1] has another
    row as its neighbour, and that row has a smaller rank. *)
Lemma estimateConditionalS_positive (Y : list float) (X : ndarray)
    (w w' : world) (s : float) :
  estimateConditionalS Y X w = (OK s, w') ->
  exists q, s = Fin q /\ 0 < q.
Proof.
  intros H. unfold estimateConditionalS in H.
  step H. pure_step Hstep. rename a into pts.
  step H. pure_step Hstep. rename a into nb.
  apply kneighbors_OK in E0. destruct E0 as [N3 Hnb].
  step H. destruct a as [nn1 rd].
  apply (nearest_with_repeats_OK pts) in Hstep; [|exact Hnb].
  destruct Hstep as [L1 Hnn1].
  step H. rename a into nn.
  assert (Hnn : length nn = length pts
                /\ forall i, (i < length pts)%nat -> nth i nn 0%nat <> i).
  { destruct (0 <? length (ties_of nb rd))%nat.
    - step Hstep. pure_step Hstep. subst nn.
      split; [now rewrite assign_length|].
      intros i Hi. unfold Np.assign.
      apply (assign_spec (fun i v => v <> i)).
      + apply mapM_OK in Hstep0.
        apply Forall2_combine. eapply Forall2_impl; [|exact Hstep0].
        intros tie v (wa & wb & Hv). eapply helper_ties_OK; eauto.
      + now rewrite L1.
      + right. now apply Hnn1.
    - pure_step Hstep. subst nn. auto. }
  clear Hstep Hnn1 L1. destruct Hnn as [Ln Hnn].
  step H. pure_step Hstep. rename a into R_nn, E0 into Htake.
  step H. pure_step Hstep. rename a into m, E0 into Hmin.
  step H. pure_step Hstep. rename a into d, E0 into Hsub.
  pure_step H. subst s.
  apply take_spec in Htake.
  pose proof (Forall2_length Htake) as Lr.
  assert (LY : length (rank Y) = length nn).
  { destruct (broadcast2_OK_lengths _ _ _ _ Hmin) as [[El _]|[El|El]].
    - congruence.
    - (* a single response: its only rank is 0, but row 0 has another
         neighbour *)
      exfalso. destruct nn as [|j nn]; [simpl in Ln; lia|].
      inversion Htake as [|? x ? R' Hj _]; subst.
      assert (j = 0%nat).
      { assert (j < length (rank Y))%nat
          by (apply nth_error_Some; rewrite Hj; discriminate).
        lia. }
      subst j. apply (Hnn 0%nat); [lia | reflexivity].
    - exfalso. lia. }
  destruct (broadcast2_OK_lengths _ _ _ _ Hmin) as [[_ ->]|[El|El]];
    [|exfalso; lia|exfalso; lia].
  assert (Lm : length (map2 Z.min (rank Y) R_nn) = length (rank Y)).
  { unfold map2. rewrite length_map, length_combine. lia. }
  destruct (broadcast2_OK_lengths _ _ _ _ Hsub) as [[_ ->]|[El|El]];
    [|exfalso; rewrite rank_length in *; lia
     |exfalso; rewrite Lm, rank_length in *; lia].
  assert (Ly : length Y = length pts) by (rewrite <- rank_length; lia).
  (* every term is non-negative *)
  assert (Hpos : Forall (fun y => (0 <= y)%Z)
                   (map2 Z.sub (rank Y) (map2 Z.min (rank Y) R_nn))).
  { apply Forall_forall. intros y Hy. unfold map2 in Hy.
    apply in_map_iff in Hy. destruct Hy as ([a b] & <- & Hab).
    apply combine_min_le in Hab. simpl. lia. }
  (* the term of the top-ranked row is at least one *)
  assert (Htop : In (Z.of_nat (length Y) - 1)%Z (rank Y)).
  { apply rank_top. destruct Y; [simpl in Ly; lia | discriminate]. }
  destruct (In_nth _ _ 0%Z Htop) as (i & Hi & Ei).
  assert (Hj : nth_error (rank Y) (nth i nn 0%nat) = Some (nth i R_nn 0%Z))
    by (apply (Forall2_nth _ _ _ 0%nat 0%Z Htake); lia).
  assert (Hjlt : (nth i nn 0%nat < length (rank Y))%nat)
    by (apply nth_error_Some; rewrite Hj; discriminate).
  assert (Hne : nth i R_nn 0%Z <> nth i (rank Y) 0%Z).
  { intros C. apply nth_error_nth with (d := 0%Z) in Hj.
    assert (nth i nn 0%nat = i).
    { apply (proj1 (NoDup_nth (rank Y) 0%Z) (rank_NoDup Y)); lia. }
    apply (Hnn i); [lia | assumption]. }
  assert (Hrange : (0 <= nth i R_nn 0%Z < Z.of_nat (length Y))%Z).
  { apply rank_range. eapply nth_error_In; eauto. }
  assert (Hterm : In (nth i (rank Y) 0 - Z.min (nth i (rank Y) 0) (nth i R_nn 0))%Z
                    (map2 Z.sub (rank Y) (map2 Z.min (rank Y) R_nn))).
  { unfold map2. apply in_map_iff.
    exists (nth i (rank Y) 0%Z, Z.min (nth i (rank Y) 0%Z) (nth i R_nn 0%Z)).
    split; [reflexivity|].
    replace (nth i (rank Y) 0%Z, Z.min (nth i (rank Y) 0%Z) (nth i R_nn 0%Z))
      with (nth i (combine (rank Y)
                     (map (fun p : Z * Z => Z.min (fst p) (snd p))
                        (combine (rank Y) R_nn))) (0%Z, 0%Z)).
    - apply nth_In. rewrite length_combine, length_map, length_combine. lia.
    - rewrite combine_nth by (rewrite length_map, length_combine; lia).
      f_equal.
      rewrite (nth_indep _ 0%Z
                 ((fun p : Z * Z => Z.min (fst p) (snd p)) (0%Z, 0%Z)))
        by (rewrite length_map, length_combine; lia).
      rewrite (map_nth (fun p : Z * Z => Z.min (fst p) (snd p))).
      rewrite combine_nth by lia. reflexivity. }
  pose proof (sumZ_lower_bound _ _ Hpos Hterm) as Hsum.
  rewrite Ei in Hsum, Hne.
  set (S := Np.sumZ (map2 Z.sub (rank Y) (map2 Z.min (rank Y) R_nn))) in *.
  assert (HS : (1 <= S)%Z) by lia.
  unfold F.div, F.of_Z, F.of_nat.
  assert (Hn : Qeq_bool (inject_Z (Z.of_nat (length Y * length Y))) 0 = false).
  { destruct (Qeq_bool _ 0) eqn:En; [|reflexivity].
    apply Qeq_bool_iff in En. unfold Qeq in En. simpl in En. nia. }
  rewrite Hn. eexists. split; [reflexivity|].
  apply Qlt_shift_div_l.
  - unfold Qlt. simpl. nia.
  - unfold Qlt. simpl. lia.
Qed.

(** C3, as amended.  For a response [Y] whose values are pairwise
    different, used as its own conditioning set (as a column), a value
    returned by [codec] does not come from the fallback 1 of
    [estimateConditionalT]: [S(Y, Y)] is a strictly positive number and
    the value is the quotient [Q(Y, Z | Y) / S(Y, Y)].  Responses with
    tied values, whose ranks depend on how the sort orders equal entries,
    are left aside. *)
Theorem codec_with_X_equal_Y_is_the_quotient (Y : list float) (Z : ndarray)
    (na_rm : bool) (w w' : world) (v : float) :
  distinct Y ->
  codec Y Z (Some (Np.reshape_col (Arr1 Y))) na_rm w = (OK v, w') ->
  exists s q w1,
    estimateConditionalS Y (Np.reshape_col (Arr1 Y)) w = (OK (Fin s), w1)
    /\ 0 < s
    /\ estimateConditionalQ Y (Np.reshape_col (Arr1 Y)) Z w1 = (OK q, w')
    /\ v = F.div q (Fin s).
Proof.
  intros _. unfold codec. intros H.
  destruct (_ || _); [discriminate H|].
  destruct (_ <? 2)%nat; [discriminate H|].
  unfold estimateConditionalT in H. step H.
  destruct (estimateConditionalS_positive _ _ _ _ _ Hstep) as (s & -> & Hs).
  assert (Hz : F.eqb (Fin s) F.zero = false).
  { simpl. destruct (Qeq_bool s 0) eqn:E; [|reflexivity].
    apply Qeq_bool_iff in E. rewrite E in Hs. now apply Qlt_irrefl in Hs. }
  rewrite Hz in H. step H. pure_step H. subst v.
  exists s, a, w0. auto.
Qed.

Lemma codec_with_X_equal_Y_is_the_quotient_witness :
  exists s q w1,
    estimateConditionalS (vec [0; 1; 3]) (Np.reshape_col (Arr1 (vec [0; 1; 3])))
      ex_world
    = (OK (Fin s), w1)
    /\ 0 < s
    /\ estimateConditionalQ (vec [0; 1; 3])
         (Np.reshape_col (Arr1 (vec [0; 1; 3]))) (col [5; 1; 2]) w1
       = (OK q, snd (codec (vec [0; 1; 3]) (col [5; 1; 2])
                       (Some (Np.reshape_col (Arr1 (vec [0; 1; 3])))) true
                       ex_world))
    /\ Fin (9 # 18) = F.div q (Fin s).
Proof.
  apply (codec_with_X_equal_Y_is_the_quotient (vec [0; 1; 3]) (col [5; 1; 2])
           true ex_world).
  - repeat (constructor;
            [intros q Hq; simpl in Hq;
             repeat (destruct Hq as [<-|Hq]; [reflexivity|]);
             contradiction|]).
    constructor.
  - vm_compute. reflexivity.
Defined.

(** C3, the claim as stated fails.  With the response [0, 1, 3] as its
    own conditioning set (as a column) and a constant predictor, [codec]
    returns 0, not 1; with another predictor it returns one half, so the
    value does depend on [Z]; passed as the one-dimensional vector itself,
    the conditioning set is refused by the neighbour search, as is any
    input of only two rows. *)
Lemma codec_with_X_equal_Y_is_not_one :
  fst (codec (vec [0; 1; 3]) (col [0; 0; 0]) (Some (col [0; 1; 3])) true
         ex_world) = OK (Fin (0 # 18))
  /\ F.eqb (Fin (0 # 18)) F.one = false
  /\ fst (codec (vec [0; 1; 3]) (col [0; 0; 0]) (Some (col [0; 1; 3])) true
            ex_world) <> OK F.one
  /\ fst (codec (vec [0; 1; 3]) (col [5; 1; 2]) (Some (col [0; 1; 3])) true
            ex_world) = OK (Fin (9 # 18))
  /\ fst (codec (vec [0; 1; 3]) (col [0; 0; 0]) (Some (Arr1 (vec [0; 1; 3])))
            true ex_world) = Raise ValueError
  /\ fst (codec (vec [0; 1]) (col [0; 0]) (Some (col [0; 1])) true ex_world)
     = Raise ValueError.
Proof.
  repeat split; try (vm_compute; reflexivity).
  vm_compute. discriminate.
Qed.

(** Two further observations on the CODEC core.  The fallback of
    [estimateConditionalT] is commented "happens only if Y is constant",
    but the ranks [np.argsort(np.argsort(Y))] are all different even then,
    and [S] is positive.  And [helper_ties] is defined under the test for
    ties among the conditioning points only: when the joint points have a
    tie and the conditioning points have none, the name is unbound. *)
Lemma constant_response_has_positive_S :
  fst (estimateConditionalS (vec [5; 5; 5; 5]) (col [0; 1; 3; 7]) ex_world)
  = OK (Fin (3 # 16)).
Proof. vm_compute. reflexivity. Qed.

Lemma tie_among_joint_points_only :
  fst (codec (vec [0; 1; 3]) (col [2; 0; 1]) (Some (col [0; 1; 3])) true
         ex_world)
  = Raise NameError.
Proof. vm_compute. reflexivity. Qed.

(* ================================================================== *)
(** * Further properties of the catalogue *)

Lemma known_problem_catalogue (p : string) (mv so : bool) :
  known_problem p ->
  exists l, supported_metrics p mv so = Some l /\ In "energy_distance" l.
Proof.
  intros [-> | ->]; destruct mv, so; eexists; (split; [reflexivity|]);
    simpl; tauto.
Qed.

(** X1.  Whatever name it is given, [resolve_metric] on a scorer for a known
    problem answers with a scoring metric of the catalogue, leaves the
    frames alone, and resolving its answer again changes nothing: the
    answer comes back and nothing more is logged. *)
Theorem resolve_metric_lands_in_catalogue (self : Scorer) (metric : string)
    (w : world) :
  known_problem (problem self) ->
  exists m' w',
    resolve_metric self metric w = (OK m', w')
    /\ is_supported self true m' = true
    /\ frames w' = frames w
    /\ resolve_metric self m' w' = (OK m', w').
Proof.
  intros K.
  destruct (known_problem_catalogue (problem self) (multivalue self) true K)
    as (l & E & Hl).
  unfold resolve_metric, is_supported. rewrite E.
  unfold not_in, bind, ret, logging_warning.
  destruct (str_in metric l) eqn:Hm; simpl.
  - exists metric, w. rewrite Hm. simpl. repeat split; auto.
  - apply str_in_In in Hl. eexists _, _. rewrite Hl. simpl.
    repeat split; auto.
Qed.

Lemma resolve_metric_lands_in_catalogue_witness :
  exists m' w',
    resolve_metric ex_scorer "r_scorer" ex_world = (OK m', w')
    /\ is_supported ex_scorer true m' = true
    /\ frames w' = frames ex_world
    /\ resolve_metric ex_scorer m' w' = (OK m', w').
Proof.
  apply (resolve_metric_lands_in_catalogue ex_scorer "r_scorer" ex_world).
  right. reflexivity.
Defined.

Lemma str_remove_absent (m : string) (l : list string) :
  ~ In m l -> str_remove m l = l.
Proof.
  induction l as [|y r IH]; simpl; intros H; [reflexivity|].
  destruct (String.eqb m y) eqn:E.
  - apply String.eqb_eq in E. subst. exfalso. apply H. now left.
  - f_equal. apply IH. intros C. apply H. now right.
Qed.

Lemma str_remove_filter (m : string) (l : list string) :
  NoDup l -> str_remove m l = filter (fun x => negb (String.eqb x m)) l.
Proof.
  induction 1 as [|y r Hy Hr IH]; simpl; [reflexivity|].
  rewrite (String.eqb_sym y m).
  destruct (String.eqb m y) eqn:E; simpl.
  - apply String.eqb_eq in E. subst y.
    rewrite <- IH. symmetry. now apply str_remove_absent.
  - now rewrite IH.
Qed.

Lemma filter_NoDup_str (p : string -> bool) (l : list string) :
  NoDup l -> NoDup (filter p l).
Proof. apply NoDup_filter. Qed.

Lemma filter_filter_and {A} (p q : A -> bool) (l : list A) :
  filter q (filter p l) = filter (fun x => p x && q x) l.
Proof.
  induction l as [|x r IH]; simpl; [reflexivity|].
  destruct (p x); simpl; [destruct (q x)|]; now rewrite IH.
Qed.

Lemma filter_all {A} (l : list A) : filter (fun _ => true) l = l.
Proof. induction l; simpl; congruence. Qed.

(** The loop of [resolve_reported_metrics]: it walks a snapshot [todo] and
    removes from the live list; on a duplicate-free list a removal takes
    out exactly the metric at hand. *)
Lemma drop_unsupported_spec (self : Scorer) (L : list string)
    (todo cur : list string) (w : world) :
  supported_metrics (problem self) (multivalue self) false = Some L ->
  NoDup cur ->
  let dropped := filter (fun m => negb (str_in m L)) todo in
  drop_unsupported self (Some L) todo cur w
  = (OK (filter (fun x => negb (str_in x dropped)) cur),
     mkWorld (frames w) (rand w)
       (log w ++ map (dropping_warning self) dropped)).
Proof.
  intros E. revert cur w.
  induction todo as [|m todo IH]; intros cur w N; simpl.
  - rewrite filter_all, app_nil_r. now destruct w.
  - unfold bind, ret. cbn [not_in]. unfold ret.
    destruct (str_in m L) eqn:Hm; simpl.
    + apply IH. exact N.
    + unfold logging_warning. simpl.
      rewrite IH by (rewrite str_remove_filter by exact N; now apply NoDup_filter).
      simpl. rewrite str_remove_filter by exact N.
      rewrite filter_filter_and. f_equal.
      * f_equal. apply filter_ext. intros x. now rewrite negb_orb.
      * f_equal. rewrite <- app_assoc. simpl. f_equal. f_equal.
        unfold dropping_warning. now rewrite E.
Qed.

(** X2.  Given a list of metrics to report, [resolve_reported_metrics] on a
    scorer for a known problem returns the requested names together with
    the scoring metric, without duplicates and in sorted order, minus those
    the catalogue does not list; it logs one line per name it drops, in
    that order, and nothing else changes. *)
Theorem resolve_reported_metrics_keeps_supported (self : Scorer)
    (l : list string) (scoring_metric : string) (w : world) :
  known_problem (problem self) ->
  let wanted := sorted_set (l ++ [scoring_metric]) in
  resolve_reported_metrics self (Some l) scoring_metric w
  = (OK (Some (filter (is_supported self false) wanted)),
     mkWorld (frames w) (rand w)
       (log w ++ map (dropping_warning self)
                   (filter (fun m => negb (is_supported self false m)) wanted))).
Proof.
  intros K wanted.
  destruct (known_problem_catalogue (problem self) (multivalue self) false K)
    as (L & E & _).
  unfold resolve_reported_metrics. rewrite E. fold wanted.
  unfold bind.
  rewrite (drop_unsupported_spec self L wanted wanted w E)
    by apply sorted_set_NoDup.
  unfold ret, is_supported. rewrite E. f_equal. f_equal. f_equal.
  set (dropped := filter (fun m => negb (str_in m L)) wanted).
  apply filter_ext_in. intros x Hx.
  destruct (str_in x L) eqn:Hl.
  - apply negb_true_iff. apply str_in_false. intros C.
    unfold dropped in C. apply filter_In in C. destruct C as [_ C].
    rewrite Hl in C. discriminate.
  - apply negb_false_iff. apply str_in_In.
    unfold dropped. apply filter_In. split; [exact Hx|]. now rewrite Hl.
Qed.

Lemma resolve_reported_metrics_keeps_supported_witness :
  resolve_reported_metrics ex_scorer (Some ["qini"; "bogus"; "ate"; "qini"])
    "energy_distance" ex_world
  = (OK (Some ["ate"; "energy_distance"; "qini"]),
     mkWorld (frames ex_world) (rand ex_world)
       [dropping_warning ex_scorer "bogus"]).
Proof.
  exact (resolve_reported_metrics_keeps_supported ex_scorer
           ["qini"; "bogus"; "ate"; "qini"] "energy_distance" ex_world
           (or_intror eq_refl)).
Defined.

(* ================================================================== *)
(** * Further properties of the naive treatment effect *)

Lemma variance_of_one (x : float) : variance 1 [x] = NaN.
Proof.
  destruct x as [|q| |]; try reflexivity.
  unfold variance, F.mean, F.sum, sq. simpl.
  match goal with
  | |- (if Qeq_bool ?e 0 then _ else _) = _ =>
      assert (E : Qeq_bool e 0 = true)
        by (apply Qeq_bool_iff; unfold inject_Z; field);
      rewrite E
  end.
  reflexivity.
Qed.

(** The sample deviation of pandas needs two values that are present. *)
Lemma pd_std_small (sqrtQ : Q -> Q) (l : list float) :
  (length (Pd.present l) <= 1)%nat -> pd_std sqrtQ l = NaN.
Proof.
  unfold pd_std. destruct (Pd.present l) as [|x [|y r]]; simpl length;
    intros H; try lia.
  - reflexivity.
  - now rewrite variance_of_one.
Qed.

Lemma div_NaN (x : float) : F.div NaN x = NaN.
Proof. reflexivity. Qed.

Lemma add_NaN_r (x : float) : F.add x NaN = NaN.
Proof. now destruct x. Qed.

(** X3.  When the treated group or the control group holds fewer than two
    outcomes that are present, [naive_ate] still returns (it raises
    nothing), the standard deviation it reports is [NaN], and the size is
    the length of the input. *)
Theorem naive_ate_needs_two_per_group (sqrtQ : Q -> Q)
    (treatment outcome : list float) :
  length treatment = length outcome ->
  (count_present F.one treatment outcome <= 1)%nat
  \/ (count_present F.zero treatment outcome <= 1)%nat ->
  exists mean_,
    naive_ate sqrtQ treatment outcome = OK (mean_, NaN, length treatment).
Proof.
  intros L H.
  unfold naive_ate, bool_index.
  rewrite !length_map, <- L, Nat.eqb_refl. cbn [rbind].
  rewrite count_true_eqb.
  destruct (math_sqrt_total sqrtQ (F.of_nat (count_where F.one treatment))
              (of_nat_in_sqrt_domain _)) as [r1 E1].
  rewrite E1. cbn [rbind].
  assert (D0 : sqrt_domain
                 (F.of_Z (Z.of_nat (length treatment)
                          - Z.of_nat (count_where F.one treatment)))).
  { simpl. apply Qle_bool_iff. unfold Qle. simpl.
    pose proof (count_where_le F.one treatment). lia. }
  destruct (math_sqrt_total sqrtQ _ D0) as [r0 E0].
  rewrite E0. cbn [rbind].
  assert (N : forall a b,
             a = NaN \/ b = NaN ->
             math_sqrt sqrtQ (F.add (F.mul a a) (F.mul b b)) = OK NaN).
  { intros a b [-> | ->]; simpl; [reflexivity|].
    now rewrite add_NaN_r. }
  rewrite N; [cbn [rbind]; eexists; reflexivity|].
  destruct H as [H|H]; [left|right];
    (rewrite pd_std_small; [reflexivity|]);
    now rewrite select_length_count.
Qed.

Lemma naive_ate_needs_two_per_group_witness :
  exists mean_,
    naive_ate ex_sqrt (vec [1; 0; 0; 0]) (vec [5; 1; 7; 2])
    = OK (mean_, NaN, 4%nat).
Proof.
  apply (naive_ate_needs_two_per_group ex_sqrt (vec [1; 0; 0; 0])
           (vec [5; 1; 7; 2]) eq_refl).
  left. vm_compute. lia.
Defined.

(* ================================================================== *)
(** * Further properties of the reconstructed outcomes *)

Lemma find_put_col_same (cols : list (string * list float)) (name : string)
    (vals : list float) :
  find (fun c => fst c =? name) (Pd.put_col cols name vals)
  = Some (name, vals).
Proof.
  induction cols as [|c r IH]; simpl.
  - now rewrite String.eqb_refl.
  - destruct (fst c =? name) eqn:E; simpl.
    + now rewrite String.eqb_refl.
    + now rewrite E.
Qed.

Lemma find_put_col_other (cols : list (string * list float))
    (name other : string) (vals : list float) :
  other <> name ->
  find (fun c => fst c =? other) (Pd.put_col cols name vals)
  = find (fun c => fst c =? other) cols.
Proof.
  intros N. apply String.eqb_neq in N.
  induction cols as [|c r IH]; simpl.
  - rewrite String.eqb_sym. now rewrite N.
  - destruct (fst c =? name) eqn:E; simpl.
    + apply String.eqb_eq in E. rewrite E.
      rewrite (String.eqb_sym name other), N. reflexivity.
    + destruct (fst c =? other); [reflexivity | exact IH].
Qed.

Lemma getcol_setcol_same (d d' : DataFrame) (name : string)
    (vals : list float) :
  Pd.setcol d name vals = OK d' -> Pd.getcol d' name = OK vals.
Proof.
  unfold Pd.setcol, Pd.getcol.
  destruct (length vals =? Pd.nrows d)%nat; [|discriminate].
  intros H. injection H as <-. simpl. now rewrite find_put_col_same.
Qed.

Lemma getcol_setcol_other (d d' : DataFrame) (name other : string)
    (vals : list float) :
  other <> name ->
  Pd.setcol d name vals = OK d' -> Pd.getcol d' other = Pd.getcol d other.
Proof.
  unfold Pd.setcol, Pd.getcol. intros N.
  destruct (length vals =? Pd.nrows d)%nat; [|discriminate].
  intros H. injection H as <-. simpl. now rewrite find_put_col_other.
Qed.

Lemma setcol_index (d d' : DataFrame) (name : string) (vals : list float) :
  Pd.setcol d name vals = OK d' -> df_index d' = df_index d.
Proof.
  unfold Pd.setcol.
  destruct (length vals =? Pd.nrows d)%nat; [|discriminate].
  intros H. now injection H as <-.
Qed.

(** Peel one step off a successful run, naming what it yields. *)
Ltac step_as H a w Ha :=
  apply bind_OK in H; destruct H as (a & w & Ha & H).

(** What a successful [df[name] = vals] does to the store. *)
Lemma setitem_run (l : loc) (name : string) (vals : list float)
    (w w' : world) (u : unit) :
  (l < length (frames w))%nat ->
  setitem l name vals w = (OK u, w') ->
  exists d',
    Pd.setcol (frame_at w l) name vals = OK d'
    /\ frame_at w' l = d'
    /\ length (frames w') = length (frames w).
Proof.
  intros Hl H. unfold setitem in H.
  step_as H d0 w0 R. apply read_OK in R. destruct R as [-> ->].
  step_as H d1 w1 Sc. apply lift_OK in Sc. destruct Sc as [Sc ->].
  unfold write in H. injection H as _ <-.
  exists d1. split; [exact Sc|]. unfold frame_at. simpl.
  split; [now apply set_nth_same | apply set_nth_length].
Qed.

(** X4.
    A successful call of [_Y0_X_potential_outcomes] hands back a new frame
    object that is the input frame with two more columns: [dy] holds the
    estimator's effect on the treated for every row and [yhat] the outcome
    minus [dy]; the index and every other column are those of the input. *)
Theorem potential_outcomes_reconstruction (estimate : Estimator) (df : loc)
    (w w' : world) (Y0X : loc) (treatment_name split_test_by : string) :
  (df < length (frames w))%nat ->
  _outcome_name estimate <> "dy" ->
  _Y0_X_potential_outcomes estimate df w
  = (OK (Y0X, treatment_name, split_test_by), w') ->
  exists dy y,
    effect_tt estimate (frame_at w df) = OK dy
    /\ Pd.getcol (frame_at w df) (_outcome_name estimate) = OK y
    /\ (length (frames w) <= Y0X)%nat
    /\ Pd.getcol (frame_at w' Y0X) "dy" = OK dy
    /\ Pd.getcol (frame_at w' Y0X) "yhat" = OK (map2 F.sub y dy)
    /\ df_index (frame_at w' Y0X) = df_index (frame_at w df)
    /\ forall c, c <> "dy" -> c <> "yhat" ->
         Pd.getcol (frame_at w' Y0X) c = Pd.getcol (frame_at w df) c.
Proof.
  intros Hdf Ho H. unfold _Y0_X_potential_outcomes in H.
  step_as H tn w0 R0. apply lift_OK in R0. destruct R0 as [_ ->].
  step_as H d0 w0 R0. apply read_OK in R0. destruct R0 as [-> ->].
  step_as H dy w0 Edy. apply lift_OK in Edy. destruct Edy as [Edy ->].
  step_as H u1 w1 I1.
  destruct (setitem_run _ _ _ _ _ _ Hdf I1) as (d1 & S1 & F1 & L1).
  step_as H d1' w2 R1. apply read_OK in R1. destruct R1 as [-> ->].
  step_as H y w2 Ey. apply lift_OK in Ey. destruct Ey as [Ey ->].
  step_as H dy' w2 Edy'. apply lift_OK in Edy'. destruct Edy' as [Edy' ->].
  step_as H u2 w2 I2.
  assert (Hdf1 : (df < length (frames w1))%nat) by (rewrite L1; exact Hdf).
  destruct (setitem_run _ _ _ _ _ _ Hdf1 I2) as (d2 & S2 & F2 & L2).
  step_as H sp w3 Esp.
  assert (W3 : w3 = w2).
  { destruct (identifier_method estimate =? "iv").
    - apply lift_OK in Esp. now destruct Esp.
    - apply ret_OK in Esp. now destruct Esp. }
  subst w3.
  step_as H l w4 C. apply copy_OK in C. destruct C as [-> F4].
  apply ret_OK in H. destruct H as [E ->].
  injection E as -> _ _.
  rewrite F1 in *.
  rewrite (getcol_setcol_same _ _ _ _ S1) in Edy'. injection Edy' as <-.
  rewrite (getcol_setcol_other _ _ _ _ _ Ho S1) in Ey.
  assert (FY : frame_at w4 (length (frames w2)) = d2).
  { unfold frame_at at 1. rewrite F4, app_nth2 by lia.
    rewrite Nat.sub_diag. simpl. exact F2. }
  exists dy, y. rewrite FY.
  split; [exact Edy|]. split; [exact Ey|].
  split; [rewrite L2, L1; lia|].
  split.
  { assert (N : "dy" <> "yhat") by discriminate.
    rewrite (getcol_setcol_other _ _ _ _ _ N S2).
    exact (getcol_setcol_same _ _ _ _ S1). }
  split; [exact (getcol_setcol_same _ _ _ _ S2)|].
  split.
  { rewrite (setcol_index _ _ _ _ S2). exact (setcol_index _ _ _ _ S1). }
  intros c C1 C2.
  rewrite (getcol_setcol_other _ _ _ _ _ C2 S2).
  exact (getcol_setcol_other _ _ _ _ _ C1 S1).
Qed.

Lemma potential_outcomes_reconstruction_witness :
  exists dy y,
    effect_tt ex_estimator (frame_at ex_world 0%nat) = OK dy
    /\ Pd.getcol (frame_at ex_world 0%nat) (_outcome_name ex_estimator) = OK y
    /\ (length (frames ex_world) <= 1)%nat
    /\ Pd.getcol
         (frame_at (snd (_Y0_X_potential_outcomes ex_estimator 0%nat ex_world))
            1%nat) "dy" = OK dy
    /\ Pd.getcol
         (frame_at (snd (_Y0_X_potential_outcomes ex_estimator 0%nat ex_world))
            1%nat) "yhat" = OK (map2 F.sub y dy)
    /\ df_index
         (frame_at (snd (_Y0_X_potential_outcomes ex_estimator 0%nat ex_world))
            1%nat)
       = df_index (frame_at ex_world 0%nat)
    /\ forall c, c <> "dy" -> c <> "yhat" ->
         Pd.getcol
           (frame_at (snd (_Y0_X_potential_outcomes ex_estimator 0%nat ex_world))
              1%nat) c
         = Pd.getcol (frame_at ex_world 0%nat) c.
Proof.
  apply (potential_outcomes_reconstruction ex_estimator 0%nat ex_world
           (snd (_Y0_X_potential_outcomes ex_estimator 0%nat ex_world))
           1%nat "T" "T").
  - simpl. lia.
  - discriminate.
  - reflexivity.
Defined.

(** X5.  A failed call may already have changed the caller's frame: when the
    outcome column is missing, [_Y0_X_potential_outcomes] raises [KeyError]
    after it has stored the column [dy] in the frame it was given. *)
Theorem potential_outcomes_failure_leaves_dy (estimate : Estimator)
    (df : loc) (w : world) (name : string) (dy : list float) :
  (df < length (frames w))%nat ->
  first_name (_treatment_name estimate) = OK name ->
  effect_tt estimate (frame_at w df) = OK dy ->
  length dy = Pd.nrows (frame_at w df) ->
  _outcome_name estimate <> "dy" ->
  Pd.has_col (frame_at w df) (_outcome_name estimate) = false ->
  exists w',
    _Y0_X_potential_outcomes estimate df w = (Raise KeyError, w')
    /\ Pd.getcol (frame_at w' df) "dy" = OK dy
    /\ length (frames w') = length (frames w).
Proof.
  intros Hdf Hn Hdy Hlen Ho Hc.
  unfold _Y0_X_potential_outcomes, bind at 1. unfold lift at 1. rewrite Hn.
  unfold bind at 1. unfold read at 1. fold (frame_at w df).
  unfold bind at 1. unfold lift at 1. rewrite Hdy.
  unfold bind at 1.
  destruct (Pd.setcol (frame_at w df) "dy" dy) as [d1|e] eqn:S1.
  2:{ unfold Pd.setcol in S1. rewrite Hlen, Nat.eqb_refl in S1. discriminate. }
  assert (R : setitem df "dy" dy w
              = (OK tt, mkWorld (Np.set_nth (frames w) df d1) (rand w) (log w))).
  { unfold setitem, bind, read, lift, write. fold (frame_at w df).
    now rewrite S1. }
  rewrite R.
  set (w1 := mkWorld (Np.set_nth (frames w) df d1) (rand w) (log w)).
  assert (F1 : frame_at w1 df = d1).
  { unfold frame_at, w1. simpl. now apply set_nth_same. }
  unfold bind at 1. unfold read at 1. fold (frame_at w1 df). rewrite F1.
  unfold bind at 1. unfold lift at 1.
  assert (G : Pd.getcol d1 (_outcome_name estimate) = Raise KeyError).
  { rewrite (getcol_setcol_other _ _ _ _ _ Ho S1).
    unfold Pd.getcol. unfold Pd.has_col in Hc.
    destruct (find (fun c => fst c =? _outcome_name estimate)
                (df_columns (frame_at w df))) as [c|] eqn:Ef; [|reflexivity].
    apply find_some in Ef. destruct Ef as [Hin Heq].
    assert (T : existsb (fun c => fst c =? _outcome_name estimate)
                  (df_columns (frame_at w df)) = true).
    { apply existsb_exists. now exists c. }
    rewrite T in Hc. discriminate. }
  rewrite G. exists w1. split; [reflexivity|].
  rewrite F1. split; [exact (getcol_setcol_same _ _ _ _ S1)|].
  unfold w1. simpl. apply set_nth_length.
Qed.

Lemma potential_outcomes_failure_leaves_dy_witness :
  exists w',
    _Y0_X_potential_outcomes
      (mkEstimator (inl "T") "outcome" ["x"] "backdoor" []
         (fun _ => OK (vec [1; 2; 3; 4])) (fun _ => OK (vec [1; 1; 1; 1])))
      0%nat ex_world
    = (Raise KeyError, w')
    /\ Pd.getcol (frame_at w' 0%nat) "dy" = OK (vec [1; 1; 1; 1])
    /\ length (frames w') = length (frames ex_world).
Proof.
  apply (potential_outcomes_failure_leaves_dy
           (mkEstimator (inl "T") "outcome" ["x"] "backdoor" []
              (fun _ => OK (vec [1; 2; 3; 4])) (fun _ => OK (vec [1; 1; 1; 1])))
           0%nat ex_world "T" (vec [1; 1; 1; 1]));
    try reflexivity.
  - simpl. lia.
  - discriminate.
Defined.

(* ================================================================== *)
(** * Further properties of the Frobenius score *)

(** X6.  Without usable CATE estimates -- neither [effect] nor [effect_tt] is
    available, or the estimates vary no more than the threshold --
    [frobenius_norm_score] answers [+inf] at once: the state is left as it
    was, so in this case the frame it was given is not written to. *)
Theorem frobenius_norm_score_without_signal (sqrtQ : Q -> Q) (self : Scorer)
    (estimate : Estimator) (df : loc) (sd_threshold : float) (w : world)
    (cate : option (list float)) :
  frobenius_cate estimate (frame_at w df) = OK cate ->
  match cate with
  | None => True
  | Some c => F.leb (np_std sqrtQ c) sd_threshold = true
  end ->
  frobenius_norm_score sqrtQ self estimate df sd_threshold w = (OK PInf, w).
Proof.
  intros Hc Hs. unfold frobenius_norm_score.
  unfold bind at 1. unfold read at 1. fold (frame_at w df).
  unfold bind at 1. rewrite frobenius_cate_run, Hc.
  destruct cate as [c|]; [|reflexivity].
  now rewrite Hs.
Qed.

Lemma frobenius_norm_score_without_signal_witness :
  frobenius_norm_score ex_sqrt ex_scorer
    (mkEstimator (inl "T") "Y" ["x"] "backdoor" []
       (fun _ => Raise AttributeError) (fun _ => OK (vec [2; 2; 2; 2])))
    0%nat (Fin (1 # 100)) ex_world
  = (OK PInf, ex_world).
Proof.
  apply (frobenius_norm_score_without_signal ex_sqrt ex_scorer
           (mkEstimator (inl "T") "Y" ["x"] "backdoor" []
              (fun _ => Raise AttributeError) (fun _ => OK (vec [2; 2; 2; 2])))
           0%nat (Fin (1 # 100)) ex_world (Some (vec [2; 2; 2; 2]))).
  - reflexivity.
  - vm_compute. reflexivity.
Defined.

Lemma np_sqrt_nonneg (sqrtQ : Q -> Q) (x : float) :
  sqrt_nonneg sqrtQ ->
  np_sqrt sqrtQ x = NaN \/ comparable_score (np_sqrt sqrtQ x).
Proof.
  intros H. destruct x as [|q| |]; simpl; auto.
  - destruct (Qle_bool 0 q); [|now left].
    right. right. exists (sqrtQ q). split; [reflexivity | apply H].
  - right. now left.
Qed.

Lemma finite_quotient_nonneg (a b : float) :
  (a = NaN \/ comparable_score a) ->
  (b = NaN \/ comparable_score b) ->
  comparable_score (if F.isfinite (F.div a b) then F.div a b else PInf).
Proof.
  intros [-> | [-> | (p & -> & Hp)]] [-> | [-> | (q & -> & Hq)]];
    try (left; reflexivity).
  - simpl. left. destruct (Qeq_bool q 0); unfold F.signed_inf;
      destruct (_ <? _)%Z; reflexivity.
  - right. exists 0. split; [reflexivity | apply Qle_refl].
  - simpl. destruct (Qeq_bool q 0) eqn:E.
    + left. destruct (Qeq_bool p 0); [reflexivity|].
      unfold F.signed_inf. destruct (_ <? _)%Z; reflexivity.
    + right. exists (p / q). split; [reflexivity|].
      apply Qle_shift_div_l.
      * apply Qeq_bool_neq in E. apply Qle_lteq in Hq.
        destruct Hq as [Hq|Hq]; [exact Hq|]. exfalso. apply E. now symmetry.
      * now rewrite Qmult_0_l.
Qed.

(** X7.  Whenever [frobenius_norm_score] returns, its value can be ranked: it
    is a number that is not negative or [+inf], never [NaN] and never
    [-inf]. *)
Theorem frobenius_norm_score_is_comparable (sqrtQ : Q -> Q) (self : Scorer)
    (estimate : Estimator) (df : loc) (sd_threshold : float) (w w' : world)
    (x : float) :
  sqrt_nonneg sqrtQ ->
  frobenius_norm_score sqrtQ self estimate df sd_threshold w = (OK x, w') ->
  comparable_score x.
Proof.
  intros HS H. unfold frobenius_norm_score in H.
  apply bind_OK in H. destruct H as (d & w0 & _ & H).
  apply bind_OK in H. destruct H as (cate & w1 & _ & H).
  destruct cate as [c|].
  2:{ apply ret_OK in H. destruct H as [-> _]. now left. }
  destruct (F.leb (np_std sqrtQ c) sd_threshold).
  { apply ret_OK in H. destruct H as [-> _]. now left. }
  apply bind_OK in H. destruct H as ([[Y0X tn] sp] & w2 & _ & H).
  apply bind_OK in H. destruct H as (Y & w3 & _ & H).
  apply bind_OK in H. destruct H as (Y1 & w4 & _ & H).
  apply bind_OK in H. destruct H as (Y0 & w5 & _ & H).
  destruct ((Pd.nrows Y1 =? 0)%nat || (Pd.nrows Y0 =? 0)%nat).
  { apply ret_OK in H. destruct H as [-> _]. now left. }
  do 10 (apply bind_OK in H; destruct H as (? & ? & _ & H)).
  apply ret_OK in H. destruct H as [-> _].
  apply finite_quotient_nonneg; now apply np_sqrt_nonneg.
Qed.

Lemma ex_sqrt_nonneg : sqrt_nonneg ex_sqrt.
Proof.
  intros q. unfold ex_sqrt, Qle. simpl. rewrite Z.mul_1_r.
  apply Z.sqrt_nonneg.
Qed.

Lemma frobenius_norm_score_is_comparable_witness :
  comparable_score
    (match fst (frobenius_norm_score ex_sqrt ex_scorer ex_estimator 0%nat
                  (Fin (1 # 100)) ex_world) with
     | OK x => x
     | Raise _ => NaN
     end).
Proof.
  apply (frobenius_norm_score_is_comparable ex_sqrt ex_scorer ex_estimator
           0%nat (Fin (1 # 100)) ex_world
           (snd (frobenius_norm_score ex_sqrt ex_scorer ex_estimator 0%nat
                   (Fin (1 # 100)) ex_world))).
  - exact ex_sqrt_nonneg.
  - vm_compute. reflexivity.
Defined.

(* ================================================================== *)
(** * Further properties of the policy risk *)

Lemma policy_risk_score_preserves_caller_frames_witness :
  frame_at
    (snd (policy_risk_score ex_sqrt ex_scorer ex_estimator 0%nat
            (vec [1; 2; 3; 4]) "Y" None None (Fin (1 # 100)) (Fin (5 # 100))
            ex_world)) 0%nat
  = frame_at ex_world 0%nat.
Proof.
  apply (policy_risk_score_preserves_caller_frames ex_sqrt ex_scorer
           ex_estimator 0%nat (vec [1; 2; 3; 4]) "Y" None None
           (Fin (1 # 100)) (Fin (5 # 100)) ex_world 0%nat).
  simpl. lia.
Defined.

Lemma take_by_labels_positions (a : list float) (labels : list Z)
    (r : list float) :
  take_by_labels a labels = OK r ->
  Forall (valid_position (length a)) labels.
Proof.
  unfold take_by_labels, valid_position. revert r.
  induction labels as [|i ls IH]; intros r H; [constructor|].
  cbn in H.
  destruct ((0 <=? i)%Z && (i <? Z.of_nat (length a))%Z) eqn:E1.
  - apply rbind_OK in H. destruct H as (rest & Hr & _).
    constructor; [|eapply IH; exact Hr].
    apply andb_true_iff in E1. destruct E1 as [A B].
    apply Z.leb_le in A. apply Z.ltb_lt in B. lia.
  - destruct ((i <? 0)%Z && (- Z.of_nat (length a) <=? i)%Z) eqn:E2;
      [|discriminate].
    apply rbind_OK in H. destruct H as (rest & Hr & _).
    constructor; [|eapply IH; exact Hr].
    apply andb_true_iff in E2. destruct E2 as [A B].
    apply Z.ltb_lt in A. apply Z.leb_le in B. lia.
Qed.

(** X9.  The rows to evaluate are handed to numpy arrays as positions: when
    the CATE estimates vary and [policy_risk_score] (with the default
    policy) returns a value, every row label it was asked to evaluate --
    every label of the frame when none is given -- is a valid position in
    the array of CATE estimates.  On a frame whose labels are not
    positions the call fails. *)
Theorem policy_risk_score_labels_are_positions (sqrtQ : Q -> Q)
    (self : Scorer) (estimate : Estimator) (df : loc)
    (cate_estimate : list float) (outcome_name : string)
    (rct_indices : option (list Z)) (sd_threshold clip : float)
    (w w' : world) (v : float) :
  F.leb (np_std sqrtQ cate_estimate) sd_threshold = false ->
  policy_risk_score sqrtQ self estimate df cate_estimate outcome_name None
    rct_indices sd_threshold clip w = (OK v, w') ->
  Forall (valid_position (length cate_estimate))
    (rct_labels rct_indices (frame_at w df)).
Proof.
  intros Hs H. unfold policy_risk_score in H.
  apply bind_OK in H. destruct H as (d & w0 & R & H).
  apply read_OK in R. destruct R as [-> ->].
  rewrite Hs in H.
  apply bind_OK in H. destruct H as (pt & w0 & P & H).
  apply lift_OK in P. destruct P as [P ->].
  unfold default_policy in P. injection P as <-.
  apply bind_OK in H. destruct H as (psw & w0 & _ & H).
  destruct (psw_estimator_attr psw) as [inner|]; [|discriminate H].
  destruct (propensity_model inner) as [model|]; [|discriminate H].
  do 3 (apply bind_OK in H; destruct H as (? & ? & _ & H)).
  destruct (psw_treatment_name psw) as [name|names].
  - do 5 (apply bind_OK in H; destruct H as (? & ? & _ & H)).
    apply bind_OK in H. destruct H as (u & w1 & _ & H).
    apply bind_OK in H. destruct H as (pt & w2 & P & H).
    apply lift_OK in P. destruct P as [P _].
    apply take_by_labels_positions in P.
    rewrite length_map in P. exact P.
  - do 4 (apply bind_OK in H; destruct H as (? & ? & _ & H)).
    discriminate H.
Qed.

Lemma policy_risk_score_labels_are_positions_witness :
  Forall (valid_position 4) [0; 1; 2; 3]%Z.
Proof.
  apply (policy_risk_score_labels_are_positions ex_sqrt ex_scorer
           ex_estimator 0%nat (vec [1; 2; 3; 4]) "Y" None (Fin (1 # 100))
           (Fin (5 # 100)) ex_world
           (snd (policy_risk_score ex_sqrt ex_scorer ex_estimator 0%nat
                   (vec [1; 2; 3; 4]) "Y" None None (Fin (1 # 100))
                   (Fin (5 # 100)) ex_world))
           (match fst (policy_risk_score ex_sqrt ex_scorer ex_estimator 0%nat
                         (vec [1; 2; 3; 4]) "Y" None None (Fin (1 # 100))
                         (Fin (5 # 100)) ex_world) with
            | OK x => x
            | Raise _ => NaN
            end)).
  - vm_compute. reflexivity.
  - vm_compute. reflexivity.
Defined.

(** The same frame with labels that are not positions: the call fails. *)
Lemma policy_risk_score_needs_positional_labels :
  fst (policy_risk_score ex_sqrt ex_scorer ex_estimator 0%nat
         (vec [1; 2; 3; 4]) "Y" None None (Fin (1 # 100)) (Fin (5 # 100))
         (mkWorld [mkDF [10; 11; 12; 13]%Z (df_columns ex_frame)]
            (fun _ => 0%nat) []))
  = Raise IndexError.
Proof. vm_compute. reflexivity. Qed.

(* ================================================================== *)
(** * Further properties of the CODEC core *)

(** ** Random neighbours *)

(** Drawing keeps the frames and the log. *)
Lemma random_choices_run (k : nat) (l : list nat) (w : world) :
  (0 < k)%nat ->
  exists xs w',
    mapM (fun _ => random_choice k) l w = (OK xs, w')
    /\ length xs = length l
    /\ Forall (fun x => (x < k)%nat) xs
    /\ frames w' = frames w /\ log w' = log w.
Proof.
  intros Hk. revert w.
  induction l as [|a l IH]; intros w; simpl.
  - exists [], w. repeat split; constructor.
  - unfold bind at 1. unfold random_choice at 1.
    destruct k as [|k']; [lia|].
    set (w1 := mkWorld (frames w) (fun i => rand w (S i)) (log w)).
    destruct (IH w1) as (xs & w' & E & L & F & Fr & Lg).
    unfold bind at 1. rewrite E. unfold ret.
    exists (rand w 0%nat mod S k' :: xs), w'.
    split; [reflexivity|]. split; [simpl; now rewrite L|].
    split; [|split; [rewrite Fr | rewrite Lg]; reflexivity].
    constructor; [|exact F]. apply Nat.mod_upper_bound. lia.
Qed.

Lemma take_total {A} (a : list A) (idx : list nat) :
  Forall (fun i => (i < length a)%nat) idx ->
  exists r, Np.take a idx = OK r.
Proof.
  induction 1 as [|i idx Hi _ (r & E)]; simpl; [eauto|].
  destruct (nth_error a i) as [x|] eqn:N.
  - rewrite E. eauto.
  - apply nth_error_None in N. lia.
Qed.

Lemma nth_map_in {A B} (f : A -> B) (l : list A) (d' : B) (d : A) (i : nat) :
  (i < length l)%nat -> nth i (map f l) d' = f (nth i l d).
Proof.
  intros H. rewrite (nth_indep _ d' (f d)) by (now rewrite length_map).
  apply map_nth.
Qed.

Lemma skip_self_bound (a x m : nat) :
  (x < m - 1)%nat -> (skip_self a x < m)%nat.
Proof. unfold skip_self. destruct (a <=? x)%nat; lia. Qed.

(** X10.  [randomNN] gives every position a partner from the list that sits at
    another position.  On two or more ids it always returns, and changes
    nothing but the stream of random draws; on a single id it raises
    [ValueError] (there is no other position to draw from); on no id at
    all it returns the empty array. *)
Theorem randomNN_picks_another_position (ids : list nat) (w : world) :
  (ids = [] -> randomNN ids w = (OK [], w))
  /\ (length ids = 1%nat -> randomNN ids w = (Raise ValueError, w))
  /\ ((2 <= length ids)%nat ->
      exists r w',
        randomNN ids w = (OK r, w')
        /\ length r = length ids
        /\ frames w' = frames w /\ log w' = log w
        /\ forall i, (i < length ids)%nat ->
             exists j, (j < length ids)%nat /\ j <> i
                       /\ nth_error r i = nth_error ids j).
Proof.
  split; [intros ->; reflexivity|]. split.
  - destruct ids as [|a [|b r]]; simpl; try discriminate. reflexivity.
  - intros H. unfold randomNN.
    destruct (length ids) as [|m'] eqn:L; [lia|].
    destruct (random_choices_run (S m' - 1) (seq 0 (S m')) w ltac:(lia))
      as (xs & w' & E & Lx & Fx & Fr & Lg).
    rewrite length_seq in Lx.
    unfold bind. rewrite E. unfold lift.
    set (x := map (fun p => skip_self (fst p) (snd p))
                (combine (seq 0 (S m')) xs)).
    assert (Lc : length x = S m').
    { unfold x. rewrite length_map, length_combine, length_seq, Lx.
      apply Nat.min_id. }
    assert (Hx : forall i, (i < S m')%nat ->
                   nth i x 0%nat = skip_self i (nth i xs 0%nat)).
    { intros i Hi. unfold x.
      rewrite (nth_map_in _ _ _ (0%nat, 0%nat))
        by (rewrite length_combine, length_seq, Lx, Nat.min_id; exact Hi).
      rewrite combine_nth by (now rewrite length_seq).
      cbn [fst snd]. now rewrite seq_nth. }
    assert (Fi : Forall (fun i => (i < length ids)%nat) x).
    { apply Forall_forall. intros v Hv.
      apply (In_nth _ _ 0%nat) in Hv. destruct Hv as (i & Hi & <-).
      rewrite Lc in Hi. rewrite Hx by exact Hi. rewrite L.
      apply skip_self_bound.
      rewrite Forall_forall in Fx. apply Fx. apply nth_In. lia. }
    destruct (take_total ids x Fi) as (r & Er).
    exists r, w'. split; [now rewrite Er|].
    pose proof (take_spec _ _ _ Er) as T.
    assert (Lr : length r = S m').
    { rewrite <- (Forall2_length T). exact Lc. }
    split; [exact Lr|]. split; [exact Fr|]. split; [exact Lg|].
    intros i Hi. exists (nth i x 0%nat).
    split.
    { rewrite <- L. rewrite Forall_forall in Fi. apply Fi. apply nth_In.
      now rewrite Lc. }
    split.
    { rewrite Hx by exact Hi. apply skip_self_neq. }
    pose proof (Forall2_nth _ _ _ 0%nat 0%nat T i) as N.
    rewrite Lc in N. specialize (N Hi). cbv beta in N. rewrite N.
    apply nth_error_nth'. now rewrite Lr.
Qed.

(** ** Inputs CODEC refuses *)

Lemma finite_rows_length (rows : list (list float)) (pts : list (list Q)) :
  Sklearn.finite_rows rows = Some pts -> length pts = length rows.
Proof.
  revert pts. induction rows as [|r rows IH]; simpl; intros pts H.
  - now injection H as <-.
  - destruct (Sklearn.finite_row r) as [q|]; [|discriminate].
    destruct (Sklearn.finite_rows rows) as [l|]; [|discriminate].
    injection H as <-. simpl. f_equal. now apply IH.
Qed.

Lemma fit_length (X : ndarray) (pts : list (list Q)) :
  Sklearn.fit X = OK pts -> length pts = Np.shape0 X.
Proof.
  destruct X as [v|c rows]; simpl; [discriminate|].
  destruct (_ || _); [discriminate|].
  destruct (Sklearn.finite_rows rows) as [p|] eqn:E; [|discriminate].
  intros H. injection H as <-. now apply finite_rows_length.
Qed.

Lemma fit_raises_ValueError (X : ndarray) (e : exn) :
  Sklearn.fit X = Raise e -> e = ValueError.
Proof.
  destruct X as [v|c rows]; simpl.
  - intros H. now injection H.
  - destruct (_ || _); [intros H; now injection H|].
    destruct (Sklearn.finite_rows rows); [discriminate|].
    intros H. now injection H.
Qed.

(** X11.  The guard of [codec] lets two rows through, but the neighbour search
    asks for three neighbours: with a conditioning set, fewer than three
    rows always end in [ValueError], and the state is left as it was. *)
Theorem codec_needs_three_rows (Y : list float) (Z X : ndarray)
    (na_rm : bool) (w : world) :
  (length Y < 3)%nat ->
  codec Y Z (Some X) na_rm w = (Raise ValueError, w).
Proof.
  intros H. unfold codec.
  destruct (negb (length Y =? Np.shape0 X)%nat) eqn:E1; [reflexivity|].
  simpl orb.
  destruct (_ || _); [reflexivity|].
  destruct (length Y <? 2)%nat; [reflexivity|].
  apply negb_false_iff, Nat.eqb_eq in E1.
  unfold estimateConditionalT, estimateConditionalS.
  unfold bind at 1. unfold bind at 1. unfold lift at 1.
  destruct (Sklearn.fit X) as [pts|e] eqn:Ef.
  - unfold bind at 1. unfold lift at 1. unfold Sklearn.kneighbors.
    rewrite (fit_length _ _ Ef), <- E1.
    apply Nat.ltb_lt in H. rewrite H. reflexivity.
  - now rewrite (fit_raises_ValueError _ _ Ef).
Qed.

Lemma codec_needs_three_rows_witness :
  codec (vec [0; 1]) (col [5; 6]) (Some (col [0; 1])) true ex_world
  = (Raise ValueError, ex_world).
Proof.
  apply (codec_needs_three_rows (vec [0; 1]) (col [5; 6]) (col [0; 1]) true
           ex_world).
  simpl. lia.
Defined.

Lemma finite_row_all (r : list float) (q : list Q) :
  Sklearn.finite_row r = Some q -> forallb F.isfinite r = true.
Proof.
  revert q. induction r as [|x r IH]; simpl; intros q H; [reflexivity|].
  destruct x as [|p| |]; try discriminate.
  destruct (Sklearn.finite_row r) as [l|]; [|discriminate].
  simpl. eapply IH. reflexivity.
Qed.

Lemma finite_rows_all (rows : list (list float)) (pts : list (list Q)) :
  Sklearn.finite_rows rows = Some pts ->
  forallb (forallb F.isfinite) rows = true.
Proof.
  revert pts. induction rows as [|r rows IH]; simpl; intros pts H;
    [reflexivity|].
  destruct (Sklearn.finite_row r) as [q|] eqn:E; [|discriminate].
  destruct (Sklearn.finite_rows rows) as [l|]; [|discriminate].
  rewrite (finite_row_all _ _ E). simpl. eapply IH. reflexivity.
Qed.

Lemma forallb_concat {A} (p : A -> bool) (rows : list (list A)) :
  forallb p (concat rows) = forallb (forallb p) rows.
Proof.
  induction rows as [|r rows IH]; simpl; [reflexivity|].
  now rewrite forallb_app, IH.
Qed.

Lemma fit_all_finite (X : ndarray) (pts : list (list Q)) :
  Sklearn.fit X = OK pts -> all_finite X = true.
Proof.
  destruct X as [v|c rows]; simpl; [discriminate|].
  destruct (_ || _); [discriminate|].
  destruct (Sklearn.finite_rows rows) as [p|] eqn:E; [|discriminate].
  intros _. unfold all_finite. simpl. rewrite forallb_concat.
  now apply finite_rows_all in E.
Qed.

(** The joined matrix [W] is finite only if the predictors are. *)
Lemma hstack_all_finite (X Z W : ndarray) :
  Np.hstack X (Np.reshape_col Z) = OK W ->
  all_finite W = true -> all_finite Z = true.
Proof.
  unfold Np.reshape_col, all_finite.
  destruct X as [v|c rows]; simpl; [discriminate|].
  rewrite length_map.
  destruct (length rows =? length (Np.flatten Z))%nat eqn:L; [|discriminate].
  apply Nat.eqb_eq in L.
  intros H. injection H as <-. simpl. rewrite forallb_concat.
  revert rows L. induction (Np.flatten Z) as [|z zs IH];
    intros [|r rows] L; simpl in *; try discriminate; [reflexivity|].
  rewrite forallb_app. simpl. rewrite !andb_true_iff.
  intros [[_ [Hz _]] Hr]. split; [exact Hz|].
  apply (IH rows); [now injection L | exact Hr].
Qed.

(** X12.  With a conditioning set, [na_rm] has no effect: rows with a missing
    or infinite value in [X] or in [Z] are not removed, and the neighbour
    search rejects them.  [codec] then never returns a value. *)
Theorem codec_keeps_missing_rows (Y : list float) (Z X : ndarray)
    (na_rm : bool) (w : world) :
  all_finite X = false \/ all_finite Z = false ->
  exists e w', codec Y Z (Some X) na_rm w = (Raise e, w').
Proof.
  intros H.
  destruct (codec Y Z (Some X) na_rm w) as [[v|e] w'] eqn:E; [|eauto].
  exfalso. unfold codec in E.
  destruct (_ || _); [discriminate E|].
  destruct (_ <? 2)%nat; [discriminate E|].
  unfold estimateConditionalT in E.
  apply bind_OK in E. destruct E as (s & w1 & HS & E).
  assert (FX : all_finite X = true).
  { unfold estimateConditionalS in HS.
    apply bind_OK in HS. destruct HS as (pts & w2 & Hf & _).
    apply lift_OK in Hf. destruct Hf as [Hf _].
    now apply fit_all_finite in Hf. }
  destruct H as [H|H]; [congruence|].
  destruct (estimateConditionalS_positive _ _ _ _ _ HS) as (q & -> & Hq).
  assert (Hz : F.eqb (Fin q) F.zero = false).
  { simpl. destruct (Qeq_bool q 0) eqn:E0; [|reflexivity].
    apply Qeq_bool_iff in E0. rewrite E0 in Hq. now apply Qlt_irrefl in Hq. }
  rewrite Hz in E.
  apply bind_OK in E. destruct E as (q' & w2 & HQ & _).
  unfold estimateConditionalQ in HQ.
  apply bind_OK in HQ. destruct HQ as (W & w3 & HW & HQ).
  apply lift_OK in HW. destruct HW as [HW _].
  apply bind_OK in HQ. destruct HQ as (ptsX & w4 & _ & HQ).
  apply bind_OK in HQ. destruct HQ as (nbX & w5 & _ & HQ).
  apply bind_OK in HQ. destruct HQ as ([nnX rdX] & w6 & _ & HQ).
  apply bind_OK in HQ. destruct HQ as ([nnX' helper] & w7 & _ & HQ).
  apply bind_OK in HQ. destruct HQ as (ptsW & w8 & Hf & _).
  apply lift_OK in Hf. destruct Hf as [Hf _].
  apply fit_all_finite in Hf.
  rewrite (hstack_all_finite _ _ _ HW Hf) in H. discriminate.
Qed.

Lemma codec_keeps_missing_rows_witness :
  exists e w',
    codec (vec [0; 1; 3; 4]) (Arr2 1 [[Fin 1]; [NaN]; [Fin 2]; [Fin 5]])
      (Some (col [0; 1; 3; 4])) true ex_world
    = (Raise e, w').
Proof.
  apply (codec_keeps_missing_rows (vec [0; 1; 3; 4])
           (Arr2 1 [[Fin 1]; [NaN]; [Fin 2]; [Fin 5]])
           (col [0; 1; 3; 4]) true ex_world).
  right. reflexivity.
Defined.

(** ** The size of the denominator *)

Lemma sumZ_acc (l : list Z) (acc : Z) :
  fold_left Z.add l acc = (acc + Np.sumZ l)%Z.
Proof.
  unfold Np.sumZ. revert acc.
  induction l as [|x l IH]; intros acc; simpl; [lia|].
  rewrite IH, (IH x). lia.
Qed.

Lemma sumZ_cons (x : Z) (l : list Z) : Np.sumZ (x :: l) = (x + Np.sumZ l)%Z.
Proof. unfold Np.sumZ at 1. simpl. now rewrite sumZ_acc. Qed.

Lemma sumZ_app (a b : list Z) : Np.sumZ (a ++ b) = (Np.sumZ a + Np.sumZ b)%Z.
Proof.
  induction a as [|x a IH]; simpl; [reflexivity|].
  rewrite !sumZ_cons, IH. lia.
Qed.

Lemma sumZ_perm (a b : list Z) : Permutation a b -> Np.sumZ a = Np.sumZ b.
Proof.
  induction 1; rewrite ?sumZ_cons in *; lia.
Qed.

(** The ranks [0 .. n-1] add up to [n (n - 1) / 2]. *)
Lemma sumZ_ranks (n : nat) :
  (2 * Np.sumZ (map Z.of_nat (seq 0 n)) = Z.of_nat n * (Z.of_nat n - 1))%Z.
Proof.
  induction n as [|n IH]; [reflexivity|].
  rewrite seq_S, map_app, sumZ_app. simpl map.
  rewrite sumZ_cons. change (Np.sumZ []) with 0%Z. lia.
Qed.

Lemma sumZ_le (a b : list Z) :
  Forall2 Z.le a b -> (Np.sumZ a <= Np.sumZ b)%Z.
Proof.
  induction 1; rewrite ?sumZ_cons; [reflexivity | lia].
Qed.

Lemma map2_sub_min_le (R R' : list Z) :
  length R = length R' ->
  Forall (fun y => (0 <= y)%Z) R -> Forall (fun y => (0 <= y)%Z) R' ->
  Forall2 Z.le (map2 Z.sub R (map2 Z.min R R')) R.
Proof.
  unfold map2. revert R'.
  induction R as [|r R IH]; intros [|x R'] L HR HR'; simpl in *;
    try discriminate; constructor.
  - inversion HR; inversion HR'; subst. lia.
  - apply IH; [lia | now inversion HR | now inversion HR'].
Qed.

(** What a successful run of [estimateConditionalS] computes: the sum of
    [rank - min(rank, rank of the neighbour)] over [n * n], where the
    neighbours' ranks are ranks of [Y]. *)
Lemma estimateConditionalS_value (Y : list float) (X : ndarray)
    (w w' : world) (s : float) :
  estimateConditionalS Y X w = (OK s, w') ->
  exists R_nn,
    length R_nn = length Y
    /\ (3 <= length Y)%nat
    /\ Forall (fun r => In r (rank Y)) R_nn
    /\ s = F.div (F.of_Z (Np.sumZ (map2 Z.sub (rank Y)
                                     (map2 Z.min (rank Y) R_nn))))
                 (F.of_nat (length Y * length Y)).
Proof.
  intros H. unfold estimateConditionalS in H.
  apply bind_OK in H. destruct H as (pts & w0 & Hf & H).
  apply bind_OK in H. destruct H as (nb & w1 & Hk & H).
  apply lift_OK in Hk. destruct Hk as [Hk ->].
  apply kneighbors_OK in Hk. destruct Hk as [N3 Hnb].
  apply bind_OK in H. destruct H as ([nn1 rd] & w2 & Hr & H).
  apply (nearest_with_repeats_OK pts) in Hr; [|exact Hnb].
  destruct Hr as [L1 Hnn1].
  apply bind_OK in H. destruct H as (nn & w3 & Hn & H).
  assert (Hnn : length nn = length pts
                /\ forall i, (i < length pts)%nat -> nth i nn 0%nat <> i).
  { destruct (0 <? length (ties_of nb rd))%nat.
    - apply bind_OK in Hn. destruct Hn as (r & w4 & Hm & Hn).
      apply ret_OK in Hn. destruct Hn as [-> _].
      split; [now rewrite assign_length|].
      intros i Hi. unfold Np.assign.
      apply (assign_spec (fun i v => v <> i)).
      + apply mapM_OK in Hm.
        apply Forall2_combine. eapply Forall2_impl; [|exact Hm].
        intros tie v (wa & wb & Hv). eapply helper_ties_OK; eauto.
      + now rewrite L1.
      + right. now apply Hnn1.
    - apply ret_OK in Hn. destruct Hn as [-> _]. auto. }
  clear Hn Hnn1 L1. destruct Hnn as [Ln Hnn].
  apply bind_OK in H. destruct H as (R_nn & w4 & Htake & H).
  apply lift_OK in Htake. destruct Htake as [Htake _].
  apply bind_OK in H. destruct H as (m & w5 & Hmin & H).
  apply lift_OK in Hmin. destruct Hmin as [Hmin _].
  apply bind_OK in H. destruct H as (d & w6 & Hsub & H).
  apply lift_OK in Hsub. destruct Hsub as [Hsub _].
  apply ret_OK in H. destruct H as [-> _].
  apply take_spec in Htake.
  pose proof (Forall2_length Htake) as Lr.
  assert (LY : length (rank Y) = length nn).
  { destruct (broadcast2_OK_lengths _ _ _ _ Hmin) as [[El _]|[El|El]].
    - congruence.
    - exfalso. destruct nn as [|j nn]; [simpl in Ln; lia|].
      inversion Htake as [|? x ? R' Hj _]; subst.
      assert (j = 0%nat).
      { assert (j < length (rank Y))%nat
          by (apply nth_error_Some; rewrite Hj; discriminate).
        lia. }
      subst j. apply (Hnn 0%nat); [lia | reflexivity].
    - exfalso. lia. }
  destruct (broadcast2_OK_lengths _ _ _ _ Hmin) as [[_ ->]|[El|El]];
    [|exfalso; lia|exfalso; lia].
  assert (Lm : length (map2 Z.min (rank Y) R_nn) = length (rank Y)).
  { unfold map2. rewrite length_map, length_combine. lia. }
  destruct (broadcast2_OK_lengths _ _ _ _ Hsub) as [[_ ->]|[El|El]];
    [|exfalso; rewrite rank_length in *; lia
     |exfalso; rewrite Lm, rank_length in *; lia].
  assert (Ly : length Y = length pts) by (rewrite <- rank_length; lia).
  exists R_nn. split; [congruence|]. split; [rewrite Ly; exact N3|].
  split; [|reflexivity].
  apply Forall_forall. intros r Hr.
  apply (In_nth _ _ 0%Z) in Hr. destruct Hr as (i & Hi & <-).
  assert (Hj : nth_error (rank Y) (nth i nn 0%nat) = Some (nth i R_nn 0%Z))
    by (apply (Forall2_nth _ _ _ 0%nat 0%Z Htake); lia).
  eapply nth_error_In. exact Hj.
Qed.

(** X13.  Whenever [estimateConditionalS] returns, its value lies strictly
    between 0 and one half: no term exceeds the rank it starts from, and
    the ranks [0 .. n-1] add up to [n (n - 1) / 2]. *)
Theorem estimateConditionalS_range (Y : list float) (X : ndarray)
    (w w' : world) (s : float) :
  estimateConditionalS Y X w = (OK s, w') ->
  exists q, s = Fin q /\ 0 < q /\ q < 1 # 2.
Proof.
  intros H.
  destruct (estimateConditionalS_positive _ _ _ _ _ H) as (q & Eq & Hq).
  exists q. split; [exact Eq|]. split; [exact Hq|].
  destruct (estimateConditionalS_value _ _ _ _ _ H) as (R_nn & L & N3 & HR & Es).
  rewrite Es in Eq. clear Es H.
  set (S := Np.sumZ (map2 Z.sub (rank Y) (map2 Z.min (rank Y) R_nn))) in *.
  assert (HS : (2 * S <= Z.of_nat (length Y) * (Z.of_nat (length Y) - 1))%Z).
  { rewrite <- sumZ_ranks, <- (sumZ_perm _ _ (rank_perm Y)).
    apply Z.mul_le_mono_nonneg_l; [lia|].
    apply sumZ_le. apply map2_sub_min_le.
    - now rewrite rank_length.
    - apply Forall_forall. intros r Hr. apply rank_range in Hr. lia.
    - eapply Forall_impl; [|exact HR].
      intros r Hr. apply rank_range in Hr. lia. }
  unfold F.div, F.of_Z, F.of_nat in Eq.
  assert (Hn : Qeq_bool (inject_Z (Z.of_nat (length Y * length Y))) 0 = false).
  { destruct (Qeq_bool _ 0) eqn:En; [|reflexivity].
    apply Qeq_bool_iff in En. unfold Qeq in En. simpl in En. nia. }
  rewrite Hn in Eq. injection Eq as <-.
  apply Qlt_shift_div_r.
  - unfold Qlt. simpl. nia.
  - unfold Qlt, Qmult, inject_Z. cbn [Qnum Qden].
    rewrite Nat2Z.inj_mul. nia.
Qed.

Lemma estimateConditionalS_range_witness :
  exists q,
    match fst (estimateConditionalS (vec [5; 5; 5; 5]) (col [0; 1; 3; 7])
                 ex_world) with
    | OK s => s
    | Raise _ => NaN
    end = Fin q
    /\ 0 < q /\ q < 1 # 2.
Proof.
  apply (estimateConditionalS_range (vec [5; 5; 5; 5]) (col [0; 1; 3; 7])
           ex_world
           (snd (estimateConditionalS (vec [5; 5; 5; 5]) (col [0; 1; 3; 7])
                   ex_world))).
  vm_compute. reflexivity.
Defined.

(** ** Ties among the joint points only *)

Lemma nearest_without_repeats (nb : list (list (nat * Q))) (w : world) :
  repeated_rows nb = [] ->
  nearest_with_repeats nb w = (OK (map (Sklearn.index_at 1) nb, []), w).
Proof.
  intros H. unfold nearest_with_repeats. fold (repeated_rows nb).
  rewrite H. reflexivity.
Qed.

Lemma small_integer_intro (k : Z) :
  (Z.abs k <= 100)%Z -> small_integer (Fin (inject_Z k)).
Proof. intros H. exists k. auto. Qed.

Ltac small_integers :=
  unfold col, vec; simpl;
  repeat first [ split
               | apply Forall_nil
               | apply Forall_cons
               | apply small_integer_intro; simpl; lia
               | lia ].

(** X14.  The tie-breaking helper is defined inside the branch that handles
    ties among the rows of [X].  On inputs whose distances are exact, when
    the rows of [X] are in general position but two rows of the joint
    matrix [W = (X, Z)] are equally near to a third (none coinciding),
    [estimateConditionalQ] reaches for a helper that was never defined and
    raises [NameError]; the state is left as it was. *)
Theorem estimateConditionalQ_helper_unbound (Y : list float) (X Z W : ndarray)
    (nbX nbW : list (list (nat * Q))) (w : world) :
  exact_distances X ->
  exact_distances Z ->
  Np.hstack X (Np.reshape_col Z) = OK W ->
  neighbours X = OK nbX ->
  neighbours W = OK nbW ->
  general_position nbX ->
  repeated_rows nbW = [] ->
  tied_rows nbW <> [] ->
  estimateConditionalQ Y X Z w = (Raise NameError, w).
Proof.
  intros _ _ HW HX HnW [RX TX] RW TW.
  unfold neighbours in HX, HnW.
  apply rbind_OK in HX. destruct HX as (ptsX & FX & KX).
  apply rbind_OK in HnW. destruct HnW as (ptsW & FW & KW).
  unfold tied_rows in TX, TW. rewrite RX in TX. rewrite RW in TW.
  unfold estimateConditionalQ.
  unfold bind at 1. unfold lift at 1. rewrite HW.
  unfold bind at 1. unfold lift at 1. rewrite FX.
  unfold bind at 1. unfold lift at 1. rewrite KX.
  unfold bind at 1. rewrite (nearest_without_repeats _ _ RX).
  rewrite TX. cbn [length Nat.ltb Nat.leb].
  unfold bind at 1. unfold ret at 1.
  unfold bind at 1. unfold lift at 1. rewrite FW.
  unfold bind at 1. unfold lift at 1. rewrite KW.
  unfold bind at 1. rewrite (nearest_without_repeats _ _ RW).
  destruct (ties_of nbW []) as [|a l]; [contradiction|].
  reflexivity.
Qed.

Lemma estimateConditionalQ_helper_unbound_witness :
  estimateConditionalQ (vec [0; 1; 3]) (col [0; 1; 3]) (col [2; 0; 1])
    ex_world
  = (Raise NameError, ex_world).
Proof.
  apply (estimateConditionalQ_helper_unbound (vec [0; 1; 3]) (col [0; 1; 3])
           (col [2; 0; 1])
           (Arr2 2 [[Fin 0; Fin 2]; [Fin 1; Fin 0]; [Fin 3; Fin 1]])
           (match neighbours (col [0; 1; 3]) with OK nb => nb | Raise _ => [] end)
           (match neighbours
                    (Arr2 2 [[Fin 0; Fin 2]; [Fin 1; Fin 0]; [Fin 3; Fin 1]])
            with OK nb => nb | Raise _ => [] end)
           ex_world).
  - small_integers.
  - small_integers.
  - reflexivity.
  - vm_compute. reflexivity.
  - vm_compute. reflexivity.
  - split; vm_compute; reflexivity.
  - vm_compute. reflexivity.
  - vm_compute. discriminate.
Defined.

(** ** Rows in general position *)

Lemma neighbours_of_length (pts : list (list Q)) (x : list Q) :
  length (Sklearn.neighbours_of pts x) = length pts.
Proof.
  unfold Sklearn.neighbours_of.
  rewrite <- (Permutation_length (sort_by_perm _ _)).
  rewrite length_combine, length_seq, length_map. apply Nat.min_id.
Qed.

Lemma index_at_bound (pts : list (list Q)) (x : list Q) :
  (3 <= length pts)%nat ->
  (Sklearn.index_at 1 (firstn 3 (Sklearn.neighbours_of pts x))
   < length pts)%nat.
Proof.
  intros N. unfold Sklearn.index_at. rewrite nth_firstn.
  change (1 <? 3)%nat with true. cbv iota.
  set (s := Sklearn.neighbours_of pts x).
  assert (L : (1 < length s)%nat)
    by (unfold s; rewrite neighbours_of_length; lia).
  assert (Hin : In (nth 1 s (0%nat, 0)) s) by now apply nth_In.
  assert (Hp : Permutation s
                 (combine (seq 0 (length pts)) (map (Sklearn.sqdist x) pts)))
    by (symmetry; apply sort_by_perm).
  apply (Permutation_in _ Hp) in Hin.
  destruct (nth 1 s (0%nat, 0)) as [j y]. simpl.
  apply in_combine_l in Hin. apply in_seq in Hin. lia.
Qed.

Lemma neighbours_run (A : ndarray) (nb : list (list (nat * Q))) :
  neighbours A = OK nb ->
  exists pts,
    Sklearn.fit A = OK pts /\ Sklearn.kneighbors pts = OK nb
    /\ length pts = Np.shape0 A /\ (3 <= length pts)%nat
    /\ length nb = length pts
    /\ Forall (fun r => (Sklearn.index_at 1 r < length pts)%nat) nb.
Proof.
  unfold neighbours. intros H.
  apply rbind_OK in H. destruct H as (pts & F & K).
  exists pts. split; [exact F|]. split; [exact K|].
  split; [now apply fit_length|].
  apply kneighbors_OK in K. destruct K as [N ->].
  split; [exact N|]. split; [apply length_map|].
  apply Forall_forall. intros r Hr. apply in_map_iff in Hr.
  destruct Hr as (x & <- & _). now apply index_at_bound.
Qed.

Lemma sum_min_rank_total (R : list Z) (nn : list nat) :
  length nn = length R ->
  Forall (fun i => (i < length R)%nat) nn ->
  exists z, sum_min_rank R nn = OK z.
Proof.
  intros L H. unfold sum_min_rank.
  destruct (take_total R nn H) as (r & E). rewrite E.
  apply take_spec in E. apply Forall2_length in E.
  rewrite broadcast2_same_length by congruence. eauto.
Qed.

(** The neighbour indices of rows in general position, as both estimators
    compute them: no random draw is made. *)
Lemma general_position_indices (nb : list (list (nat * Q))) (pts : list (list Q))
    (Y : list float) :
  length nb = length pts ->
  length Y = length pts ->
  Forall (fun r => (Sklearn.index_at 1 r < length pts)%nat) nb ->
  let nn := map (Sklearn.index_at 1) nb in
  length nn = length (rank Y)
  /\ Forall (fun i => (i < length (rank Y))%nat) nn.
Proof.
  intros Ln Ly F nn. unfold nn. rewrite rank_length, length_map.
  split; [congruence|].
  rewrite Forall_map, Ly. exact F.
Qed.

(** X15.  On inputs whose distances are exact, when the rows of [X] and
    those of the joint matrix [(X, Z)] are in
    general position -- no two rows coincide and every row has a unique
    nearest other row -- and the three inputs have the same number of
    rows, [codec] returns a value, makes no random draw and changes
    nothing: the value is the same whatever the state. *)
Theorem codec_in_general_position (Y : list float) (Z X W : ndarray)
    (nbX nbW : list (list (nat * Q))) (na_rm : bool) :
  exact_distances X ->
  exact_distances Z ->
  length Y = Np.shape0 X ->
  length Y = Np.shape0 Z ->
  Np.hstack X (Np.reshape_col Z) = OK W ->
  neighbours X = OK nbX ->
  neighbours W = OK nbW ->
  general_position nbX ->
  general_position nbW ->
  exists v, forall w, codec Y Z (Some X) na_rm w = (OK v, w).
Proof.
  intros _ _ LX LZ HW HX HnW [RX TX] [RW TW].
  destruct (neighbours_run _ _ HX) as (ptsX & FX & KX & SX & NX & LnX & BX).
  destruct (neighbours_run _ _ HnW) as (ptsW & FW & KW & SW & NW & LnW & BW).
  assert (ShW : Np.shape0 W = Np.shape0 X).
  { unfold Np.hstack, Np.reshape_col in HW.
    destruct X as [v|c rows]; [discriminate|].
    destruct (_ =? _)%nat eqn:E; [|discriminate].
    injection HW as <-. simpl.
    rewrite length_map, length_combine, length_map.
    apply Nat.eqb_eq in E. rewrite length_map in E. lia. }
  assert (LyX : length Y = length ptsX) by congruence.
  assert (LyW : length Y = length ptsW) by congruence.
  destruct (general_position_indices nbX ptsX Y LnX LyX BX) as [L1 B1].
  destruct (general_position_indices nbW ptsW Y LnW LyW BW) as [L2 B2].
  unfold tied_rows in TX, TW. rewrite RX in TX. rewrite RW in TW.
  (* the denominator *)
  destruct (take_total (rank Y) _ B1) as (R_nn & ET).
  assert (LR : length (rank Y) = length R_nn).
  { apply take_spec in ET. apply Forall2_length in ET. congruence. }
  assert (HS : forall w,
             estimateConditionalS Y X w
             = (OK (F.div (F.of_Z (Np.sumZ (map2 Z.sub (rank Y)
                                              (map2 Z.min (rank Y) R_nn))))
                          (F.of_nat (length Y * length Y))), w)).
  { intros w. unfold estimateConditionalS.
    unfold bind at 1. unfold lift at 1. rewrite FX.
    unfold bind at 1. unfold lift at 1. rewrite KX.
    unfold bind at 1. rewrite (nearest_without_repeats _ _ RX).
    rewrite TX. cbn [length Nat.ltb Nat.leb].
    unfold bind at 1. unfold ret at 1.
    unfold bind at 1. unfold lift at 1. rewrite ET.
    unfold bind at 1. unfold lift at 1.
    rewrite broadcast2_same_length by exact LR.
    unfold bind at 1. unfold lift at 1.
    rewrite broadcast2_same_length
      by (unfold map2; rewrite length_map, length_combine; lia).
    reflexivity. }
  (* the numerator *)
  destruct (sum_min_rank_total _ _ L1 B1) as (sX & EsX).
  destruct (sum_min_rank_total _ _ L2 B2) as (sW & EsW).
  assert (HQ : forall w,
             estimateConditionalQ Y X Z w
             = (OK (F.div (F.of_Z (sW - sX))
                          (F.of_nat (length Y * length Y))), w)).
  { intros w. unfold estimateConditionalQ.
    unfold bind at 1. unfold lift at 1. rewrite HW.
    unfold bind at 1. unfold lift at 1. rewrite FX.
    unfold bind at 1. unfold lift at 1. rewrite KX.
    unfold bind at 1. rewrite (nearest_without_repeats _ _ RX).
    rewrite TX. cbn [length Nat.ltb Nat.leb].
    unfold bind at 1. unfold ret at 1.
    unfold bind at 1. unfold lift at 1. rewrite FW.
    unfold bind at 1. unfold lift at 1. rewrite KW.
    unfold bind at 1. rewrite (nearest_without_repeats _ _ RW).
    rewrite TW. cbn [length Nat.ltb Nat.leb].
    unfold bind at 1. unfold ret at 1.
    unfold bind at 1. unfold lift at 1. rewrite EsW.
    unfold bind at 1. unfold lift at 1. rewrite EsX.
    reflexivity. }
  set (s := F.div (F.of_Z (Np.sumZ (map2 Z.sub (rank Y)
                                      (map2 Z.min (rank Y) R_nn))))
                  (F.of_nat (length Y * length Y))) in *.
  set (q := F.div (F.of_Z (sW - sX)) (F.of_nat (length Y * length Y))) in *.
  destruct (estimateConditionalS_positive _ _ _ _ _ (HS ex_world))
    as (p & Ep & Hp).
  assert (Hz : F.eqb s F.zero = false).
  { rewrite Ep. simpl. destruct (Qeq_bool p 0) eqn:E0; [|reflexivity].
    apply Qeq_bool_iff in E0. rewrite E0 in Hp. now apply Qlt_irrefl in Hp. }
  exists (F.div q s). intros w. unfold codec.
  rewrite <- LX, <- LZ, Nat.eqb_refl. cbn [negb orb].
  destruct (length Y <? 2)%nat eqn:E2; [apply Nat.ltb_lt in E2; lia|].
  unfold estimateConditionalT.
  unfold bind at 1. rewrite HS, Hz.
  unfold bind at 1. rewrite HQ. reflexivity.
Qed.

Lemma codec_in_general_position_witness :
  exists v,
    forall w,
      codec (vec [0; 1; 3]) (col [5; 1; 2]) (Some (col [0; 1; 3])) true w
      = (OK v, w).
Proof.
  apply (codec_in_general_position (vec [0; 1; 3]) (col [5; 1; 2])
           (col [0; 1; 3])
           (Arr2 2 [[Fin 0; Fin 5]; [Fin 1; Fin 1]; [Fin 3; Fin 2]])
           (match neighbours (col [0; 1; 3]) with OK nb => nb | Raise _ => [] end)
           (match neighbours
                    (Arr2 2 [[Fin 0; Fin 5]; [Fin 1; Fin 1]; [Fin 3; Fin 2]])
            with OK nb => nb | Raise _ => [] end)
           true).
  - small_integers.
  - small_integers.
  - reflexivity.
  - reflexivity.
  - reflexivity.
  - vm_compute. reflexivity.
  - vm_compute. reflexivity.
  - split; vm_compute; reflexivity.
  - split; vm_compute; reflexivity.
Defined.

(** ** Breaking ties *)

Lemma Qmin_fold_le (l : list Q) (m : Q) :
  fold_left (fun m y => if Qle_bool m y then m else y) l m <= m
  /\ forall y, In y l ->
       fold_left (fun m y => if Qle_bool m y then m else y) l m <= y.
Proof.
  revert m. induction l as [|x l IH]; intros m; simpl.
  - split; [apply Qle_refl | intros y []].
  - destruct (Qle_bool m x) eqn:E.
    + destruct (IH m) as [A B]. split; [exact A|].
      intros y [<-|Hy]; [|now apply B].
      apply Qle_bool_iff in E. eapply Qle_trans; eauto.
    + destruct (IH x) as [A B].
      assert (Hx : x <= m).
      { apply Qlt_le_weak. apply Qnot_le_lt. intros C.
        apply Qle_bool_iff in C. congruence. }
      split; [eapply Qle_trans; eauto|].
      intros y [<-|Hy]; [exact A | now apply B].
Qed.

Lemma Qmin_list_le (l : list Q) (m : Q) :
  Qmin_list l = Some m -> forall y, In y l -> m <= y.
Proof.
  destruct l as [|x l]; simpl; [discriminate|].
  intros H. injection H as <-.
  destruct (Qmin_fold_le l x) as [A B].
  intros y [<-|Hy]; [exact A | now apply B].
Qed.

Lemma nth_delete {A} (l : list A) (a x : nat) (d : A) :
  (a < length l)%nat ->
  nth x (Np.delete l a) d = nth (skip_self a x) l d.
Proof.
  intros Ha. unfold Np.delete, skip_self.
  destruct (a <=? x)%nat eqn:E.
  - apply Nat.leb_le in E.
    rewrite app_nth2 by (rewrite length_firstn; lia).
    rewrite length_firstn, Nat.min_l by lia.
    rewrite nth_skipn. f_equal. lia.
  - apply Nat.leb_gt in E.
    rewrite app_nth1 by (rewrite length_firstn; lia).
    rewrite nth_firstn. apply Nat.ltb_lt in E. rewrite E.
    f_equal. lia.
Qed.

Lemma delete_length {A} (l : list A) (a : nat) :
  (a < length l)%nat -> length (Np.delete l a) = (length l - 1)%nat.
Proof.
  intros H. unfold Np.delete.
  rewrite length_app, length_firstn, length_skipn. lia.
Qed.

Lemma random_choice_bound (k x : nat) (w w' : world) :
  random_choice k w = (OK x, w') -> (x < k)%nat.
Proof.
  unfold random_choice. destruct k as [|n]; [discriminate|].
  intros H.
  assert (E : x = (rand w 0 mod S n)%nat) by congruence.
  rewrite E. apply Nat.mod_upper_bound. lia.
Qed.

(** X16.
    The helper that breaks ties answers with a row other than [a] that is
    as near to row [a] as any other row. *)
Theorem helper_ties_picks_a_nearest_row (X : list (list Q)) (a : nat)
    (w w' : world) (v : nat) :
  helper_ties X a w = (OK v, w') ->
  v <> a /\ (v < length X)%nat
  /\ forall j, (j < length X)%nat -> j <> a ->
       Sklearn.sqdist (nth a X []) (nth v X [])
       <= Sklearn.sqdist (nth a X []) (nth j X []).
Proof.
  intros H. split; [eapply helper_ties_OK; exact H|].
  unfold helper_ties in H.
  destruct (nth_error X a) as [xa|] eqn:Ea; [|discriminate H].
  assert (Ha : (a < length X)%nat)
    by (apply nth_error_Some; rewrite Ea; discriminate).
  apply (nth_error_nth _ _ []) in Ea. rewrite Ea.
  set (distances := map (Sklearn.sqdist xa) (Np.delete X a)) in *.
  destruct (Qmin_list distances) as [dmin|] eqn:Em; [|discriminate H].
  set (ids := Np.where_true (fun d => Qeq_bool d dmin) distances) in *.
  apply bind_OK in H. destruct H as (k & w1 & Hk & H).
  apply ret_OK in H. destruct H as [-> _].
  assert (Kl : (k < length ids)%nat) by (eapply random_choice_bound; eauto).
  assert (Hx : In (nth k ids 0%nat) ids) by now apply nth_In.
  apply (where_true_In _ _ 0) in Hx. destruct Hx as [Lx Ex].
  set (x := nth k ids 0%nat) in *.
  unfold distances in Lx. rewrite length_map in Lx.
  rewrite delete_length in Lx by exact Ha.
  split; [unfold skip_self; destruct (a <=? x)%nat; lia|].
  intros j Hj Hja.
  rewrite <- (nth_delete X a x []) by exact Ha.
  apply Qeq_bool_iff in Ex.
  assert (Dx : nth x distances 0 = Sklearn.sqdist xa (nth x (Np.delete X a) [])).
  { unfold distances.
    rewrite (nth_map_in _ _ _ [])
      by (rewrite delete_length by exact Ha; exact Lx).
    reflexivity. }
  rewrite <- Dx, Ex.
  apply (Qmin_list_le _ _ Em).
  unfold distances. apply in_map.
  set (j' := if (j <? a)%nat then j else (j - 1)%nat).
  assert (Ej : nth j X [] = nth j' (Np.delete X a) []).
  { rewrite nth_delete by exact Ha. unfold skip_self, j'. f_equal.
    destruct (j <? a)%nat eqn:E.
    - apply Nat.ltb_lt in E.
      destruct (a <=? j)%nat eqn:E'; [apply Nat.leb_le in E'; lia | lia].
    - apply Nat.ltb_ge in E.
      destruct (a <=? j - 1)%nat eqn:E'; [lia | apply Nat.leb_gt in E'; lia]. }
  rewrite Ej. apply nth_In. rewrite delete_length by exact Ha.
  unfold j'. destruct (j <? a)%nat eqn:E.
  - apply Nat.ltb_lt in E. lia.
  - apply Nat.ltb_ge in E. lia.
Qed.

Lemma helper_ties_picks_a_nearest_row_witness :
  2%nat <> 1%nat /\ (2 < 3)%nat
  /\ forall j, (j < 3)%nat -> j <> 1%nat ->
       Sklearn.sqdist (nth 1 [[0]; [2]; [4]] []) (nth 2 [[0]; [2]; [4]] [])
       <= Sklearn.sqdist (nth 1 [[0]; [2]; [4]] []) (nth j [[0]; [2]; [4]] []).
Proof.
  apply (helper_ties_picks_a_nearest_row [[0]; [2]; [4]] 1%nat
           (mkWorld [] (fun _ => 1%nat) [])
           (mkWorld [] (fun _ => 1%nat) []) 2%nat).
  reflexivity.
Defined.

(** ** Ranks *)

Section InsertionSort.

Variable A : Type.
Variable le : A -> A -> bool.
Hypothesis le_total : forall x y, le x y = true \/ le y x = true.
Hypothesis le_trans :
  forall x y z, le x y = true -> le y z = true -> le x z = true.

Lemma insert_by_sorted (x : A) (l : list A) :
  StronglySorted (fun x y => le x y = true) l -> StronglySorted (fun x y => le x y = true) (insert_by le x l).
Proof.
  induction 1 as [|y l Hl IH Hy]; simpl.
  - constructor; constructor.
  - destruct (le x y) eqn:E.
    + constructor; [constructor; assumption|].
      constructor; [exact E|].
      eapply Forall_impl; [|exact Hy]. intros z Hz. eapply le_trans; eauto.
    + constructor; [exact IH|].
      assert (Hyx : le y x = true) by (destruct (le_total x y); [congruence | assumption]).
      apply Forall_forall. intros z Hz.
      apply (Permutation_in _ (Permutation_sym (insert_by_perm le x l))) in Hz.
      destruct Hz as [<-|Hz]; [exact Hyx|].
      rewrite Forall_forall in Hy. now apply Hy.
Qed.

Lemma sort_by_sorted (l : list A) : StronglySorted (fun x y => le x y = true) (sort_by le l).
Proof.
  induction l as [|x l IH]; simpl; [constructor|].
  now apply insert_by_sorted.
Qed.

Lemma sorted_nth (l : list A) (d : A) (p q : nat) :
  StronglySorted (fun x y => le x y = true) l -> (p < q)%nat -> (q < length l)%nat ->
  le (nth p l d) (nth q l d) = true.
Proof.
  intros H. revert p q. induction H as [|x l Hl IH Hx]; intros p q Hpq Hq;
    simpl in Hq; [lia|].
  destruct q as [|q]; [lia|]. destruct p as [|p]; simpl.
  - rewrite Forall_forall in Hx. apply Hx. apply nth_In. lia.
  - apply IH; lia.
Qed.

End InsertionSort.

Lemma sort_le_total (x y : float) :
  Np.sort_le x y = true \/ Np.sort_le y x = true.
Proof.
  destruct x as [|p| |], y as [|q| |]; simpl; auto.
  destruct (Qle_bool p q) eqn:E; [now left|]. right.
  apply Qle_bool_iff. apply Qlt_le_weak. apply Qnot_le_lt. intros C.
  apply Qle_bool_iff in C. congruence.
Qed.

Lemma sort_le_trans (x y z : float) :
  Np.sort_le x y = true -> Np.sort_le y z = true -> Np.sort_le x z = true.
Proof.
  destruct x as [|p| |], y as [|q| |], z as [|r| |]; simpl;
    try reflexivity; try discriminate.
  rewrite !Qle_bool_iff. apply Qle_trans.
Qed.

Lemma sorted_map {A B} (f : A -> B) (R : B -> B -> Prop) (l : list A) :
  StronglySorted (fun p q => R (f p) (f q)) l -> StronglySorted R (map f l).
Proof.
  induction 1 as [|x l Hl IH Hx]; simpl; constructor; [exact IH|].
  rewrite Forall_map. exact Hx.
Qed.

(** Two sorted lists of numbers with the same elements are the same list. *)
Lemma sorted_perm_eq (l l' : list nat) :
  StronglySorted le l -> StronglySorted le l' -> Permutation l l' -> l = l'.
Proof.
  intros H. revert l'. induction H as [|a r Hr IH Ha]; intros l' H' P.
  - apply Permutation_nil in P. now subst.
  - destruct l' as [|b r'].
    { apply Permutation_sym, Permutation_nil in P. discriminate. }
    inversion H' as [|? ? Hr' Hb]; subst.
    assert (a = b).
    { assert (Hab : In a (b :: r')) by (eapply Permutation_in; [exact P | now left]).
      assert (Hba : In b (a :: r))
        by (eapply Permutation_in; [symmetry; exact P | now left]).
      rewrite Forall_forall in Ha, Hb.
      destruct Hab as [->|Hab]; [reflexivity|].
      destruct Hba as [->|Hba]; [reflexivity|].
      apply Ha in Hba. apply Hb in Hab. lia. }
    subst b. f_equal. apply IH; [exact Hr'|].
    eapply Permutation_cons_inv. exact P.
Qed.

Lemma seq_sorted (s n : nat) : StronglySorted le (seq s n).
Proof.
  revert s. induction n as [|n IH]; intros s; simpl; constructor; [apply IH|].
  apply Forall_forall. intros x Hx. apply in_seq in Hx. lia.
Qed.

Lemma combine_snd_same_length {A B} (a : list A) (b : list B) :
  length a = length b -> map snd (combine a b) = b.
Proof.
  revert b. induction a as [|x a IH]; intros [|y b] L; simpl in *;
    try discriminate; [reflexivity|].
  f_equal. apply IH. now injection L.
Qed.

(** [np.argsort] of a permutation of [0 .. n-1] is its inverse. *)
Lemma argsort_inverse (sigma : list nat) (v : nat) :
  Permutation sigma (seq 0 (length sigma)) ->
  (v < length sigma)%nat ->
  (nth v (Np.argsort Nat.leb sigma) 0 < length sigma)%nat
  /\ nth (nth v (Np.argsort Nat.leb sigma) 0%nat) sigma 0%nat = v.
Proof.
  intros P Hv. unfold Np.argsort.
  set (leN := fun p q : nat * nat => (snd p <=? snd q)%nat).
  set (C := combine (seq 0 (length sigma)) sigma).
  set (T := sort_by leN C).
  assert (PT : Permutation C T) by apply sort_by_perm.
  assert (LC : length C = length sigma).
  { unfold C. rewrite length_combine, length_seq. apply Nat.min_id. }
  assert (LT : length T = length sigma).
  { rewrite <- (Permutation_length PT). exact LC. }
  assert (ST : StronglySorted le (map snd T)).
  { apply sorted_map.
    assert (H : StronglySorted (fun x y => leN x y = true) T).
    { apply sort_by_sorted.
      - intros x y. unfold leN.
        destruct (snd x <=? snd y)%nat eqn:E; [now left|].
        right. apply Nat.leb_le. apply Nat.leb_gt in E. lia.
      - intros x y z. unfold leN. rewrite !Nat.leb_le. lia. }
    eapply StronglySorted_ind with (P := StronglySorted _);
      [constructor | | exact H].
    intros a l _ IH Ha. constructor; [exact IH|].
    eapply Forall_impl; [|exact Ha]. intros b Hb. now apply Nat.leb_le. }
  assert (ES : map snd T = seq 0 (length sigma)).
  { apply sorted_perm_eq; [exact ST | apply seq_sorted|].
    etransitivity; [|exact P].
    etransitivity; [apply Permutation_map; symmetry; exact PT|].
    unfold C. rewrite combine_snd_same_length by apply length_seq.
    reflexivity. }
  assert (Hin : In (nth v T (0%nat, 0%nat)) C).
  { apply (Permutation_in _ (Permutation_sym PT)). apply nth_In. lia. }
  assert (Es : snd (nth v T (0%nat, 0%nat)) = v).
  { rewrite <- (nth_map_in snd T 0%nat) by lia. rewrite ES.
    now apply seq_nth. }
  rewrite (nth_map_in _ _ _ (0%nat, 0%nat)) by lia.
  destruct (nth v T (0%nat, 0%nat)) as [k x]. simpl in Es. subst x. simpl.
  unfold C in Hin. rewrite <- (map_id sigma) in Hin at 2.
  pose proof (in_combine_l _ _ _ _ Hin) as Hk. apply in_seq in Hk.
  apply (combine_seq_map_In _ _ 0%nat) in Hin. destruct Hin as [_ E].
  rewrite Nat.sub_0_r in E. split; [lia | now symmetry].
Qed.

(** The rank of a row is the place its index takes in the sorted order. *)
Lemma rank_is_position (Y : list float) (i p : nat) :
  (i < length Y)%nat -> (p < length Y)%nat ->
  nth p (Np.argsort Np.sort_le Y) 0%nat = i ->
  nth i (rank Y) 0%Z = Z.of_nat p.
Proof.
  intros Hi Hp E. unfold rank.
  set (sigma := Np.argsort Np.sort_le Y) in *.
  assert (L : length sigma = length Y) by apply argsort_length.
  assert (P : Permutation sigma (seq 0 (length sigma)))
    by (rewrite L; apply argsort_perm).
  rewrite (nth_map_in _ _ _ 0%nat)
    by (rewrite argsort_length, L; exact Hi).
  f_equal.
  destruct (argsort_inverse sigma i P ltac:(lia)) as [B I].
  assert (N : NoDup sigma).
  { eapply Permutation_NoDup; [symmetry; exact P | apply seq_NoDup]. }
  apply (proj1 (NoDup_nth sigma 0%nat) N); [exact B | lia |].
  now rewrite I, E.
Qed.

(** X17.
    The ranks [np.argsort(np.argsort(Y))] are ordinal ranks: whatever the
    ties in [Y], they are the numbers [0 .. n-1], each used once, and a row
    whose response sorts strictly before that of another row has the
    smaller rank of the two. *)
Theorem rank_is_ordinal (Y : list float) :
  Permutation (rank Y) (map Z.of_nat (seq 0 (length Y)))
  /\ NoDup (rank Y)
  /\ forall i j, (i < length Y)%nat -> (j < length Y)%nat ->
       sorts_before (nth i Y NaN) (nth j Y NaN) ->
       (nth i (rank Y) 0 < nth j (rank Y) 0)%Z.
Proof.
  split; [apply rank_perm|]. split; [apply rank_NoDup|].
  intros i j Hi Hj [Hij Hji].
  set (leP := fun p q : nat * float => Np.sort_le (snd p) (snd q)).
  set (C := combine (seq 0 (length Y)) Y).
  set (S := sort_by leP C).
  assert (PS : Permutation C S) by apply sort_by_perm.
  assert (LS : length S = length Y).
  { rewrite <- (Permutation_length PS). unfold C.
    rewrite length_combine, length_seq. apply Nat.min_id. }
  assert (SS : StronglySorted (fun x y => leP x y = true) S).
  { apply sort_by_sorted.
    - intros x y. apply sort_le_total.
    - intros x y z. apply sort_le_trans. }
  assert (Pos : forall k, (k < length Y)%nat ->
                  exists p, (p < length Y)%nat
                            /\ nth p S (0%nat, NaN) = (k, nth k Y NaN)).
  { intros k Hk.
    assert (Hin : In (k, nth k Y NaN) C).
    { unfold C.
      replace (k, nth k Y NaN)
        with (nth k (combine (seq 0 (length Y)) Y) (0%nat, NaN)).
      - apply nth_In. rewrite length_combine, length_seq, Nat.min_id. exact Hk.
      - rewrite combine_nth by apply length_seq. now rewrite seq_nth. }
    apply (Permutation_in _ PS) in Hin.
    apply (In_nth _ _ (0%nat, NaN)) in Hin. destruct Hin as (p & Lp & Ep).
    exists p. split; [lia | exact Ep]. }
  destruct (Pos i Hi) as (pi & Lpi & Epi).
  destruct (Pos j Hj) as (pj & Lpj & Epj).
  assert (Sig : forall p k y, (p < length Y)%nat ->
                  nth p S (0%nat, NaN) = (k, y) ->
                  nth p (Np.argsort Np.sort_le Y) 0%nat = k).
  { intros p k y Lp Ep. unfold Np.argsort. fold leP C S.
    rewrite (nth_map_in _ _ _ (0%nat, NaN)) by lia. now rewrite Ep. }
  rewrite (rank_is_position Y i pi Hi Lpi (Sig _ _ _ Lpi Epi)).
  rewrite (rank_is_position Y j pj Hj Lpj (Sig _ _ _ Lpj Epj)).
  apply Nat2Z.inj_lt.
  destruct (Nat.lt_trichotomy pi pj) as [H|[H|H]]; [exact H | |]; exfalso.
  - subst pj. rewrite Epi in Epj. injection Epj as -> E.
    destruct (sort_le_total (nth j Y NaN) (nth j Y NaN)); congruence.
  - pose proof (sorted_nth _ leP S (0%nat, NaN) pj pi SS H ltac:(lia)) as O.
    rewrite Epi, Epj in O. unfold leP in O. simpl in O. congruence.
Qed.

(* ================================================================== *)
(** * Further properties of the aggregator *)

Lemma yields_bind {A B} (m : M A) (k : A -> M B) (Q : A -> Prop)
    (R : B -> Prop) :
  yields m Q -> (forall a, Q a -> yields (k a) R) -> yields (bind m k) R.
Proof.
  intros Hm Hk w b w' H. apply bind_OK in H. destruct H as (a & w1 & E & H).
  eapply Hk; [eapply Hm; exact E | exact H].
Qed.

Lemma yields_any {A} (m : M A) : yields m (fun _ => True).
Proof. intros w a w' _. exact I. Qed.

Lemma yields_ret {A} (a : A) (Q : A -> Prop) : Q a -> yields (ret a) Q.
Proof. intros H w b w' E. apply ret_OK in E. destruct E as [-> _]. exact H. Qed.

Lemma yields_raise {A} (e : exn) (Q : A -> Prop) : yields (@raise A e) Q.
Proof. intros w a w' H. discriminate H. Qed.

Lemma yields_try_except {A} (m h : M A) (c : exn -> bool) (Q : A -> Prop) :
  yields m Q -> yields h Q -> yields (try_except m c h) Q.
Proof.
  intros Hm Hh w a w' H. unfold try_except in H.
  destruct (m w) as [[x|e] w1] eqn:E.
  - injection H as <- <-. eapply Hm. exact E.
  - destruct (c e); [eapply Hh; exact H | discriminate H].
Qed.

Lemma keys_dict_set {V} (d : list (string * V)) (name k : string) (v : V) :
  In k (keys (dict_set d name v)) -> k = name \/ In k (keys d).
Proof.
  unfold keys. induction d as [|e r IH]; simpl.
  - intros [<-|[]]. now left.
  - destruct (fst e =? name) eqn:E; simpl.
    + intros [<-|H]; [now left | right; now right].
    + intros [<-|H]; [right; now left|].
      destruct (IH H) as [->|H']; [now left | right; now right].
Qed.

Lemma dict_get_absent {V} (d : list (string * V)) (k : string) :
  ~ In k (keys d) -> dict_get d k = None.
Proof.
  unfold keys, dict_get. intros H.
  destruct (find (fun e => fst e =? k) d) as [e|] eqn:E; [|reflexivity].
  apply find_some in E. destruct E as [Hin Hk].
  apply String.eqb_eq in Hk. exfalso. apply H. rewrite <- Hk.
  now apply in_map.
Qed.

Section Keys.

Variable allowed : string -> Prop.

Lemma only_allowed_set (out : list (string * outval)) (name : string)
    (v : outval) :
  only_allowed allowed out -> allowed name ->
  only_allowed allowed (dict_set out name v).
Proof.
  intros H Hn k Hk. apply keys_dict_set in Hk.
  destruct Hk as [->|Hk]; [exact Hn | now apply H].
Qed.

Lemma yields_report (ms : list string) (name : string) (score : M outval)
    (out : list (string * outval)) :
  only_allowed allowed out -> (In name ms -> allowed name) ->
  yields (report ms name score out) (only_allowed allowed).
Proof.
  intros H Hn. unfold report. destruct (str_in name ms) eqn:E.
  - apply str_in_In in E.
    eapply yields_bind; [apply yields_any|]. intros x _.
    apply yields_ret. apply only_allowed_set; auto.
  - now apply yields_ret.
Qed.

End Keys.

Section AggregatorKeys.

Variable sqrtQ : Q -> Q.
Variable dcor_energy_distance :
  list (list float) -> list (list float) -> result float.
Variable dcor_pairwise_distances :
  list (list float) -> list (list float) -> result (list (list float)).
Variable quantile_transform : list (list float) -> result (list (list float)).
Variable metrics_qini_score : DataFrame -> result float.
Variable metrics_auuc_score : DataFrame -> result float.
Variable psw_joint_weights :
  list float -> option (list float) -> result (list (list float)).

Ltac skip_bind :=
  eapply yields_bind; [apply yields_any | intros ? _].

Ltac report_bind allowed :=
  eapply yields_bind with (Q := only_allowed allowed);
  [apply yields_report; [assumption | intros; auto] | cbv beta; intros].

(** The keys of the record [make_scores] returns, under any policy
    [allowed] that admits what each block of the function may store. *)
Lemma make_scores_keys (allowed : string -> Prop) (self : Scorer)
    (estimate : Estimator) (df : loc) (ms : list string)
    (r_scorer : option (list float -> result float)) :
  (problem self = "backdoor" ->
   forall k, In k ms \/ k = "values" \/ k = "r_score" -> allowed k) ->
  (forall k, In k ["ate"; "energy_distance"; "psw_energy_distance"; "codec"] ->
             In k ms -> allowed k) ->
  (In "ate" ms -> allowed "ate_std") ->
  yields (make_scores sqrtQ dcor_energy_distance dcor_pairwise_distances
            quantile_transform metrics_qini_score metrics_auuc_score
            psw_joint_weights self estimate df ms r_scorer)
    (only_allowed allowed).
Proof.
  intros H1 H2 H3. unfold make_scores.
  assert (H0 : only_allowed allowed []) by (intros k []).
  do 6 skip_bind.
  eapply yields_bind with (Q := only_allowed allowed).
  { destruct (problem self =? "backdoor") eqn:Ep; [|now apply yields_ret].
    apply String.eqb_eq in Ep. specialize (H1 Ep).
    do 5 skip_bind.
    report_bind allowed. report_bind allowed. report_bind allowed.
    report_bind allowed.
    eapply yields_bind with (Q := only_allowed allowed).
    { destruct (str_in "policy_risk" ms) eqn:E; [|now apply yields_ret].
      apply str_in_In in E.
      apply yields_try_except; [|now apply yields_ret].
      skip_bind. apply yields_ret. apply only_allowed_set; auto. }
    cbv beta. intros.
    report_bind allowed. report_bind allowed.
    eapply yields_bind with (Q := only_allowed allowed).
    { destruct r_scorer; [|now apply yields_ret].
      skip_bind. apply yields_ret. apply only_allowed_set; auto. }
    cbv beta. intros.
    do 2 skip_bind.
    destruct (negb _); [apply yields_raise|].
    do 2 skip_bind. apply yields_ret. apply only_allowed_set; auto. }
  cbv beta. intros out Hout.
  eapply yields_bind with (Q := only_allowed allowed).
  { destruct (str_in "ate" ms) eqn:E; [|now apply yields_ret].
    apply str_in_In in E. apply yields_ret.
    apply only_allowed_set; [apply only_allowed_set|]; auto.
    apply H2; simpl; auto. }
  cbv beta. intros.
  assert (K : forall k, In k ["ate"; "energy_distance"; "psw_energy_distance";
                              "codec"] -> In k ms -> allowed k) by exact H2.
  do 3 (eapply yields_bind with (Q := only_allowed allowed);
        [apply yields_report; [assumption | apply K; simpl; auto]
        | cbv beta; intros]).
  now apply yields_ret.
Qed.

(** X19.  [make_scores] reports no metric it was not asked for: every key of
    the record it returns is a requested metric or one of the bookkeeping
    entries [values], [ate_std] and [r_score]. *)
Theorem make_scores_reports_what_was_asked (self : Scorer)
    (estimate : Estimator) (df : loc) (metrics_to_report : list string)
    (r_scorer : option (list float -> result float))
    (w w' : world) (out : list (string * outval)) :
  make_scores sqrtQ dcor_energy_distance dcor_pairwise_distances
    quantile_transform metrics_qini_score metrics_auuc_score psw_joint_weights
    self estimate df metrics_to_report r_scorer w = (OK out, w') ->
  Forall (fun k => In k metrics_to_report \/ In k bookkeeping_keys)
    (keys out).
Proof.
  intros H. apply Forall_forall.
  apply (make_scores_keys
           (fun k => In k metrics_to_report \/ In k bookkeeping_keys)
           self estimate df metrics_to_report r_scorer) in H; [exact H| | |].
  - intros _ k [Hk|[->| ->]]; [now left | right; simpl; auto
                                | right; simpl; auto].
  - intros k _ Hk. now left.
  - intros _. right. simpl. auto.
Qed.

(** X20.  Outside the backdoor problem [make_scores] computes only the metrics
    that need no propensity model, whatever it is asked for: the record
    holds no [values] frame and no Frobenius score -- although
    [frobenius_norm] is in the catalogue of the instrumental-variable
    problem, so that [resolve_metric] accepts it as scoring metric. *)
Theorem make_scores_outside_backdoor (self : Scorer)
    (estimate : Estimator) (df : loc) (metrics_to_report : list string)
    (r_scorer : option (list float -> result float))
    (w w' : world) (out : list (string * outval)) :
  problem self <> "backdoor" ->
  make_scores sqrtQ dcor_energy_distance dcor_pairwise_distances
    quantile_transform metrics_qini_score metrics_auuc_score psw_joint_weights
    self estimate df metrics_to_report r_scorer w = (OK out, w') ->
  Forall (fun k => In k problem_free_keys) (keys out)
  /\ dict_get out "values" = None
  /\ dict_get out "frobenius_norm" = None
  /\ (problem self = "iv" -> is_supported self true "frobenius_norm" = true).
Proof.
  intros Hp H.
  assert (K : forall k, In k (keys out) -> In k problem_free_keys).
  { apply (make_scores_keys (fun k => In k problem_free_keys)
             self estimate df metrics_to_report r_scorer) in H; [exact H| | |].
    - intros E. contradiction.
    - intros k Hk _. simpl in *. tauto.
    - intros _. simpl. auto. }
  split; [now apply Forall_forall|]. split; [|split].
  - apply dict_get_absent. intros C. apply K in C. simpl in C.
    repeat (destruct C as [C|C]; [discriminate C|]). exact C.
  - apply dict_get_absent. intros C. apply K in C. simpl in C.
    repeat (destruct C as [C|C]; [discriminate C|]). exact C.
  - intros E. unfold is_supported. rewrite E. reflexivity.
Qed.

End AggregatorKeys.

Lemma make_scores_reports_what_was_asked_witness :
  Forall (fun k => In k ex_metrics \/ In k bookkeeping_keys) (keys ex_out).
Proof.
  apply (make_scores_reports_what_was_asked ex_sqrt ex_energy_distance
           ex_pairwise_distances ex_quantile_transform ex_uplift_score
           ex_uplift_score ex_joint_weights ex_scorer ex_estimator 0%nat
           ex_metrics None ex_world (snd ex_make_scores) ex_out).
  vm_compute. reflexivity.
Defined.

(** A scorer for the instrumental-variable problem: no propensity model
    and no ERUPT. *)
Lemma make_scores_outside_backdoor_witness :
  let run :=
    make_scores ex_sqrt ex_energy_distance ex_pairwise_distances
      ex_quantile_transform ex_uplift_score ex_uplift_score ex_joint_weights
      (mkScorer "iv" false ["T"] ["Y"] ["x"] [] None None) ex_estimator 0%nat
      ["frobenius_norm"; "energy_distance"; "ate"] None ex_world in
  let out := match fst run with OK out => out | Raise _ => [] end in
  keys out = ["ate"; "ate_std"; "energy_distance"]
  /\ Forall (fun k => In k problem_free_keys) (keys out)
  /\ dict_get out "values" = None
  /\ dict_get out "frobenius_norm" = None
  /\ is_supported (mkScorer "iv" false ["T"] ["Y"] ["x"] [] None None) true
        "frobenius_norm" = true.
Proof.
  intros run out.
  split; [vm_compute; reflexivity|].
  destruct (make_scores_outside_backdoor ex_sqrt ex_energy_distance
              ex_pairwise_distances ex_quantile_transform ex_uplift_score
              ex_uplift_score ex_joint_weights
              (mkScorer "iv" false ["T"] ["Y"] ["x"] [] None None)
              ex_estimator 0%nat
              ["frobenius_norm"; "energy_distance"; "ate"] None ex_world
              (snd run) out) as (A & B & C & D).
  - discriminate.
  - vm_compute. reflexivity.
  - split; [exact A|]. split; [exact B|]. split; [exact C|]. now apply D.
Defined.

Lemma make_scores_preserves_caller_frames_witness :
  frame_at (snd ex_make_scores) 0%nat = frame_at ex_world 0%nat.
Proof.
  apply (make_scores_preserves_caller_frames ex_sqrt ex_energy_distance
           ex_pairwise_distances ex_quantile_transform ex_uplift_score
           ex_uplift_score ex_joint_weights ex_scorer ex_estimator 0%nat
           ex_metrics None ex_world 0%nat).
  simpl. lia.
Defined.

Lemma keys_dict_set_same {V} (d : list (string * V)) (name : string) (v : V) :
  In name (keys (dict_set d name v)).
Proof.
  unfold keys. induction d as [|e r IH]; simpl; [now left|].
  destruct (fst e =? name); simpl; auto.
Qed.

Lemma keys_dict_set_mono {V} (d : list (string * V)) (name k : string) (v : V) :
  In k (keys d) -> In k (keys (dict_set d name v)).
Proof.
  unfold keys. induction d as [|e r IH]; simpl; [intros []|].
  destruct (fst e =? name) eqn:E; simpl.
  - apply String.eqb_eq in E. intros [<-|H]; auto.
  - intros [<-|H]; auto.
Qed.

Section Reported.

Variable k : string.

Lemma report_keeps_key (ms : list string) (name : string) (score : M outval)
    (out : list (string * outval)) :
  In k (keys out) ->
  yields (report ms name score out) (fun out' => In k (keys out')).
Proof.
  intros H. unfold report. destruct (str_in name ms).
  - eapply yields_bind; [apply yields_any|]. intros x _.
    apply yields_ret. now apply keys_dict_set_mono.
  - now apply yields_ret.
Qed.

Lemma report_adds_key (ms : list string) (score : M outval)
    (out : list (string * outval)) :
  In k ms ->
  yields (report ms k score out) (fun out' => In k (keys out')).
Proof.
  intros H. unfold report. apply str_in_In in H. rewrite H.
  eapply yields_bind; [apply yields_any|]. intros x _.
  apply yields_ret. apply keys_dict_set_same.
Qed.

End Reported.

Section AggregatorReports.

Variable sqrtQ : Q -> Q.
Variable dcor_energy_distance :
  list (list float) -> list (list float) -> result float.
Variable dcor_pairwise_distances :
  list (list float) -> list (list float) -> result (list (list float)).
Variable quantile_transform : list (list float) -> result (list (list float)).
Variable metrics_qini_score : DataFrame -> result float.
Variable metrics_auuc_score : DataFrame -> result float.
Variable psw_joint_weights :
  list float -> option (list float) -> result (list (list float)).

Ltac skip_step :=
  eapply yields_bind; [apply yields_any | intros ? _].

(** One [report] step: the key is already there, or this is the step that
    adds it, or it is yet to come. *)
Ltac report_step :=
  first
    [ eapply yields_bind;
      [eapply report_keeps_key; eassumption | cbv beta; intros]
    | eapply yields_bind;
      [eapply report_adds_key; eassumption | cbv beta; intros]
    | skip_step ].

(** A step that stores other keys: it keeps the key if it is there. *)
Ltac other_step k :=
  first
    [ eapply yields_bind with (Q := fun out' => In k (keys out'));
      [ solve
          [ repeat first
              [ apply yields_ret; repeat apply keys_dict_set_mono; assumption
              | apply yields_try_except
              | skip_step
              | match goal with
                | |- yields (if ?c then _ else _) _ => destruct c
                | |- yields (match ?x with _ => _ end) _ => destruct x
                end ] ]
      | cbv beta; intros ]
    | skip_step ].

(** The backdoor block from its first [report] on. *)
Ltac backdoor_block k :=
  do 4 report_step; other_step k; do 2 report_step; other_step k;
  do 2 skip_step;
  match goal with
  | |- yields (if ?c then _ else _) _ => destruct c
  end;
  [ apply yields_raise
  | do 2 skip_step; apply yields_ret; apply keys_dict_set_mono; assumption ].

(** X21.  A run of [make_scores] that succeeds reports every metric it was
    asked for and knows how to compute: the metrics that need no
    propensity model under any problem, the others under the backdoor
    problem.  The policy risk is the exception: a failure of
    [policy_risk_score] is swallowed and the entry is then missing. *)
Theorem make_scores_reports_requested (self : Scorer)
    (estimate : Estimator) (df : loc) (metrics_to_report : list string)
    (r_scorer : option (list float -> result float))
    (w w' : world) (out : list (string * outval)) (k : string) :
  make_scores sqrtQ dcor_energy_distance dcor_pairwise_distances
    quantile_transform metrics_qini_score metrics_auuc_score psw_joint_weights
    self estimate df metrics_to_report r_scorer w = (OK out, w') ->
  In k metrics_to_report ->
  In k ["ate"; "energy_distance"; "psw_energy_distance"; "codec"]
  \/ (problem self = "backdoor" /\ In k backdoor_only_keys) ->
  In k (keys out).
Proof.
  intros H Hk Hc. revert w out w' H.
  change (yields (make_scores sqrtQ dcor_energy_distance
                    dcor_pairwise_distances quantile_transform
                    metrics_qini_score metrics_auuc_score psw_joint_weights
                    self estimate df metrics_to_report r_scorer)
            (fun out => In k (keys out))).
  unfold make_scores.
  do 6 skip_step.
  destruct Hc as [Hc | [Hp Hc]].
  - (* a metric computed under any problem *)
    skip_step.
    simpl in Hc.
    destruct Hc as [<-|[<-|[<-|[<-|[]]]]].
    + eapply yields_bind with (Q := fun out' => In "ate" (keys out')).
      { apply str_in_In in Hk. rewrite Hk. apply yields_ret.
        apply keys_dict_set_mono. apply keys_dict_set_same. }
      cbv beta. intros.
      do 3 report_step. now apply yields_ret.
    + skip_step. do 3 report_step. now apply yields_ret.
    + skip_step. do 3 report_step. now apply yields_ret.
    + skip_step. do 3 report_step. now apply yields_ret.
  - (* a metric of the backdoor problem *)
    rewrite Hp. cbn [String.eqb Ascii.eqb Bool.eqb].
    eapply yields_bind with (Q := fun out' => In k (keys out')).
    { do 5 skip_step.
      simpl in Hc.
      destruct Hc as [<-|[<-|[<-|[<-|[<-|[<-|[]]]]]]].
      - backdoor_block "erupt".
      - backdoor_block "norm_erupt".
      - backdoor_block "prob_erupt".
      - backdoor_block "frobenius_norm".
      - backdoor_block "qini".
      - backdoor_block "auc". }
    cbv beta. intros.
    eapply yields_bind with (Q := fun out' => In k (keys out')).
    { destruct (str_in "ate" metrics_to_report); apply yields_ret;
        repeat apply keys_dict_set_mono; assumption. }
    cbv beta. intros.
    do 3 report_step. now apply yields_ret.
Qed.

End AggregatorReports.

Lemma make_scores_reports_requested_witness :
  In "frobenius_norm" (keys ex_out).
Proof.
  apply (make_scores_reports_requested ex_sqrt ex_energy_distance
           ex_pairwise_distances ex_quantile_transform ex_uplift_score
           ex_uplift_score ex_joint_weights ex_scorer ex_estimator 0%nat
           ex_metrics None ex_world (snd ex_make_scores) ex_out
           "frobenius_norm").
  - vm_compute. reflexivity.
  - simpl. tauto.
  - right. split; [reflexivity | simpl; tauto].
Defined.

(* ================================================================== *)
(** * Further properties of the ranking *)

Lemma In_dict_set {V} (d : list (string * V)) (name k : string) (x v : V) :
  In (k, v) (dict_set d name x) -> (k = name /\ v = x) \/ In (k, v) d.
Proof.
  induction d as [|e r IH]; simpl.
  - intros [E|[]]. injection E as <- <-. now left.
  - destruct (fst e =? name) eqn:E; simpl.
    + intros [H|H]; [injection H as <- <-; now left | right; now right].
    + intros [H|H]; [right; now left|].
      destruct (IH H) as [?|?]; [now left | right; now right].
Qed.

(** ** The loop over the families *)

Lemma family_member (records : list record) (n : value) (v : record) :
  In v records -> has_name n v = true -> In v (family records n).
Proof. intros Hv Hn. apply filter_In. auto. Qed.

(** ** A record without the metric *)

Lemma getitem_numeric (metric : string) (v : record) (x : float) :
  metric_value metric v = Some x -> getitem v metric = OK (VNum x).
Proof.
  unfold getitem, metric_value.
  destruct (dict_get v metric) as [[s|y]|]; intros H; try discriminate.
  now injection H as ->.
Qed.

Lemma getitem_missing (metric : string) (v : record) :
  dict_get v metric = None -> getitem v metric = Raise KeyError.
Proof. unfold getitem. now intros ->. Qed.

Section NumericLoop.

Variable metric : string.
Variable better : value -> value -> result bool.
Hypothesis better_num :
  forall x y, exists b, better (VNum x) (VNum y) = OK b.

Lemma extremum_loop_numeric (l : list record) :
  Forall (numeric_or_missing metric) l ->
  forall cur k,
    (Forall (numeric metric) l ->
     exists b, extremum_loop better (fun x => getitem x metric) cur (VNum k) l
               = OK b)
    /\ (Exists (fun v => dict_get v metric = None) l ->
        extremum_loop better (fun x => getitem x metric) cur (VNum k) l
        = Raise KeyError).
Proof.
  induction 1 as [|v l Hv Hl IH]; intros cur k.
  - split; [intros _; exists cur; reflexivity | intros C; inversion C].
  - simpl. destruct Hv as [Hm|(x & Hx)].
    + rewrite (getitem_missing _ _ Hm). cbn [rbind]. split; [|reflexivity].
      intros C. inversion C as [|? ? (y & Hy) _]; subst.
      unfold metric_value in Hy. rewrite Hm in Hy. discriminate.
    + rewrite (getitem_numeric _ _ _ Hx). cbn [rbind].
      destruct (better_num x k) as (b & ->). cbn [rbind].
      split.
      * intros C. inversion C; subst. destruct b; now apply IH.
      * intros C. inversion C as [? ? Hm|? ? Hm]; subst.
        -- unfold metric_value in Hx. rewrite Hm in Hx. discriminate.
        -- destruct b; now apply IH.
Qed.

Lemma extremum_numeric (l : list record) :
  l <> [] ->
  Forall (numeric_or_missing metric) l ->
  (Forall (numeric metric) l ->
   exists b, extremum better (fun x => getitem x metric) l = OK b)
  /\ (Exists (fun v => dict_get v metric = None) l ->
      extremum better (fun x => getitem x metric) l = Raise KeyError).
Proof.
  destruct l as [|v l]; [congruence|]. intros _ H.
  inversion H as [|? ? Hv Hl]; subst. simpl.
  destruct Hv as [Hm|(x & Hx)].
  - rewrite (getitem_missing _ _ Hm). cbn [rbind]. split; [|reflexivity].
    intros C. inversion C as [|? ? (y & Hy) _]; subst.
    unfold metric_value in Hy. rewrite Hm in Hy. discriminate.
  - rewrite (getitem_numeric _ _ _ Hx). cbn [rbind].
    destruct (extremum_loop_numeric l Hl v x) as [A B]. split.
    + intros C. inversion C; subst. now apply A.
    + intros C. inversion C as [? ? Hm|? ? Hm]; subst.
      * unfold metric_value in Hx. rewrite Hm in Hx. discriminate.
      * now apply B.
Qed.

End NumericLoop.

Lemma family_best_numeric (metric : string) (records : list record)
    (n : value) :
  family records n <> [] ->
  Forall (numeric_or_missing metric) (family records n) ->
  (Forall (numeric metric) (family records n) ->
   exists b, family_best metric records n = OK b)
  /\ (Exists (fun v => dict_get v metric = None) (family records n) ->
      family_best metric records n = Raise KeyError).
Proof.
  intros Hne H. unfold family_best, py_min, py_max.
  destruct (str_in metric lower_is_better);
    apply extremum_numeric; auto; intros x y; eexists; reflexivity.
Qed.

(** X22.  When every record names its family and holds a number or nothing
    under the metric, a single record without the metric makes
    [best_score_by_estimator] raise [KeyError]: no family is ranked. *)
Theorem best_score_by_estimator_missing_metric
    (sorted_with_nan : list float -> list float)
    (scores : list (string * record)) (metric : string) :
  Forall (fun kv => named (snd kv) /\ numeric_or_missing metric (snd kv))
    scores ->
  Exists (fun kv => dict_get (snd kv) metric = None) scores ->
  best_score_by_estimator sorted_with_nan scores metric = Raise KeyError.
Proof.
  intros H Hex.
  set (records := map snd scores).
  assert (HN : Forall named records).
  { apply Forall_map. eapply Forall_impl; [|exact H]. now intros kv [A _]. }
  assert (HM : Forall (numeric_or_missing metric) records).
  { apply Forall_map. eapply Forall_impl; [|exact H]. now intros kv [_ B]. }
  destruct (best_score_by_estimator_run sorted_with_nan scores metric
              (named_comparable _ HN))
    as (names & S & Hcov & Hn & ->). fold records in Hcov, Hn |- *.
  assert (Hfam : forall n, In n names ->
             family records n <> []
             /\ Forall (numeric_or_missing metric) (family records n)).
  { intros n Hin. apply Hn in Hin. destruct Hin as (v & Hv & Nv). split.
    - intros C. pose proof (family_member _ _ _ Hv Nv) as F.
      rewrite C in F. exact F.
    - apply Forall_forall. intros v' Hv'. apply filter_In in Hv'.
      rewrite Forall_forall in HM. now apply HM. }
  assert (Hcases : forall n, In n names ->
             (exists b, family_best metric records n = OK b)
             \/ family_best metric records n = Raise KeyError).
  { intros n Hin. destruct (Hfam n Hin) as [Hne Hnm].
    destruct (family_best_numeric metric records n Hne Hnm) as [A B].
    destruct (Exists_dec (fun v => dict_get v metric = None) (family records n))
      as [Hm|Hm].
    - intros v. destruct (dict_get v metric); [right; discriminate | now left].
    - right. now apply B.
    - left. apply A. apply Forall_forall. intros v Hv.
      rewrite Forall_forall in Hnm. destruct (Hnm v Hv) as [C|C]; [|exact C].
      exfalso. apply Hm. apply Exists_exists. eauto. }
  destruct (best_loop_raises records metric KeyError names Hcases [])
    as [(best & E)|E]; [|exact E].
  exfalso.
  apply Exists_exists in Hex. destruct Hex as (kv & Hkv & Hm).
  assert (Hv : In (snd kv) records) by (now apply in_map).
  destruct (Hcov _ Hv) as (n & Hin & Nv).
  destruct (best_loop_each _ _ _ _ _ E n Hin) as (b & Eb).
  destruct (Hfam n Hin) as [Hne Hnm].
  destruct (family_best_numeric metric records n Hne Hnm) as [_ B].
  rewrite B in Eb; [discriminate|].
  apply Exists_exists. exists (snd kv). split; [|exact Hm].
  now apply family_member.
Qed.

Lemma best_score_by_estimator_missing_metric_witness :
  best_score_by_estimator (fun l => l)
    [("run1", ex_record "LinearDML" (3 # 10));
     ("run2", [("estimator_name", VStr "CausalForestDML")]);
     ("run3", ex_record "LinearDML" (1 # 10))] "energy_distance"
  = Raise KeyError.
Proof.
  apply (best_score_by_estimator_missing_metric (fun l => l)
           [("run1", ex_record "LinearDML" (3 # 10));
            ("run2", [("estimator_name", VStr "CausalForestDML")]);
            ("run3", ex_record "LinearDML" (1 # 10))] "energy_distance").
  - repeat (apply Forall_cons;
            [split; [eexists; reflexivity
                    | first [left; reflexivity
                            | right; eexists; reflexivity]]|]).
    apply Forall_nil.
  - apply Exists_cons_tl. apply Exists_cons_hd. reflexivity.
Defined.

(** ** A score that is not a number *)

Lemma extremum_loop_after_NaN (metric : string)
    (better : value -> value -> result bool) (l : list record) (cur : record) :
  (forall x, better (VNum x) (VNum NaN) = OK false) ->
  Forall (numeric metric) l ->
  extremum_loop better (fun x => getitem x metric) cur (VNum NaN) l = OK cur.
Proof.
  intros Hb. induction 1 as [|v l (x & Hx) Hl IH]; simpl; [reflexivity|].
  rewrite (getitem_numeric _ _ _ Hx). cbn [rbind].
  rewrite Hb. cbn [rbind]. exact IH.
Qed.

Lemma ltb_NaN_r (x : float) : F.ltb x NaN = false.
Proof. now destruct x. Qed.

Lemma ltb_NaN_l (x : float) : F.ltb NaN x = false.
Proof. reflexivity. Qed.

(** X23.  Comparisons with [NaN] are false, so [min] and [max] never leave a
    first item whose key is [NaN]: when every record names its family and
    holds a number under the metric, a family whose first record holds
    [NaN] is represented by that record, whatever the others hold. *)
Theorem best_score_by_estimator_NaN_first
    (sorted_with_nan : list float -> list float)
    (scores : list (string * record))
    (metric name : string) (v0 : record) (rest : list record) :
  Forall (fun kv => named (snd kv) /\ numeric metric (snd kv)) scores ->
  family (map snd scores) (VStr name) = v0 :: rest ->
  metric_value metric v0 = Some NaN ->
  exists best,
    best_score_by_estimator sorted_with_nan scores metric = OK best
    /\ best_get best (VStr name) = Some v0.
Proof.
  intros H Hf H0.
  set (records := map snd scores) in *.
  assert (HN : Forall named records).
  { apply Forall_map. eapply Forall_impl; [|exact H]. now intros kv [A _]. }
  assert (HM : Forall (numeric metric) records).
  { apply Forall_map. eapply Forall_impl; [|exact H]. now intros kv [_ B]. }
  destruct (best_score_by_estimator_run sorted_with_nan scores metric
              (named_comparable _ HN))
    as (names & S & Hcov & Hn & ->). fold records in Hcov, Hn |- *.
  assert (Hfam : forall n, Forall (numeric metric) (family records n)).
  { intros n. apply Forall_forall. intros v Hv. apply filter_In in Hv.
    rewrite Forall_forall in HM. now apply HM. }
  assert (Htot : forall n, In n names ->
             exists b, family_best metric records n = OK b).
  { intros n Hin. apply Hn in Hin. destruct Hin as (v & Hv & Nv).
    assert (Hne : family records n <> []).
    { intros C. pose proof (family_member _ _ _ Hv Nv) as F.
      rewrite C in F. exact F. }
    apply (family_best_numeric metric records n Hne); [|apply Hfam].
    eapply Forall_impl; [|apply Hfam]. intros a Ha. now right. }
  destruct (best_loop_total records metric names Htot []) as (best & E).
  exists best. split; [exact E|].
  assert (Hin : In (VStr name) names).
  { assert (Hv0 : In v0 (family records (VStr name)))
      by (rewrite Hf; now left).
    apply filter_In in Hv0. destruct Hv0 as [Hv0 Nv0].
    destruct (Hcov v0 Hv0) as (n & Hin & Nn).
    unfold has_name in Nv0, Nn.
    destruct (dict_get v0 "estimator_name") as [m|]; [|discriminate].
    rewrite value_eqb_sym in Nv0.
    pose proof (value_eqb_trans _ _ _ Nv0 Nn) as T.
    apply value_eqb_VStr in T. now subst n. }
  apply (best_loop_run records metric names S []) in E; [|intros e n []].
  destruct E as (bs & -> & L & F). simpl.
  destruct (best_get_combine names bs (VStr name) S L Hin (proper_VStr name))
    as (b & -> & Hb).
  destruct (Forall2_pair _ _ _ _ _ F Hb) as [_ Eb]. f_equal.
  assert (Hr : Forall (numeric metric) rest).
  { specialize (Hfam (VStr name)). rewrite Hf in Hfam. now inversion Hfam. }
  unfold family_best, py_min, py_max in Eb. rewrite Hf in Eb.
  cbn [extremum] in Eb. rewrite (getitem_numeric _ _ _ H0) in Eb.
  cbn [rbind] in Eb.
  destruct (str_in metric lower_is_better).
  - rewrite extremum_loop_after_NaN in Eb; [congruence | | exact Hr].
    intros x. simpl. now rewrite ltb_NaN_r.
  - rewrite extremum_loop_after_NaN in Eb; [congruence | | exact Hr].
    intros x. reflexivity.
Qed.

Lemma best_score_by_estimator_NaN_first_witness :
  exists best,
    best_score_by_estimator (fun l => l)
      [("run1", ex_nan_record); ("run2", ex_record "LinearDML" (1 # 10))]
      "energy_distance"
    = OK best
    /\ best_get best (VStr "LinearDML") = Some ex_nan_record.
Proof.
  apply (best_score_by_estimator_NaN_first (fun l => l)
           [("run1", ex_nan_record); ("run2", ex_record "LinearDML" (1 # 10))]
           "energy_distance" "LinearDML" ex_nan_record
           [ex_record "LinearDML" (1 # 10)]).
  - repeat (apply Forall_cons;
            [split; eexists; reflexivity|]).
    apply Forall_nil.
  - reflexivity.
  - reflexivity.
Defined.

(** ** Equal scores *)

Lemma ltb_leb_trans (a b c : float) :
  F.ltb a b = true -> F.leb b c = true -> F.ltb a c = true.
Proof.
  destruct a as [|p| |], b as [|q| |], c as [|r| |]; simpl;
    try discriminate; try reflexivity.
  unfold F.Qltb. rewrite !negb_true_iff. intros H1 H2.
  apply Qle_bool_iff in H2.
  destruct (Qle_bool r p) eqn:E; [|reflexivity].
  apply Qle_bool_iff in E.
  assert (C : Qle_bool q p = true)
    by (apply Qle_bool_iff; eapply Qle_trans; eauto).
  congruence.
Qed.

Lemma leb_ltb_trans (a b c : float) :
  F.leb a b = true -> F.ltb b c = true -> F.ltb a c = true.
Proof.
  destruct a as [|p| |], b as [|q| |], c as [|r| |]; simpl;
    try discriminate; try reflexivity.
  unfold F.Qltb. rewrite !negb_true_iff. intros H1 H2.
  apply Qle_bool_iff in H1.
  destruct (Qle_bool r p) eqn:E; [|reflexivity].
  apply Qle_bool_iff in E.
  assert (C : Qle_bool r q = true)
    by (apply Qle_bool_iff; eapply Qle_trans; eauto).
  congruence.
Qed.

Section FirstWins.

Variable metric : string.

(** The strict order of the direction, and its weak order. *)
Variable lt le : float -> float -> bool.
Variable better : value -> value -> result bool.

Hypothesis better_num : forall x y, better (VNum x) (VNum y) = OK (lt x y).
Hypothesis lt_le : forall a b, lt a b = true -> le a b = true.
Hypothesis not_lt :
  forall a b, a <> NaN -> b <> NaN -> lt a b = false -> le b a = true.
Hypothesis lt_le_trans :
  forall a b c, lt a b = true -> le b c = true -> lt a c = true.

Lemma extremum_loop_first (l : list record) :
  Forall (has_metric metric) l ->
  forall cur kc b,
    kc <> NaN ->
    extremum_loop better (fun x => getitem x metric) cur (VNum kc) l = OK b ->
    (b = cur /\ forall v y, In v l -> metric_value metric v = Some y ->
                            le kc y = true)
    \/ exists l1 l2 kb,
         l = l1 ++ b :: l2
         /\ metric_value metric b = Some kb
         /\ lt kb kc = true
         /\ forall v y, In v l1 -> metric_value metric v = Some y ->
                        lt kb y = true.
Proof.
  induction 1 as [|x l (kx & Hkx & Hnx) Hl IH]; intros cur kc b Hkc H.
  - simpl in H. injection H as <-. left. split; [reflexivity|].
    intros v y [].
  - simpl in H. rewrite (getitem_numeric _ _ _ Hkx) in H. cbn [rbind] in H.
    rewrite better_num in H. cbn [rbind] in H.
    destruct (lt kx kc) eqn:E.
    + destruct (IH x kx b Hnx H) as [[-> Hall]|(l1 & l2 & kb & -> & Hb & Hlt & Hl1)].
      * right. exists [], l, kx. repeat split; auto; intros v y [].
      * right. exists (x :: l1), l2, kb. split; [reflexivity|].
        split; [exact Hb|]. split.
        { eapply lt_le_trans; [exact Hlt | now apply lt_le]. }
        intros v y [<-|Hv] Hy.
        -- rewrite Hkx in Hy. injection Hy as <-. exact Hlt.
        -- eapply Hl1; eauto.
    + pose proof (not_lt kx kc Hnx Hkc E) as Hle.
      destruct (IH cur kc b Hkc H) as [[-> Hall]|(l1 & l2 & kb & -> & Hb & Hlt & Hl1)].
      * left. split; [reflexivity|]. intros v y [<-|Hv] Hy.
        -- rewrite Hkx in Hy. injection Hy as <-. exact Hle.
        -- eapply Hall; eauto.
      * right. exists (x :: l1), l2, kb. split; [reflexivity|].
        split; [exact Hb|]. split; [exact Hlt|].
        intros v y [<-|Hv] Hy.
        -- rewrite Hkx in Hy. injection Hy as <-.
           eapply lt_le_trans; eauto.
        -- eapply Hl1; eauto.
Qed.

Lemma extremum_first (l : list record) (b : record) :
  Forall (has_metric metric) l ->
  extremum better (fun x => getitem x metric) l = OK b ->
  exists l1 l2 kb,
    l = l1 ++ b :: l2
    /\ metric_value metric b = Some kb
    /\ forall v y, In v l1 -> metric_value metric v = Some y ->
                   lt kb y = true.
Proof.
  destruct l as [|c l]; [discriminate|]. intros H E.
  inversion H as [|? ? (kc & Hkc & Hnc) Hl]; subst.
  simpl in E. rewrite (getitem_numeric _ _ _ Hkc) in E. cbn [rbind] in E.
  destruct (extremum_loop_first l Hl c kc b Hnc E)
    as [[-> _]|(l1 & l2 & kb & -> & Hb & Hlt & Hl1)].
  - exists [], l, kc. repeat split; auto; intros v y [].
  - exists (c :: l1), l2, kb. split; [reflexivity|]. split; [exact Hb|].
    intros v y [<-|Hv] Hy.
    + rewrite Hkc in Hy. injection Hy as <-. exact Hlt.
    + eapply Hl1; eauto.
Qed.

End FirstWins.

(** X24.  Among the records of a family that hold the same best value, the one
    that comes first in the scores is reported: every record of the family
    that precedes the reported one is strictly worse. *)
Theorem best_score_by_estimator_first_wins
    (sorted_with_nan : list float -> list float)
    (scores : list (string * record)) (metric : string) (name : value)
    (best : list (value * record)) (b : record) :
  Forall (fun kv => rankable metric (snd kv)) scores ->
  best_score_by_estimator sorted_with_nan scores metric = OK best ->
  In (name, b) best ->
  exists l1 l2,
    family (map snd scores) name = l1 ++ b :: l2
    /\ Forall (strictly_better metric b) l1.
Proof.
  intros H E Hb.
  set (records := map snd scores) in *.
  assert (WF : Forall (rankable metric) records).
  { apply Forall_map. exact H. }
  assert (HN : Forall named records).
  { eapply Forall_impl; [|exact WF]. now intros v [A _]. }
  destruct (best_score_by_estimator_run sorted_with_nan scores metric
              (named_comparable _ HN))
    as (names & S & Hcov & Hn & Er). fold records in Hcov, Hn, Er.
  rewrite Er in E.
  apply (best_loop_run records metric names S []) in E; [|intros e n []].
  destruct E as (bs & -> & L & F). simpl in Hb.
  destruct (Forall2_pair _ _ _ _ _ F Hb) as [_ Ef].
  assert (Hm : Forall (has_metric metric) (family records name)).
  { apply Forall_forall. intros v Hv. apply filter_In in Hv.
    rewrite Forall_forall in WF. now apply (WF v). }
  unfold family_best, py_min, py_max in Ef.
  unfold strictly_better.
  destruct (str_in metric lower_is_better).
  - destruct (extremum_first metric F.ltb F.leb value_lt
                (fun x y => eq_refl) ltb_leb
                (fun a b Ha Hb E => ltb_false_leb a b Ha Hb E)
                ltb_leb_trans _ b Hm Ef)
      as (l1 & l2 & kb & Hl & Hkb & Hl1).
    exists l1, l2. split; [exact Hl|].
    apply Forall_forall. intros v Hv.
    assert (Hvf : In v (family records name))
      by (rewrite Hl; apply in_or_app; now left).
    rewrite Forall_forall in Hm. destruct (Hm v Hvf) as (y & Hy & _).
    exists kb, y. split; [exact Hkb|]. split; [exact Hy|]. eapply Hl1; eauto.
  - destruct (extremum_first metric (fun a b => F.ltb b a)
                (fun a b => F.leb b a) value_gt
                (fun x y => eq_refl) (fun a b => ltb_leb b a)
                (fun a b Ha Hb E => ltb_false_leb b a Hb Ha E)
                (fun a b c H1 H2 => leb_ltb_trans c b a H2 H1) _ b Hm Ef)
      as (l1 & l2 & kb & Hl & Hkb & Hl1).
    exists l1, l2. split; [exact Hl|].
    apply Forall_forall. intros v Hv.
    assert (Hvf : In v (family records name))
      by (rewrite Hl; apply in_or_app; now left).
    rewrite Forall_forall in Hm. destruct (Hm v Hvf) as (y & Hy & _).
    exists kb, y. split; [exact Hkb|]. split; [exact Hy|]. eapply Hl1; eauto.
Qed.

Lemma best_score_by_estimator_first_wins_witness :
  exists l1 l2,
    family
      (map snd
         [("run1", [("estimator_name", VStr "LinearDML"); ("trial", VStr "a");
                    ("qini", VNum (Fin (3 # 10)))]);
          ("run2", [("estimator_name", VStr "LinearDML"); ("trial", VStr "b");
                    ("qini", VNum (Fin (7 # 10)))]);
          ("run3", [("estimator_name", VStr "LinearDML"); ("trial", VStr "c");
                    ("qini", VNum (Fin (7 # 10)))])])
      (VStr "LinearDML")
    = l1 ++ [("estimator_name", VStr "LinearDML"); ("trial", VStr "b");
             ("qini", VNum (Fin (7 # 10)))] :: l2
    /\ Forall
         (strictly_better "qini"
            [("estimator_name", VStr "LinearDML"); ("trial", VStr "b");
             ("qini", VNum (Fin (7 # 10)))]) l1.
Proof.
  apply (best_score_by_estimator_first_wins (fun l => l)
           [("run1", [("estimator_name", VStr "LinearDML"); ("trial", VStr "a");
                      ("qini", VNum (Fin (3 # 10)))]);
            ("run2", [("estimator_name", VStr "LinearDML"); ("trial", VStr "b");
                      ("qini", VNum (Fin (7 # 10)))]);
            ("run3", [("estimator_name", VStr "LinearDML"); ("trial", VStr "c");
                      ("qini", VNum (Fin (7 # 10)))])]
           "qini" (VStr "LinearDML")
           [(VStr "LinearDML",
             [("estimator_name", VStr "LinearDML"); ("trial", VStr "b");
              ("qini", VNum (Fin (7 # 10)))])]).
  - repeat (apply Forall_cons;
            [split; [eexists; reflexivity
                    | eexists; split; [reflexivity | discriminate]]|]).
    apply Forall_nil.
  - reflexivity.
  - left. reflexivity.
Defined.

(* ================================================================== *)
(** * Further properties: treatment effects by policy group *)

(** ** Levels *)

Lemma distinct_perm (l l' : list float) :
  Permutation l l' -> distinct l -> distinct l'.
Proof.
  induction 1 as [|x l l' P IH|x y l|l l' l'' P1 IH1 P2 IH2]; intros H.
  - exact H.
  - inversion H as [|? ? Hx Hl]; subst. constructor; [|now apply IH].
    intros q Hq. apply Hx. eapply Permutation_in; [symmetry; exact P | exact Hq].
  - inversion H as [|? ? Hy Hl]; subst. inversion Hl as [|? ? Hx Hl']; subst.
    constructor.
    + intros q [<-|Hq]; [rewrite eqb_sym; apply Hy; now left | now apply Hx].
    + constructor; [|exact Hl']. intros q Hq. apply Hy. now right.
  - auto.
Qed.

Lemma unique_spec (l seen : list float) :
  distinct (unique seen l)
  /\ (forall p q, In p (unique seen l) -> In q seen -> F.eqb p q = false)
  /\ (forall x, In x l -> F.isnan x = false ->
        (exists q, In q seen /\ F.eqb x q = true)
        \/ exists p, In p (unique seen l) /\ F.eqb x p = true).
Proof.
  revert seen. induction l as [|x l IH]; intros seen; simpl.
  - split; [constructor|]. split; [intros p q []|]. intros x [].
  - destruct (existsb (fun y => F.eqb x y || (F.isnan x && F.isnan y)) seen)
      eqn:E.
    + destruct (IH seen) as (D & S & C). split; [exact D|]. split; [exact S|].
      intros y [<-|Hy] Hn; [|now apply C].
      left. apply existsb_exists in E. destruct E as (q & Hq & Eq).
      rewrite Hn in Eq. simpl in Eq. rewrite orb_false_r in Eq. eauto.
    + destruct (IH (x :: seen)) as (D & S & C).
      assert (Hx : forall q, In q seen -> F.eqb x q = false).
      { intros q Hq. destruct (F.eqb x q) eqn:Eq; [|reflexivity].
        assert (T : existsb (fun y => F.eqb x y || (F.isnan x && F.isnan y))
                      seen = true).
        { apply existsb_exists. exists q. split; [exact Hq|]. now rewrite Eq. }
        congruence. }
      split; [|split].
      * constructor; [|exact D]. intros q Hq. rewrite eqb_sym.
        apply (S q x Hq). now left.
      * intros p q [<-|Hp] Hq; [now apply Hx|]. apply (S p q Hp). now right.
      * intros y [<-|Hy] Hn.
        -- right. exists x. split; [now left | now apply eqb_refl_number].
        -- destruct (C y Hy Hn) as [(q & [<-|Hq] & Eq)|(p & Hp & Ep)].
           ++ right. exists x. split; [now left | exact Eq].
           ++ left. eauto.
           ++ right. exists p. split; [now right | exact Ep].
Qed.

Lemma unique_In (l seen : list float) (x : float) :
  In x (unique seen l) -> In x l.
Proof.
  revert seen. induction l as [|y l IH]; intros seen H; simpl in H;
    [destruct H|].
  destruct (existsb _ seen).
  - right. eapply IH; eauto.
  - destruct H as [<-|H]; [now left | right; eapply IH; eauto].
Qed.

Lemma unique_no_NaN (l : list float) :
  existsb F.isnan l = false -> existsb F.isnan (unique [] l) = false.
Proof.
  intros H. destruct (existsb F.isnan (unique [] l)) eqn:E; [|reflexivity].
  apply existsb_exists in E. destruct E as (x & Hx & Nx).
  apply unique_In in Hx.
  assert (T : existsb F.isnan l = true)
    by (apply existsb_exists; eauto).
  congruence.
Qed.

Lemma py_sorted_perm (sorted_with_nan : list float -> list float)
    (l : list float) :
  (forall l, Permutation (sorted_with_nan l) l) ->
  Permutation l (py_sorted sorted_with_nan l).
Proof.
  intros H. unfold py_sorted. destruct (existsb F.isnan l).
  - symmetry. apply H.
  - apply sort_by_perm.
Qed.

(** The levels [group_ate] walks through. *)
Lemma levels_spec (sorted_with_nan : list float -> list float)
    (policy : list float) :
  (forall l, Permutation (sorted_with_nan l) l) ->
  let levels := py_sorted sorted_with_nan (unique [] policy) in
  distinct levels
  /\ forall x, In x policy -> F.isnan x = false ->
       exists p, In p levels /\ F.eqb x p = true.
Proof.
  intros HP levels. destruct (unique_spec policy []) as (D & _ & C).
  assert (P : Permutation (unique [] policy) levels)
    by now apply py_sorted_perm.
  split; [eapply distinct_perm; eauto|].
  intros x Hx Hn. destruct (C x Hx Hn) as [(q & [] & _)|(p & Hp & Ep)].
  exists p. split; [eapply Permutation_in; eauto | exact Ep].
Qed.

(** ** Counting *)

Lemma matches_one (x : float) (levels : list float) :
  distinct levels ->
  (exists p, In p levels /\ F.eqb x p = true) ->
  list_sum (map (fun p => if F.eqb x p then 1%nat else 0%nat) levels) = 1%nat.
Proof.
  induction 1 as [|p l Hp Hl IH]; intros (q & Hq & Eq); [destruct Hq|].
  simpl. destruct (F.eqb x p) eqn:E.
  - f_equal. clear IH.
    assert (Z : forall r, In r l -> F.eqb x r = false).
    { intros r Hr. destruct (F.eqb x r) eqn:Er; [|reflexivity].
      assert (T : F.eqb p r = true)
        by (eapply eqb_trans; [rewrite eqb_sym; exact E | exact Er]).
      rewrite (Hp r Hr) in T. discriminate. }
    clear -Z. induction l as [|r l IH]; [reflexivity|]. simpl.
    rewrite (Z r) by now left. apply IH. intros r' Hr'. apply Z. now right.
  - apply IH. destruct Hq as [<-|Hq]; [congruence | eauto].
Qed.

Lemma matches_none (x : float) (levels : list float) :
  F.isnan x = true ->
  list_sum (map (fun p => if F.eqb x p then 1%nat else 0%nat) levels) = 0%nat.
Proof.
  intros H. induction levels as [|p l IH]; [reflexivity|]. simpl.
  destruct x; try discriminate. exact IH.
Qed.

Lemma list_sum_add {A} (f g : A -> nat) (l : list A) :
  list_sum (map (fun p => (f p + g p)%nat) l)
  = (list_sum (map f l) + list_sum (map g l))%nat.
Proof. induction l as [|x l IH]; simpl; [reflexivity | rewrite IH; lia]. Qed.

(** Every row whose policy is a number falls in exactly one group. *)
Lemma groups_partition (policy levels : list float) :
  distinct levels ->
  (forall x, In x policy -> F.isnan x = false ->
     exists p, In p levels /\ F.eqb x p = true) ->
  list_sum (map (fun p => count_where p policy) levels)
  = length (Pd.present policy).
Proof.
  intros D. induction policy as [|x l IH]; intros C.
  - simpl. clear. induction levels; simpl; auto.
  - assert (E : forall p, count_where p (x :: l)
                          = ((if F.eqb x p then 1 else 0)
                             + count_where p l)%nat).
    { intros p. unfold count_where. simpl. now destruct (F.eqb x p). }
    rewrite (map_ext _ _ E), list_sum_add.
    rewrite IH by (intros y Hy; apply C; now right).
    unfold Pd.present. simpl. destruct (F.isnan x) eqn:N; simpl.
    + now rewrite matches_none.
    + rewrite matches_one; [reflexivity | exact D|].
      apply C; [now left | exact N].
Qed.

(** ** The effect of one group *)

Lemma naive_ate_size (sqrtQ : Q -> Q) (t o : list float) (m s : float)
    (n : nat) :
  naive_ate sqrtQ t o = OK (m, s, n) -> n = length t.
Proof.
  unfold naive_ate. intros H.
  repeat (apply rbind_OK in H; destruct H as (? & _ & H)).
  now injection H.
Qed.

(** [ate] reads and computes: the state is left as it was, and the size
    it reports is the length of the treatment column. *)
Lemma ate_run (sqrtQ : Q -> Q) (self : Scorer) (l : loc) (w w' : world)
    (r : ate_result) :
  ate sqrtQ self l w = (OK r, w') ->
  w' = w
  /\ forall c, snd r = Some c ->
       exists tn t,
         head_or_IndexError (causal_model_treatment self) = OK tn
         /\ Pd.getcol (frame_at w l) tn = OK t
         /\ c = length t.
Proof.
  intros H. unfold ate in H.
  apply bind_OK in H. destruct H as (d & w0 & R & H).
  apply read_OK in R. destruct R as [-> ->].
  apply bind_OK in H. destruct H as (psw & w0 & E & H).
  apply lift_OK in E. destruct E as [_ ->].
  apply bind_OK in H. destruct H as (inner & w0 & E & H).
  apply lift_OK in E. destruct E as [_ ->].
  apply bind_OK in H. destruct H as (e & w0 & E & H).
  apply lift_OK in E. destruct E as [_ ->].
  apply bind_OK in H. destruct H as (est & w0 & E & H).
  apply lift_OK in E. destruct E as [_ ->].
  destruct est as [|e0 [|e1 est]].
  - apply ret_OK in H. destruct H as [-> ->]. split; [reflexivity|].
    intros c C. discriminate C.
  - apply bind_OK in H. destruct H as (tn & w0 & E1 & H).
    apply lift_OK in E1. destruct E1 as [E1 ->].
    apply bind_OK in H. destruct H as (on & w0 & E2 & H).
    apply lift_OK in E2. destruct E2 as [_ ->].
    apply bind_OK in H. destruct H as (t & w0 & E3 & H).
    apply lift_OK in E3. destruct E3 as [E3 ->].
    apply bind_OK in H. destruct H as (o & w0 & E4 & H).
    apply lift_OK in E4. destruct E4 as [_ ->].
    apply bind_OK in H. destruct H as ([[m s] n] & w0 & E5 & H).
    apply lift_OK in E5. destruct E5 as [E5 ->].
    apply ret_OK in H. destruct H as [-> ->]. split; [reflexivity|].
    simpl. intros c C. injection C as <-.
    exists tn, t. split; [exact E1|]. split; [exact E3|].
    eapply naive_ate_size. exact E5.
  - apply ret_OK in H. destruct H as [-> ->]. split; [reflexivity|].
    intros c C. discriminate C.
Qed.

Lemma getcol_filter_rows (d : DataFrame) (mask : list bool) (name : string) :
  Pd.getcol (Pd.filter_rows d mask) name
  = match Pd.getcol d name with
    | OK c => OK (Np.select mask c)
    | Raise e => Raise e
    end.
Proof.
  unfold Pd.getcol, Pd.filter_rows. simpl.
  induction (df_columns d) as [|c cols IH]; simpl; [reflexivity|].
  destruct (fst c =? name); [reflexivity | exact IH].
Qed.

Lemma select_count_true {A} (mask : list bool) (l : list A) :
  length mask = length l -> length (Np.select mask l) = count_true mask.
Proof.
  unfold count_true. revert l.
  induction mask as [|b mask IH]; intros [|x l] H; simpl in *;
    try discriminate; [reflexivity|].
  injection H as H. destruct b; simpl; now rewrite IH.
Qed.

Section GroupCounts.

Variable sqrtQ : Q -> Q.
Variable str_float : float -> string.
Variable self : Scorer.
Variable d : DataFrame.
Variable policy : list float.
Variable tn : string.
Variable t : list float.

Hypothesis treatment_name :
  head_or_IndexError (causal_model_treatment self) = OK tn.
Hypothesis treatment_column : Pd.getcol d tn = OK t.
Hypothesis aligned : length t = length policy.

Lemma tmp_set_fresh (tmp : list (tmp_key * ate_result)) (k : tmp_key)
    (r : ate_result) :
  (forall e, In e tmp -> key_eqb (fst e) k = false) ->
  tmp_set tmp k r = tmp ++ [(k, r)].
Proof.
  induction tmp as [|e tmp IH]; intros H; simpl; [reflexivity|].
  rewrite (H e) by now left. f_equal. apply IH.
  intros e' He'. apply H. now right.
Qed.

Lemma group_loop_run (levels : list float) :
  distinct levels ->
  forall tmp w tmp' w',
    (forall e p, In e tmp -> In p levels ->
                 key_eqb (fst e) (KLevel p) = false) ->
    group_loop sqrtQ self d policy levels tmp w = (OK tmp', w') ->
    exists rs,
      tmp' = tmp ++ combine (map KLevel levels) rs
      /\ length rs = length levels
      /\ Forall2 (fun p r => forall c, snd r = Some c ->
                                       c = count_where p policy) levels rs.
Proof.
  induction 1 as [|p levels Hp Hl IH]; intros tmp w tmp' w' Hk H.
  - simpl in H. apply ret_OK in H. destruct H as [-> _].
    exists []. simpl. rewrite app_nil_r. repeat split. constructor.
  - simpl in H.
    apply bind_OK in H. destruct H as (sub & w0 & Em & H).
    apply lift_OK in Em. destruct Em as [Em ->].
    apply bind_OK in H. destruct H as (l & w1 & Ea & H).
    apply alloc_OK in Ea. destruct Ea as [-> Fa].
    apply bind_OK in H. destruct H as (r & w2 & Er & H).
    apply ate_run in Er. destruct Er as [-> Hc].
    rewrite tmp_set_fresh in H
      by (intros e He; apply (Hk e p He); now left).
    apply IH in H.
    + destruct H as (rs & -> & Lr & Hr).
      exists (r :: rs). split; [now rewrite <- app_assoc|].
      split; [simpl; now rewrite Lr|].
      constructor; [|exact Hr].
      intros c C. destruct (Hc c C) as (tn' & t' & E1 & E2 & ->).
      rewrite treatment_name in E1. injection E1 as <-.
      assert (Fs : frame_at w1 (length (frames w)) = sub).
      { unfold frame_at. rewrite Fa, app_nth2 by lia.
        now rewrite Nat.sub_diag. }
      rewrite Fs in E2. unfold mask_frame in Em.
      destruct (_ =? _)%nat; [|discriminate]. injection Em as <-.
      rewrite getcol_filter_rows, treatment_column in E2. injection E2 as <-.
      rewrite select_count_true by (now rewrite length_map).
      apply count_true_eqb.
    + intros e q He Hq. apply in_app_iff in He.
      destruct He as [He|[<-|[]]].
      * apply (Hk e q He). now right.
      * simpl. now apply Hp.
Qed.

Lemma group_rows_labels (levels : list float) (rs : list ate_result) :
  length rs = length levels ->
  map row_policy (map (row_of str_float) (combine (map KLevel levels) rs))
  = map str_float levels.
Proof.
  revert rs. induction levels as [|p levels IH]; intros [|r rs] L;
    simpl in *; try discriminate; [reflexivity|].
  f_equal. apply IH. now injection L.
Qed.

Lemma group_rows_total (levels : list float) (rs : list ate_result)
    (total : nat) :
  Forall2 (fun p r => forall c, snd r = Some c -> c = count_where p policy)
    levels rs ->
  total_count (map (row_of str_float) (combine (map KLevel levels) rs))
  = Some total ->
  total = list_sum (map (fun p => count_where p policy) levels).
Proof.
  intros H. revert total. induction H as [|p r levels rs Hr _ IH];
    intros total E; simpl in *.
  - now injection E.
  - destruct (snd r) as [c|] eqn:Ec; [|discriminate].
    destruct (total_count _) as [t'|]; [|discriminate].
    injection E as <-. rewrite (Hr c eq_refl). f_equal. now apply IH.
Qed.

End GroupCounts.

(** X25.  [group_ate] returns the row of the whole frame, labelled ["all"],
    followed by one row per distinct policy level, in the order [sorted]
    leaves the levels: ascending when no level is [NaN], and some
    permutation otherwise.  When the rows carry a size (single treatment),
    the size of the first row is the number of rows of the frame and the
    sizes of the groups add up to the number of rows whose policy is a
    number: every such row is in exactly one group, a row whose policy is
    missing is in none. *)
Theorem group_ate_partitions_rows (sqrtQ : Q -> Q)
    (str_float : float -> string)
    (sorted_with_nan : list float -> list float) (self : Scorer) (df : loc)
    (policy : list float) (w w' : world) (rows : list group_row)
    (tn : string) (t : list float) :
  (forall l, Permutation (sorted_with_nan l) l) ->
  head_or_IndexError (causal_model_treatment self) = OK tn ->
  Pd.getcol (frame_at w df) tn = OK t ->
  length t = length policy ->
  group_ate sqrtQ str_float sorted_with_nan self df policy w = (OK rows, w') ->
  exists all groups,
    rows = all :: groups
    /\ row_policy all = "all"
    /\ map row_policy groups
       = map str_float (py_sorted sorted_with_nan (unique [] policy))
    /\ (existsb F.isnan policy = false ->
        map row_policy groups
        = map str_float (sort_by F.leb (unique [] policy)))
    /\ (forall n, row_count all = Some n -> n = length policy)
    /\ (forall total, total_count groups = Some total ->
                      total = length (Pd.present policy)).
Proof.
  intros HP Htn Ht Hal H. unfold group_ate in H.
  apply bind_OK in H. destruct H as (all & w0 & Ea & H).
  apply ate_run in Ea. destruct Ea as [-> Hall].
  apply bind_OK in H. destruct H as (d & w0 & R & H).
  apply read_OK in R. destruct R as [-> ->].
  apply bind_OK in H. destruct H as (tmp & w1 & L & H).
  apply ret_OK in H. destruct H as [-> _].
  destruct (levels_spec sorted_with_nan policy HP) as [D C].
  apply (group_loop_run sqrtQ self (frame_at w df) policy tn t Htn Ht Hal
           _ D) in L.
  2:{ intros e p [<-|[]] _. reflexivity. }
  destruct L as (rs & -> & Lr & Hr). simpl.
  eexists _, _. split; [reflexivity|]. split; [reflexivity|].
  split; [now apply group_rows_labels|]. split; [|split].
  - intros Hn. rewrite group_rows_labels by exact Lr.
    unfold py_sorted. now rewrite (unique_no_NaN _ Hn).
  - simpl. intros n Hn. destruct (Hall n Hn) as (tn' & t' & E1 & E2 & ->).
    rewrite Htn in E1. injection E1 as <-. rewrite Ht in E2.
    injection E2 as <-. exact Hal.
  - intros total E.
    rewrite (group_rows_total str_float policy _ _ _ Hr E).
    now apply groups_partition.
Qed.

Lemma group_ate_partitions_rows_witness :
  let run :=
    group_ate ex_sqrt ex_str_float (fun l => l) ex_scorer 0%nat
      [Fin 1; NaN; Fin 0; Fin 1] ex_world in
  exists all groups,
    match fst run with OK rows => rows | Raise _ => [] end = all :: groups
    /\ row_policy all = "all"
    /\ map row_policy groups = ["1.0"; "nan"; "0.0"]
    /\ (existsb F.isnan [Fin 1; NaN; Fin 0; Fin 1] = false ->
        map row_policy groups
        = map ex_str_float (sort_by F.leb (unique [] [Fin 1; NaN; Fin 0; Fin 1])))
    /\ (forall n, row_count all = Some n -> n = 4%nat)
    /\ (forall total, total_count groups = Some total -> total = 3%nat).
Proof.
  intros run.
  apply (group_ate_partitions_rows ex_sqrt ex_str_float (fun l => l) ex_scorer
           0%nat [Fin 1; NaN; Fin 0; Fin 1] ex_world (snd run)
           (match fst run with OK rows => rows | Raise _ => [] end)
           "T" (vec [1; 0; 1; 1])).
  - intros l. apply Permutation_refl.
  - reflexivity.
  - reflexivity.
  - reflexivity.
  - vm_compute. reflexivity.
Defined.

(* ================================================================== *)
(** * Further properties of CODEC: the value stays below one *)

Lemma sumZ_map2_sub (a b : list Z) :
  length a = length b ->
  Np.sumZ (map2 Z.sub a b) = (Np.sumZ a - Np.sumZ b)%Z.
Proof.
  unfold map2. revert b.
  induction a as [|x a IH]; intros [|y b] L; simpl in *; try discriminate;
    [reflexivity|].
  rewrite !sumZ_cons. cbn [fst snd]. rewrite IH by (now injection L). lia.
Qed.

(** When no row is its own neighbour, the row of the highest rank has a
    neighbour of smaller rank: the sum of [min(rank, rank of the
    neighbour)] is smaller than the sum of the ranks. *)
Lemma rank_gap (Y : list float) (nn : list nat) (R_nn : list Z) :
  Y <> [] ->
  length nn = length Y ->
  (forall i, (i < length Y)%nat -> nth i nn 0%nat <> i) ->
  Np.take (rank Y) nn = OK R_nn ->
  length R_nn = length Y
  /\ (Np.sumZ (map2 Z.min (rank Y) R_nn) + 1 <= Np.sumZ (rank Y))%Z.
Proof.
  intros Hne Ln Hnn Htake.
  apply take_spec in Htake.
  pose proof (Forall2_length Htake) as Lr.
  pose proof (rank_length Y) as LY.
  split; [congruence|].
  assert (Lm : length (map2 Z.min (rank Y) R_nn) = length (rank Y)).
  { unfold map2. rewrite length_map, length_combine. lia. }
  assert (Hpos : Forall (fun y => (0 <= y)%Z)
                   (map2 Z.sub (rank Y) (map2 Z.min (rank Y) R_nn))).
  { apply Forall_forall. intros y Hy. unfold map2 in Hy.
    apply in_map_iff in Hy. destruct Hy as ([a b] & <- & Hab).
    apply combine_min_le in Hab. simpl. lia. }
  assert (Htop : In (Z.of_nat (length Y) - 1)%Z (rank Y))
    by (now apply rank_top).
  destruct (In_nth _ _ 0%Z Htop) as (i & Hi & Ei).
  assert (Hj : nth_error (rank Y) (nth i nn 0%nat) = Some (nth i R_nn 0%Z))
    by (apply (Forall2_nth _ _ _ 0%nat 0%Z Htake); lia).
  assert (Hjlt : (nth i nn 0%nat < length (rank Y))%nat)
    by (apply nth_error_Some; rewrite Hj; discriminate).
  assert (Hne' : nth i R_nn 0%Z <> nth i (rank Y) 0%Z).
  { intros C. apply nth_error_nth with (d := 0%Z) in Hj.
    assert (nth i nn 0%nat = i).
    { apply (proj1 (NoDup_nth (rank Y) 0%Z) (rank_NoDup Y)); lia. }
    apply (Hnn i); [lia | assumption]. }
  assert (Hrange : (0 <= nth i R_nn 0%Z < Z.of_nat (length Y))%Z).
  { apply rank_range. eapply nth_error_In; eauto. }
  assert (Hterm : In (nth i (rank Y) 0 - Z.min (nth i (rank Y) 0) (nth i R_nn 0))%Z
                    (map2 Z.sub (rank Y) (map2 Z.min (rank Y) R_nn))).
  { unfold map2. apply in_map_iff.
    exists (nth i (rank Y) 0%Z, Z.min (nth i (rank Y) 0%Z) (nth i R_nn 0%Z)).
    split; [reflexivity|].
    replace (nth i (rank Y) 0%Z, Z.min (nth i (rank Y) 0%Z) (nth i R_nn 0%Z))
      with (nth i (combine (rank Y)
                     (map (fun p : Z * Z => Z.min (fst p) (snd p))
                        (combine (rank Y) R_nn))) (0%Z, 0%Z)).
    - apply nth_In. rewrite length_combine, length_map, length_combine. lia.
    - rewrite combine_nth by (rewrite length_map, length_combine; lia).
      f_equal.
      rewrite (nth_map_in _ _ _ (0%Z, 0%Z)) by (rewrite length_combine; lia).
      rewrite combine_nth by lia. reflexivity. }
  pose proof (sumZ_lower_bound _ _ Hpos Hterm) as Hsum.
  rewrite Ei in Hsum, Hne'.
  rewrite sumZ_map2_sub in Hsum by lia. lia.
Qed.

Lemma quotient_below_one (a b c : Q) :
  0 < c -> 0 < b -> a < b -> (a / c) / (b / c) < 1.
Proof.
  intros Hc Hb Hab.
  assert (Hi : 0 < / c) by now apply Qinv_lt_0_compat.
  apply Qlt_shift_div_r.
  - unfold Qdiv. rewrite <- (Qmult_0_l (/ c)).
    now apply Qmult_lt_compat_r.
  - rewrite Qmult_1_l. unfold Qdiv. now apply Qmult_lt_compat_r.
Qed.

Lemma sum_min_rank_run (R : list Z) (nn : list nat) (s : Z) :
  length nn = length R ->
  sum_min_rank R nn = OK s ->
  exists R_nn, Np.take R nn = OK R_nn /\ s = Np.sumZ (map2 Z.min R R_nn).
Proof.
  intros L H. unfold sum_min_rank in H.
  destruct (Np.take R nn) as [R_nn|e] eqn:E; [|discriminate].
  exists R_nn. split; [reflexivity|].
  pose proof (Forall2_length (take_spec _ _ _ E)) as Lr.
  rewrite broadcast2_same_length in H by congruence.
  now injection H as <-.
Qed.

(** X26.  On inputs whose distances are exact and that have at most
    [10^6] rows, when the rows of the conditioning set [X] are in general
    position, a value returned by [codec] is a number strictly below one:
    the numerator falls short of the denominator by the gap of the joint
    neighbours.  (With so few rows the two sums of ranks, which differ by
    one at least, have a quotient that no rounding turns into one.) *)
Theorem codec_below_one (Y : list float) (Z X : ndarray)
    (nbX : list (list (nat * Q))) (na_rm : bool) (w w' : world) (v : float) :
  exact_distances X ->
  exact_distances Z ->
  (Z.of_nat (length Y) <= 1000000)%Z ->
  neighbours X = OK nbX ->
  general_position nbX ->
  codec Y Z (Some X) na_rm w = (OK v, w') ->
  exists q, v = Fin q /\ q < 1.
Proof.
  intros _ _ _ HX [RX TX] H.
  destruct (neighbours_run _ _ HX) as (ptsX & FX & KX & SX & NX & LnX & BX).
  unfold tied_rows in TX. rewrite RX in TX.
  unfold codec in H.
  destruct (negb (length Y =? Np.shape0 X)%nat) eqn:E1; [discriminate H|].
  apply negb_false_iff, Nat.eqb_eq in E1.
  destruct (_ || _); [discriminate H|].
  destruct (_ <? 2)%nat; [discriminate H|].
  assert (LyX : length Y = length ptsX) by congruence.
  assert (Hne : Y <> []) by (intros ->; simpl in LyX; lia).
  set (nnX := map (Sklearn.index_at 1) nbX) in *.
  (* the neighbours among the rows of X *)
  assert (NnX : length nnX = length Y
                /\ forall i, (i < length Y)%nat -> nth i nnX 0%nat <> i).
  { pose proof (kneighbors_OK _ _ KX) as [_ Hnb].
    pose proof (nearest_without_repeats nbX w RX) as Hr.
    apply (nearest_with_repeats_OK ptsX) in Hr; [|exact Hnb].
    rewrite LyX. exact Hr. }
  destruct NnX as [LnnX NsX].
  unfold estimateConditionalT in H.
  apply bind_OK in H. destruct H as (s & w1 & HS & H).
  (* the denominator *)
  unfold estimateConditionalS in HS.
  unfold bind at 1 in HS. unfold lift at 1 in HS. rewrite FX in HS.
  unfold bind at 1 in HS. unfold lift at 1 in HS. rewrite KX in HS.
  unfold bind at 1 in HS. rewrite (nearest_without_repeats _ _ RX) in HS.
  rewrite TX in HS. cbn [length Nat.ltb Nat.leb] in HS.
  unfold bind at 1 in HS. unfold ret at 1 in HS.
  apply bind_OK in HS. destruct HS as (R_X & w2 & ET & HS).
  apply lift_OK in ET. destruct ET as [ET _].
  destruct (rank_gap Y nnX R_X Hne LnnX NsX ET) as [LRX GX].
  assert (LR : length (rank Y) = length Y) by apply rank_length.
  rewrite broadcast2_same_length in HS by (rewrite LRX; apply rank_length).
  unfold bind at 1 in HS. unfold lift at 1 in HS.
  assert (Lm : length (rank Y) = length (map2 Z.min (rank Y) R_X)).
  { unfold map2. rewrite length_map, length_combine, LRX, LR.
    now rewrite Nat.min_id. }
  rewrite broadcast2_same_length in HS by exact Lm.
  unfold bind at 1 in HS. unfold lift at 1 in HS.
  apply ret_OK in HS. destruct HS as [-> _].
  rewrite sumZ_map2_sub in H by exact Lm.
  set (sX := Np.sumZ (map2 Z.min (rank Y) R_X)) in *.
  set (tot := Np.sumZ (rank Y)) in *.
  assert (Hn : Qeq_bool (inject_Z (Z.of_nat (length Y * length Y))) 0 = false).
  { destruct (Qeq_bool (inject_Z (Z.of_nat (length Y * length Y))) 0)
      eqn:En; [|reflexivity].
    apply Qeq_bool_iff in En. unfold Qeq in En. simpl in En.
    destruct Y; [congruence | simpl in En; lia]. }
  assert (Hc : 0 < inject_Z (Z.of_nat (length Y * length Y))).
  { unfold Qlt. simpl. destruct Y; [congruence | simpl; lia]. }
  assert (Hb : 0 < inject_Z (tot - sX)) by (unfold Qlt; simpl; lia).
  assert (Hd : Qeq_bool (inject_Z (tot - sX)
                         / inject_Z (Z.of_nat (length Y * length Y))) 0
               = false).
  { destruct (Qeq_bool (inject_Z (tot - sX)
                        / inject_Z (Z.of_nat (length Y * length Y))) 0)
      eqn:E0; [|reflexivity].
    apply Qeq_bool_iff in E0.
    assert (C : 0 < inject_Z (tot - sX)
                    / inject_Z (Z.of_nat (length Y * length Y))).
    { apply Qlt_shift_div_l; [exact Hc | now rewrite Qmult_0_l]. }
    rewrite E0 in C. now apply Qlt_irrefl in C. }
  assert (Hs : F.eqb (F.div (F.of_Z (tot - sX))
                        (F.of_nat (length Y * length Y))) F.zero = false).
  { unfold F.div, F.of_Z, F.of_nat. rewrite Hn. exact Hd. }
  rewrite Hs in H.
  (* the numerator *)
  apply bind_OK in H. destruct H as (qv & w3 & HQ & H).
  apply ret_OK in H. destruct H as [-> _].
  unfold estimateConditionalQ in HQ.
  apply bind_OK in HQ. destruct HQ as (W & w4 & HW & HQ).
  apply lift_OK in HW. destruct HW as [HW ->].
  unfold bind at 1 in HQ. unfold lift at 1 in HQ. rewrite FX in HQ.
  unfold bind at 1 in HQ. unfold lift at 1 in HQ. rewrite KX in HQ.
  unfold bind at 1 in HQ. rewrite (nearest_without_repeats _ _ RX) in HQ.
  rewrite TX in HQ. cbn [length Nat.ltb Nat.leb] in HQ.
  unfold bind at 1 in HQ. unfold ret at 1 in HQ.
  apply bind_OK in HQ. destruct HQ as (ptsW & w5 & FW & HQ).
  apply lift_OK in FW. destruct FW as [FW ->].
  apply bind_OK in HQ. destruct HQ as (nbW & w5 & KW & HQ).
  apply lift_OK in KW. destruct KW as [KW ->].
  apply bind_OK in HQ. destruct HQ as ([nnW rdW] & w5 & HrW & HQ).
  apply bind_OK in HQ. destruct HQ as (nnW' & w6 & HtW & HQ).
  assert (EW : nnW' = nnW).
  { destruct (length (ties_of nbW rdW)); [|unfold raise in HtW; discriminate HtW].
    apply ret_OK in HtW. now destruct HtW. }
  subst nnW'.
  apply bind_OK in HQ. destruct HQ as (sW & w7 & EsW & HQ).
  apply lift_OK in EsW. destruct EsW as [EsW _].
  apply bind_OK in HQ. destruct HQ as (sX' & w8 & EsX & HQ).
  apply lift_OK in EsX. destruct EsX as [EsX _].
  apply ret_OK in HQ. destruct HQ as [-> _].
  fold nnX in EsX.
  assert (LX' : length nnX = length (rank Y))
    by (rewrite LnnX; symmetry; apply rank_length).
  destruct (sum_min_rank_run (rank Y) nnX sX' LX' EsX) as (R_X' & ET' & ->).
  unfold nnX in ET'. rewrite ET in ET'. injection ET' as <-. fold sX.
  (* the neighbours among the joint rows *)
  pose proof (kneighbors_OK _ _ KW) as [N3W HnbW].
  apply (nearest_with_repeats_OK ptsW) in HrW; [|exact HnbW].
  destruct HrW as [LnnW NsW].
  assert (LW : length ptsW = length Y).
  { rewrite (fit_length _ _ FW).
    unfold Np.hstack, Np.reshape_col in HW.
    destruct X as [x|c rows]; [discriminate|].
    destruct (_ =? _)%nat eqn:E; [|discriminate].
    injection HW as <-. simpl.
    rewrite length_map, length_combine, length_map.
    apply Nat.eqb_eq in E. rewrite length_map in E.
    simpl in E1. lia. }
  rewrite LW in LnnW, NsW.
  assert (LW' : length nnW = length (rank Y))
    by (rewrite LnnW; symmetry; apply rank_length).
  destruct (sum_min_rank_run (rank Y) nnW sW LW' EsW) as (R_W & ETW & ->).
  destruct (rank_gap Y nnW R_W Hne LnnW NsW ETW) as [_ GW].
  fold tot in GW. set (sW := Np.sumZ (map2 Z.min (rank Y) R_W)) in *.
  (* the quotient *)
  unfold F.div at 2 3, F.of_Z, F.of_nat. rewrite Hn.
  unfold F.div.
  rewrite Hd. eexists. split; [reflexivity|].
  apply quotient_below_one; [exact Hc | exact Hb|].
  unfold Qlt. simpl. lia.
Qed.

Lemma codec_below_one_witness :
  exists q,
    match fst (codec (vec [0; 1; 3]) (col [5; 1; 2]) (Some (col [0; 1; 3]))
                 true ex_world) with
    | OK v => v
    | Raise _ => NaN
    end = Fin q
    /\ q < 1.
Proof.
  apply (codec_below_one (vec [0; 1; 3]) (col [5; 1; 2]) (col [0; 1; 3])
           (match neighbours (col [0; 1; 3]) with OK nb => nb | Raise _ => [] end)
           true ex_world
           (snd (codec (vec [0; 1; 3]) (col [5; 1; 2]) (Some (col [0; 1; 3]))
                   true ex_world))).
  - small_integers.
  - small_integers.
  - simpl. lia.
  - vm_compute. reflexivity.
  - split; vm_compute; reflexivity.
  - vm_compute. reflexivity.
Defined.

(* ================================================================== *)
(** * Further properties of CODEC: a constant feature *)

Section RelatedSorts.

Context {A : Type}.
Variable R : A -> A -> Prop.
Variable le : A -> A -> bool.
Hypothesis le_related :
  forall x x' y y', R x x' -> R y y' -> le x y = le x' y'.

Lemma insert_by_related (x x' : A) (l l' : list A) :
  R x x' -> Forall2 R l l' ->
  Forall2 R (insert_by le x l) (insert_by le x' l').
Proof.
  intros Hx Hl. induction Hl as [|y y' l l' Hy Hl IH]; simpl.
  - constructor; [assumption | constructor].
  - rewrite (le_related x x' y y' Hx Hy). destruct (le x' y').
    + constructor; [assumption|]. constructor; assumption.
    + constructor; assumption.
Qed.

Lemma sort_by_related (l l' : list A) :
  Forall2 R l l' -> Forall2 R (sort_by le l) (sort_by le l').
Proof.
  unfold sort_by. induction 1; simpl; [constructor|].
  apply insert_by_related; assumption.
Qed.

Lemma firstn_related (n : nat) (l l' : list A) :
  Forall2 R l l' -> Forall2 R (firstn n l) (firstn n l').
Proof.
  intros H. revert n. induction H; intros [|n]; simpl; constructor; auto.
Qed.

Lemma where_true_related (p : A -> bool) (l l' : list A) :
  (forall x x', R x x' -> p x = p x') ->
  Forall2 R l l' -> Np.where_true p l = Np.where_true p l'.
Proof.
  intros Hp H. unfold Np.where_true.
  rewrite <- (Forall2_length H). generalize 0%nat. generalize (length l).
  induction H as [|x x' l l' Hx Hl IH]; intros n s.
  - destruct n; reflexivity.
  - destruct n as [|n]; [reflexivity|]. simpl.
    rewrite (Hp x x' Hx). destruct (p x'); simpl; now rewrite IH.
Qed.

End RelatedSorts.

Lemma by_distance_related (p p' q q' : nat * Q) :
  same_neighbour p p' -> same_neighbour q q' ->
  Sklearn.by_distance p q = Sklearn.by_distance p' q'.
Proof.
  intros [_ E1] [_ E2]. unfold Sklearn.by_distance.
  now rewrite E1, E2.
Qed.

Lemma combine_snoc {A B} (a : list A) (b : list B) (x : A) (y : B) :
  length a = length b ->
  combine (a ++ [x]) (b ++ [y]) = combine a b ++ [(x, y)].
Proof.
  revert b. induction a as [|u a IH]; intros [|v b] L; simpl in *;
    try discriminate; [reflexivity|].
  f_equal. apply IH. now injection L.
Qed.

(** A coordinate on which two rows agree adds nothing to their distance. *)
Lemma sqdist_snoc (a b : list Q) (z : Q) :
  length a = length b ->
  Sklearn.sqdist (a ++ [z]) (b ++ [z]) == Sklearn.sqdist a b.
Proof.
  intros L. unfold Sklearn.sqdist.
  rewrite combine_snoc by exact L. rewrite fold_left_app. simpl. ring.
Qed.

Lemma finite_row_cons (x : float) (r : list float) :
  Sklearn.finite_row (x :: r)
  = match x, Sklearn.finite_row r with
    | Fin q, Some l => Some (q :: l)
    | _, _ => None
    end.
Proof. reflexivity. Qed.

Lemma finite_rows_cons (r : list float) (rows : list (list float)) :
  Sklearn.finite_rows (r :: rows)
  = match Sklearn.finite_row r, Sklearn.finite_rows rows with
    | Some q, Some l => Some (q :: l)
    | _, _ => None
    end.
Proof. reflexivity. Qed.

Lemma finite_row_snoc (r : list float) (z : Q) :
  Sklearn.finite_row (r ++ [Fin z])
  = option_map (fun l => l ++ [z]) (Sklearn.finite_row r).
Proof.
  induction r as [|x r IH]; [reflexivity|].
  rewrite <- app_comm_cons, !finite_row_cons, IH.
  destruct x; try reflexivity.
  now destruct (Sklearn.finite_row r).
Qed.

Lemma finite_rows_snoc (rows : list (list float)) (z : Q) :
  Sklearn.finite_rows (map (fun r => r ++ [Fin z]) rows)
  = option_map (map (fun l => l ++ [z])) (Sklearn.finite_rows rows).
Proof.
  induction rows as [|r rows IH]; [reflexivity|].
  rewrite map_cons, !finite_rows_cons, IH, finite_row_snoc.
  destruct (Sklearn.finite_row r); [|reflexivity].
  now destruct (Sklearn.finite_rows rows).
Qed.

Lemma finite_row_length (r : list float) (q : list Q) :
  Sklearn.finite_row r = Some q -> length q = length r.
Proof.
  revert q. induction r as [|x r IH]; intros q H.
  - now injection H as <-.
  - rewrite finite_row_cons in H. destruct x; try discriminate.
    destruct (Sklearn.finite_row r) as [l|]; [|discriminate].
    injection H as <-. simpl. f_equal. now apply IH.
Qed.

Lemma finite_rows_width (rows : list (list float)) (pts : list (list Q))
    (c : nat) :
  Forall (fun r => length r = c) rows ->
  Sklearn.finite_rows rows = Some pts ->
  Forall (fun r => length r = c) pts.
Proof.
  intros H. revert pts. induction H as [|r rows Hr H IH]; intros pts E.
  - injection E as <-. constructor.
  - rewrite finite_rows_cons in E.
    destruct (Sklearn.finite_row r) as [q|] eqn:Er; [|discriminate].
    destruct (Sklearn.finite_rows rows) as [l|]; [|discriminate].
    injection E as <-. constructor; [|now apply IH].
    apply finite_row_length in Er. congruence.
Qed.

(** The joint matrix of [X] and a constant column. *)
Lemma hstack_constant (c : nat) (rows : list (list float)) (z : Q) :
  Np.hstack (Arr2 c rows) (Np.reshape_col (col (repeat z (length rows))))
  = OK (Arr2 (c + 1) (map (fun r => r ++ [Fin z]) rows)).
Proof.
  unfold Np.hstack, Np.reshape_col, col, Np.flatten.
  assert (E : map (fun x => [x])
                (concat (map (fun q => [Fin q]) (repeat z (length rows))))
              = repeat [Fin z] (length rows)).
  { induction (length rows) as [|n IH]; [reflexivity|].
    simpl. now rewrite IH. }
  rewrite E, repeat_length, Nat.eqb_refl. do 2 f_equal.
  clear E. induction rows as [|r rows IH]; [reflexivity|].
  simpl. now rewrite IH.
Qed.

Lemma nth_related (k : nat) (r r' : list (nat * Q)) :
  Forall2 same_neighbour r r' ->
  same_neighbour (nth k r (0%nat, 0)) (nth k r' (0%nat, 0)).
Proof.
  intros H. revert k.
  induction H as [|x x' r r' Hx H IH]; intros [|k]; simpl; auto;
    split; reflexivity.
Qed.

(** With a constant last coordinate every row keeps its neighbours, in
    the same order and at the same distances. *)
Lemma kneighbors_snoc (pts : list (list Q)) (z : Q) (c : nat)
    (nb : list (list (nat * Q))) :
  Forall (fun r => length r = c) pts ->
  Sklearn.kneighbors pts = OK nb ->
  exists nbW,
    Sklearn.kneighbors (map (fun l => l ++ [z]) pts) = OK nbW
    /\ Forall2 (Forall2 same_neighbour) nbW nb.
Proof.
  intros WF K. unfold Sklearn.kneighbors in *. rewrite length_map.
  destruct (length pts <? 3)%nat; [discriminate|].
  injection K as <-. eexists. split; [reflexivity|].
  rewrite map_map.
  assert (G : forall x, length x = c ->
                Forall2 same_neighbour
                  (firstn 3 (Sklearn.neighbours_of
                               (map (fun l => l ++ [z]) pts) (x ++ [z])))
                  (firstn 3 (Sklearn.neighbours_of pts x))).
  { intros x Lx. apply firstn_related. unfold Sklearn.neighbours_of.
    apply sort_by_related; [exact by_distance_related|].
    rewrite length_map. generalize 0%nat.
    induction WF as [|y l Hy WF IH]; intros s; simpl; constructor.
    - split; [reflexivity|]. simpl. apply sqdist_snoc. congruence.
    - apply IH. }
  assert (All : forall l, Forall (fun r => length r = c) l ->
                  Forall2 (Forall2 same_neighbour)
                    (map (fun x => firstn 3
                                     (Sklearn.neighbours_of
                                        (map (fun l => l ++ [z]) pts)
                                        (x ++ [z]))) l)
                    (map (fun x => firstn 3 (Sklearn.neighbours_of pts x)) l)).
  { intros l Hl. induction Hl as [|x l Hx Hl IH]; cbn [map]; constructor;
      [apply G; exact Hx | exact IH]. }
  apply All, WF.
Qed.

Lemma index_at_related (k : nat) (nbW nb : list (list (nat * Q))) :
  Forall2 (Forall2 same_neighbour) nbW nb ->
  map (Sklearn.index_at k) nbW = map (Sklearn.index_at k) nb.
Proof.
  induction 1 as [|r r' nbW nb Hr H IH]; [reflexivity|].
  simpl. rewrite IH. f_equal. unfold Sklearn.index_at.
  apply (nth_related k) in Hr. apply Hr.
Qed.

Lemma general_position_related (nbW nb : list (list (nat * Q))) :
  Forall2 (Forall2 same_neighbour) nbW nb ->
  general_position nb -> general_position nbW.
Proof.
  intros H [RX TX].
  assert (RW : repeated_rows nbW = repeated_rows nb).
  { unfold repeated_rows.
    apply (where_true_related (Forall2 same_neighbour)); [|exact H].
    intros r r' Hr. unfold Sklearn.dist_at.
    destruct (nth_related 1 _ _ Hr) as [_ E]. now rewrite E. }
  split; [congruence|].
  unfold tied_rows in *. rewrite RW. unfold ties_of in *.
  rewrite <- TX. f_equal.
  apply (where_true_related (Forall2 same_neighbour)); [|exact H].
  intros r r' Hr. unfold Sklearn.dist_at.
  destruct (nth_related 1 _ _ Hr) as [_ E1].
  destruct (nth_related 2 _ _ Hr) as [_ E2]. now rewrite E1, E2.
Qed.

(** X27.  A feature that is the same number in every row carries no
    information: on inputs whose distances are exact, when the rows of the
    conditioning set [X] are in general position, [codec] returns zero for
    it, in every state and without changing the state. *)
Theorem codec_of_constant_feature (Y : list float) (c : nat)
    (rows : list (list float)) (k : Z) (nbX : list (list (nat * Q)))
    (na_rm : bool) :
  exact_distances (Arr2 c rows) ->
  (Z.abs k <= 100)%Z ->
  Forall (fun r => length r = c) rows ->
  length Y = length rows ->
  neighbours (Arr2 c rows) = OK nbX ->
  general_position nbX ->
  exists q,
    q == 0
    /\ forall w,
         codec Y (col (repeat (inject_Z k) (length rows)))
           (Some (Arr2 c rows)) na_rm w
         = (OK (Fin q), w).
Proof.
  intros _ _ WF LY HX GP. set (z := inject_Z k).
  destruct (neighbours_run _ _ HX) as (ptsX & FX & KX & SX & NX & LnX & BX).
  simpl in SX.
  pose proof (hstack_constant c rows z) as HW.
  (* the joint rows and their neighbours *)
  assert (Fr : Sklearn.finite_rows rows = Some ptsX
               /\ ((length rows =? 0)%nat || (c =? 0)%nat) = false).
  { simpl in FX. destruct (_ || _); [discriminate|].
    destruct (Sklearn.finite_rows rows); [|discriminate].
    now injection FX as ->. }
  destruct Fr as [Fr Fc].
  assert (FW : Sklearn.fit (Arr2 (c + 1) (map (fun r => r ++ [Fin z]) rows))
               = OK (map (fun l => l ++ [z]) ptsX)).
  { simpl. rewrite length_map.
    apply orb_false_iff in Fc. destruct Fc as [Fc _]. rewrite Fc.
    replace (c + 1 =? 0)%nat with false
      by (symmetry; apply Nat.eqb_neq; lia).
    simpl. rewrite finite_rows_snoc, Fr. reflexivity. }
  pose proof (finite_rows_width _ _ _ WF Fr) as WP.
  destruct (kneighbors_snoc ptsX z c nbX WP KX) as (nbW & KW & Rel).
  destruct (general_position_related _ _ Rel GP) as [RW TW].
  destruct GP as [RX TX].
  pose proof (index_at_related 1 _ _ Rel) as IW.
  assert (LyX : length Y = length ptsX) by congruence.
  destruct (general_position_indices nbX ptsX Y LnX LyX BX) as [L1 B1].
  unfold tied_rows in TX, TW. rewrite RX in TX. rewrite RW in TW.
  (* the denominator *)
  destruct (take_total (rank Y) _ B1) as (R_nn & ET).
  assert (LR : length (rank Y) = length R_nn).
  { apply take_spec in ET. apply Forall2_length in ET. congruence. }
  assert (HS : forall w,
             estimateConditionalS Y (Arr2 c rows) w
             = (OK (F.div (F.of_Z (Np.sumZ (map2 Z.sub (rank Y)
                                              (map2 Z.min (rank Y) R_nn))))
                          (F.of_nat (length Y * length Y))), w)).
  { intros w. unfold estimateConditionalS.
    unfold bind at 1. unfold lift at 1. rewrite FX.
    unfold bind at 1. unfold lift at 1. rewrite KX.
    unfold bind at 1. rewrite (nearest_without_repeats _ _ RX).
    rewrite TX. cbn [length Nat.ltb Nat.leb].
    unfold bind at 1. unfold ret at 1.
    unfold bind at 1. unfold lift at 1. rewrite ET.
    unfold bind at 1. unfold lift at 1.
    rewrite broadcast2_same_length by exact LR.
    unfold bind at 1. unfold lift at 1.
    rewrite broadcast2_same_length
      by (unfold map2; rewrite length_map, length_combine; lia).
    reflexivity. }
  (* the numerator: both sums run over the same neighbours *)
  destruct (sum_min_rank_total _ _ L1 B1) as (sX & EsX).
  assert (HQ : forall w,
             estimateConditionalQ Y (Arr2 c rows)
               (col (repeat z (length rows))) w
             = (OK (F.div (F.of_Z (sX - sX))
                          (F.of_nat (length Y * length Y))), w)).
  { intros w. unfold estimateConditionalQ.
    unfold bind at 1. unfold lift at 1. rewrite HW.
    unfold bind at 1. unfold lift at 1. rewrite FX.
    unfold bind at 1. unfold lift at 1. rewrite KX.
    unfold bind at 1. rewrite (nearest_without_repeats _ _ RX).
    rewrite TX. cbn [length Nat.ltb Nat.leb].
    unfold bind at 1. unfold ret at 1.
    unfold bind at 1. unfold lift at 1. rewrite FW.
    unfold bind at 1. unfold lift at 1. rewrite KW.
    unfold bind at 1. rewrite (nearest_without_repeats _ _ RW).
    rewrite TW. cbn [length Nat.ltb Nat.leb].
    unfold bind at 1. unfold ret at 1.
    rewrite IW.
    unfold bind at 1. unfold lift at 1. rewrite EsX.
    reflexivity. }
  destruct (estimateConditionalS_positive _ _ _ _ _ (HS ex_world))
    as (p & Ep & Hp).
  assert (Hp0 : Qeq_bool p 0 = false).
  { destruct (Qeq_bool p 0) eqn:E0; [|reflexivity].
    apply Qeq_bool_iff in E0. rewrite E0 in Hp. now apply Qlt_irrefl in Hp. }
  assert (Hn : Qeq_bool (inject_Z (Z.of_nat (length Y * length Y))) 0 = false).
  { destruct (Qeq_bool (inject_Z (Z.of_nat (length Y * length Y))) 0)
      eqn:En; [|reflexivity].
    apply Qeq_bool_iff in En. unfold Qeq in En. simpl in En. nia. }
  exists (inject_Z 0 / inject_Z (Z.of_nat (length Y * length Y)) / p).
  split.
  { unfold Qdiv. change (inject_Z 0) with 0. now rewrite !Qmult_0_l. }
  intros w. unfold codec.
  unfold col. cbn [Np.shape0]. rewrite length_map, repeat_length.
  fold (col (repeat z (length rows))).
  rewrite (proj2 (Nat.eqb_eq _ _) LY), Nat.eqb_refl. cbn [negb orb].
  destruct (length Y <? 2)%nat eqn:E2; [apply Nat.ltb_lt in E2; lia|].
  unfold estimateConditionalT.
  unfold bind at 1. rewrite HS, Ep.
  unfold F.eqb, F.zero. rewrite Hp0.
  unfold bind at 1. rewrite HQ. unfold ret.
  rewrite Z.sub_diag. unfold F.div, F.of_Z, F.of_nat.
  rewrite Hn, Hp0. reflexivity.
Qed.

Lemma codec_of_constant_feature_witness :
  exists q,
    q == 0
    /\ forall w,
         codec (vec [0; 1; 3]) (col (repeat 5 3))
           (Some (Arr2 1 [[Fin 0]; [Fin 1]; [Fin 3]])) true w
         = (OK (Fin q), w).
Proof.
  apply (codec_of_constant_feature (vec [0; 1; 3]) 1
           [[Fin 0]; [Fin 1]; [Fin 3]] 5%Z
           (match neighbours (Arr2 1 [[Fin 0]; [Fin 1]; [Fin 3]]) with
            | OK nb => nb
            | Raise _ => []
            end) true).
  - small_integers.
  - simpl. lia.
  - repeat constructor.
  - reflexivity.
  - vm_compute. reflexivity.
  - split; vm_compute; reflexivity.
Defined.
